(** * Group normalization CPU kernel: a shallow embedding

    Source: [aten/src/ATen/native/cpu/group_norm_kernel.cpp].

    The kernels are written once, over an abstract scalar interface
    ([Arith]), and then read at two instances:

    - [R_arith]: exact real arithmetic, with every precision conversion the
      identity.  The algebraic statements (sums, closed forms, agreement of
      the algorithms) are proved there.
    - [ieee_arith]: IEEE-754 binary arithmetic of the Standard Library's
      [SpecFloat], at the accumulation precision of a dtype configuration and
      with the roundings into the storage and parameter types.  It evaluates,
      and is used to run the kernels on concrete tensors.

    Sizes and indices ([int64_t] in the source) are [nat]: they are tensor
    extents and offsets, never negative, and no claim depends on overflow. *)

From Stdlib Require Import PrimFloat SpecFloat FloatOps String.
From Stdlib Require Import List Arith PeanoNat Lia ZArith Bool.
From Stdlib Require Import Reals Lra.
Import ListNotations.

Set Implicit Arguments.

(* ================================================================= *)
(** ** Scalars *)

(** What the kernels need from a floating type.  [castT] and [castPT] are the
    conversions performed when an accumulation-precision value is stored into
    a buffer of the storage type [T] or of the parameter type [PT]; [castACC]
    is the conversion of a [double] argument to the accumulation type
    [T_ACC = at::opmath_type<T>].  Loads widen and are exact, so they do not
    appear. *)
Class Arith (F : Type) : Type := {
  fzero : F;
  fone : F;
  fadd : F -> F -> F;
  fsub : F -> F -> F;
  fmul : F -> F -> F;
  fdiv : F -> F -> F;
  fneg : F -> F;
  fsqrt : F -> F;
  fltb : F -> F -> bool;
  of_int : nat -> F;
  castT : F -> F;
  castPT : F -> F;
  castACC : F -> F
}.

Declare Scope arith_scope.
Delimit Scope arith_scope with A.
Infix "+^" := fadd (at level 50, left associativity) : arith_scope.
Infix "-^" := fsub (at level 50, left associativity) : arith_scope.
Infix "*^" := fmul (at level 40, left associativity) : arith_scope.
Infix "/^" := fdiv (at level 40, left associativity) : arith_scope.
Notation "-^ x" := (fneg x) (at level 35, right associativity) : arith_scope.
Open Scope arith_scope.

(** [std::max(a, b)] is [(a < b) ? b : a]. *)
Definition fmax {F} `{Arith F} (a b : F) : F := if fltb a b then b else a.

(** Exact arithmetic. *)
#[export] Instance R_arith : Arith R := {|
  fzero := 0%R;
  fone := 1%R;
  fadd := Rplus;
  fsub := Rminus;
  fmul := Rmult;
  fdiv := Rdiv;
  fneg := Ropp;
  fsqrt := sqrt;
  fltb := fun a b => if Rlt_dec a b then true else false;
  of_int := INR;
  castT := fun x => x;
  castPT := fun x => x;
  castACC := fun x => x
|}.

(** IEEE-754 binary formats. *)
Module IEEE.

Record format := mkFormat { prec : Z; emax : Z }.

Definition binary64 := mkFormat 53 1024.
Definition binary32 := mkFormat 24 128.
Definition bfloat16 := mkFormat 8 128.

(** Round-to-nearest-even conversion into a format. *)
Definition round (f : format) (x : spec_float) : spec_float :=
  match x with
  | S754_finite s m e => binary_round (prec f) (emax f) s m e
  | _ => x
  end.

Definition of_nat (f : format) (n : nat) : spec_float :=
  binary_normalize (prec f) (emax f) (Z.of_nat n) 0 false.

(** A [double] literal, as a [spec_float]. *)
Definition lit (x : PrimFloat.float) : spec_float := FloatOps.Prim2SF x.

Definition is_finite (x : spec_float) : bool :=
  match x with
  | S754_zero _ | S754_finite _ _ _ => true
  | _ => false
  end.

End IEEE.

(** The arithmetic of one dtype configuration: operations at the
    accumulation format [acc], stores rounded to the storage format [st] and
    to the parameter format [pt].  A [double] converts to [BFloat16] through
    [float] (the only constructor [c10::BFloat16] has), hence the two
    roundings in [castT] and [castPT]; for [float] and [double] the inner
    rounding is the identity on the values the outer one produces. *)
Definition ieee_arith (acc st pt : IEEE.format) : Arith spec_float := {|
  fzero := S754_zero false;
  fone := IEEE.of_nat acc 1;
  fadd := SFadd (IEEE.prec acc) (IEEE.emax acc);
  fsub := SFsub (IEEE.prec acc) (IEEE.emax acc);
  fmul := SFmul (IEEE.prec acc) (IEEE.emax acc);
  fdiv := SFdiv (IEEE.prec acc) (IEEE.emax acc);
  fneg := SFopp;
  fsqrt := SFsqrt (IEEE.prec acc) (IEEE.emax acc);
  fltb := SFltb;
  of_int := IEEE.of_nat acc;
  castT := fun x => IEEE.round st (IEEE.round acc x);
  castPT := fun x => IEEE.round pt (IEEE.round acc x);
  castACC := IEEE.round acc
|}.

(** [scalar_t = double]. *)
Definition double_arith : Arith spec_float :=
  ieee_arith IEEE.binary64 IEEE.binary64 IEEE.binary64.
(** [scalar_t = float]. *)
Definition float_arith : Arith spec_float :=
  ieee_arith IEEE.binary32 IEEE.binary32 IEEE.binary32.
(** [scalar_t = BFloat16] with [float] parameters (mixed type). *)
Definition bfloat16_mixed_arith : Arith spec_float :=
  ieee_arith IEEE.binary32 IEEE.bfloat16 IEEE.binary32.
(** [scalar_t = BFloat16] with [BFloat16] parameters. *)
Definition bfloat16_arith : Arith spec_float :=
  ieee_arith IEEE.binary32 IEEE.bfloat16 IEEE.bfloat16.

(* ================================================================= *)
(** ** Buffers, loops, errors, the range executor *)

(** A raw pointer into a tensor's storage is the storage (a list) and an
    offset.  Reads and writes outside the storage are undefined behaviour in
    the source; here a read yields [fzero] and a write does nothing, and the
    theorems are stated for calls that stay in range. *)
Fixpoint upd {A : Type} (i : nat) (v : A) (l : list A) : list A :=
  match l, i with
  | [], _ => []
  | _ :: t, O => v :: t
  | x :: t, S i' => x :: upd i' v t
  end.

Definition load {F} `{Arith F} (p : list F) (i : nat) : F := nth i p fzero.
Definition store {F} (p : list F) (i : nat) (v : F) : list F := upd i v p.

(** [for (i = start; i < start + count; ++i) s = body i s]. *)
Fixpoint for_range {S : Type} (start count : nat) (body : nat -> S -> S) (s : S) : S :=
  match count with
  | O => s
  | Datatypes.S c => for_range (Datatypes.S start) c body (body start s)
  end.

(** [for (const auto i : c10::irange(a, b))]. *)
Definition irange {S : Type} (a b : nat) (body : nat -> S -> S) (s : S) : S :=
  for_range a (b - a) body s.

(** [for (d = 0; d < bound; d += K)], for a positive stride [K]. *)
Definition for_step {S : Type} (bound K : nat) (body : nat -> S -> S) (s : S) : S :=
  for_range 0 ((bound + K - 1) / K) (fun q => body (q * K)) s.

(** [std::memset(p + off, 0, len * sizeof(T))]. *)
Definition memset0 {F} `{Arith F} (p : list F) (off len : nat) : list F :=
  irange 0 len (fun j p => store p (off + j) fzero) p.

(** A failed [TORCH_CHECK] throws; the state it was raised in is what the
    caller is left with. *)
Variant error : Type :=
  | check_failed (condition : string)
  | unsupported_memory_format.

Definition M (S A : Type) : Type := S -> (error + A) * S.

Definition ret {S A : Type} (a : A) : M S A := fun s => (inr a, s).
Definition bind {S A B : Type} (m : M S A) (k : A -> M S B) : M S B :=
  fun s => match m s with
           | (inl e, s') => (inl e, s')
           | (inr a, s') => k a s'
           end.
Definition raise {S A : Type} (e : error) : M S A := fun s => (inl e, s).
Definition modify {S : Type} (f : S -> S) : M S unit := fun s => (inr tt, f s).
Definition TORCH_CHECK {S : Type} (cond : bool) (what : string) : M S unit :=
  if cond then ret tt else raise (check_failed what).

Notation "m ;; k" := (bind m (fun _ => k)) (at level 61, right associativity).

Definition succeeded {S A : Type} (r : (error + A) * S) : bool :=
  match fst r with inr _ => true | inl _ => false end.

(** The parallel range executor ([at::parallel_for]) is an external
    collaborator.  It cuts [begin, end) into consecutive chunks and hands each
    chunk to a worker; the kernels only rely on the chunks tiling the range
    and on worker ids being below the pool size.  Chunks write disjoint
    locations, so running them one after the other is the model. *)
Record Executor : Type := {
  num_threads : nat;
  chunks : nat -> nat -> nat -> list (nat * nat * nat)
}.

Definition parallel_for {S : Type} (E : Executor) (begin end_ grain : nat)
    (f : nat -> nat -> nat -> S -> S) (s : S) : S :=
  fold_left (fun s ch => let '(tid, a, b) := ch in f tid a b s)
            (chunks E begin end_ grain) s.

Inductive tiles : nat -> nat -> list (nat * nat * nat) -> Prop :=
  | tiles_nil : forall a, tiles a a []
  | tiles_cons : forall tid a m b rest,
      a < m -> tiles m b rest -> tiles a b ((tid, a, m) :: rest).

Definition executor_ok (E : Executor) : Prop :=
  0 < num_threads E /\
  forall b e g,
    tiles b (Nat.max b e) (chunks E b e g) /\
    Forall (fun ch => fst (fst ch) < num_threads E) (chunks E b e g).

(** One worker, one chunk. *)
Definition sequential : Executor := {|
  num_threads := 1;
  chunks := fun b e _ => if b <? e then [(0, b, e)] else []
|}.

(** [T] workers, one work item per chunk, dealt round-robin. *)
Definition round_robin (T : nat) : Executor := {|
  num_threads := T;
  chunks := fun b e _ => map (fun i => (i mod T, i, Datatypes.S i)) (seq b (e - b))
|}.

(** [data_index_init(offset, n, N, g, G)] and [data_index_step(n, N, g, G)]
    of [ATen/native/cpu/utils.h]. *)
(** Modelled from the spec: the two helpers are not under src/; section 4.4
    has the small-spatial path walk the (batch, group) units and the
    large-spatial path the (batch, position) pairs of a flat work-item range,
    so the pair of counters is the row-major decomposition of the flat index
    and a step advances it with carry. *)
Definition data_index_init (offset N G : nat) : nat * nat :=
  ((offset / G) mod N, offset mod G).

Definition data_index_step (ng : nat * nat) (N G : nat) : nat * nat :=
  let '(n, g) := ng in
  if Datatypes.S g =? G
  then ((if Datatypes.S n =? N then 0 else Datatypes.S n), 0)
  else (n, Datatypes.S g).

(* ================================================================= *)
(** ** Tensors *)

(** A tensor handle: whether it is defined and its flat storage.  For an
    output the caller did not request the handle is undefined and [data] is
    the caller's buffer the output would have gone to. *)
Record Tensor (F : Type) : Type := mkTensor { defined : bool; data : list F }.

Definition numel {F} (t : Tensor F) : nat := length (data t).
Definition tensor {F} (l : list F) : Tensor F := mkTensor true l.
Definition undefined {F} : Tensor F := mkTensor false [].
(** [t.defined() ? t.data_ptr() : nullptr] *)
Definition data_ptr_or_null {F} (t : Tensor F) : option (list F) :=
  if defined t then Some (data t) else None.
Definition is_null {A} (p : option A) : bool :=
  match p with None => true | Some _ => false end.
Definition deref {F} `{Arith F} (p : option (list F)) (i : nat) : F :=
  match p with Some l => load l i | None => fzero end.

(* ================================================================= *)
(** ** The SIMD register abstraction *)

(** Modelled from the spec: [vec::Vectorized<T>] and the [vec::] helpers are
    not under src/.  Sections 4.1 and 9 describe an opaque fixed-width vector
    value with full and partial loads (a partial load zero-fills the inactive
    lanes), stores, lane-wise arithmetic and one horizontal reduction; a
    register is the list of its [K = Vec::size()] lanes. *)
Section Vec.
Context {F : Type} {A : Arith F}.
Variable K : nat.

Definition Vec : Type := list F.

(** [Vec(x)]: broadcast. *)
Definition vbroadcast (x : F) : Vec := repeat x K.
(** [Vec::loadu(p + off)] *)
Definition loadu (p : list F) (off : nat) : Vec :=
  map (fun l => load p (off + l)) (seq 0 K).
(** [Vec::loadu(p + off, count)] *)
Definition loadu_n (p : list F) (off count : nat) : Vec :=
  map (fun l => if l <? count then load p (off + l) else fzero) (seq 0 K).

Fixpoint vmap2 (f : F -> F -> F) (x y : Vec) : Vec :=
  match x, y with
  | a :: x', b :: y' => f a b :: vmap2 f x' y'
  | _, _ => []
  end.
Definition vadd : Vec -> Vec -> Vec := vmap2 fadd.
Definition vmul : Vec -> Vec -> Vec := vmap2 fmul.

(** [vec::vec_reduce_all(+, v)] *)
Definition vec_reduce_all (v : Vec) : F :=
  match v with
  | [] => fzero
  | a :: v' => fold_left fadd v' a
  end.

(** [v.store(arr)] followed by [std::accumulate(arr.cbegin(), arr.cend(), PT(0))] *)
Definition accumulate (arr : list F) : F := fold_left fadd arr fzero.
End Vec.

(* ================================================================= *)
(** ** Forward kernels *)

Record Outputs (F : Type) : Type := mkOutputs {
  Y : Tensor F;
  mean : Tensor F;
  rstd : Tensor F
}.

Section Forward.
Context {F : Type} {A : Arith F}.
Variable E : Executor.
(** [vec::Vectorized<T>::size()] *)
Variable K : nat.

(** [RowwiseMoments(X_ptr, n)] of [ATen/native/cpu/moments_utils.h]. *)
(** Modelled from the spec: the helper is not under src/.  Sections 4.1 and
    4.3 give its contract: over a contiguous run of [n] elements it returns
    the mean and the biased (population) variance, computed by a two-pass
    or Welford-style scheme rather than as [E[X^2] - E[X]^2].  The model is
    the two-pass scheme. *)
Definition RowwiseMoments (X : list F) (off n : nat) : F * F :=
  let sum := irange 0 n (fun j acc => acc +^ load X (off + j)) fzero in
  let mean_val := sum /^ of_int n in
  let m2 := irange 0 n (fun j acc =>
              let dx := load X (off + j) -^ mean_val in acc +^ dx *^ dx) fzero in
  (mean_val, m2 /^ of_int n).

(** The pair [(mean_val, rstd_val)] of unit [i] in the packed layout
    (lines 61-65). *)
Definition PackedMoments (X_data : list F) (HxW D : nat) (eps : F) (i : nat) : F * F :=
  let inner_size := D * HxW in
  let X_ptr := i * inner_size in
  let '(mean_val, rstd_val) := RowwiseMoments X_data X_ptr inner_size in
  let rstd_val := fone /^ fsqrt (fmax rstd_val fzero +^ eps) in
  (mean_val, rstd_val).

(** The writes to [Y] of unit [i] in the packed layout (lines 66-83). *)
Definition PackedApply (X_data : list F) (gamma_data beta_data : option (list F))
    (HxW G D : nat) (mean_val rstd_val : F) (i : nat) (Y_data : list F) : list F :=
  let gamma_null := is_null gamma_data in
  let beta_null := is_null beta_data in
  let inner_size := D * HxW in
  let X_ptr := i * inner_size in
  if gamma_null && beta_null then
    let Y_ptr := i * inner_size in
    irange 0 inner_size (fun j Y_data =>
      store Y_data (Y_ptr + j)
            (castT ((load X_data (X_ptr + j) -^ mean_val) *^ rstd_val))) Y_data
  else
    let g := i mod G in
    irange 0 D (fun j Y_data =>
      let c := g * D + j in
      let scale := rstd_val *^ (if gamma_null then fone else deref gamma_data c) in
      let bias := -^ scale *^ mean_val +^
                  (if beta_null then fzero else deref beta_data c) in
      let X_ptr := (i * D + j) * HxW in
      let Y_ptr := (i * D + j) * HxW in
      irange 0 HxW (fun k Y_data =>
        store Y_data (Y_ptr + k) (castT (scale *^ load X_data (X_ptr + k) +^ bias)))
        Y_data) Y_data.

(** The body of the loop over the units [i] of one chunk; the state is
    [(Y_data, mean_data, rstd_data)]. *)
Definition PackedLoopBody (X_data : list F) (gamma_data beta_data : option (list F))
    (HxW G D : nat) (eps : F) (i : nat) (st : list F * list F * list F)
    : list F * list F * list F :=
  let '(mean_val, rstd_val) := PackedMoments X_data HxW D eps i in
  (PackedApply X_data gamma_data beta_data HxW G D mean_val rstd_val i (fst (fst st)),
   store (snd (fst st)) i (castPT mean_val),
   store (snd st) i (castPT rstd_val)).

Definition with_data (out : Outputs F) (st : list F * list F * list F) : Outputs F :=
  let '(Y_data, mean_data, rstd_data) := st in
  mkOutputs (mkTensor (defined (Y out)) Y_data)
            (mkTensor (defined (mean out)) mean_data)
            (mkTensor (defined (rstd out)) rstd_data).

Definition data_of (out : Outputs F) : list F * list F * list F :=
  (data (Y out), data (mean out), data (rstd out)).

(** The packed forward on raw buffers: the fan-out over the [N * G] units. *)
Definition PackedForward (X_data : list F) (gamma_data beta_data : option (list F))
    (N HxW G D : nat) (eps : F) (st : list F * list F * list F)
    : list F * list F * list F :=
  parallel_for E 0 (N * G) 1
    (fun _ start end_ =>
       irange start end_ (PackedLoopBody X_data gamma_data beta_data HxW G D eps))
    st.

(** [GroupNormKernelImplInternal<T, PT>] (packed layout). *)
Definition GroupNormKernelImplInternal (X gamma beta : Tensor F)
    (N C HxW group : nat) (eps : F) : M (Outputs F) unit :=
  TORCH_CHECK (numel X =? N * C * HxW) "X.numel() == N * C * HxW" ;;
  TORCH_CHECK (negb (defined gamma) || (numel gamma =? C))
              "!gamma.defined() || gamma.numel() == C" ;;
  TORCH_CHECK (negb (defined beta) || (numel beta =? C))
              "!beta.defined() || beta.numel() == C" ;;
  let G := group in
  let D := C / G in
  let X_data := data X in
  let gamma_data := data_ptr_or_null gamma in
  let beta_data := data_ptr_or_null beta in
  modify (fun out =>
    with_data out (PackedForward X_data gamma_data beta_data N HxW G D eps (data_of out))).

(** [ColumnwiseMoments<T>]: the sum and the sum of squares of the [D]-wide
    channel run at each of [HxW] positions, [C] apart. *)
Definition ColumnwiseMoments (X_data : list F) (off HxW C D : nat) : F * F :=
  let inner_size := D / K * K in
  let acc :=
    irange 0 HxW (fun m acc =>
      let X_ptr := off + m * C in
      let acc :=
        for_step inner_size K (fun d acc =>
          let x_vec := loadu K X_data (X_ptr + d) in
          (vadd (fst acc) x_vec, vadd (snd acc) (vmul x_vec x_vec))) acc in
      let d := inner_size in
      if 0 <? D - d then
        let x_vec := loadu_n K X_data (X_ptr + d) (D - d) in
        (vadd (fst acc) x_vec, vadd (snd acc) (vmul x_vec x_vec))
      else acc)
    (vbroadcast K fzero, vbroadcast K fzero) in
  (vec_reduce_all (fst acc), vec_reduce_all (snd acc)).

(** [CalcMeanVar<T, T_ACC>]: two [vec::map2] passes, lane by lane
    [mean[d] = x[d] + mean[d]] and [rstd[d] = x[d] * x[d] + rstd[d]]. *)
Definition CalcMeanVar (X_data : list F) (X_ptr : nat) (buffer : list F)
    (mean_ptr rstd_ptr C : nat) : list F :=
  let buffer := irange 0 C (fun d buffer =>
    store buffer (mean_ptr + d)
          (load X_data (X_ptr + d) +^ load buffer (mean_ptr + d))) buffer in
  irange 0 C (fun d buffer =>
    store buffer (rstd_ptr + d)
          (load X_data (X_ptr + d) *^ load X_data (X_ptr + d)
           +^ load buffer (rstd_ptr + d))) buffer.

(** [ApplyScaleBias<T, T_ACC>]: [vec::map3], lane by lane
    [y[d] = x[d] * scale[d] + bias[d]]. *)
Definition ApplyScaleBias (Y_data : list F) (Y_ptr : nat) (X_data : list F) (X_ptr : nat)
    (buffer : list F) (scale_ptr bias_ptr C : nat) : list F :=
  irange 0 C (fun d Y_data =>
    store Y_data (Y_ptr + d)
          (castT (load X_data (X_ptr + d) *^ load buffer (scale_ptr + d)
                  +^ load buffer (bias_ptr + d)))) Y_data.

Definition feature_map_threshold : nat := 1024.

(** The mean and the variance, before the clamp, of the unit [(n, g)] in
    impl-1 (lines 344-352): [mean_val *= s] and
    [rstd_val * s - mean_val * mean_val]. *)
Definition SmallMeanVar (X_data : list F) (C HxW D : nat) (n g : nat) : F * F :=
  let s := fone /^ of_int (D * HxW) in
  let '(mean_val, rstd_val) :=
    ColumnwiseMoments X_data (n * HxW * C + g * D) HxW C D in
  let mean_val := mean_val *^ s in
  (mean_val, rstd_val *^ s -^ mean_val *^ mean_val).

(** The pair [(mean_val, rstd_val)] of the unit [(n, g)] in impl-1
    (step-1, lines 344-353). *)
Definition SmallMoments (X_data : list F) (C HxW D : nat) (eps : F) (n g : nat) : F * F :=
  let '(mean_val, rstd_val) := SmallMeanVar X_data C HxW D n g in
  let rstd_val := fmax rstd_val fzero in
  let rstd_val := fone /^ fsqrt (rstd_val +^ eps) in
  (mean_val, rstd_val).

(** Scale and bias of the [D] channels of group [g]: step-2 of impl-1
    (lines 360-364) and the inner loop of step-3 of impl-2 (lines 453-457).
    [first] is the index of the group's first channel in the scale and bias
    arrays: [0] in impl-1, whose arrays are per unit and indexed by [d];
    [g * D] in impl-2, whose arrays are per sample and indexed by
    [c = g * D + d]. *)
Definition ScaleBias (gamma_data beta_data : option (list F)) (D : nat)
    (mean_val rstd_val : F) (g : nat) (scale_ptr bias_ptr : nat) (first : nat)
    (buffer_data : list F) : list F :=
  let gamma_null := is_null gamma_data in
  let beta_null := is_null beta_data in
  irange 0 D (fun d buffer_data =>
    let c := g * D + d in
    let buffer_data :=
      store buffer_data (scale_ptr + (first + d))
            (rstd_val *^ (if gamma_null then fone else deref gamma_data c)) in
    store buffer_data (bias_ptr + (first + d))
          (-^ load buffer_data (scale_ptr + (first + d)) *^ mean_val
           +^ (if beta_null then fzero else deref beta_data c))) buffer_data.

(** The work of impl-1 on the unit [i] whose counters read [(n, g)]; the
    state is the scratch buffer and [(Y_data, mean_data, rstd_data)]. *)
Definition SmallUnit (X_data : list F) (gamma_data beta_data : option (list F))
    (C HxW D : nat) (eps : F) (n g i : nat)
    (st : list F * (list F * list F * list F))
    : list F * (list F * list F * list F) :=
  (* step-1: for each n and g, collect sum of x and x2 *)
  let '(mean_val, rstd_val) := SmallMoments X_data C HxW D eps n g in
  let mean_data := store (snd (fst (snd st))) i (castPT mean_val) in
  let rstd_data := store (snd (snd st)) i (castPT rstd_val) in
  (* step-2: calculate scale and bias *)
  let scale_ptr := i * 2 * D in
  let bias_ptr := scale_ptr + D in
  let buffer_data :=
    ScaleBias gamma_data beta_data D mean_val rstd_val g scale_ptr bias_ptr 0 (fst st) in
  (* step-3: apply scale and bias *)
  let Y_data :=
    irange 0 HxW (fun m Y_data =>
      let X_ptr := n * HxW * C + m * C + g * D in
      let Y_ptr := n * HxW * C + m * C + g * D in
      ApplyScaleBias Y_data Y_ptr X_data X_ptr buffer_data scale_ptr bias_ptr D)
      (fst (fst (snd st))) in
  (buffer_data, (Y_data, mean_data, rstd_data)).

(** The body of the loop of impl-1 over the units of one chunk: the unit's
    work, then [data_index_step(n, N, g, G)]. *)
Definition SmallLoopBody (X_data : list F) (gamma_data beta_data : option (list F))
    (N C HxW G D : nat) (eps : F) (i : nat)
    (st : (nat * nat) * (list F * (list F * list F * list F)))
    : (nat * nat) * (list F * (list F * list F * list F)) :=
  (data_index_step (fst st) N G,
   SmallUnit X_data gamma_data beta_data C HxW D eps (fst (fst st)) (snd (fst st)) i
             (snd st)).

(** impl-1 of [GroupNormKernelImplChannelsLastInternal]: parallel on [N * G].
    The freshly allocated scratch tensors ([at::empty]) hold unspecified
    values that are never read before they are written; they are modelled
    zero-filled. *)
Definition ChannelsLastSmall (X_data : list F) (gamma_data beta_data : option (list F))
    (N C HxW G D : nat) (eps : F) (st : list F * list F * list F)
    : list F * list F * list F :=
  let buffer_data := repeat fzero (N * G * (2 * D)) in
  snd (parallel_for E 0 (N * G) 1
         (fun _ begin end_ st =>
            snd (irange begin end_
                   (SmallLoopBody X_data gamma_data beta_data N C HxW G D eps)
                   (data_index_init begin N G, st)))
         (buffer_data, st)).

(** impl-2, step-1: accumulate on dimension of C into the worker's slice of
    the [{T, N, 2C}] buffer. *)
Definition LargeStep1 (X_data : list F) (N C HxW : nat) (buffer_data : list F) : list F :=
  parallel_for E 0 (N * HxW) 1
    (fun tid begin end_ buffer_data =>
       let buffer_ptr := tid * N * 2 * C in
       snd (irange begin end_
              (fun i st =>
                 let n := fst (fst st) in
                 let mean_ptr := buffer_ptr + n * 2 * C in
                 let rstd_ptr := mean_ptr + C in
                 let X_ptr := i * C in
                 (data_index_step (fst st) N HxW,
                  CalcMeanVar X_data X_ptr (snd st) mean_ptr rstd_ptr C))
              (data_index_init begin N HxW, buffer_data)))
    buffer_data.

(** The sums over the workers and over the [D] channels of group [g] that
    step-2 of impl-2 forms for sample [n]. *)
Definition LargeSums (N C G D : nat) (buffer_data : list F) (n g : nat) : F * F :=
  irange 0 D (fun d acc =>
    irange 0 (num_threads E) (fun t acc =>
      let buffer_ptr := t * N * 2 * C + n * 2 * C in
      (fst acc +^ load buffer_data (buffer_ptr + (g * D + d)),
       snd acc +^ load buffer_data (buffer_ptr + (g * D + d + C)))) acc)
    (fzero, fzero).

(** The mean and the variance, before the clamp, of the unit [(n, g)] in
    impl-2 (lines 418-427). *)
Definition LargeMeanVar (N C HxW G D : nat) (buffer_data : list F) (n g : nat) : F * F :=
  let s := fone /^ of_int (D * HxW) in
  let '(mean_val, rstd_val) := LargeSums N C G D buffer_data n g in
  let mean_val := mean_val *^ s in
  (mean_val, rstd_val *^ s -^ mean_val *^ mean_val).

(** The pair [(mean_val, rstd_val)] of the unit [(n, g)] in impl-2
    (step-2, lines 418-428). *)
Definition LargeMoments (N C HxW G D : nat) (eps : F) (buffer_data : list F) (n g : nat)
    : F * F :=
  let '(mean_val, rstd_val) := LargeMeanVar N C HxW G D buffer_data n g in
  let rstd_val := fmax rstd_val fzero in
  let rstd_val := fone /^ fsqrt (rstd_val +^ eps) in
  (mean_val, rstd_val).

(** impl-2, step-2: compute mean and rstd into [tmp_buffer] of shape [{N, 2G}]. *)
Definition LargeStep2 (N C HxW G D : nat) (eps : F) (buffer_data tmp_buffer_data : list F)
    : list F :=
  irange 0 N (fun n tmp_buffer_data =>
    irange 0 G (fun g tmp_buffer_data =>
      let '(mean_val, rstd_val) := LargeMoments N C HxW G D eps buffer_data n g in
      let tmp_buffer_data := store tmp_buffer_data (n * 2 * G + 2 * g) mean_val in
      store tmp_buffer_data (n * 2 * G + 2 * g + 1) rstd_val) tmp_buffer_data)
    tmp_buffer_data.

(** impl-2, step-3: compute scale and bias, of shape [{N, C}], over the
    first worker's slice of [buffer]; emit [mean] and [rstd].  The state is
    [buffer_data] and [(mean_data, rstd_data)]. *)
Definition LargeStep3 (gamma_data beta_data : option (list F)) (N C G D : nat)
    (tmp_buffer_data : list F) (st : list F * (list F * list F))
    : list F * (list F * list F) :=
  irange 0 N (fun n st =>
    irange 0 G (fun g st =>
      let scale_ptr := n * 2 * C in
      let bias_ptr := scale_ptr + C in
      let mean_val := load tmp_buffer_data (n * 2 * G + 2 * g) in
      let rstd_val := load tmp_buffer_data (n * 2 * G + 2 * g + 1) in
      let mean_data := store (fst (snd st)) (n * G + g) (castPT mean_val) in
      let rstd_data := store (snd (snd st)) (n * G + g) (castPT rstd_val) in
      let buffer_data :=
        ScaleBias gamma_data beta_data D mean_val rstd_val g scale_ptr bias_ptr (g * D)
                  (fst st) in
      (buffer_data, (mean_data, rstd_data))) st) st.

(** impl-2, step-4: apply scale and bias, parallel on [N * HxW]. *)
Definition LargeStep4 (X_data : list F) (N C HxW : nat) (buffer_data Y_data : list F)
    : list F :=
  parallel_for E 0 (N * HxW) 1
    (fun _ begin end_ Y_data =>
       snd (irange begin end_
              (fun i st =>
                 let n := fst (fst st) in
                 let X_ptr := i * C in
                 let Y_ptr := i * C in
                 let scale_ptr := n * 2 * C in
                 let bias_ptr := scale_ptr + C in
                 (data_index_step (fst st) N HxW,
                  ApplyScaleBias (snd st) Y_ptr X_data X_ptr buffer_data scale_ptr bias_ptr C))
              (data_index_init begin N HxW, Y_data)))
    Y_data.

(** impl-2 of [GroupNormKernelImplChannelsLastInternal]: parallel on [N * HxW]. *)
Definition ChannelsLastLarge (X_data : list F) (gamma_data beta_data : option (list F))
    (N C HxW G D : nat) (eps : F) (st : list F * list F * list F)
    : list F * list F * list F :=
  let '(Y_data, mean_data, rstd_data) := st in
  let buffer_data := repeat fzero (num_threads E * N * (2 * C)) in
  let tmp_buffer_data := repeat fzero (N * (2 * G)) in
  let buffer_data := LargeStep1 X_data N C HxW buffer_data in
  let tmp_buffer_data := LargeStep2 N C HxW G D eps buffer_data tmp_buffer_data in
  let '(buffer_data, (mean_data, rstd_data)) :=
    LargeStep3 gamma_data beta_data N C G D tmp_buffer_data
               (buffer_data, (mean_data, rstd_data)) in
  let Y_data := LargeStep4 X_data N C HxW buffer_data Y_data in
  (Y_data, mean_data, rstd_data).

(** [GroupNormKernelImplChannelsLastInternal<T, PT>] (interleaved layout). *)
Definition GroupNormKernelImplChannelsLastInternal (X gamma beta : Tensor F)
    (N C HxW group : nat) (eps : F) : M (Outputs F) unit :=
  TORCH_CHECK (numel X =? N * C * HxW) "X.numel() == N * C * HxW" ;;
  TORCH_CHECK (negb (defined gamma) || (numel gamma =? C))
              "!gamma.defined() || gamma.numel() == C" ;;
  TORCH_CHECK (negb (defined beta) || (numel beta =? C))
              "!beta.defined() || beta.numel() == C" ;;
  let G := group in
  let D := C / G in
  let X_data := data X in
  let gamma_data := data_ptr_or_null gamma in
  let beta_data := data_ptr_or_null beta in
  modify (fun out =>
    with_data out
      (if HxW <? feature_map_threshold
       then ChannelsLastSmall X_data gamma_data beta_data N C HxW G D eps (data_of out)
       else ChannelsLastLarge X_data gamma_data beta_data N C HxW G D eps (data_of out))).

(** What [X.suggest_memory_format()] returns; [Preserve] stands for any tag
    the switch does not list. *)
Variant MemoryFormat : Type := Contiguous | ChannelsLast | ChannelsLast3d | Preserve.

(** [GroupNormKernelImpl].  The dtype dispatch and [is_mixed_type] select
    the types [T] and [PT], that is, the instance of [Arith]; [eps] arrives
    as a [double] and is passed on as [static_cast<scalar_t>(eps)]. *)
Definition GroupNormKernelImpl (memory_format : MemoryFormat) (X gamma beta : Tensor F)
    (N C HxW group : nat) (eps : F) : M (Outputs F) unit :=
  match memory_format with
  | Contiguous =>
      GroupNormKernelImplInternal X gamma beta N C HxW group (castT eps)
  | ChannelsLast | ChannelsLast3d =>
      GroupNormKernelImplChannelsLastInternal X gamma beta N C HxW group (castT eps)
  | Preserve => raise unsupported_memory_format
  end.
End Forward.

(** The dtype dispatch of [GroupNormKernelImpl]
    ([AT_DISPATCH_FLOATING_TYPES_AND(BFloat16, ...)] and [mixed_type]). *)
Variant ScalarType : Type := Double | Float | BFloat16.

Definition dispatch (dtype : ScalarType) (mixed_type : bool) : Arith spec_float :=
  match dtype with
  | Double => double_arith
  | Float => float_arith
  | BFloat16 => if mixed_type then bfloat16_mixed_arith else bfloat16_arith
  end.

(* ================================================================= *)
(** ** Backward kernels *)

Record Gradients (F : Type) : Type := mkGradients {
  dX : Tensor F;
  dgamma : Tensor F;
  dbeta : Tensor F
}.

Section Backward.
Context {F : Type} {A : Arith F}.
Variable E : Executor.
(** [vec::Vectorized<T>::size()] *)
Variable K : nat.

(** The pair [(ds_val, db_val)] that iteration [i] of the loop of
    [ComputeInternalGradients] computes. *)
Definition InternalGradientsAt (HxW : nat) (dY X : list F) (i : nat) : F * F :=
  let inner_size := HxW / K * K in
  let dY_ptr := i * HxW in
  let X_ptr := i * HxW in
  let '(ds_vec, db_vec) :=
    for_step inner_size K (fun j acc =>
      let dy_vec := loadu K dY (dY_ptr + j) in
      let x_vec := loadu K X (X_ptr + j) in
      (vadd (fst acc) (vmul dy_vec x_vec), vadd (snd acc) dy_vec))
      (vbroadcast K fzero, vbroadcast K fzero) in
  let ds_val := accumulate ds_vec in
  let db_val := accumulate db_vec in
  irange inner_size HxW (fun j acc =>
    (fst acc +^ load dY (dY_ptr + j) *^ load X (X_ptr + j),
     snd acc +^ load dY (dY_ptr + j))) (ds_val, db_val).

Definition InternalGradientsBody (HxW : nat) (dY X : list F) (i : nat)
    (st : list F * list F) : list F * list F :=
  let '(ds_val, db_val) := InternalGradientsAt HxW dY X i in
  (store (fst st) i ds_val, store (snd st) i db_val).

(** [ComputeInternalGradients<T, PT>] *)
Definition ComputeInternalGradients (N C HxW : nat) (dY X : list F)
    (ds db : list F) : list F * list F :=
  parallel_for E 0 (N * C) 1
    (fun _ start end_ => irange start end_ (InternalGradientsBody HxW dY X))
    (ds, db).

(** [CalcDsDb<PT>]; the two registers it stores into [ds_arr] and [db_arr]
    are its result. *)
Definition CalcDsDb (ds db : list F) (ds_ptr db_ptr : nat)
    (gamma : option (list F)) (gamma_ptr : nat) (d : nat) : Vec (F := F) * Vec (F := F) :=
  for_step d K (fun j acc =>
    let gamma_vec :=
      match gamma with
      | None => vbroadcast K fone
      | Some gamma => loadu K gamma (gamma_ptr + j)
      end in
    (vadd (fst acc) (vmul (loadu K ds (ds_ptr + j)) gamma_vec),
     vadd (snd acc) (vmul (loadu K db (db_ptr + j)) gamma_vec)))
    (vbroadcast K fzero, vbroadcast K fzero).

(** The pair [(ds_val, db_val)] that iteration [i] of the loop of
    [GroupNormInputBackward] computes: [ds] and [db] over the [D] channels of
    unit [i], each weighted by [gamma]. *)
Definition GroupSums (G D : nat) (gamma : option (list F)) (ds db : list F) (i : nat)
    : F * F :=
  let gamma_null := is_null gamma in
  let d := D / K * K in
  let g := i mod G in
  let ds_ptr := i * D in
  let db_ptr := i * D in
  let gamma_ptr := g * D in
  let '(ds_arr, db_arr) := CalcDsDb ds db ds_ptr db_ptr gamma gamma_ptr d in
  let ds_val := accumulate ds_arr in
  let db_val := accumulate db_arr in
  irange d D (fun j acc =>
    let gamma_v := if gamma_null then fone else deref gamma (g * D + j) in
    (fst acc +^ load ds (ds_ptr + j) *^ gamma_v,
     snd acc +^ load db (db_ptr + j) *^ gamma_v)) (ds_val, db_val).

(** The per-unit constants [(c2, c3)]. *)
Definition GroupCoefficients (HxW G D : nat) (mean rstd : list F)
    (gamma : option (list F)) (ds db : list F) (i : nat) : F * F :=
  let s := fone /^ of_int (D * HxW) in
  let '(ds_val, db_val) := GroupSums G D gamma ds db i in
  let c2 := (db_val *^ load mean i -^ ds_val)
            *^ load rstd i *^ load rstd i *^ load rstd i *^ s in
  let c3 := -^ c2 *^ load mean i -^ db_val *^ load rstd i *^ s in
  (c2, c3).

Definition InputBackwardBody (HxW G D : nat) (dY X mean rstd : list F)
    (gamma : option (list F)) (ds db : list F) (i : nat) (dX : list F) : list F :=
  let gamma_null := is_null gamma in
  let g := i mod G in
  let '(c2, c3) := GroupCoefficients HxW G D mean rstd gamma ds db i in
  irange 0 D (fun j dX =>
    let c := g * D + j in
    let dY_ptr := (i * D + j) * HxW in
    let X_ptr := (i * D + j) * HxW in
    let dX_ptr := (i * D + j) * HxW in
    let c1 := load rstd i *^ (if gamma_null then fone else deref gamma c) in
    irange 0 HxW (fun k dX =>
      store dX (dX_ptr + k)
            (castT (c1 *^ load dY (dY_ptr + k) +^ c2 *^ load X (X_ptr + k) +^ c3))) dX) dX.

(** [GroupNormInputBackward<T, PT>] *)
Definition GroupNormInputBackward (N C HxW group : nat) (dY X mean rstd : list F)
    (gamma : option (list F)) (ds db : list F) (dX : list F) : list F :=
  let G := group in
  let D := C / G in
  parallel_for E 0 (N * G) 1
    (fun _ start end_ =>
       irange start end_ (InputBackwardBody HxW G D dY X mean rstd gamma ds db))
    dX.

(** [GammaBackward<T>] *)
Definition GammaBackward (N C group : nat) (mean rstd ds db : list F)
    (dgamma : list F) : list F :=
  let G := group in
  let D := C / G in
  parallel_for E 0 D K
    (fun _ start end_ dgamma =>
       let dgamma :=
         irange 0 G (fun i dgamma => memset0 dgamma (i * D + start) (end_ - start)) dgamma in
       irange 0 (N * G) (fun i dgamma =>
         let ds_ptr := i * D in
         let db_ptr := i * D in
         let g := i mod G in
         irange start end_ (fun j dgamma =>
           let c := g * D + j in
           store dgamma c
                 (load dgamma c +^
                  (load ds (ds_ptr + j) -^ load db (db_ptr + j) *^ load mean i)
                  *^ load rstd i)) dgamma) dgamma)
    dgamma.

(** [BetaBackward<T>] *)
Definition BetaBackward (N C : nat) (db : list F) (dbeta : list F) : list F :=
  parallel_for E 0 C K
    (fun _ start end_ dbeta =>
       let dbeta := memset0 dbeta start (end_ - start) in
       irange 0 N (fun i dbeta =>
         let db_ptr := i * C in
         irange start end_ (fun j dbeta =>
           store dbeta j (load dbeta j +^ load db (db_ptr + j))) dbeta) dbeta)
    dbeta.

(** [GroupNormBackwardKernelImplInternal<T, PT>] *)
Definition GroupNormBackwardKernelImplInternal (dY X mean rstd gamma : Tensor F)
    (N C HxW group : nat) : M (Gradients F) unit :=
  TORCH_CHECK (numel dY =? N * C * HxW) "dY.numel() == N * C * HxW" ;;
  TORCH_CHECK (numel X =? N * C * HxW) "X.numel() == N * C * HxW" ;;
  TORCH_CHECK (numel mean =? N * group) "mean.numel() == N * group" ;;
  TORCH_CHECK (numel rstd =? N * group) "rstd.numel() == N * group" ;;
  TORCH_CHECK (negb (defined gamma) || (numel gamma =? C))
              "!gamma.defined() || gamma.numel() == C" ;;
  let dY_data := data dY in
  let X_data := data X in
  let mean_data := data mean in
  let rstd_data := data rstd in
  let gamma_data := data_ptr_or_null gamma in
  modify (fun grads =>
    let dX_data := data_ptr_or_null (dX grads) in
    let dgamma_data := data_ptr_or_null (dgamma grads) in
    let dbeta_data := data_ptr_or_null (dbeta grads) in
    let '(ds_data, db_data) :=
      ComputeInternalGradients N C HxW dY_data X_data
        (repeat fzero (N * C)) (repeat fzero (N * C)) in
    let dX' :=
      match dX_data with
      | Some dX_data =>
          mkTensor true
            (GroupNormInputBackward N C HxW group dY_data X_data mean_data rstd_data
               gamma_data ds_data db_data dX_data)
      | None => dX grads
      end in
    let dgamma' :=
      match dgamma_data with
      | Some dgamma_data =>
          mkTensor true
            (GammaBackward N C group mean_data rstd_data ds_data db_data dgamma_data)
      | None => dgamma grads
      end in
    let dbeta' :=
      match dbeta_data with
      | Some dbeta_data => mkTensor true (BetaBackward N C db_data dbeta_data)
      | None => dbeta grads
      end in
    mkGradients dX' dgamma' dbeta').

(** [GroupNormBackwardKernelImpl]: the dtype dispatch and [is_mixed_type]
    select the instance of [Arith]. *)
Definition GroupNormBackwardKernelImpl (dY X mean rstd gamma : Tensor F)
    (N C HxW group : nat) : M (Gradients F) unit :=
  GroupNormBackwardKernelImplInternal dY X mean rstd gamma N C HxW group.
End Backward.

(* ================================================================= *)
(** * Facts *)

Unset Implicit Arguments.

(** ** Buffers *)

Section BufferFacts.
Context {T : Type}.

Lemma upd_length (i : nat) (v : T) (l : list T) : length (upd i v l) = length l.
Proof.
  revert i; induction l as [|x l IH]; intros [|i]; simpl; auto.
Qed.

Lemma nth_upd_same (i : nat) (v d : T) (l : list T) :
  i < length l -> nth i (upd i v l) d = v.
Proof.
  revert i; induction l as [|x l IH]; intros [|i] Hi; simpl in *; try lia; auto.
  apply IH; lia.
Qed.

Lemma nth_upd_other (i k : nat) (v d : T) (l : list T) :
  k <> i -> nth k (upd i v l) d = nth k l d.
Proof.
  revert i k; induction l as [|x l IH]; intros [|i] [|k] Hk; simpl; auto; try lia.
Qed.
End BufferFacts.

Section LoadStore.
Context {F : Type} {A : Arith F}.

Lemma store_length (p : list F) i v : length (store p i v) = length p.
Proof. apply upd_length. Qed.

Lemma load_store_same (p : list F) i v : i < length p -> load (store p i v) i = v.
Proof. apply nth_upd_same. Qed.

Lemma load_store_other (p : list F) i k v : k <> i -> load (store p i v) k = load p k.
Proof. apply nth_upd_other. Qed.

Lemma load_store (p : list F) i k v :
  k < length p -> load (store p i v) k = if k =? i then v else load p k.
Proof.
  intros Hk. destruct (Nat.eqb_spec k i) as [->|Hne].
  - now apply load_store_same.
  - now apply load_store_other.
Qed.

Lemma load_repeat (x : F) n k : k < n -> load (repeat x n) k = x.
Proof. intros Hk. unfold load. now apply nth_repeat_lt. Qed.

Lemma buffer_ext (p q : list F) :
  length p = length q -> (forall k, k < length p -> load p k = load q k) -> p = q.
Proof. intros Hl Hk. now apply (nth_ext p q fzero fzero). Qed.
End LoadStore.

(** ** Loops *)

Section LoopFacts.
Context {S : Type}.

Lemma for_range_snoc (a c : nat) (body : nat -> S -> S) (s : S) :
  for_range a (Datatypes.S c) body s = body (a + c) (for_range a c body s).
Proof.
  revert a s; induction c as [|c IH]; intros a s.
  - simpl. now rewrite Nat.add_0_r.
  - change (for_range a (Datatypes.S (Datatypes.S c)) body s)
      with (for_range (Datatypes.S a) (Datatypes.S c) body (body a s)).
    rewrite IH. simpl. now rewrite Nat.add_succ_r.
Qed.

Lemma for_range_app (a c1 c2 : nat) (body : nat -> S -> S) (s : S) :
  for_range a (c1 + c2) body s = for_range (a + c1) c2 body (for_range a c1 body s).
Proof.
  revert a s; induction c1 as [|c1 IH]; intros a s; simpl.
  - now rewrite Nat.add_0_r.
  - rewrite IH. now rewrite Nat.add_succ_r.
Qed.

(** The invariant rule. *)
Lemma for_range_inv (P : nat -> S -> Prop) (a c : nat) (body : nat -> S -> S) (s : S) :
  P a s ->
  (forall i s, a <= i < a + c -> P i s -> P (Datatypes.S i) (body i s)) ->
  P (a + c) (for_range a c body s).
Proof.
  intros H0 Hstep. induction c as [|c IH].
  - now rewrite Nat.add_0_r.
  - rewrite for_range_snoc, Nat.add_succ_r. apply Hstep; [lia|].
    apply IH. intros i s' Hi. apply Hstep. lia.
Qed.

Lemma for_range_ext (a c : nat) (body body' : nat -> S -> S) (s : S) :
  (forall i s, a <= i < a + c -> body i s = body' i s) ->
  for_range a c body s = for_range a c body' s.
Proof.
  intros Hext. induction c as [|c IH]; [reflexivity|].
  rewrite !for_range_snoc, IH; [apply Hext; lia|].
  intros i s' Hi. apply Hext. lia.
Qed.

Lemma irange_ext (a b : nat) (body body' : nat -> S -> S) (s : S) :
  (forall i s, a <= i < b -> body i s = body' i s) ->
  irange a b body s = irange a b body' s.
Proof. intros H. apply for_range_ext. intros i s' Hi. apply H. lia. Qed.

Lemma irange_inv (P : nat -> S -> Prop) (a b : nat) (body : nat -> S -> S) (s : S) :
  a <= b -> P a s ->
  (forall i s, a <= i < b -> P i s -> P (Datatypes.S i) (body i s)) ->
  P b (irange a b body s).
Proof.
  intros Hab H0 Hstep. replace b with (a + (b - a)) at 1 by lia.
  unfold irange. apply for_range_inv; [assumption|]. intros i s' Hi. apply Hstep. lia.
Qed.

End LoopFacts.

Section LoopProjection.
Context {S T : Type}.

(** A loop over a projected state. *)
Lemma for_range_proj (pr : S -> T) (Inv : nat -> S -> Prop)
    (a c : nat) (body : nat -> S -> S) (body' : nat -> T -> T) (s : S) :
  Inv a s ->
  (forall i s, a <= i < a + c -> Inv i s ->
     Inv (Datatypes.S i) (body i s) /\ pr (body i s) = body' i (pr s)) ->
  Inv (a + c) (for_range a c body s) /\
  pr (for_range a c body s) = for_range a c body' (pr s).
Proof.
  intros H0 Hstep. induction c as [|c IH].
  - rewrite Nat.add_0_r. split; [assumption|reflexivity].
  - destruct IH as [HI Hp]; [intros i s' Hi; apply Hstep; lia|].
    rewrite !for_range_snoc, Nat.add_succ_r.
    destruct (Hstep (a + c) (for_range a c body s)) as [HI' Hp']; [lia|assumption|].
    split; [assumption|]. now rewrite Hp', Hp.
Qed.
End LoopProjection.

(** ** The executor *)

Section ExecutorFacts.
Context {S : Type}.

Lemma tiles_le a b l : tiles a b l -> a <= b.
Proof. induction 1; lia. Qed.

Lemma fold_tiles (f : nat -> nat -> nat -> S -> S) (body : nat -> S -> S) a b l :
  tiles a b l ->
  (forall tid x y s, a <= x -> x <= y -> y <= b -> f tid x y s = irange x y body s) ->
  forall s,
    fold_left (fun s ch => let '(tid, x, y) := ch in f tid x y s) l s
    = irange a b body s.
Proof.
  induction 1 as [a|tid a m b rest Ham Hrest IH]; intros Hf s.
  - unfold irange. now rewrite Nat.sub_diag.
  - simpl. pose proof (tiles_le _ _ _ Hrest) as Hmb.
    rewrite IH by (intros; apply Hf; lia).
    rewrite Hf by lia. unfold irange.
    replace (b - a) with ((m - a) + (b - m)) by lia.
    rewrite for_range_app. now replace (a + (m - a)) with m by lia.
Qed.

(** When the chunk function is a plain loop over its chunk, the fan-out is
    the loop over the whole range, whatever the executor's partition. *)
Lemma parallel_for_irange (E : Executor) (b e g : nat)
    (f : nat -> nat -> nat -> S -> S) (body : nat -> S -> S) (s : S) :
  executor_ok E ->
  (forall tid x y s, b <= x -> x <= y -> y <= e -> f tid x y s = irange x y body s) ->
  parallel_for E b e g f s = irange b e body s.
Proof.
  intros [_ Hok] Hf. unfold parallel_for.
  destruct (Hok b e g) as [Ht _].
  destruct (Nat.le_gt_cases b e) as [Hbe|Hbe].
  - rewrite Nat.max_r in Ht by assumption.
    now apply fold_tiles with (b := e).
  - rewrite Nat.max_l in Ht by lia. inversion Ht; subst.
    + simpl. unfold irange. now replace (e - b) with 0 by lia.
    + exfalso. match goal with H : tiles _ b _ |- _ => apply tiles_le in H end. lia.
Qed.

Lemma sequential_ok : executor_ok sequential.
Proof.
  split; [simpl; lia|]. intros b e g. simpl.
  destruct (Nat.ltb_spec b e) as [Hlt|Hge].
  - rewrite Nat.max_r by lia. split.
    + apply tiles_cons; [assumption|constructor].
    + repeat constructor.
  - rewrite Nat.max_l by lia. split; constructor.
Qed.

Lemma tiles_singletons (T a c : nat) :
  tiles a (a + c) (map (fun i => (i mod T, i, Datatypes.S i)) (seq a c)).
Proof.
  revert a; induction c as [|c IH]; intros a; simpl.
  - rewrite Nat.add_0_r. constructor.
  - apply tiles_cons; [lia|]. replace (a + Datatypes.S c) with (Datatypes.S a + c) by lia.
    apply IH.
Qed.

Lemma round_robin_ok (T : nat) : 0 < T -> executor_ok (round_robin T).
Proof.
  intros HT. split; [assumption|]. intros b e g. simpl. split.
  - destruct (Nat.le_gt_cases b e).
    + rewrite Nat.max_r by assumption.
      replace e with (b + (e - b)) at 1 by lia. apply tiles_singletons.
    + rewrite Nat.max_l by lia. replace (e - b) with 0 by lia. constructor.
  - apply Forall_forall. intros ch Hin. apply in_map_iff in Hin.
    destruct Hin as [i [<- _]]. simpl. apply Nat.mod_upper_bound. lia.
Qed.
End ExecutorFacts.

(** ** Pointwise buffer transformers

    [pointwise f u]: [f] keeps the length of the buffer and acts on each
    element [k] by [u k], independently of the other elements. *)

Section Pointwise.
Context {F : Type} {A : Arith F}.

Definition pointwise (f : list F -> list F) (u : nat -> F -> F) : Prop :=
  forall s, length (f s) = length s /\
            forall k, k < length s -> load (f s) k = u k (load s k).

Definition in_block (off len k : nat) : bool := (off <=? k) && (k <? off + len).

Lemma pointwise_length f u s : pointwise f u -> length (f s) = length s.
Proof. intros H. apply (H s). Qed.

Lemma pointwise_load f u s k :
  pointwise f u -> k < length s -> load (f s) k = u k (load s k).
Proof. intros H. apply (H s). Qed.

Lemma pointwise_id : pointwise (fun s => s) (fun _ x => x).
Proof. intros s. split; auto. Qed.

Lemma pointwise_ext f u u' :
  pointwise f u -> (forall k x, u k x = u' k x) -> pointwise f u'.
Proof.
  intros H Hu s. destruct (H s) as [Hl Hk]. split; [assumption|].
  intros k Hlt. rewrite Hk by assumption. apply Hu.
Qed.

Lemma pointwise_fun_ext f f' u :
  pointwise f u -> (forall s, f' s = f s) -> pointwise f' u.
Proof. intros H Hf s. rewrite Hf. apply H. Qed.

Lemma pointwise_store i x :
  pointwise (fun s => store s i x) (fun k y => if k =? i then x else y).
Proof.
  intros s. split; [apply store_length|]. intros k Hk. now apply load_store.
Qed.

Lemma pointwise_modify i (h : F -> F) :
  pointwise (fun s => store s i (h (load s i))) (fun k y => if k =? i then h y else y).
Proof.
  intros s. split; [apply store_length|]. intros k Hk.
  rewrite load_store by assumption. destruct (Nat.eqb_spec k i); congruence.
Qed.

Lemma pointwise_comp f g u w :
  pointwise f u -> pointwise g w -> pointwise (fun s => g (f s)) (fun k x => w k (u k x)).
Proof.
  intros Hf Hg s. destruct (Hf s) as [Hl Hk]. destruct (Hg (f s)) as [Hl' Hk'].
  split; [congruence|]. intros k Hlt. rewrite Hk' by lia. now rewrite Hk.
Qed.

Lemma pointwise_for_range a c (body : nat -> list F -> list F) (u : nat -> nat -> F -> F) :
  (forall i, a <= i < a + c -> pointwise (body i) (u i)) ->
  pointwise (for_range a c body) (fun k x => for_range a c (fun i y => u i k y) x).
Proof.
  induction c as [|c IH]; intros H.
  - apply pointwise_id.
  - eapply pointwise_fun_ext;
      [|intros s; apply (for_range_snoc a c body s)].
    eapply pointwise_ext.
    + apply pointwise_comp with (f := for_range a c body) (g := body (a + c)).
      * apply IH. intros i Hi. apply H. lia.
      * apply H. lia.
    + intros k x. cbv beta. now rewrite for_range_snoc.
Qed.

Lemma pointwise_irange a b (body : nat -> list F -> list F) (u : nat -> nat -> F -> F) :
  (forall i, a <= i < b -> pointwise (body i) (u i)) ->
  pointwise (irange a b body) (fun k x => irange a b (fun i y => u i k y) x).
Proof. intros H. apply pointwise_for_range. intros i Hi. apply H. lia. Qed.

(** Two pointwise transformers that act alike are equal. *)
Lemma pointwise_unique f g u s : pointwise f u -> pointwise g u -> f s = g s.
Proof.
  intros Hf Hg. destruct (Hf s) as [Hl Hk]. destruct (Hg s) as [Hl' Hk'].
  apply buffer_ext; [congruence|]. intros k Hlt. rewrite Hk, Hk' by lia. reflexivity.
Qed.

(** A pointwise transformer that overwrites every element forgets the prior
    contents. *)
Lemma pointwise_overwrites f u (v : nat -> F) s s' :
  pointwise f u -> length s = length s' ->
  (forall k x, k < length s -> u k x = v k) -> f s = f s'.
Proof.
  intros Hf Hl Hv. destruct (Hf s) as [Hls Hk]. destruct (Hf s') as [Hls' Hk'].
  apply buffer_ext; [congruence|]. intros k Hlt.
  rewrite Hk, Hk' by lia. rewrite !Hv by lia. reflexivity.
Qed.
End Pointwise.

(** ** Scalar loops *)

Section ScalarLoops.
Context {T : Type}.

(** A loop whose iterations leave the value alone. *)
Lemma for_range_miss a c (u : nat -> T -> T) x :
  (forall i y, a <= i < a + c -> u i y = y) -> for_range a c u x = x.
Proof.
  induction c as [|c IH]; intros H; [reflexivity|].
  rewrite for_range_snoc, IH by (intros; apply H; lia). apply H. lia.
Qed.

(** A loop in which iteration [i0] sets the value and no later one touches it. *)
Lemma for_range_hit a c (u : nat -> T -> T) x i0 v :
  a <= i0 < a + c ->
  (forall y, u i0 y = v) ->
  (forall i y, i0 < i < a + c -> u i y = y) ->
  for_range a c u x = v.
Proof.
  intros Hi0 Hset Hlater.
  replace c with ((i0 - a) + Datatypes.S (a + c - i0 - 1)) by lia.
  rewrite for_range_app. replace (a + (i0 - a)) with i0 by lia.
  simpl. rewrite Hset. apply for_range_miss. intros i y Hi. apply Hlater. lia.
Qed.

(** A loop in which only iteration [i0] touches the value. *)
Lemma for_range_once a c (u : nat -> T -> T) x i0 :
  a <= i0 < a + c ->
  (forall i y, a <= i < a + c -> i <> i0 -> u i y = y) ->
  for_range a c u x = u i0 x.
Proof.
  intros Hi0 Hother.
  replace c with ((i0 - a) + Datatypes.S (a + c - i0 - 1)) by lia.
  rewrite for_range_app. replace (a + (i0 - a)) with i0 by lia.
  simpl. rewrite for_range_miss by (intros; apply Hother; lia).
  f_equal. apply for_range_miss. intros i y Hi. apply Hother; lia.
Qed.
End ScalarLoops.

(** Loops over tuples of independent buffers. *)
Section TupleLoops.
Context {S1 S2 S3 : Type}.

Lemma for_range_pair a c (f1 : nat -> S1 -> S1) (f2 : nat -> S2 -> S2) s1 s2 :
  for_range a c (fun i st => (f1 i (fst st), f2 i (snd st))) (s1, s2)
  = (for_range a c f1 s1, for_range a c f2 s2).
Proof.
  induction c as [|c IH]; [reflexivity|].
  rewrite !for_range_snoc, IH. reflexivity.
Qed.

Lemma for_range_pair_eta a c (f1 : nat -> S1 -> S1) (f2 : nat -> S2 -> S2) s :
  for_range a c (fun i st => (f1 i (fst st), f2 i (snd st))) s
  = (for_range a c f1 (fst s), for_range a c f2 (snd s)).
Proof. destruct s. apply for_range_pair. Qed.

Lemma for_range_triple a c (f1 : nat -> S1 -> S1) (f2 : nat -> S2 -> S2)
    (f3 : nat -> S3 -> S3) s1 s2 s3 :
  for_range a c (fun i st => (f1 i (fst (fst st)), f2 i (snd (fst st)), f3 i (snd st)))
            (s1, s2, s3)
  = (for_range a c f1 s1, for_range a c f2 s2, for_range a c f3 s3).
Proof.
  induction c as [|c IH]; [reflexivity|].
  rewrite !for_range_snoc, IH. reflexivity.
Qed.
End TupleLoops.

(** ** Fills and chunked fan-outs *)

Section Fills.
Context {F : Type} {A : Arith F}.

Lemma in_block_true off len k : in_block off len k = true <-> off <= k < off + len.
Proof.
  unfold in_block. rewrite andb_true_iff, Nat.leb_le, Nat.ltb_lt. tauto.
Qed.

Lemma in_block_false off len k : in_block off len k = false <-> ~ (off <= k < off + len).
Proof.
  rewrite <- in_block_true. destruct (in_block off len k); split; congruence.
Qed.

(** [for j in [0, n): p[off + j] = v j]. *)
Lemma pointwise_fill off n (v : nat -> F) :
  pointwise (irange 0 n (fun j s => store s (off + j) (v j)))
            (fun k x => if in_block off n k then v (k - off) else x).
Proof.
  eapply pointwise_ext.
  - apply pointwise_irange with (u := fun j k y => if k =? off + j then v j else y).
    intros j _. apply pointwise_store.
  - intros k x. cbv beta. unfold irange. rewrite Nat.sub_0_r.
    destruct (in_block off n k) eqn:Hb.
    + apply in_block_true in Hb.
      apply for_range_hit with (i0 := k - off); [lia| |].
      * intros y. replace (off + (k - off)) with k by lia. now rewrite Nat.eqb_refl.
      * intros i y Hi. destruct (Nat.eqb_spec k (off + i)); [lia|reflexivity].
    + apply in_block_false in Hb. apply for_range_miss.
      intros i y Hi. destruct (Nat.eqb_spec k (off + i)); [lia|reflexivity].
Qed.

Lemma pointwise_memset0 off len :
  pointwise (fun s => memset0 s off len)
            (fun k x => if in_block off len k then fzero else x).
Proof. apply (pointwise_fill off len (fun _ => fzero)). Qed.

(** [for j in [a, b): p[j] = h j p[j]]. *)
Lemma pointwise_sweep a b (h : nat -> F -> F) :
  pointwise (irange a b (fun j s => store s j (h j (load s j))))
            (fun k x => if (a <=? k) && (k <? b) then h k x else x).
Proof.
  eapply pointwise_ext.
  - apply pointwise_irange with (u := fun j k y => if k =? j then h j y else y).
    intros j _. apply (pointwise_modify j (h j)).
  - intros k x. cbv beta. unfold irange.
    destruct ((a <=? k) && (k <? b)) eqn:Hb.
    + apply andb_true_iff in Hb. rewrite Nat.leb_le, Nat.ltb_lt in Hb.
      rewrite for_range_once with (i0 := k); [now rewrite Nat.eqb_refl|lia|].
      intros i y Hi Hne. destruct (Nat.eqb_spec k i); [lia|reflexivity].
    + apply andb_false_iff in Hb. rewrite Nat.leb_gt, Nat.ltb_ge in Hb.
      apply for_range_miss. intros i y Hi.
      destruct (Nat.eqb_spec k i); [lia|reflexivity].
Qed.

(** A fan-out whose chunk function acts pointwise on the elements its chunk
    selects acts pointwise on those the whole range selects, whatever the
    partition. *)
Lemma fold_tiles_pointwise (f : nat -> nat -> nat -> list F -> list F)
    (U : nat -> nat -> nat -> F -> F) a b l :
  tiles a b l ->
  (forall tid x y, a <= x -> x <= y -> y <= b -> pointwise (f tid x y) (U x y)) ->
  (forall x k z, U x x k z = z) ->
  (forall x m y k z, x <= m -> m <= y -> U m y k (U x m k z) = U x y k z) ->
  pointwise (fold_left (fun s ch => let '(tid, x, y) := ch in f tid x y s) l) (U a b).
Proof.
  intros Ht Hf Hnil Hcomp. induction Ht as [a|tid a m b rest Ham Hrest IH].
  - simpl. eapply pointwise_ext; [apply pointwise_id|]. intros k x. now rewrite Hnil.
  - pose proof (tiles_le _ _ _ Hrest) as Hmb. simpl.
    eapply pointwise_ext.
    + apply pointwise_comp with (f := f tid a m)
        (g := fold_left (fun s ch => let '(tid, x, y) := ch in f tid x y s) rest).
      * apply Hf; lia.
      * apply IH. intros; apply Hf; lia.
    + intros k x. cbv beta. apply Hcomp; lia.
Qed.

Lemma parallel_for_pointwise (E : Executor) (b e g : nat)
    (f : nat -> nat -> nat -> list F -> list F) (U : nat -> nat -> nat -> F -> F) :
  executor_ok E -> b <= e ->
  (forall tid x y, b <= x -> x <= y -> y <= e -> pointwise (f tid x y) (U x y)) ->
  (forall x k z, U x x k z = z) ->
  (forall x m y k z, x <= m -> m <= y -> U m y k (U x m k z) = U x y k z) ->
  pointwise (parallel_for E b e g f) (U b e).
Proof.
  intros [_ Hok] Hbe Hf Hnil Hcomp. unfold parallel_for.
  destruct (Hok b e g) as [Ht _]. rewrite Nat.max_r in Ht by assumption.
  now apply fold_tiles_pointwise.
Qed.

(** The usual selection: the elements [k] of a domain whose key [sel k] lies
    in the chunk. *)
Definition selects (dom : nat -> bool) (sel : nat -> nat) (v : nat -> F)
    (x y k : nat) (z : F) : F :=
  if dom k && (x <=? sel k) && (sel k <? y) then v k else z.

Lemma selects_nil dom sel v x k z : selects dom sel v x x k z = z.
Proof.
  unfold selects. destruct (dom k); simpl; [|reflexivity].
  destruct (Nat.leb_spec x (sel k)), (Nat.ltb_spec (sel k) x); simpl; auto; lia.
Qed.

Lemma selects_comp dom sel v x m y k z :
  x <= m -> m <= y ->
  selects dom sel v m y k (selects dom sel v x m k z) = selects dom sel v x y k z.
Proof.
  intros Hxm Hmy. unfold selects. destruct (dom k); simpl; [|reflexivity].
  destruct (Nat.leb_spec m (sel k)), (Nat.ltb_spec (sel k) y),
           (Nat.leb_spec x (sel k)), (Nat.ltb_spec (sel k) m); simpl; auto; lia.
Qed.

Lemma parallel_for_selects (E : Executor) (b e g : nat)
    (f : nat -> nat -> nat -> list F -> list F) dom sel v :
  executor_ok E -> b <= e ->
  (forall tid x y, b <= x -> x <= y -> y <= e ->
     pointwise (f tid x y) (selects dom sel v x y)) ->
  pointwise (parallel_for E b e g f) (selects dom sel v b e).
Proof.
  intros Hok Hbe Hf. apply parallel_for_pointwise; auto.
  - intros. apply selects_nil.
  - intros. now apply selects_comp.
Qed.
End Fills.

(** ** Index arithmetic *)

(** Case analysis on every comparison in the goal. *)
Ltac cmp_cases :=
  repeat match goal with
         | |- context [?a <=? ?b] => destruct (Nat.leb_spec a b)
         | |- context [?a <? ?b] => destruct (Nat.ltb_spec a b)
         | |- context [?a =? ?b] => destruct (Nat.eqb_spec a b)
         end;
  simpl; try reflexivity; try lia.

Lemma div_mod_block (D q j : nat) : j < D -> (q * D + j) / D = q /\ (q * D + j) mod D = j.
Proof.
  intros Hj. split.
  - symmetry. apply (Nat.div_unique (q * D + j) D q j); lia.
  - symmetry. apply (Nat.mod_unique (q * D + j) D q j); lia.
Qed.

Lemma block_decompose (D k : nat) : 0 < D -> k = k / D * D + k mod D /\ k mod D < D.
Proof.
  intros HD. split.
  - pose proof (Nat.div_mod_eq k D). lia.
  - apply Nat.mod_upper_bound. lia.
Qed.

Lemma in_block_div (len r k : nat) :
  in_block (r * len) len k = (0 <? len) && (r <=? k / len) && (k / len <? Datatypes.S r).
Proof.
  destruct (Nat.eq_dec len 0) as [->|Hlen].
  - unfold in_block. simpl. rewrite Nat.mul_0_r, Nat.add_0_r.
    destruct (Nat.leb_spec 0 k), (Nat.ltb_spec k 0); simpl; auto; lia.
  - destruct (block_decompose len k) as [Hk Hm]; [lia|].
    assert (Hiff : r * len <= k < r * len + len <-> r <= k / len < Datatypes.S r) by nia.
    unfold in_block.
    destruct (Nat.ltb_spec 0 len); [|lia]. simpl.
    destruct (Nat.leb_spec (r * len) k), (Nat.ltb_spec k (r * len + len)),
             (Nat.leb_spec r (k / len)), (Nat.ltb_spec (k / len) (Datatypes.S r));
      simpl; auto; lia.
Qed.

Lemma div_coarsen (D len i k : nat) :
  (0 <? len) && (i * D <=? k / len) && (k / len <? i * D + D)
  = (0 <? D * len) && (i <=? k / (D * len)) && (k / (D * len) <? Datatypes.S i).
Proof.
  destruct (Nat.eq_dec len 0) as [->|Hlen]; [now rewrite Nat.mul_0_r|].
  destruct (Nat.eq_dec D 0) as [->|HD].
  - simpl. rewrite Nat.mul_0_r, Nat.add_0_r.
    destruct (0 <? len), (Nat.leb_spec 0 (k / len)), (Nat.ltb_spec (k / len) 0);
      simpl; auto; lia.
  - replace (k / (D * len)) with (k / len / D)
      by (rewrite Nat.Div0.div_div; f_equal; lia).
    destruct (block_decompose D (k / len)) as [Hk Hm]; [lia|].
    assert (Hiff : i * D <= k / len < i * D + D <-> i <= k / len / D < Datatypes.S i) by nia.
    destruct (Nat.ltb_spec 0 len); [|lia].
    destruct (Nat.ltb_spec 0 (D * len)); [|nia]. simpl.
    destruct (Nat.leb_spec (i * D) (k / len)), (Nat.ltb_spec (k / len) (i * D + D)),
             (Nat.leb_spec i (k / len / D)), (Nat.ltb_spec (k / len / D) (Datatypes.S i));
      simpl; auto; lia.
Qed.

Lemma strided_hit (D x y i k : nat) :
  y <= D -> (i * D + x <= k < i * D + y <-> k / D = i /\ x <= k mod D < y).
Proof.
  intros Hy. destruct (Nat.eq_dec D 0) as [->|HD].
  - simpl. lia.
  - destruct (block_decompose D k) as [Hk Hm]; [lia|]. split.
    + intros H. assert (k / D = i) by nia. split; [assumption|]. subst i. lia.
    + intros [<- H]. lia.
Qed.

Lemma block2_index (D len i j kk : nat) :
  j < D -> kk < len ->
  ((i * D + j) * len + kk) / (D * len) = i /\
  ((i * D + j) * len + kk) / len mod D = j.
Proof.
  intros Hj Hkk.
  destruct (div_mod_block len (i * D + j) kk Hkk) as [Hq _].
  destruct (div_mod_block D i j Hj) as [Hq' Hm'].
  replace (D * len) with (len * D) by lia.
  rewrite <- Nat.Div0.div_div, Hq. auto.
Qed.

Section LoopShift.
Context {S : Type}.

Lemma for_range_shift (off a c : nat) (body : nat -> S -> S) (s : S) :
  for_range a c (fun j => body (off + j)) s = for_range (off + a) c body s.
Proof.
  revert a s; induction c as [|c IH]; intros a s; [reflexivity|].
  simpl. rewrite IH. now rewrite Nat.add_succ_r.
Qed.
End LoopShift.

(** ** Loops of units that own the elements they select *)

Section Selections.
Context {F : Type} {A : Arith F}.

Lemma for_range_selects a c (body : nat -> list F -> list F) dom sel v :
  (forall i, a <= i < a + c -> pointwise (body i) (selects dom sel v i (Datatypes.S i))) ->
  pointwise (for_range a c body) (selects dom sel v a (a + c)).
Proof.
  induction c as [|c IH]; intros H.
  - rewrite Nat.add_0_r. eapply pointwise_ext; [apply pointwise_id|].
    intros k x. now rewrite selects_nil.
  - eapply pointwise_fun_ext; [|intros s; apply (for_range_snoc a c body s)].
    eapply pointwise_ext.
    + apply pointwise_comp with (f := for_range a c body) (g := body (a + c)).
      * apply IH. intros i Hi. apply H. lia.
      * apply H. lia.
    + intros k x. cbv beta. rewrite Nat.add_succ_r. apply selects_comp; lia.
Qed.

Lemma irange_selects a b (body : nat -> list F -> list F) dom sel v :
  a <= b ->
  (forall i, a <= i < b -> pointwise (body i) (selects dom sel v i (Datatypes.S i))) ->
  pointwise (irange a b body) (selects dom sel v a b).
Proof.
  intros Hab H.
  pose proof (for_range_selects a (b - a) body dom sel v) as P.
  replace (a + (b - a)) with b in P by lia.
  apply P. intros i Hi. apply H. lia.
Qed.

(** A single store owns its element. *)
Lemma pointwise_store_selects i (x : F) v :
  v i = x ->
  pointwise (fun s => store s i x)
            (selects (fun _ => true) (fun k => k) v i (Datatypes.S i)).
Proof.
  intros Hv. eapply pointwise_ext; [apply pointwise_store|].
  intros k y. unfold selects. simpl.
  destruct (Nat.eqb_spec k i) as [->|Hne].
  - rewrite Nat.leb_refl. simpl.
    destruct (Nat.ltb_spec i (Datatypes.S i)); [now rewrite Hv|lia].
  - destruct (Nat.leb_spec i k), (Nat.ltb_spec k (Datatypes.S i)); simpl; auto; lia.
Qed.

(** A contiguous run of [len] stores owns block [r]. *)
Lemma pointwise_fill_selects len r (w : nat -> F) v :
  (forall kk, kk < len -> v (r * len + kk) = w kk) ->
  pointwise (irange 0 len (fun kk s => store s (r * len + kk) (w kk)))
            (selects (fun _ => 0 <? len) (fun k => k / len) v r (Datatypes.S r)).
Proof.
  intros Hv. eapply pointwise_ext; [apply pointwise_fill|].
  intros k x. cbv beta. unfold selects. rewrite in_block_div.
  destruct ((0 <? len) && (r <=? k / len) && (k / len <? Datatypes.S r)) eqn:Hb;
    [|reflexivity].
  rewrite <- in_block_div in Hb. apply in_block_true in Hb.
  rewrite <- Hv by lia. f_equal. lia.
Qed.

(** [D] consecutive runs of [len] stores own block [i] of size [D * len]. *)
Lemma pointwise_blocks2 D len i (w : nat -> nat -> F) v :
  (forall j kk, j < D -> kk < len -> v ((i * D + j) * len + kk) = w j kk) ->
  pointwise
    (irange 0 D (fun j s =>
       irange 0 len (fun kk s => store s ((i * D + j) * len + kk) (w j kk)) s))
    (selects (fun _ => 0 <? D * len) (fun k => k / (D * len)) v i (Datatypes.S i)).
Proof.
  intros Hv. eapply pointwise_ext.
  - unfold irange at 1. rewrite Nat.sub_0_r.
    apply for_range_selects
      with (dom := fun k : nat => (0 <? len) && (i * D <=? k / len))
           (sel := fun k => (k / len) - i * D) (v := v).
    intros j Hj. eapply pointwise_ext.
    + apply (pointwise_fill_selects len (i * D + j) (w j) v).
      intros kk Hkk. apply Hv; lia.
    + intros k x. unfold selects.
      destruct (0 <? len); simpl; [|reflexivity].
      destruct (Nat.leb_spec (i * D + j) (k / len)),
               (Nat.ltb_spec (k / len) (Datatypes.S (i * D + j))),
               (Nat.leb_spec (i * D) (k / len)),
               (Nat.leb_spec j (k / len - i * D)),
               (Nat.ltb_spec (k / len - i * D) (Datatypes.S j)); simpl; auto; lia.
  - intros k x. unfold selects. rewrite <- div_coarsen. cmp_cases.
Qed.
End Selections.

(* ================================================================= *)
(** ** The backward kernels, element by element *)

Section BackwardValues.
Context {F : Type} {A : Arith F}.

(** What [BetaBackward] leaves in [dbeta[k]]: the accumulation, from zero
    and in batch order, of [db[n, k]]. *)
Definition beta_val (N C : nat) (db : list F) (k : nat) : F :=
  irange 0 N (fun i y => y +^ load db (i * C + k)) fzero.

(** What [GammaBackward] leaves in [dgamma[k]], [k = g * D + j]: the
    accumulation, from zero and in batch order, over the units [i] of group
    [g]. *)
Definition gamma_val (N G D : nat) (mean rstd ds db : list F) (k : nat) : F :=
  irange 0 (N * G) (fun i y =>
    if i mod G =? k / D
    then y +^ (load ds (i * D + k mod D) -^ load db (i * D + k mod D) *^ load mean i)
              *^ load rstd i
    else y) fzero.

(** What [GroupNormInputBackward] leaves in [dX[k]]. *)
Definition dx_val (K HxW G D : nat) (dY X mean rstd : list F) (gamma : option (list F))
    (ds db : list F) (k : nat) : F :=
  let i := k / (D * HxW) in
  let j := (k / HxW) mod D in
  let c23 := GroupCoefficients K HxW G D mean rstd gamma ds db i in
  let c1 := load rstd i *^ (if is_null gamma then fone else deref gamma (i mod G * D + j)) in
  castT (c1 *^ load dY k +^ fst c23 *^ load X k +^ snd c23).

(** The [db] entry of one (batch, channel) pair, as [ComputeInternalGradients]
    computes it: it reads [dY] alone. *)
Definition db_at (K HxW : nat) (dY : list F) (i : nat) : F :=
  let inner_size := HxW / K * K in
  let db_vec :=
    for_step inner_size K (fun j acc => vadd acc (loadu K dY (i * HxW + j)))
             (vbroadcast K fzero) in
  irange inner_size HxW (fun j acc => acc +^ load dY (i * HxW + j)) (accumulate db_vec).
End BackwardValues.

Section BackwardFacts.
Context {F : Type} {A : Arith F}.
Variable E : Executor.
Hypothesis E_ok : executor_ok E.
Variable K : nat.

Lemma BetaBackward_pointwise N C db :
  pointwise (BetaBackward E K N C db)
            (selects (fun _ => true) (fun k => k) (beta_val N C db) 0 C).
Proof.
  unfold BetaBackward. apply parallel_for_selects; [assumption|lia|].
  intros tid x y _ Hxy HyC.
  eapply pointwise_ext.
  - apply pointwise_comp with (f := fun s => memset0 s x (y - x)).
    + apply pointwise_memset0.
    + apply pointwise_irange
        with (u := fun i k z => if (x <=? k) && (k <? y) then z +^ load db (i * C + k) else z).
      intros i _. apply (pointwise_sweep x y (fun j z => z +^ load db (i * C + j))).
  - intros k z. cbv beta. unfold selects, in_block. simpl.
    replace (x + (y - x)) with y by lia.
    destruct ((x <=? k) && (k <? y)); [reflexivity|].
    unfold irange. now apply for_range_miss.
Qed.
End BackwardFacts.

Section BackwardFacts2.
Context {F : Type} {A : Arith F}.
Variable E : Executor.
Hypothesis E_ok : executor_ok E.
Variable K : nat.

Lemma ComputeInternalGradients_eq N C HxW dY X ds db :
  ComputeInternalGradients E K N C HxW dY X ds db =
  (irange 0 (N * C) (fun i s => store s i (fst (InternalGradientsAt K HxW dY X i))) ds,
   irange 0 (N * C) (fun i s => store s i (snd (InternalGradientsAt K HxW dY X i))) db).
Proof.
  unfold ComputeInternalGradients.
  rewrite parallel_for_irange with (body := InternalGradientsBody K HxW dY X)
    by (auto; reflexivity).
  unfold irange. rewrite <- for_range_pair. apply for_range_ext.
  intros i [ds' db'] _. unfold InternalGradientsBody.
  destruct (InternalGradientsAt K HxW dY X i). reflexivity.
Qed.

Lemma for_range_snd {S1 S2 : Type} a c (body : nat -> S1 * S2 -> S1 * S2)
    (body' : nat -> S2 -> S2) s :
  (forall i s, snd (body i s) = body' i (snd s)) ->
  snd (for_range a c body s) = for_range a c body' (snd s).
Proof.
  intros H.
  apply (for_range_proj snd (fun _ _ => True) a c body body' s I).
  intros i s' _ _. split; [exact I|apply H].
Qed.

Lemma for_range_fst {S1 S2 : Type} a c (body : nat -> S1 * S2 -> S1 * S2)
    (body' : nat -> S1 -> S1) s :
  (forall i s, fst (body i s) = body' i (fst s)) ->
  fst (for_range a c body s) = for_range a c body' (fst s).
Proof.
  intros H.
  apply (for_range_proj fst (fun _ _ => True) a c body body' s I).
  intros i s' _ _. split; [exact I|apply H].
Qed.

(** [db] does not read [X]. *)
Lemma InternalGradientsAt_db HxW dY X i :
  snd (InternalGradientsAt K HxW dY X i) = db_at K HxW dY i.
Proof.
  unfold InternalGradientsAt, db_at.
  match goal with
  | |- context [let '(_, _) := ?p in _] => destruct p as [ds_vec db_vec] eqn:Hv
  end.
  unfold irange.
  rewrite for_range_snd with (body' := fun j acc => acc +^ load dY (i * HxW + j))
    by reflexivity.
  simpl. f_equal. f_equal.
  apply (f_equal snd) in Hv. simpl in Hv. rewrite <- Hv.
  unfold for_step. now apply for_range_snd.
Qed.

Lemma ComputeInternalGradients_db N C HxW dY X k :
  k < N * C ->
  load (snd (ComputeInternalGradients E K N C HxW dY X
               (repeat fzero (N * C)) (repeat fzero (N * C)))) k
  = db_at K HxW dY k.
Proof.
  intros Hk. rewrite ComputeInternalGradients_eq. simpl.
  rewrite (pointwise_load _ _ _ k
             (pointwise_fill 0 (N * C) (fun i => snd (InternalGradientsAt K HxW dY X i))))
    by (rewrite repeat_length; assumption).
  unfold in_block. simpl. destruct (Nat.ltb_spec k (N * C)); [|lia].
  rewrite Nat.sub_0_r. apply InternalGradientsAt_db.
Qed.

Lemma InputBackwardBody_pointwise HxW G D dY X mean rstd gamma ds db i :
  pointwise (InputBackwardBody K HxW G D dY X mean rstd gamma ds db i)
            (selects (fun _ => 0 <? D * HxW) (fun k => k / (D * HxW))
                     (dx_val K HxW G D dY X mean rstd gamma ds db) i (Datatypes.S i)).
Proof.
  unfold InputBackwardBody.
  destruct (GroupCoefficients K HxW G D mean rstd gamma ds db i) as [c2 c3] eqn:Hc.
  apply (pointwise_blocks2 D HxW i
           (fun j kk =>
              castT (load rstd i *^ (if is_null gamma then fone
                                     else deref gamma (i mod G * D + j))
                     *^ load dY ((i * D + j) * HxW + kk)
                     +^ c2 *^ load X ((i * D + j) * HxW + kk) +^ c3))).
  intros j kk Hj Hkk. unfold dx_val.
  destruct (block2_index D HxW i j kk Hj Hkk) as [-> ->].
  now rewrite Hc.
Qed.

Lemma GroupNormInputBackward_pointwise N C HxW G dY X mean rstd gamma ds db :
  pointwise (GroupNormInputBackward E K N C HxW G dY X mean rstd gamma ds db)
            (selects (fun _ => 0 <? C / G * HxW) (fun k => k / (C / G * HxW))
                     (dx_val K HxW G (C / G) dY X mean rstd gamma ds db) 0 (N * G)).
Proof.
  unfold GroupNormInputBackward.
  eapply pointwise_fun_ext.
  - apply irange_selects with
      (body := InputBackwardBody K HxW G (C / G) dY X mean rstd gamma ds db); [lia|].
    intros i _. apply InputBackwardBody_pointwise.
  - intros s. apply parallel_for_irange; [assumption|reflexivity].
Qed.

Lemma GammaBackward_pointwise N C G mean rstd ds db :
  pointwise (GammaBackward E K N C G mean rstd ds db)
            (selects (fun k => k <? G * (C / G)) (fun k => k mod (C / G))
                     (gamma_val N G (C / G) mean rstd ds db) 0 (C / G)).
Proof.
  unfold GammaBackward. set (D := C / G).
  apply parallel_for_selects; [assumption|lia|].
  intros tid x y _ Hxy HyD.
  eapply pointwise_ext.
  - apply pointwise_comp with
      (f := irange 0 G (fun i dgamma => memset0 dgamma (i * D + x) (y - x))).
    + apply pointwise_irange
        with (u := fun i k z => if in_block (i * D + x) (y - x) k then fzero else z).
      intros i _. apply pointwise_memset0.
    + apply pointwise_irange
        with (u := fun i k z =>
                irange x y (fun j z' =>
                  if k =? i mod G * D + j
                  then z' +^ (load ds (i * D + j) -^ load db (i * D + j) *^ load mean i)
                             *^ load rstd i
                  else z') z).
      intros i _.
      apply pointwise_irange
        with (u := fun j k z' =>
                if k =? i mod G * D + j
                then z' +^ (load ds (i * D + j) -^ load db (i * D + j) *^ load mean i)
                           *^ load rstd i
                else z').
      intros j _.
      apply (pointwise_modify (i mod G * D + j)
               (fun z' => z' +^ (load ds (i * D + j) -^ load db (i * D + j) *^ load mean i)
                                *^ load rstd i)).
  - intros k z. cbv beta. unfold selects.
    assert (Hblock : forall i, in_block (i * D + x) (y - x) k = true
                               <-> k / D = i /\ x <= k mod D < y).
    { intros i. rewrite in_block_true. replace (i * D + x + (y - x)) with (i * D + y) by lia.
      now apply strided_hit. }
    assert (Hcell : forall q j, x <= j < y -> (k =? q * D + j) = true
                                <-> k / D = q /\ k mod D = j).
    { intros q j Hj. rewrite Nat.eqb_eq.
      pose proof (strided_hit D j (Datatypes.S j) q k ltac:(lia)). lia. }
    assert (Hsel : (k <? G * D) && (x <=? k mod D) && (k mod D <? y) = true
                   <-> k < G * D /\ x <= k mod D < y).
    { rewrite !andb_true_iff, Nat.ltb_lt, Nat.leb_le, Nat.ltb_lt. tauto. }
    assert (Hlt : forall i, k / D = i -> x <= k mod D < y -> i < G -> k < G * D).
    { intros i Hi Hm HiG. destruct (block_decompose D k) as [Hk HmD]; [lia|]. nia. }
    destruct ((k <? G * D) && (x <=? k mod D) && (k mod D <? y)) eqn:Hb.
    + (* [k] is one of the chunk's elements *)
      destruct (proj1 Hsel eq_refl) as [HkG Hm].
      assert (HD : 0 < D) by lia.
      assert (Hg : k / D < G)
        by (apply Nat.Div0.div_lt_upper_bound; lia).
      replace (irange 0 G _ z) with (fzero : F).
      2:{ symmetry. unfold irange.
          apply for_range_hit with (i0 := k / D); [lia| |].
          { intros y0. now rewrite (proj2 (Hblock (k / D))). }
          { intros i y0 Hi.
            destruct (in_block (i * D + x) (y - x) k) eqn:Hin; [|reflexivity].
            apply Hblock in Hin. lia. } }
      unfold gamma_val. apply irange_ext. intros i y0 Hi.
      destruct (Nat.eqb_spec (i mod G) (k / D)) as [Heq|Hne].
      * unfold irange. rewrite for_range_once with (i0 := k mod D); [|lia|].
        { now rewrite (proj2 (Hcell (i mod G) (k mod D) Hm)). }
        { intros j y1 Hj Hjne. destruct (k =? i mod G * D + j) eqn:Hc; [|reflexivity].
          apply Hcell in Hc; lia. }
      * unfold irange. apply for_range_miss. intros j y1 Hj.
        destruct (k =? i mod G * D + j) eqn:Hc; [|reflexivity].
        apply Hcell in Hc; lia.
    + (* [k] is not one of them *)
      assert (Hno : ~ (k < G * D /\ x <= k mod D < y)).
      { intros H. apply Hsel in H. congruence. }
      replace (irange 0 G _ z) with z.
      2:{ symmetry. unfold irange. apply for_range_miss. intros i y0 Hi.
          destruct (in_block (i * D + x) (y - x) k) eqn:Hin; [|reflexivity].
          apply Hblock in Hin. exfalso. apply Hno. split; [|tauto].
          apply (Hlt i); lia. }
      unfold irange at 1. apply for_range_miss. intros i y0 Hi.
      unfold irange. apply for_range_miss. intros j y1 Hj.
      destruct (k =? i mod G * D + j) eqn:Hc; [|reflexivity].
      apply Hcell in Hc; [|lia]. exfalso. apply Hno. split; [|lia].
      apply (Hlt (i mod G)); [tauto|lia|].
      apply Nat.mod_upper_bound. nia.
Qed.
End BackwardFacts2.

(** ** Checks *)

Section Checks.
Context {S B : Type}.

Lemma check_pass (cond : bool) (what : string) (k : M S B) (s : S) :
  cond = true -> (TORCH_CHECK cond what ;; k) s = k s.
Proof. intros ->. reflexivity. Qed.

Lemma check_fail (cond : bool) (what : string) (k : M S B) (s : S) :
  cond = false -> (TORCH_CHECK cond what ;; k) s = (inl (check_failed what), s).
Proof. intros ->. reflexivity. Qed.
End Checks.

(** The shape preconditions the kernels check. *)
Definition forward_checks {F} (X gamma beta : Tensor F) (N C HxW : nat) : bool :=
  (numel X =? N * C * HxW)
  && (negb (defined gamma) || (numel gamma =? C))
  && (negb (defined beta) || (numel beta =? C)).

Definition backward_checks {F} (dY X mean rstd gamma : Tensor F) (N C HxW group : nat)
    : bool :=
  (numel dY =? N * C * HxW)
  && (numel X =? N * C * HxW)
  && (numel mean =? N * group)
  && (numel rstd =? N * group)
  && (negb (defined gamma) || (numel gamma =? C)).

(** The shapes of the output buffers a valid call is handed: each requested
    gradient has the extent of what it is the gradient of. *)
Definition gradient_shapes {F} (grads : Gradients F) (N C HxW : nat) : bool :=
  (negb (defined (dX grads)) || (numel (dX grads) =? N * C * HxW))
  && (negb (defined (dgamma grads)) || (numel (dgamma grads) =? C))
  && (negb (defined (dbeta grads)) || (numel (dbeta grads) =? C)).

Section BackwardRun.
Context {F : Type} {A : Arith F}.
Variable E : Executor.
Variable K : nat.

(** The internal gradients [ds] and [db] of a run. *)
Definition internal_ds (N C HxW : nat) (dY X : list F) : list F :=
  fst (ComputeInternalGradients E K N C HxW dY X
         (repeat fzero (N * C)) (repeat fzero (N * C))).
Definition internal_db (N C HxW : nat) (dY X : list F) : list F :=
  snd (ComputeInternalGradients E K N C HxW dY X
         (repeat fzero (N * C)) (repeat fzero (N * C))).

(** What a run that passes the checks does to the three gradient tensors. *)
Definition backward_result (dY X mean rstd gamma : Tensor F) (N C HxW group : nat)
    (grads : Gradients F) : Gradients F :=
  let ds := internal_ds N C HxW (data dY) (data X) in
  let db := internal_db N C HxW (data dY) (data X) in
  mkGradients
    (if defined (dX grads)
     then mkTensor true
            (GroupNormInputBackward E K N C HxW group (data dY) (data X) (data mean)
               (data rstd) (data_ptr_or_null gamma) ds db (data (dX grads)))
     else dX grads)
    (if defined (dgamma grads)
     then mkTensor true
            (GammaBackward E K N C group (data mean) (data rstd) ds db (data (dgamma grads)))
     else dgamma grads)
    (if defined (dbeta grads)
     then mkTensor true (BetaBackward E K N C db (data (dbeta grads)))
     else dbeta grads).

Lemma backward_run dY X mean rstd gamma N C HxW group grads :
  backward_checks dY X mean rstd gamma N C HxW group = true ->
  GroupNormBackwardKernelImplInternal E K dY X mean rstd gamma N C HxW group grads
  = (inr tt, backward_result dY X mean rstd gamma N C HxW group grads).
Proof.
  unfold backward_checks. rewrite !andb_true_iff. intros [[[[H1 H2] H3] H4] H5].
  unfold GroupNormBackwardKernelImplInternal.
  rewrite !check_pass by assumption.
  unfold modify, backward_result, internal_ds, internal_db, data_ptr_or_null.
  destruct (ComputeInternalGradients E K N C HxW (data dY) (data X)
              (repeat fzero (N * C)) (repeat fzero (N * C))) as [ds db].
  simpl. destruct (defined (dX grads)), (defined (dgamma grads)), (defined (dbeta grads));
    reflexivity.
Qed.

Lemma backward_rejects dY X mean rstd gamma N C HxW group grads :
  backward_checks dY X mean rstd gamma N C HxW group = false ->
  exists what,
    GroupNormBackwardKernelImplInternal E K dY X mean rstd gamma N C HxW group grads
    = (inl (check_failed what), grads).
Proof.
  unfold backward_checks, GroupNormBackwardKernelImplInternal. intros H.
  destruct (numel dY =? N * C * HxW) eqn:H1;
    [rewrite check_pass by reflexivity|eexists; apply check_fail; reflexivity].
  destruct (numel X =? N * C * HxW) eqn:H2;
    [rewrite check_pass by reflexivity|eexists; apply check_fail; reflexivity].
  destruct (numel mean =? N * group) eqn:H3;
    [rewrite check_pass by reflexivity|eexists; apply check_fail; reflexivity].
  destruct (numel rstd =? N * group) eqn:H4;
    [rewrite check_pass by reflexivity|eexists; apply check_fail; reflexivity].
  simpl in H. eexists. apply check_fail. assumption.
Qed.
End BackwardRun.

(* ================================================================= *)
(** ** Exact arithmetic: sums *)

Open Scope R_scope.

(** [Rsum f n = f 0 + ... + f (n - 1)]. *)
Fixpoint Rsum (f : nat -> R) (n : nat) : R :=
  match n with
  | O => 0
  | Datatypes.S n' => Rsum f n' + f n'
  end.

(** The sum of the lanes of a register. *)
Definition lsum (v : list R) : R := fold_right Rplus 0 v.

Section RealSums.

Lemma Rsum_ext f g n : (forall i, (i < n)%nat -> f i = g i) -> Rsum f n = Rsum g n.
Proof.
  induction n as [|n IH]; intros H; simpl; [reflexivity|].
  rewrite IH, H by (auto; intros; apply H; lia). reflexivity.
Qed.

Lemma Rsum_zero n : Rsum (fun _ => 0) n = 0.
Proof. induction n as [|n IH]; simpl; [|rewrite IH]; lra. Qed.

Lemma Rsum_plus f g n : Rsum (fun i => f i + g i) n = Rsum f n + Rsum g n.
Proof. induction n as [|n IH]; simpl; [|rewrite IH]; lra. Qed.

Lemma Rsum_scal c f n : Rsum (fun i => c * f i) n = c * Rsum f n.
Proof. induction n as [|n IH]; simpl; [|rewrite IH]; lra. Qed.

Lemma Rsum_const c n : Rsum (fun _ => c) n = INR n * c.
Proof.
  induction n as [|n IH]; [simpl; lra|].
  rewrite S_INR. simpl. rewrite IH. lra.
Qed.

Lemma Rsum_app f a b : Rsum f (a + b) = Rsum f a + Rsum (fun i => f (a + i)%nat) b.
Proof.
  induction b as [|b IH].
  - rewrite Nat.add_0_r. simpl. lra.
  - rewrite Nat.add_succ_r. simpl. rewrite IH. lra.
Qed.

(** Sums over a product range, by blocks. *)
Lemma Rsum_blocks f a b :
  Rsum f (a * b) = Rsum (fun i => Rsum (fun j => f (i * b + j)%nat) b) a.
Proof.
  induction a as [|a IH]; [reflexivity|].
  simpl Rsum at 2. rewrite <- IH.
  replace (Datatypes.S a * b)%nat with (a * b + b)%nat by lia.
  apply Rsum_app.
Qed.

Lemma Rsum_swap (f : nat -> nat -> R) a b :
  Rsum (fun i => Rsum (fun j => f i j) b) a = Rsum (fun j => Rsum (fun i => f i j) a) b.
Proof.
  induction a as [|a IH]; simpl.
  - now rewrite Rsum_zero.
  - rewrite IH, <- Rsum_plus. reflexivity.
Qed.

(** A sum in which one index carries all the weight. *)
Lemma Rsum_single (f : nat -> R) n i0 :
  (i0 < n)%nat -> (forall i, (i < n)%nat -> i <> i0 -> f i = 0) -> Rsum f n = f i0.
Proof.
  intros Hi0 Hz. replace n with (i0 + Datatypes.S (n - i0 - 1))%nat by lia.
  rewrite Rsum_app.
  rewrite (Rsum_ext f (fun _ => 0) i0) by (intros; apply Hz; lia).
  rewrite Rsum_zero.
  replace (Datatypes.S (n - i0 - 1)) with (1 + (n - i0 - 1))%nat by lia.
  rewrite (Rsum_app _ 1). simpl.
  rewrite (Rsum_ext _ (fun _ => 0)) by (intros; apply Hz; lia).
  rewrite Rsum_zero, Nat.add_0_r. lra.
Qed.

(** The accumulation loop [acc = x; for i: acc += f i]. *)
Lemma for_range_Rsum (f : nat -> R) a c x :
  for_range a c (fun i y => y +^ f i) x = x + Rsum (fun i => f (a + i)%nat) c.
Proof.
  induction c as [|c IH].
  - simpl. lra.
  - rewrite for_range_snoc, IH. simpl. lra.
Qed.

Lemma irange_Rsum (f : nat -> R) n :
  irange 0 n (fun i y => y +^ f i) fzero = Rsum f n.
Proof.
  unfold irange. rewrite Nat.sub_0_r, for_range_Rsum.
  rewrite (Rsum_ext (fun i => f (0 + i)%nat) f n) by reflexivity.
  change (@fzero R R_arith) with 0. lra.
Qed.

(** Lanes. *)
Lemma fold_left_Rplus (v : list R) x : fold_left Rplus v x = x + lsum v.
Proof.
  revert x; induction v as [|a v IH]; intros x; simpl; [lra|].
  rewrite IH. lra.
Qed.

Lemma accumulate_lsum (v : list R) : accumulate v = lsum v.
Proof. unfold accumulate. simpl. rewrite fold_left_Rplus. lra. Qed.

Lemma vec_reduce_all_lsum (v : list R) : vec_reduce_all v = lsum v.
Proof.
  destruct v as [|a v]; [reflexivity|]. simpl. now rewrite fold_left_Rplus.
Qed.

Lemma vmap2_length (f : R -> R -> R) (x y : list R) :
  length x = length y -> length (vmap2 f x y) = length x.
Proof.
  revert y; induction x as [|a x IH]; intros [|b y] H; simpl in *; try lia.
  rewrite IH; lia.
Qed.

Lemma vadd_length (x y : list R) : length x = length y -> length (vadd x y) = length x.
Proof. apply vmap2_length. Qed.

Lemma lsum_vadd (x y : list R) :
  length x = length y -> lsum (vadd x y) = lsum x + lsum y.
Proof.
  revert y; induction x as [|a x IH]; intros [|b y] H; simpl in *; try lia; [lra|].
  unfold vadd in IH. rewrite IH by lia. lra.
Qed.

Lemma vmap2_map (h : R -> R -> R) (f g : nat -> R) (l : list nat) :
  vmap2 h (map f l) (map g l) = map (fun i => h (f i) (g i)) l.
Proof. induction l as [|a l IH]; simpl; [|rewrite IH]; reflexivity. Qed.

Lemma lsum_app (l1 l2 : list R) : lsum (l1 ++ l2) = lsum l1 + lsum l2.
Proof. induction l1 as [|a l1 IH]; simpl; [|rewrite IH]; lra. Qed.

Lemma lsum_map_seq (f : nat -> R) a n :
  lsum (map f (seq a n)) = Rsum (fun i => f (a + i)%nat) n.
Proof.
  induction n as [|n IH]; [reflexivity|].
  rewrite seq_S, map_app, lsum_app, IH. simpl. lra.
Qed.

Lemma lsum_repeat0 n : lsum (repeat 0 n) = 0.
Proof. induction n as [|n IH]; simpl; [|rewrite IH]; lra. Qed.

Lemma repeat_map_seq (x : R) a n : repeat x n = map (fun _ => x) (seq a n).
Proof.
  revert a; induction n as [|n IH]; intros a; simpl; [|rewrite <- IH]; reflexivity.
Qed.
End RealSums.

(** ** Exact arithmetic: vectorized accumulation *)

Section RealLanes.
Variable K : nat.

Lemma step_count (D : nat) : ((D / K * K + K - 1) / K = D / K)%nat.
Proof.
  destruct (Nat.eq_dec K 0) as [->|HK]; [reflexivity|].
  symmetry. apply (Nat.div_unique _ K (D / K) (K - 1)); lia.
Qed.

Lemma Rsum_mask (f : nat -> R) cnt n :
  (cnt <= n)%nat -> Rsum (fun l => if l <? cnt then f l else 0) n = Rsum f cnt.
Proof.
  intros H. replace n with (cnt + (n - cnt))%nat by lia. rewrite Rsum_app.
  rewrite (Rsum_ext _ f cnt)
    by (intros i Hi; destruct (Nat.ltb_spec i cnt); [reflexivity|lia]).
  rewrite (Rsum_ext _ (fun _ => 0) (n - cnt))
    by (intros i Hi; destruct (Nat.ltb_spec (cnt + i) cnt); [lia|reflexivity]).
  rewrite Rsum_zero. lra.
Qed.

Lemma Rsum_split_tail (f : nat -> R) (D : nat) :
  Rsum f D = Rsum f (D / K * K) + Rsum (fun j => f (D / K * K + j)%nat) (D - D / K * K).
Proof.
  rewrite <- Rsum_app. f_equal.
  destruct (Nat.eq_dec K 0) as [->|HK]; [simpl; lia|].
  pose proof (Nat.div_mod_eq D K). pose proof (Nat.mod_upper_bound D K HK). nia.
Qed.

Lemma tail_short (D : nat) : (0 < K -> D - D / K * K < K)%nat.
Proof.
  intros HK. pose proof (Nat.div_mod_eq D K).
  pose proof (Nat.mod_upper_bound D K ltac:(lia)). nia.
Qed.

(** [n] full registers accumulated lane by lane: the lanes sum to the sum of
    the [n * K] elements. *)
Lemma lanes_loop (g : nat -> R) (n : nat) (acc0 : list R) :
  length acc0 = K ->
  length (for_range 0 n (fun q acc => vadd acc (map (fun l => g (q * K + l)%nat) (seq 0 K)))
                    acc0) = K /\
  lsum (for_range 0 n (fun q acc => vadd acc (map (fun l => g (q * K + l)%nat) (seq 0 K)))
                  acc0)
  = lsum acc0 + Rsum g (n * K).
Proof.
  intros H0. induction n as [|n [IHl IHs]].
  - simpl. split; [assumption|lra].
  - rewrite for_range_snoc. simpl Nat.add. split.
    + rewrite vadd_length; [assumption|].
      now rewrite IHl, length_map, length_seq.
    + rewrite lsum_vadd by (now rewrite IHl, length_map, length_seq).
      rewrite IHs, lsum_map_seq.
      replace (Datatypes.S n * K)%nat with (n * K + K)%nat by lia.
      rewrite Rsum_app.
      rewrite (Rsum_ext (fun i => g (n * K + (0 + i))%nat) (fun i => g (n * K + i)%nat))
        by reflexivity.
      lra.
Qed.

Lemma for_step_lanes (g : nat -> R) (D : nat) (body : nat -> list R -> list R) :
  (forall q acc, body (q * K)%nat acc
                 = vadd acc (map (fun l => g (q * K + l)%nat) (seq 0 K))) ->
  forall acc0, length acc0 = K ->
  length (for_step (D / K * K) K body acc0) = K /\
  lsum (for_step (D / K * K) K body acc0) = lsum acc0 + Rsum g (D / K * K).
Proof.
  intros Hbody acc0 H0. unfold for_step. rewrite step_count.
  rewrite (for_range_ext 0 (D / K) _
             (fun q acc => vadd acc (map (fun l => g (q * K + l)%nat) (seq 0 K))))
    by (intros; apply Hbody).
  now apply lanes_loop.
Qed.

Lemma vbroadcast_length (x : R) : length (vbroadcast K x) = K.
Proof. apply repeat_length. Qed.

Lemma lsum_vbroadcast0 : lsum (vbroadcast K 0) = 0.
Proof. apply lsum_repeat0. Qed.

(** The scalar tail [for j in [d, D): acc += f j]. *)
Lemma irange_tail (f : nat -> R) (d D : nat) x :
  (d <= D)%nat ->
  irange d D (fun j y => y +^ f j) x = x + Rsum (fun j => f (d + j)%nat) (D - d).
Proof. intros H. unfold irange. apply for_range_Rsum. Qed.
End RealLanes.

Section RealBackward.
Variable K : nat.

(** [ds] and [db] of one (batch, channel) pair are the two sums over its
    spatial extent. *)
Lemma InternalGradientsAt_R HxW (dY X : list R) i :
  InternalGradientsAt K HxW dY X i
  = (Rsum (fun k => load dY (i * HxW + k) * load X (i * HxW + k)) HxW,
     Rsum (fun k => load dY (i * HxW + k)) HxW).
Proof.
  unfold InternalGradientsAt.
  match goal with
  | |- context [let '(_, _) := ?p in _] => destruct p as [ds_vec db_vec] eqn:Hv
  end.
  assert (Hds : lsum ds_vec
                = Rsum (fun k => load dY (i * HxW + k) * load X (i * HxW + k)) (HxW / K * K)).
  { apply (f_equal fst) in Hv. simpl in Hv. rewrite <- Hv. unfold for_step.
    rewrite for_range_fst
      with (body' := fun q acc =>
              vadd acc (vmul (loadu K dY (i * HxW + q * K)) (loadu K X (i * HxW + q * K))))
      by reflexivity.
    simpl fst. rewrite step_count.
    destruct (lanes_loop K (fun k => load dY (i * HxW + k) * load X (i * HxW + k))
                (HxW / K) (vbroadcast K 0) (vbroadcast_length K 0)) as [_ Hs].
    rewrite lsum_vbroadcast0, Rplus_0_l in Hs. rewrite <- Hs. f_equal.
    apply for_range_ext. intros q acc _. f_equal. unfold vmul, loadu.
    rewrite vmap2_map. apply map_ext. intros l. simpl.
    now rewrite !Nat.add_assoc. }
  assert (Hdb : lsum db_vec = Rsum (fun k => load dY (i * HxW + k)) (HxW / K * K)).
  { apply (f_equal snd) in Hv. simpl in Hv. rewrite <- Hv. unfold for_step.
    rewrite for_range_snd
      with (body' := fun q acc => vadd acc (loadu K dY (i * HxW + q * K)))
      by reflexivity.
    simpl snd. rewrite step_count.
    destruct (lanes_loop K (fun k => load dY (i * HxW + k))
                (HxW / K) (vbroadcast K 0) (vbroadcast_length K 0)) as [_ Hs].
    rewrite lsum_vbroadcast0, Rplus_0_l in Hs. rewrite <- Hs. f_equal.
    apply for_range_ext. intros q acc _. f_equal. unfold loadu.
    apply map_ext. intros l. now rewrite !Nat.add_assoc. }
  assert (Hle : (HxW / K * K <= HxW)%nat).
  { destruct (Nat.eq_dec K 0) as [->|HK]; [simpl; lia|].
    pose proof (Nat.div_mod_eq HxW K). nia. }
  unfold irange.
  rewrite (for_range_pair_eta _ _
             (fun j y => y +^ load dY (i * HxW + j) * load X (i * HxW + j))
             (fun j y => y +^ load dY (i * HxW + j))).
  simpl fst. simpl snd. rewrite !for_range_Rsum, !accumulate_lsum, Hds, Hdb.
  rewrite (Rsum_split_tail K (fun k => load dY (i * HxW + k) * load X (i * HxW + k)) HxW).
  rewrite (Rsum_split_tail K (fun k => load dY (i * HxW + k)) HxW).
  f_equal; f_equal; apply Rsum_ext; intros j _; now rewrite !Nat.add_assoc.
Qed.
End RealBackward.

Section RealBackward2.
Variable K : nat.

(** [gamma[c]], or [1] when [gamma] is absent. *)
Definition gamma_or_one (gamma : option (list R)) (c : nat) : R :=
  if is_null gamma then 1 else deref gamma c.

Lemma GroupSums_R G D (gamma : option (list R)) (ds db : list R) i :
  GroupSums K G D gamma ds db i
  = (Rsum (fun j => load ds (i * D + j) * gamma_or_one gamma (i mod G * D + j)) D,
     Rsum (fun j => load db (i * D + j) * gamma_or_one gamma (i mod G * D + j)) D).
Proof.
  unfold GroupSums.
  match goal with
  | |- context [let '(_, _) := ?p in _] => destruct p as [ds_arr db_arr] eqn:Hv
  end.
  assert (Hlanes : forall (p : list R) q acc,
             vadd acc (vmul (loadu K p (i * D + q * K))
                            match gamma with
                            | Some gamma0 => loadu K gamma0 (i mod G * D + q * K)
                            | None => vbroadcast K fone
                            end)
             = vadd acc (map (fun l => load p (i * D + (q * K + l))
                                       * gamma_or_one gamma (i mod G * D + (q * K + l)))
                             (seq 0 K))).
  { intros p q acc. f_equal. unfold vmul, loadu, vbroadcast, gamma_or_one.
    destruct gamma as [gamma0|]; simpl is_null; cbv iota.
    - rewrite vmap2_map. apply map_ext. intros l. simpl. now rewrite !Nat.add_assoc.
    - rewrite (repeat_map_seq fone 0 K), vmap2_map. apply map_ext. intros l.
      now rewrite !Nat.add_assoc. }
  assert (Hds : lsum ds_arr
                = Rsum (fun j => load ds (i * D + j) * gamma_or_one gamma (i mod G * D + j))
                       (D / K * K)).
  { apply (f_equal fst) in Hv. simpl in Hv. rewrite <- Hv. unfold CalcDsDb, for_step.
    rewrite for_range_fst
      with (body' := fun q acc =>
              vadd acc (vmul (loadu K ds (i * D + q * K))
                             match gamma with
                             | Some gamma0 => loadu K gamma0 (i mod G * D + q * K)
                             | None => vbroadcast K fone
                             end))
      by reflexivity.
    simpl fst. rewrite step_count.
    destruct (lanes_loop K
                (fun j => load ds (i * D + j) * gamma_or_one gamma (i mod G * D + j))
                (D / K) (vbroadcast K 0) (vbroadcast_length K 0)) as [_ Hs].
    rewrite lsum_vbroadcast0, Rplus_0_l in Hs. rewrite <- Hs. f_equal.
    apply for_range_ext. intros q acc _. apply Hlanes. }
  assert (Hdb : lsum db_arr
                = Rsum (fun j => load db (i * D + j) * gamma_or_one gamma (i mod G * D + j))
                       (D / K * K)).
  { apply (f_equal snd) in Hv. simpl in Hv. rewrite <- Hv. unfold CalcDsDb, for_step.
    rewrite for_range_snd
      with (body' := fun q acc =>
              vadd acc (vmul (loadu K db (i * D + q * K))
                             match gamma with
                             | Some gamma0 => loadu K gamma0 (i mod G * D + q * K)
                             | None => vbroadcast K fone
                             end))
      by reflexivity.
    simpl snd. rewrite step_count.
    destruct (lanes_loop K
                (fun j => load db (i * D + j) * gamma_or_one gamma (i mod G * D + j))
                (D / K) (vbroadcast K 0) (vbroadcast_length K 0)) as [_ Hs].
    rewrite lsum_vbroadcast0, Rplus_0_l in Hs. rewrite <- Hs. f_equal.
    apply for_range_ext. intros q acc _. apply Hlanes. }
  unfold irange.
  rewrite (for_range_pair_eta _ _
             (fun j y => y +^ load ds (i * D + j) * gamma_or_one gamma (i mod G * D + j))
             (fun j y => y +^ load db (i * D + j) * gamma_or_one gamma (i mod G * D + j))).
  simpl fst. simpl snd. rewrite !for_range_Rsum, !accumulate_lsum, Hds, Hdb.
  rewrite (Rsum_split_tail K
             (fun j => load ds (i * D + j) * gamma_or_one gamma (i mod G * D + j)) D).
  rewrite (Rsum_split_tail K
             (fun j => load db (i * D + j) * gamma_or_one gamma (i mod G * D + j)) D).
  reflexivity.
Qed.
End RealBackward2.

(* ================================================================= *)
(** ** The backward entry point *)

Close Scope R_scope.

Section BackwardEntry.
Context {F : Type} {A : Arith F}.
Variable E : Executor.
Hypothesis E_ok : executor_ok E.
Variable K : nat.

(** What a run leaves in [dbeta[c]], from [dY] alone. *)
Definition dbeta_val (N C HxW : nat) (dY : list F) (c : nat) : F :=
  irange 0 N (fun n y => y +^ db_at K HxW dY (n * C + c)) fzero.

Lemma internal_ds_load N C HxW dY X k :
  k < N * C ->
  load (internal_ds E K N C HxW dY X) k = fst (InternalGradientsAt K HxW dY X k).
Proof.
  intros Hk. unfold internal_ds. rewrite ComputeInternalGradients_eq by assumption. simpl.
  rewrite (pointwise_load _ _ _ k
             (pointwise_fill 0 (N * C) (fun i => fst (InternalGradientsAt K HxW dY X i))))
    by (rewrite repeat_length; assumption).
  unfold in_block. simpl. destruct (Nat.ltb_spec k (N * C)); [|lia].
  now rewrite Nat.sub_0_r.
Qed.

Lemma internal_db_load N C HxW dY X k :
  k < N * C -> load (internal_db E K N C HxW dY X) k = db_at K HxW dY k.
Proof. intros Hk. now apply ComputeInternalGradients_db. Qed.

Lemma beta_val_internal N C HxW dY X c :
  c < C -> beta_val N C (internal_db E K N C HxW dY X) c = dbeta_val N C HxW dY c.
Proof.
  intros Hc. unfold beta_val, dbeta_val. apply irange_ext. intros n y Hn.
  rewrite internal_db_load by nia. reflexivity.
Qed.

Lemma dX_load N C HxW G dY X mean rstd gamma ds db buf k :
  0 < G -> C mod G = 0 -> length buf = N * C * HxW -> k < N * C * HxW ->
  load (GroupNormInputBackward E K N C HxW G dY X mean rstd gamma ds db buf) k
  = dx_val K HxW G (C / G) dY X mean rstd gamma ds db k.
Proof.
  intros HG Hdiv Hlen Hk.
  assert (HC : C = G * (C / G)) by (now apply Nat.Div0.div_exact).
  rewrite (pointwise_load _ _ _ k
             (GroupNormInputBackward_pointwise E E_ok K N C HxW G dY X mean rstd gamma ds db))
    by lia.
  unfold selects. set (D := C / G) in *.
  assert (Hpos : 0 < D * HxW) by nia.
  assert (Hq : k / (D * HxW) < N * G)
    by (apply Nat.Div0.div_lt_upper_bound; nia).
  destruct (Nat.ltb_spec 0 (D * HxW)); [|lia].
  destruct (Nat.ltb_spec (k / (D * HxW)) (N * G)); [|lia].
  reflexivity.
Qed.

Lemma dgamma_load N C G mean rstd ds db buf k :
  0 < G -> C mod G = 0 -> length buf = C -> k < C ->
  load (GammaBackward E K N C G mean rstd ds db buf) k
  = gamma_val N G (C / G) mean rstd ds db k.
Proof.
  intros HG Hdiv Hlen Hk.
  assert (HC : C = G * (C / G)) by (now apply Nat.Div0.div_exact).
  rewrite (pointwise_load _ _ _ k
             (GammaBackward_pointwise E E_ok K N C G mean rstd ds db)) by lia.
  unfold selects. set (D := C / G) in *.
  assert (HD : 0 < D) by nia.
  pose proof (Nat.mod_upper_bound k D ltac:(lia)).
  destruct (Nat.ltb_spec k (G * D)); [|lia].
  destruct (Nat.ltb_spec (k mod D) D); [|lia].
  reflexivity.
Qed.

Lemma dbeta_load N C db buf k :
  length buf = C -> k < C -> load (BetaBackward E K N C db buf) k = beta_val N C db k.
Proof.
  intros Hlen Hk.
  rewrite (pointwise_load _ _ _ k (BetaBackward_pointwise E E_ok K N C db)) by lia.
  unfold selects. destruct (Nat.ltb_spec k C); [|lia]. reflexivity.
Qed.
End BackwardEntry.

(* ================================================================= *)
(** * The backward claims *)

Open Scope R_scope.

(** C2.  For a valid backward call that requests [dX], over exact arithmetic:
    [dX[n,c,k] = c1 * dY[n,c,k] + c2 * X[n,c,k] + c3], where [ds[n,c]] and
    [db[n,c]] are the sums over the spatial extent of [dY * X] and of [dY],
    [ds_g] and [db_g] are their sums over the [D] channels of the group of
    [c], each weighted by [gamma] (or 1), [s = 1 / (D * HxW)],
    [c1 = rstd[n,g] * gamma[c]] (or [rstd[n,g]]),
    [c2 = (db_g * mean[n,g] - ds_g) * rstd[n,g]^3 * s] and
    [c3 = - c2 * mean[n,g] - db_g * rstd[n,g] * s]. *)
Theorem input_gradient_closed_form (E : Executor) (K : nat)
    (dY X mean rstd gamma : Tensor R) (N C HxW G : nat) (grads : Gradients R) :
  executor_ok E ->
  backward_checks dY X mean rstd gamma N C HxW G = true ->
  defined (dX grads) = true ->
  numel (dX grads) = (N * C * HxW)%nat ->
  (0 < G)%nat -> (C mod G = 0)%nat ->
  let D := (C / G)%nat in
  let r := GroupNormBackwardKernelImpl E K dY X mean rstd gamma N C HxW G grads in
  succeeded r = true /\
  forall n g j k, (n < N)%nat -> (g < G)%nat -> (j < D)%nat -> (k < HxW)%nat ->
    let c := (g * D + j)%nat in
    let gam := gamma_or_one (data_ptr_or_null gamma) in
    let ds := fun c' => Rsum (fun h => load (data dY) ((n * C + c') * HxW + h)
                                       * load (data X) ((n * C + c') * HxW + h)) HxW in
    let db := fun c' => Rsum (fun h => load (data dY) ((n * C + c') * HxW + h)) HxW in
    let ds_g := Rsum (fun j' => ds (g * D + j')%nat * gam (g * D + j')%nat) D in
    let db_g := Rsum (fun j' => db (g * D + j')%nat * gam (g * D + j')%nat) D in
    let s := 1 / INR (D * HxW) in
    let mu := load (data mean) (n * G + g) in
    let rs := load (data rstd) (n * G + g) in
    let c1 := rs * gam c in
    let c2 := (db_g * mu - ds_g) * rs ^ 3 * s in
    let c3 := - c2 * mu - db_g * rs * s in
    load (data (dX (snd r))) ((n * C + c) * HxW + k)
    = c1 * load (data dY) ((n * C + c) * HxW + k)
      + c2 * load (data X) ((n * C + c) * HxW + k) + c3.
Proof.
  intros Hok Hchk Hdef Hnum HG Hdiv D r.
  assert (HC : C = (G * D)%nat) by (now apply Nat.Div0.div_exact).
  unfold r, GroupNormBackwardKernelImpl. rewrite backward_run by assumption.
  split; [reflexivity|].
  intros n g j k Hn Hg Hj Hk. cbv zeta. simpl snd.
  unfold backward_result. rewrite Hdef. simpl data.
  assert (Hi : (n * C + (g * D + j) = (n * G + g) * D + j)%nat) by nia.
  assert (Hlt : ((n * G + g) * D + j < N * C)%nat) by nia.
  rewrite dX_load; [|assumption|assumption|assumption|assumption|nia].
  unfold dx_val. fold D. rewrite !Hi.
  destruct (block2_index D HxW (n * G + g) j k Hj Hk) as [-> ->].
  assert (Hmod : ((n * G + g) mod G = g)%nat).
  { rewrite Nat.add_comm, Nat.Div0.mod_add. now apply Nat.mod_small. }
  unfold GroupCoefficients. rewrite GroupSums_R, Hmod.
  assert (Hds : forall j', (j' < D)%nat ->
            load (internal_ds E K N C HxW (data dY) (data X)) ((n * G + g) * D + j')
            = Rsum (fun h => load (data dY) ((n * C + (g * D + j')) * HxW + h)
                             * load (data X) ((n * C + (g * D + j')) * HxW + h)) HxW).
  { intros j' Hj'. rewrite internal_ds_load by (auto; nia).
    rewrite InternalGradientsAt_R. simpl fst.
    replace (n * C + (g * D + j'))%nat with ((n * G + g) * D + j')%nat by nia.
    reflexivity. }
  assert (Hdb : forall j', (j' < D)%nat ->
            load (internal_db E K N C HxW (data dY) (data X)) ((n * G + g) * D + j')
            = Rsum (fun h => load (data dY) ((n * C + (g * D + j')) * HxW + h)) HxW).
  { intros j' Hj'. unfold internal_db. rewrite ComputeInternalGradients_eq by assumption.
    simpl snd.
    rewrite (pointwise_load _ _ _ ((n * G + g) * D + j')%nat
               (pointwise_fill 0 (N * C)
                  (fun i => snd (InternalGradientsAt K HxW (data dY) (data X) i))))
      by (rewrite repeat_length; nia).
    unfold in_block. simpl Nat.add.
    destruct (Nat.leb_spec 0 ((n * G + g) * D + j')); [|lia].
    destruct (Nat.ltb_spec ((n * G + g) * D + j') (N * C)); [|nia].
    simpl andb. cbv iota. rewrite Nat.sub_0_r, InternalGradientsAt_R. simpl snd.
    replace (n * C + (g * D + j'))%nat with ((n * G + g) * D + j')%nat by nia.
    reflexivity. }
  rewrite (Rsum_ext _ _ D (fun j' Hj' => f_equal2 Rmult (Hds j' Hj') eq_refl)).
  rewrite (Rsum_ext
             (fun j' => load (internal_db E K N C HxW (data dY) (data X))
                             ((n * G + g) * D + j')
                        * gamma_or_one (data_ptr_or_null gamma) (g * D + j'))
             _ D (fun j' Hj' => f_equal2 Rmult (Hdb j' Hj') eq_refl)).
  simpl fst. simpl snd. unfold gamma_or_one.
  change (@castT R R_arith) with (fun x : R => x). cbv beta.
  change (@fmul R R_arith) with Rmult. change (@fadd R R_arith) with Rplus.
  change (@fsub R R_arith) with Rminus. change (@fneg R R_arith) with Ropp.
  change (@fdiv R R_arith) with Rdiv. change (@fone R R_arith) with 1.
  change (@of_int R R_arith) with INR.
  ring.
Qed.

(** A run of the backward kernel on a batch of one sample, two channels in
    one group and one spatial position: [dX[0] = -65]. *)
Lemma input_gradient_closed_form_witness :
  let dY := tensor [1; 2] in
  let X := tensor [3; 4] in
  let grads := mkGradients (tensor [0; 0]) undefined undefined in
  let r := GroupNormBackwardKernelImpl sequential 2 dY X (tensor [1]) (tensor [2])
             undefined 1 2 1 1 grads in
  succeeded r = true /\ load (data (dX (snd r))) 0 = -65.
Proof.
  cbv zeta.
  destruct (input_gradient_closed_form sequential 2 (tensor [1; 2]) (tensor [3; 4])
              (tensor [1]) (tensor [2]) undefined 1 2 1 1
              (mkGradients (tensor [0; 0]) undefined undefined)
              sequential_ok eq_refl eq_refl eq_refl (le_n 1) eq_refl) as [Hs Hv].
  split; [exact Hs|].
  specialize (Hv 0%nat 0%nat 0%nat 0%nat (le_n 1) (le_n 1) (le_S 1 1 (le_n 1)) (le_n 1)).
  cbv zeta in Hv. simpl Nat.add in Hv. simpl Nat.mul in Hv. rewrite Hv.
  unfold gamma_or_one, load. simpl. lra.
Defined.

Close Scope R_scope.

(** C9.  For a valid backward call, in every arithmetic: the call succeeds;
    an output that was not requested is left exactly as it was; an output
    that was requested stays defined, keeps its extent, and every one of its
    elements is written with a value that the inputs determine (it does not
    mention what the buffer held before). *)
Theorem backward_writes_requested_outputs_only {F : Type} {A : Arith F}
    (E : Executor) (K : nat) (dY X mean rstd gamma : Tensor F) (N C HxW G : nat)
    (grads : Gradients F) :
  executor_ok E ->
  backward_checks dY X mean rstd gamma N C HxW G = true ->
  gradient_shapes grads N C HxW = true ->
  0 < G -> C mod G = 0 ->
  let r := GroupNormBackwardKernelImpl E K dY X mean rstd gamma N C HxW G grads in
  let ds := internal_ds E K N C HxW (data dY) (data X) in
  let db := internal_db E K N C HxW (data dY) (data X) in
  succeeded r = true /\
  (if defined (dX grads)
   then defined (dX (snd r)) = true /\ numel (dX (snd r)) = numel (dX grads) /\
        forall k, k < numel (dX grads) ->
          load (data (dX (snd r))) k
          = dx_val K HxW G (C / G) (data dY) (data X) (data mean) (data rstd)
                   (data_ptr_or_null gamma) ds db k
   else dX (snd r) = dX grads) /\
  (if defined (dgamma grads)
   then defined (dgamma (snd r)) = true /\ numel (dgamma (snd r)) = numel (dgamma grads) /\
        forall k, k < numel (dgamma grads) ->
          load (data (dgamma (snd r))) k
          = gamma_val N G (C / G) (data mean) (data rstd) ds db k
   else dgamma (snd r) = dgamma grads) /\
  (if defined (dbeta grads)
   then defined (dbeta (snd r)) = true /\ numel (dbeta (snd r)) = numel (dbeta grads) /\
        forall k, k < numel (dbeta grads) ->
          load (data (dbeta (snd r))) k = beta_val N C db k
   else dbeta (snd r) = dbeta grads).
Proof.
  intros Hok Hchk Hshape HG Hdiv r ds db.
  unfold r, GroupNormBackwardKernelImpl. rewrite backward_run by assumption.
  split; [reflexivity|]. simpl snd. unfold backward_result. fold ds db.
  unfold gradient_shapes in Hshape. rewrite !andb_true_iff in Hshape.
  destruct Hshape as [[HsX Hsg] Hsb].
  repeat split.
  - destruct (defined (dX grads)); [|reflexivity]. simpl in HsX.
    apply Nat.eqb_eq in HsX. simpl dX. simpl defined. simpl data. repeat split.
    + unfold numel. simpl data.
      apply (pointwise_length _ _ _
               (GroupNormInputBackward_pointwise E Hok K N C HxW G _ _ _ _ _ _ _)).
    + intros k Hk. apply dX_load; auto. unfold numel in *. lia.
  - destruct (defined (dgamma grads)); [|reflexivity]. simpl in Hsg.
    apply Nat.eqb_eq in Hsg. simpl dgamma. simpl defined. simpl data. repeat split.
    + unfold numel. simpl data.
      apply (pointwise_length _ _ _ (GammaBackward_pointwise E Hok K N C G _ _ _ _)).
    + intros k Hk. apply dgamma_load; auto. unfold numel in *. lia.
  - destruct (defined (dbeta grads)); [|reflexivity]. simpl in Hsb.
    apply Nat.eqb_eq in Hsb. simpl dbeta. simpl defined. simpl data. repeat split.
    + unfold numel. simpl data.
      apply (pointwise_length _ _ _ (BetaBackward_pointwise E Hok K N C _)).
    + intros k Hk. apply dbeta_load; auto. unfold numel in *. lia.
Qed.

(** Requesting only [dbeta], with sentinels in the other two buffers. *)
Lemma backward_writes_requested_outputs_only_witness :
  let s := IEEE.lit 7 in
  let grads := mkGradients (mkTensor false [s; s; s; s]) (mkTensor false [s; s])
                           (tensor [s; s]) in
  let r := GroupNormBackwardKernelImpl (A := double_arith) sequential 4
             (tensor (map IEEE.lit [1; 2; 3; 4]%float))
             (tensor (map IEEE.lit [5; 6; 7; 8]%float))
             (tensor [IEEE.lit 0]) (tensor [IEEE.lit 1]) undefined 1 2 2 1 grads in
  succeeded r = true /\ dX (snd r) = dX grads /\ dgamma (snd r) = dgamma grads.
Proof.
  cbv zeta.
  destruct (backward_writes_requested_outputs_only (A := double_arith) sequential 4
              (tensor (map IEEE.lit [1; 2; 3; 4]%float))
              (tensor (map IEEE.lit [5; 6; 7; 8]%float))
              (tensor [IEEE.lit 0]) (tensor [IEEE.lit 1]) undefined 1 2 2 1
              (mkGradients (mkTensor false [IEEE.lit 7; IEEE.lit 7; IEEE.lit 7; IEEE.lit 7])
                           (mkTensor false [IEEE.lit 7; IEEE.lit 7])
                           (tensor [IEEE.lit 7; IEEE.lit 7]))
              sequential_ok eq_refl eq_refl (le_n 1) eq_refl) as [Hs [HX [Hg _]]].
  repeat split; assumption.
Defined.

(** The same call, evaluated: [dbeta] is written, the sentinels stay. *)
Example only_dbeta_requested :
  let s := IEEE.lit 7 in
  let grads := mkGradients (mkTensor false [s; s; s; s]) (mkTensor false [s; s])
                           (tensor [s; s]) in
  let r := GroupNormBackwardKernelImpl (A := double_arith) sequential 4
             (tensor (map IEEE.lit [1; 2; 3; 4]%float))
             (tensor (map IEEE.lit [5; 6; 7; 8]%float))
             (tensor [IEEE.lit 0]) (tensor [IEEE.lit 1]) undefined 1 2 2 1 grads in
  snd r = mkGradients (mkTensor false [s; s; s; s]) (mkTensor false [s; s])
                      (tensor (map IEEE.lit [3; 7]%float)).
Proof. vm_compute. reflexivity. Qed.

Section BetaGradient.
Context {F : Type} {A : Arith F}.

(** A run that requests [dbeta] leaves [dbeta_val], a function of [dY] and
    the extents alone, in each of its elements. *)
Lemma dbeta_run (E : Executor) (K : nat) (dY X mean rstd gamma : Tensor F)
    (N C HxW G : nat) (grads : Gradients F) :
  executor_ok E ->
  backward_checks dY X mean rstd gamma N C HxW G = true ->
  defined (dbeta grads) = true -> numel (dbeta grads) = C ->
  let r := GroupNormBackwardKernelImpl E K dY X mean rstd gamma N C HxW G grads in
  defined (dbeta (snd r)) = true /\ numel (dbeta (snd r)) = C /\
  forall c, c < C -> load (data (dbeta (snd r))) c = dbeta_val K N C HxW (data dY) c.
Proof.
  intros Hok Hchk Hdef Hnum r.
  unfold r, GroupNormBackwardKernelImpl. rewrite backward_run by assumption.
  simpl snd. unfold backward_result. simpl dbeta. rewrite Hdef. simpl.
  split; [reflexivity|]. split.
  - unfold numel. simpl data.
    rewrite (pointwise_length _ _ _ (BetaBackward_pointwise E Hok K N C _)). exact Hnum.
  - intros c Hc. rewrite dbeta_load by assumption. now apply beta_val_internal.
Qed.

Lemma tensor_ext (t t' : Tensor F) :
  defined t = defined t' -> numel t = numel t' ->
  (forall k, k < numel t -> load (data t) k = load (data t') k) -> t = t'.
Proof.
  destruct t as [d l], t' as [d' l']. unfold numel. simpl. intros -> Hl Hk.
  f_equal. now apply buffer_ext.
Qed.
End BetaGradient.

Open Scope R_scope.

Lemma db_at_R (K HxW : nat) (dY : list R) (i : nat) :
  db_at K HxW dY i = Rsum (fun h => load dY (i * HxW + h)) HxW.
Proof.
  rewrite <- (InternalGradientsAt_db K HxW dY [] i), InternalGradientsAt_R. reflexivity.
Qed.

(** C10.  For a valid backward call that requests [dbeta]: (1) in every
    arithmetic, two runs on the same [dY] and extents produce the same
    [dbeta], whatever their [X], [mean], [rstd], [gamma], the prior contents
    of their [dbeta] buffers (and their group count and executor); (2) over
    exact arithmetic, [dbeta[c]] is the sum over [n] and [hxw] of
    [dY[n,c,hxw]]. *)
Theorem dbeta_depends_on_dY_alone :
  (forall (F : Type) (A : Arith F) (E1 E2 : Executor) (K : nat)
          (dY X1 X2 mean1 mean2 rstd1 rstd2 gamma1 gamma2 : Tensor F)
          (N C HxW G1 G2 : nat) (grads1 grads2 : Gradients F),
     executor_ok E1 -> executor_ok E2 ->
     backward_checks dY X1 mean1 rstd1 gamma1 N C HxW G1 = true ->
     backward_checks dY X2 mean2 rstd2 gamma2 N C HxW G2 = true ->
     defined (dbeta grads1) = true -> numel (dbeta grads1) = C ->
     defined (dbeta grads2) = true -> numel (dbeta grads2) = C ->
     dbeta (snd (GroupNormBackwardKernelImpl E1 K dY X1 mean1 rstd1 gamma1
                   N C HxW G1 grads1))
     = dbeta (snd (GroupNormBackwardKernelImpl E2 K dY X2 mean2 rstd2 gamma2
                     N C HxW G2 grads2)))
  /\
  (forall (E : Executor) (K : nat) (dY X mean rstd gamma : Tensor R)
          (N C HxW G : nat) (grads : Gradients R),
     executor_ok E ->
     backward_checks dY X mean rstd gamma N C HxW G = true ->
     defined (dbeta grads) = true -> numel (dbeta grads) = C ->
     forall c, (c < C)%nat ->
       load (data (dbeta (snd (GroupNormBackwardKernelImpl E K dY X mean rstd gamma
                                 N C HxW G grads)))) c
       = Rsum (fun n => Rsum (fun h => load (data dY) ((n * C + c) * HxW + h)) HxW) N).
Proof.
  split.
  - intros F A E1 E2 K dY X1 X2 mean1 mean2 rstd1 rstd2 gamma1 gamma2 N C HxW G1 G2
           grads1 grads2 Hok1 Hok2 Hc1 Hc2 Hd1 Hn1 Hd2 Hn2.
    destruct (dbeta_run E1 K dY X1 mean1 rstd1 gamma1 N C HxW G1 grads1 Hok1 Hc1 Hd1 Hn1)
      as [Hdef1 [Hnum1 Hval1]].
    destruct (dbeta_run E2 K dY X2 mean2 rstd2 gamma2 N C HxW G2 grads2 Hok2 Hc2 Hd2 Hn2)
      as [Hdef2 [Hnum2 Hval2]].
    apply tensor_ext; [congruence|congruence|].
    intros k Hk. rewrite Hval1, Hval2 by lia. reflexivity.
  - intros E K dY X mean rstd gamma N C HxW G grads Hok Hchk Hdef Hnum c Hc.
    destruct (dbeta_run E K dY X mean rstd gamma N C HxW G grads Hok Hchk Hdef Hnum)
      as [_ [_ Hval]].
    rewrite Hval by assumption. unfold dbeta_val. rewrite irange_Rsum.
    apply Rsum_ext. intros n _. apply db_at_R.
Qed.

Close Scope R_scope.

(** Two runs on the same [dY]: different [X], statistics, [gamma], executors
    and sentinels, the same [dbeta]. *)
Lemma dbeta_depends_on_dY_alone_witness :
  let dY := tensor (map IEEE.lit [1; 2; 3; 4]%float) in
  dbeta (snd (GroupNormBackwardKernelImpl (A := double_arith) sequential 4 dY
                (tensor (map IEEE.lit [5; 6; 7; 8]%float))
                (tensor [IEEE.lit 0]) (tensor [IEEE.lit 1]) undefined 1 2 2 1
                (mkGradients undefined undefined (tensor (map IEEE.lit [7; 7]%float)))))
  = dbeta (snd (GroupNormBackwardKernelImpl (A := double_arith) (round_robin 3) 4 dY
                  (tensor (map IEEE.lit [0; -1; 9; 2]%float))
                  (tensor (map IEEE.lit [3; 1]%float)) (tensor (map IEEE.lit [2; 5]%float))
                  (tensor (map IEEE.lit [4; 6]%float)) 1 2 2 2
                  (mkGradients undefined undefined (tensor (map IEEE.lit [0; 9]%float))))).
Proof.
  cbv zeta.
  apply (proj1 dbeta_depends_on_dY_alone spec_float double_arith
           sequential (round_robin 3) 4);
    try reflexivity.
  - apply sequential_ok.
  - apply round_robin_ok. repeat constructor.
Defined.

(* ================================================================= *)
(** * The forward kernels *)

(** ** The index counters *)

Lemma succ_mod (N a : nat) :
  0 < N -> Datatypes.S a mod N = if Datatypes.S (a mod N) =? N then 0 else Datatypes.S (a mod N).
Proof.
  intros HN. pose proof (Nat.div_mod_eq a N) as Ha.
  pose proof (Nat.mod_upper_bound a N ltac:(lia)) as Hm.
  destruct (Nat.eqb_spec (Datatypes.S (a mod N)) N) as [He|Hne].
  - symmetry. apply (Nat.mod_unique _ N (Datatypes.S (a / N)) 0); nia.
  - symmetry. apply (Nat.mod_unique _ N (a / N) (Datatypes.S (a mod N))); nia.
Qed.

Lemma succ_div (G i : nat) :
  0 < G ->
  Datatypes.S i / G = if Datatypes.S (i mod G) =? G then Datatypes.S (i / G) else i / G.
Proof.
  intros HG. pose proof (Nat.div_mod_eq i G) as Hi.
  pose proof (Nat.mod_upper_bound i G ltac:(lia)) as Hm.
  destruct (Nat.eqb_spec (Datatypes.S (i mod G)) G) as [He|Hne].
  - symmetry. apply (Nat.div_unique _ G (Datatypes.S (i / G)) 0); nia.
  - symmetry. apply (Nat.div_unique _ G (i / G) (Datatypes.S (i mod G))); nia.
Qed.

Lemma data_index_step_init (N G i : nat) :
  0 < N -> 0 < G ->
  data_index_step (data_index_init i N G) N G = data_index_init (Datatypes.S i) N G.
Proof.
  intros HN HG. unfold data_index_step, data_index_init.
  rewrite (succ_mod G i HG), (succ_div G i HG).
  destruct (Nat.eqb_spec (Datatypes.S (i mod G)) G) as [He|Hne].
  - now rewrite (succ_mod N (i / G) HN).
  - reflexivity.
Qed.

Lemma data_index_init_in_range (N G i : nat) :
  i < N * G -> data_index_init i N G = (i / G, i mod G).
Proof.
  intros Hi. unfold data_index_init. f_equal. apply Nat.mod_small.
  apply Nat.Div0.div_lt_upper_bound. lia.
Qed.

Section Counters.
Context {S : Type}.

(** A loop that carries the counters [(n, g)] along does the work of unit
    [i] at [(i / G, i mod G)]. *)
Lemma counters_loop (N G : nat) (work : nat -> nat -> nat -> S -> S) (a b : nat) (s : S) :
  a <= b -> b <= N * G ->
  snd (irange a b
         (fun i st => (data_index_step (fst st) N G,
                       work (fst (fst st)) (snd (fst st)) i (snd st)))
         (data_index_init a N G, s))
  = irange a b (fun i s => work (i / G) (i mod G) i s) s.
Proof.
  intros Hab HbNG. unfold irange.
  apply (for_range_proj snd (fun i st => fst st = data_index_init i N G) a (b - a)).
  - reflexivity.
  - intros i st Hi Hinv. simpl. rewrite Hinv. split.
    + apply data_index_step_init; nia.
    + rewrite data_index_init_in_range by lia. reflexivity.
Qed.
End Counters.

(** ** The packed layout, element by element *)

Section PackedValues.
Context {F : Type} {A : Arith F}.

(** What the packed forward leaves in [Y[k]]. *)
Definition packed_val (X_data : list F) (gamma_data beta_data : option (list F))
    (HxW G D : nat) (eps : F) (k : nat) : F :=
  let i := k / (D * HxW) in
  let j := (k / HxW) mod D in
  let mv := PackedMoments X_data HxW D eps i in
  if is_null gamma_data && is_null beta_data then
    castT ((load X_data k -^ fst mv) *^ snd mv)
  else
    let c := i mod G * D + j in
    let scale := snd mv *^ (if is_null gamma_data then fone else deref gamma_data c) in
    let bias := -^ scale *^ fst mv +^
                (if is_null beta_data then fzero else deref beta_data c) in
    castT (scale *^ load X_data k +^ bias).
End PackedValues.

Section PackedFacts.
Context {F : Type} {A : Arith F}.
Variable E : Executor.
Hypothesis E_ok : executor_ok E.

Lemma PackedForward_eq X_data gamma_data beta_data N HxW G D eps Y_data mean_data rstd_data :
  PackedForward E X_data gamma_data beta_data N HxW G D eps (Y_data, mean_data, rstd_data)
  = (irange 0 (N * G)
       (fun i Y_data =>
          PackedApply X_data gamma_data beta_data HxW G D
            (fst (PackedMoments X_data HxW D eps i))
            (snd (PackedMoments X_data HxW D eps i)) i Y_data) Y_data,
     irange 0 (N * G)
       (fun i s => store s i (castPT (fst (PackedMoments X_data HxW D eps i)))) mean_data,
     irange 0 (N * G)
       (fun i s => store s i (castPT (snd (PackedMoments X_data HxW D eps i)))) rstd_data).
Proof.
  unfold PackedForward.
  rewrite parallel_for_irange
    with (body := PackedLoopBody X_data gamma_data beta_data HxW G D eps)
    by (auto; reflexivity).
  unfold irange. rewrite <- for_range_triple. apply for_range_ext.
  intros i st _. unfold PackedLoopBody.
  destruct (PackedMoments X_data HxW D eps i). reflexivity.
Qed.

Lemma PackedApply_pointwise X_data gamma_data beta_data HxW G D eps i :
  pointwise
    (PackedApply X_data gamma_data beta_data HxW G D
       (fst (PackedMoments X_data HxW D eps i))
       (snd (PackedMoments X_data HxW D eps i)) i)
    (selects (fun _ => 0 <? D * HxW) (fun k => k / (D * HxW))
             (packed_val X_data gamma_data beta_data HxW G D eps) i (Datatypes.S i)).
Proof.
  unfold PackedApply.
  destruct (is_null gamma_data && is_null beta_data) eqn:Hnull.
  - apply (pointwise_fill_selects (D * HxW) i
             (fun j => castT ((load X_data (i * (D * HxW) + j)
                               -^ fst (PackedMoments X_data HxW D eps i))
                              *^ snd (PackedMoments X_data HxW D eps i)))).
    intros kk Hkk. unfold packed_val. rewrite Hnull.
    destruct (div_mod_block (D * HxW) i kk Hkk) as [-> _]. reflexivity.
  - apply (pointwise_blocks2 D HxW i
             (fun j kk =>
                castT (snd (PackedMoments X_data HxW D eps i)
                       *^ (if is_null gamma_data then fone
                           else deref gamma_data (i mod G * D + j))
                       *^ load X_data ((i * D + j) * HxW + kk)
                       +^ (-^ (snd (PackedMoments X_data HxW D eps i)
                               *^ (if is_null gamma_data then fone
                                   else deref gamma_data (i mod G * D + j)))
                           *^ fst (PackedMoments X_data HxW D eps i)
                           +^ (if is_null beta_data then fzero
                               else deref beta_data (i mod G * D + j)))))).
    intros j kk Hj Hkk. unfold packed_val. rewrite Hnull.
    destruct (block2_index D HxW i j kk Hj Hkk) as [-> ->]. reflexivity.
Qed.

Lemma PackedForward_Y X_data gamma_data beta_data N HxW G D eps :
  pointwise
    (fun Y_data =>
       irange 0 (N * G)
         (fun i Y_data =>
            PackedApply X_data gamma_data beta_data HxW G D
              (fst (PackedMoments X_data HxW D eps i))
              (snd (PackedMoments X_data HxW D eps i)) i Y_data) Y_data)
    (selects (fun _ => 0 <? D * HxW) (fun k => k / (D * HxW))
             (packed_val X_data gamma_data beta_data HxW G D eps) 0 (N * G)).
Proof.
  apply irange_selects; [lia|]. intros i _. apply PackedApply_pointwise.
Qed.

(** A loop of single stores [p[i] = v i]. *)
Lemma stores_load (v : nat -> F) n (p : list F) k :
  k < length p ->
  load (irange 0 n (fun i s => store s i (v i)) p) k = if k <? n then v k else load p k.
Proof.
  intros Hk.
  rewrite (pointwise_load _ _ _ k (pointwise_fill 0 n v)) by assumption.
  unfold in_block. simpl. now rewrite Nat.sub_0_r.
Qed.

Lemma stores_length (v : nat -> F) n (p : list F) :
  length (irange 0 n (fun i s => store s i (v i)) p) = length p.
Proof. apply (pointwise_length _ _ _ (pointwise_fill 0 n v)). Qed.
End PackedFacts.

(** ** The forward entry points *)

Section ForwardRun.
Context {F : Type} {A : Arith F}.
Variable E : Executor.
Variable K : nat.

Lemma packed_run X gamma beta N C HxW G eps out :
  forward_checks X gamma beta N C HxW = true ->
  GroupNormKernelImplInternal E X gamma beta N C HxW G eps out
  = (inr tt,
     with_data out
       (PackedForward E (data X) (data_ptr_or_null gamma) (data_ptr_or_null beta)
          N HxW G (C / G) eps (data_of out))).
Proof.
  unfold forward_checks. rewrite !andb_true_iff. intros [[H1 H2] H3].
  unfold GroupNormKernelImplInternal. rewrite !check_pass by assumption. reflexivity.
Qed.

Lemma channels_last_run X gamma beta N C HxW G eps out :
  forward_checks X gamma beta N C HxW = true ->
  GroupNormKernelImplChannelsLastInternal E K X gamma beta N C HxW G eps out
  = (inr tt,
     with_data out
       (if HxW <? feature_map_threshold
        then ChannelsLastSmall E K (data X) (data_ptr_or_null gamma)
               (data_ptr_or_null beta) N C HxW G (C / G) eps (data_of out)
        else ChannelsLastLarge E (data X) (data_ptr_or_null gamma)
               (data_ptr_or_null beta) N C HxW G (C / G) eps (data_of out))).
Proof.
  unfold forward_checks. rewrite !andb_true_iff. intros [[H1 H2] H3].
  unfold GroupNormKernelImplChannelsLastInternal. rewrite !check_pass by assumption.
  reflexivity.
Qed.

Lemma forward_rejects memory_format X gamma beta N C HxW G eps out :
  forward_checks X gamma beta N C HxW = false ->
  exists e,
    GroupNormKernelImpl E K memory_format X gamma beta N C HxW G eps out = (inl e, out).
Proof.
  unfold forward_checks. intros H.
  assert (Hp : exists e,
             GroupNormKernelImplInternal E X gamma beta N C HxW G (castT eps) out
             = (inl e, out)).
  { unfold GroupNormKernelImplInternal.
    destruct (numel X =? N * C * HxW) eqn:H1;
      [rewrite check_pass by reflexivity|eexists; apply check_fail; reflexivity].
    destruct (negb (defined gamma) || (numel gamma =? C)) eqn:H2;
      [rewrite check_pass by reflexivity|eexists; apply check_fail; reflexivity].
    simpl in H. eexists. apply check_fail. assumption. }
  assert (Hc : exists e,
             GroupNormKernelImplChannelsLastInternal E K X gamma beta N C HxW G
               (castT eps) out = (inl e, out)).
  { unfold GroupNormKernelImplChannelsLastInternal.
    destruct (numel X =? N * C * HxW) eqn:H1;
      [rewrite check_pass by reflexivity|eexists; apply check_fail; reflexivity].
    destruct (negb (defined gamma) || (numel gamma =? C)) eqn:H2;
      [rewrite check_pass by reflexivity|eexists; apply check_fail; reflexivity].
    simpl in H. eexists. apply check_fail. assumption. }
  destruct memory_format; simpl; auto.
  eexists. reflexivity.
Qed.
End ForwardRun.

(* ================================================================= *)
(** * Shape preconditions *)

(** The [double] nearest to [1e-5]. *)
Definition eps_1e_5 : spec_float := IEEE.lit 0x1.4f8b588e368f1p-17%float.

(** Output tensors pre-filled with the sentinel [7]. *)
Definition sentinel_outputs (n m : nat) : Outputs spec_float :=
  mkOutputs (tensor (repeat (IEEE.lit 7) n)) (tensor (repeat (IEEE.lit 7) m))
            (tensor (repeat (IEEE.lit 7) m)).

(** C1, as stated, fails: a forward call with [C = 3] channels and [G = 2]
    groups is not rejected.  It succeeds, with [D = C / G = 1], and writes
    [Y[0]], [Y[1]], [mean] and [rstd]. *)
Lemma indivisible_channels_are_not_rejected :
  let r := GroupNormKernelImpl (A := double_arith) sequential 4 Contiguous
             (tensor (map IEEE.lit [1; 2; 3]%float)) undefined undefined
             1 3 1 2 eps_1e_5 (sentinel_outputs 3 2) in
  3 mod 2 <> 0 /\
  succeeded r = true /\
  data (Y (snd r)) = map IEEE.lit [0; 0; 7]%float /\
  data (mean (snd r)) = map IEEE.lit [1; 2]%float.
Proof.
  cbv zeta. split; [discriminate|]. vm_compute. repeat split.
Qed.

(** C1, amended.  In every arithmetic and for both entry points: a call
    whose inputs fail one of the element-count checks the kernel makes ([X],
    and [dY] in the backward, with [N * C * HxW] elements; a present [gamma]
    or [beta] with [C]; [mean] and [rstd] of the backward with [N * G]) stops
    with an error and leaves every output tensor as it was. *)
Theorem shape_violations_fail_before_any_write {F : Type} {A : Arith F}
    (E : Executor) (K : nat) :
  (forall memory_format (X gamma beta : Tensor F) N C HxW G eps (out : Outputs F),
     forward_checks X gamma beta N C HxW = false ->
     exists e,
       GroupNormKernelImpl E K memory_format X gamma beta N C HxW G eps out = (inl e, out))
  /\
  (forall (dY X mean rstd gamma : Tensor F) N C HxW G (grads : Gradients F),
     backward_checks dY X mean rstd gamma N C HxW G = false ->
     exists e,
       GroupNormBackwardKernelImpl E K dY X mean rstd gamma N C HxW G grads
       = (inl e, grads)).
Proof.
  split.
  - intros. now apply forward_rejects.
  - intros dY X mean rstd gamma N C HxW G grads H.
    destruct (backward_rejects E K dY X mean rstd gamma N C HxW G grads H) as [what Hw].
    exists (check_failed what). exact Hw.
Qed.

(** A forward call whose [gamma] has three elements for four channels. *)
Lemma shape_violations_fail_before_any_write_witness :
  exists e,
    GroupNormKernelImpl (A := double_arith) sequential 4 ChannelsLast
      (tensor (map IEEE.lit [1; 2; 3; 4]%float))
      (tensor (map IEEE.lit [1; 1; 1]%float)) undefined
      1 4 1 2 eps_1e_5 (sentinel_outputs 4 2)
    = (inl e, sentinel_outputs 4 2).
Proof.
  apply (proj1 (shape_violations_fail_before_any_write (A := double_arith) sequential 4)).
  reflexivity.
Defined.

(* ================================================================= *)
(** ** The interleaved layout, element by element *)

(** Index arithmetic of the layout [{N, HxW, C}] with [C = G * D]. *)
Lemma cl_index_sel (C HxW G D n m g d : nat) :
  C = G * D -> g < G -> m < HxW -> d < D ->
  let k := n * HxW * C + m * C + g * D + d in
  0 < HxW * C /\ k / (HxW * C) = n /\ k mod C = g * D + d /\ k mod C / D = g
  /\ k / C = n * HxW + m.
Proof.
  intros HC Hg Hm Hd k.
  assert (Hc : g * D + d < C) by nia.
  assert (Hk : k = (n * HxW + m) * C + (g * D + d)) by (unfold k; nia).
  destruct (div_mod_block C (n * HxW + m) (g * D + d) Hc) as [Hq Hr].
  destruct (div_mod_block D g d Hd) as [Hq' _].
  repeat split.
  - nia.
  - symmetry. apply (Nat.div_unique k (HxW * C) n (m * C + g * D + d)); [nia|unfold k; lia].
  - now rewrite Hk.
  - now rewrite Hk, Hr.
  - now rewrite Hk.
Qed.

Lemma cl_sel_index (C HxW G D n g k : nat) :
  C = G * D -> 0 < HxW * C -> k / (HxW * C) = n -> k mod C / D = g ->
  exists m d, m < HxW /\ d < D /\ k = n * HxW * C + m * C + g * D + d.
Proof.
  intros HC HP Hn Hg.
  assert (HCpos : 0 < C) by nia. assert (HD : 0 < D) by nia.
  destruct (block_decompose (HxW * C) k HP) as [Hk Hr].
  destruct (block_decompose C (k mod (HxW * C)) HCpos) as [Hk2 Hr2].
  destruct (block_decompose D (k mod C) HD) as [Hk3 Hr3].
  assert (Hmm : k mod (HxW * C) mod C = k mod C).
  { rewrite Nat.mul_comm. rewrite Nat.Div0.mod_mul_r.
    rewrite Nat.mul_comm, Nat.Div0.mod_add. apply Nat.Div0.mod_mod. }
  exists (k mod (HxW * C) / C), (k mod C mod D). repeat split.
  - apply Nat.Div0.div_lt_upper_bound. lia.
  - assumption.
  - rewrite Hmm in Hk2. rewrite Hn in Hk. rewrite Hg in Hk3. nia.
Qed.

Section InterleavedValues.
Context {F : Type} {A : Arith F}.

Definition scale_of (gamma_data : option (list F)) (rstd_val : F) (c : nat) : F :=
  rstd_val *^ (if is_null gamma_data then fone else deref gamma_data c).

Definition bias_of (gamma_data beta_data : option (list F)) (mean_val rstd_val : F)
    (c : nat) : F :=
  -^ scale_of gamma_data rstd_val c *^ mean_val
  +^ (if is_null beta_data then fzero else deref beta_data c).

(** What the interleaved forward leaves in [Y[k]], given the pair
    [(mean_val, rstd_val)] of each unit. *)
Definition cl_val (moments : nat -> nat -> F * F) (X_data : list F)
    (gamma_data beta_data : option (list F)) (C HxW D : nat) (k : nat) : F :=
  let n := k / (HxW * C) in
  let c := k mod C in
  let mv := moments n (c / D) in
  castT (load X_data k *^ scale_of gamma_data (snd mv) c
         +^ bias_of gamma_data beta_data (fst mv) (snd mv) c).

Lemma ScaleBias_pure gamma_data beta_data D mean_val rstd_val g sp bp first buf :
  sp + (first + D) <= length buf ->
  ScaleBias gamma_data beta_data D mean_val rstd_val g sp bp first buf
  = irange 0 D (fun d b =>
      store (store b (sp + (first + d)) (scale_of gamma_data rstd_val (g * D + d)))
            (bp + (first + d))
            (bias_of gamma_data beta_data mean_val rstd_val (g * D + d))) buf.
Proof.
  intros Hlen. unfold ScaleBias, irange.
  destruct (for_range_proj (fun b : list F => b) (fun _ b => length b = length buf)
              0 (D - 0)
              (fun d buffer_data =>
                 store (store buffer_data (sp + (first + d))
                          (rstd_val *^ (if is_null gamma_data then fone
                                        else deref gamma_data (g * D + d))))
                       (bp + (first + d))
                       (-^ load (store buffer_data (sp + (first + d))
                                   (rstd_val *^ (if is_null gamma_data then fone
                                                 else deref gamma_data (g * D + d))))
                                (sp + (first + d)) *^ mean_val
                        +^ (if is_null beta_data then fzero
                            else deref beta_data (g * D + d))))
              (fun d b =>
                 store (store b (sp + (first + d)) (scale_of gamma_data rstd_val (g * D + d)))
                       (bp + (first + d))
                       (bias_of gamma_data beta_data mean_val rstd_val (g * D + d)))
              buf eq_refl) as [_ Heq]; [|exact Heq].
  intros d b Hd Hb. split.
  - now rewrite !store_length.
  - rewrite load_store_same by lia. reflexivity.
Qed.

Lemma ScaleBias_pointwise gamma_data beta_data D mean_val rstd_val g sp bp first :
  sp + D <= bp ->
  pointwise
    (irange 0 D (fun d b =>
       store (store b (sp + (first + d)) (scale_of gamma_data rstd_val (g * D + d)))
             (bp + (first + d))
             (bias_of gamma_data beta_data mean_val rstd_val (g * D + d))))
    (fun k x =>
       if in_block (bp + first) D k
       then bias_of gamma_data beta_data mean_val rstd_val (g * D + (k - (bp + first)))
       else if in_block (sp + first) D k
            then scale_of gamma_data rstd_val (g * D + (k - (sp + first)))
            else x).
Proof.
  intros Hsb. eapply pointwise_ext.
  - apply pointwise_irange
      with (u := fun d k x =>
              if k =? bp + (first + d)
              then bias_of gamma_data beta_data mean_val rstd_val (g * D + d)
              else if k =? sp + (first + d)
                   then scale_of gamma_data rstd_val (g * D + d)
                   else x).
    intros d _.
    apply (pointwise_comp
             (fun b => store b (sp + (first + d)) (scale_of gamma_data rstd_val (g * D + d)))
             (fun b => store b (bp + (first + d))
                         (bias_of gamma_data beta_data mean_val rstd_val (g * D + d)))
             (fun k y => if k =? sp + (first + d)
                         then scale_of gamma_data rstd_val (g * D + d) else y)
             (fun k y => if k =? bp + (first + d)
                         then bias_of gamma_data beta_data mean_val rstd_val (g * D + d)
                         else y)).
    + apply pointwise_store.
    + apply pointwise_store.
  - intros k x. cbv beta. unfold irange. rewrite Nat.sub_0_r.
    destruct (in_block (bp + first) D k) eqn:Hb.
    + apply in_block_true in Hb.
      apply for_range_hit with (i0 := k - (bp + first)); [lia| |].
      * intros y. replace (bp + (first + (k - (bp + first)))) with k by lia.
        now rewrite Nat.eqb_refl.
      * intros d y Hd. cmp_cases.
    + apply in_block_false in Hb.
      destruct (in_block (sp + first) D k) eqn:Hs.
      * apply in_block_true in Hs.
        apply for_range_hit with (i0 := k - (sp + first)); [lia| |].
        -- intros y. replace (sp + (first + (k - (sp + first)))) with k by lia.
           rewrite Nat.eqb_refl. cmp_cases.
        -- intros d y Hd. cmp_cases.
      * apply in_block_false in Hs. apply for_range_miss. intros d y Hd. cmp_cases.
Qed.

(** After [ScaleBias], the scale and bias of each channel of the group can
    be read back. *)
Lemma ScaleBias_load gamma_data beta_data D mean_val rstd_val g sp bp first buf d :
  sp + D <= bp -> bp + (first + D) <= length buf -> d < D ->
  load (ScaleBias gamma_data beta_data D mean_val rstd_val g sp bp first buf)
       (sp + (first + d))
  = scale_of gamma_data rstd_val (g * D + d) /\
  load (ScaleBias gamma_data beta_data D mean_val rstd_val g sp bp first buf)
       (bp + (first + d))
  = bias_of gamma_data beta_data mean_val rstd_val (g * D + d).
Proof.
  intros Hsb Hlen Hd. rewrite ScaleBias_pure by lia.
  pose proof (ScaleBias_pointwise gamma_data beta_data D mean_val rstd_val g sp bp first Hsb)
    as Hp.
  rewrite !(pointwise_load _ _ _ _ Hp) by lia.
  assert (H1 : in_block (bp + first) D (sp + (first + d)) = false)
    by (apply in_block_false; lia).
  assert (H2 : in_block (sp + first) D (sp + (first + d)) = true)
    by (apply in_block_true; lia).
  assert (H3 : in_block (bp + first) D (bp + (first + d)) = true)
    by (apply in_block_true; lia).
  rewrite H1, H2, H3.
  replace (sp + (first + d) - (sp + first)) with d by lia.
  replace (bp + (first + d) - (bp + first)) with d by lia.
  split; reflexivity.
Qed.

Lemma ScaleBias_length gamma_data beta_data D mean_val rstd_val g sp bp first buf :
  sp + (first + D) <= length buf ->
  length (ScaleBias gamma_data beta_data D mean_val rstd_val g sp bp first buf)
  = length buf.
Proof.
  intros Hlen. rewrite ScaleBias_pure by assumption. unfold irange.
  apply (for_range_inv (fun _ b => length b = length buf)); [reflexivity|].
  intros d b _ Hb. now rewrite !store_length.
Qed.

(** Elsewhere [ScaleBias] leaves the buffer alone. *)
Lemma ScaleBias_frame gamma_data beta_data D mean_val rstd_val g sp bp first buf k :
  sp + D <= bp -> bp + (first + D) <= length buf ->
  in_block (sp + first) D k = false -> in_block (bp + first) D k = false ->
  load (ScaleBias gamma_data beta_data D mean_val rstd_val g sp bp first buf) k
  = load buf k.
Proof.
  intros Hsb Hlen H1 H2. rewrite ScaleBias_pure by lia.
  destruct (Nat.lt_ge_cases k (length buf)) as [Hk|Hk].
  - rewrite (pointwise_load _ _ _ _
               (ScaleBias_pointwise gamma_data beta_data D mean_val rstd_val g sp bp first
                  Hsb)) by assumption.
    now rewrite H1, H2.
  - unfold load. rewrite !nth_overflow; auto.
    rewrite (pointwise_length _ _ _
               (ScaleBias_pointwise gamma_data beta_data D mean_val rstd_val g sp bp first
                  Hsb)). assumption.
Qed.
End InterleavedValues.

Section SmallFacts.
Context {F : Type} {A : Arith F}.
Variable E : Executor.
Hypothesis E_ok : executor_ok E.
Variable K : nat.

Lemma ChannelsLastSmall_eq X_data gamma_data beta_data N C HxW G D eps st :
  ChannelsLastSmall E K X_data gamma_data beta_data N C HxW G D eps st
  = snd (irange 0 (N * G)
           (fun i s => SmallUnit K X_data gamma_data beta_data C HxW D eps
                         (i / G) (i mod G) i s)
           (repeat fzero (N * G * (2 * D)), st)).
Proof.
  unfold ChannelsLastSmall. f_equal.
  apply parallel_for_irange; [assumption|].
  intros tid x y s _ Hxy Hy.
  now apply (counters_loop N G
               (fun n g i s => SmallUnit K X_data gamma_data beta_data C HxW D eps n g i s)).
Qed.

(** The writes to [Y] of the unit [(n, g)], with scale and bias read back. *)
Definition SmallApply (X_data : list F) (gamma_data beta_data : option (list F))
    (C HxW D : nat) (mv : F * F) (n g : nat) (Y_data : list F) : list F :=
  irange 0 HxW (fun m Y_data =>
    irange 0 D (fun d Y_data =>
      store Y_data (n * HxW * C + m * C + g * D + d)
            (castT (load X_data (n * HxW * C + m * C + g * D + d)
                    *^ scale_of gamma_data (snd mv) (g * D + d)
                    +^ bias_of gamma_data beta_data (fst mv) (snd mv) (g * D + d))))
      Y_data) Y_data.

Lemma SmallUnit_eq X_data gamma_data beta_data C HxW D eps n g i st :
  i * 2 * D + 2 * D <= length (fst st) ->
  let mv := SmallMoments K X_data C HxW D eps n g in
  SmallUnit K X_data gamma_data beta_data C HxW D eps n g i st
  = (ScaleBias gamma_data beta_data D (fst mv) (snd mv) g (i * 2 * D) (i * 2 * D + D) 0
       (fst st),
     (SmallApply X_data gamma_data beta_data C HxW D mv n g (fst (fst (snd st))),
      store (snd (fst (snd st))) i (castPT (fst mv)),
      store (snd (snd st)) i (castPT (snd mv)))).
Proof.
  intros Hlen mv. unfold SmallUnit. fold mv. destruct mv as [mean_val rstd_val] eqn:Hmv.
  simpl fst. simpl snd. f_equal. f_equal. f_equal.
  unfold SmallApply. apply irange_ext. intros m Y_data Hm.
  unfold ApplyScaleBias. apply irange_ext. intros d Y' Hd.
  destruct (ScaleBias_load gamma_data beta_data D mean_val rstd_val g
              (i * 2 * D) (i * 2 * D + D) 0 (fst st) d) as [Hs Hb]; [lia|lia|lia|].
  simpl Nat.add in Hs, Hb. rewrite Hs, Hb. reflexivity.
Qed.

Lemma strided_unit_pointwise C HxW G D n g (w : nat -> nat -> F) (v : nat -> F) :
  C = G * D -> g < G ->
  (forall m d, m < HxW -> d < D -> v (n * HxW * C + m * C + g * D + d) = w m d) ->
  pointwise
    (irange 0 HxW (fun m Y_data =>
       irange 0 D (fun d Y_data =>
         store Y_data (n * HxW * C + m * C + g * D + d) (w m d)) Y_data))
    (selects (fun _ => 0 <? HxW * C) (fun k => k / (HxW * C) * G + k mod C / D) v
             (n * G + g) (Datatypes.S (n * G + g))).
Proof.
  intros HC Hg Hv. eapply pointwise_ext.
  - apply pointwise_irange
      with (u := fun m k x => if in_block (n * HxW * C + m * C + g * D) D k
                              then w m (k - (n * HxW * C + m * C + g * D)) else x).
    intros m _. apply (pointwise_fill (n * HxW * C + m * C + g * D) D (w m)).
  - intros k x. cbv beta. unfold selects, irange. rewrite Nat.sub_0_r.
    destruct ((0 <? HxW * C) && (n * G + g <=? k / (HxW * C) * G + k mod C / D)
              && (k / (HxW * C) * G + k mod C / D <? Datatypes.S (n * G + g))) eqn:Hb.
    + rewrite !andb_true_iff, Nat.ltb_lt, Nat.leb_le, Nat.ltb_lt in Hb.
      destruct Hb as [[HP Hlo] Hhi].
      assert (HCpos : 0 < C) by nia.
      assert (Hgk : k mod C / D < G).
      { apply Nat.Div0.div_lt_upper_bound.
        pose proof (Nat.mod_upper_bound k C ltac:(lia)). nia. }
      assert (Hn : k / (HxW * C) = n) by nia.
      assert (Hgg : k mod C / D = g) by nia.
      destruct (cl_sel_index C HxW G D n g k HC HP Hn Hgg) as [m [d [Hm [Hd Hk]]]].
      apply for_range_hit with (i0 := m); [lia| |].
      * intros y.
        assert (Hin : in_block (n * HxW * C + m * C + g * D) D k = true)
          by (apply in_block_true; lia).
        rewrite Hin.
        replace (k - (n * HxW * C + m * C + g * D)) with d by lia.
        rewrite <- (Hv m d Hm Hd). f_equal. lia.
      * intros m' y Hm'.
        destruct (in_block (n * HxW * C + m' * C + g * D) D k) eqn:Hin; [|reflexivity].
        apply in_block_true in Hin. exfalso. nia.
    + apply for_range_miss. intros m y Hm.
      destruct (in_block (n * HxW * C + m * C + g * D) D k) eqn:Hin; [|reflexivity].
      apply in_block_true in Hin. exfalso.
      destruct (cl_index_sel C HxW G D n m g (k - (n * HxW * C + m * C + g * D))
                  HC Hg ltac:(lia) ltac:(lia)) as [HP [Hn [_ [Hgg _]]]].
      replace (n * HxW * C + m * C + g * D + (k - (n * HxW * C + m * C + g * D)))
        with k in * by lia.
      rewrite Hn, Hgg in Hb.
      destruct (Nat.ltb_spec 0 (HxW * C)); [|lia].
      destruct (Nat.leb_spec (n * G + g) (n * G + g)); [|lia].
      destruct (Nat.ltb_spec (n * G + g) (Datatypes.S (n * G + g))); [|lia].
      discriminate.
Qed.
End SmallFacts.

Section SmallFacts2.
Context {F : Type} {A : Arith F}.
Variable E : Executor.
Hypothesis E_ok : executor_ok E.
Variable K : nat.

(** impl-1, buffer by buffer. *)
Lemma ChannelsLastSmall_components X_data gamma_data beta_data N C HxW G D eps
    Y_data mean_data rstd_data :
  ChannelsLastSmall E K X_data gamma_data beta_data N C HxW G D eps
    (Y_data, mean_data, rstd_data)
  = (irange 0 (N * G)
       (fun i Y_data =>
          SmallApply X_data gamma_data beta_data C HxW D
            (SmallMoments K X_data C HxW D eps (i / G) (i mod G)) (i / G) (i mod G) Y_data)
       Y_data,
     irange 0 (N * G)
       (fun i s => store s i (castPT (fst (SmallMoments K X_data C HxW D eps
                                             (i / G) (i mod G))))) mean_data,
     irange 0 (N * G)
       (fun i s => store s i (castPT (snd (SmallMoments K X_data C HxW D eps
                                             (i / G) (i mod G))))) rstd_data).
Proof.
  rewrite ChannelsLastSmall_eq by assumption. unfold irange. rewrite Nat.sub_0_r.
  rewrite <- for_range_triple.
  destruct (for_range_proj snd (fun _ s => length (fst s) = N * G * (2 * D)) 0 (N * G)
              (fun i s => SmallUnit K X_data gamma_data beta_data C HxW D eps
                            (i / G) (i mod G) i s)
              (fun i st =>
                 (SmallApply X_data gamma_data beta_data C HxW D
                    (SmallMoments K X_data C HxW D eps (i / G) (i mod G))
                    (i / G) (i mod G) (fst (fst st)),
                  store (snd (fst st)) i
                        (castPT (fst (SmallMoments K X_data C HxW D eps (i / G) (i mod G)))),
                  store (snd st) i
                        (castPT (snd (SmallMoments K X_data C HxW D eps (i / G) (i mod G))))))
              (repeat fzero (N * G * (2 * D)), (Y_data, mean_data, rstd_data)))
    as [_ Heq]; [apply repeat_length| |exact Heq].
  intros i s Hi Hlen.
  assert (Hin : i * 2 * D + 2 * D <= length (fst s)) by (rewrite Hlen; nia).
  rewrite (SmallUnit_eq K X_data gamma_data beta_data C HxW D eps (i / G) (i mod G) i s Hin).
  cbv zeta. simpl fst. simpl snd. split; [|reflexivity].
  rewrite ScaleBias_length by lia. assumption.
Qed.

Lemma SmallApply_pointwise X_data gamma_data beta_data N C HxW G D eps :
  C = G * D -> 0 < G ->
  pointwise
    (irange 0 (N * G)
       (fun i Y_data =>
          SmallApply X_data gamma_data beta_data C HxW D
            (SmallMoments K X_data C HxW D eps (i / G) (i mod G)) (i / G) (i mod G) Y_data))
    (selects (fun _ => 0 <? HxW * C) (fun k => k / (HxW * C) * G + k mod C / D)
             (cl_val (SmallMoments K X_data C HxW D eps) X_data gamma_data beta_data
                     C HxW D) 0 (N * G)).
Proof.
  intros HC HG. apply irange_selects; [lia|]. intros i _.
  pose proof (Nat.div_mod_eq i G) as Hi.
  pose proof (Nat.mod_upper_bound i G ltac:(lia)) as Hg.
  pose proof (strided_unit_pointwise C HxW G D (i / G) (i mod G)
                (fun m d =>
                   castT (load X_data (i / G * HxW * C + m * C + i mod G * D + d)
                          *^ scale_of gamma_data
                               (snd (SmallMoments K X_data C HxW D eps (i / G) (i mod G)))
                               (i mod G * D + d)
                          +^ bias_of gamma_data beta_data
                               (fst (SmallMoments K X_data C HxW D eps (i / G) (i mod G)))
                               (snd (SmallMoments K X_data C HxW D eps (i / G) (i mod G)))
                               (i mod G * D + d)))
                (cl_val (SmallMoments K X_data C HxW D eps) X_data gamma_data beta_data
                        C HxW D) HC Hg) as Hp.
  replace (i / G * G + i mod G) with i in Hp by lia.
  apply Hp. intros m d Hm Hd. unfold cl_val.
  destruct (cl_index_sel C HxW G D (i / G) m (i mod G) d HC Hg Hm Hd)
    as [_ [-> [-> [-> _]]]].
  reflexivity.
Qed.

Lemma cl_selected (N C HxW G D k : nat) :
  C = G * D -> k < N * HxW * C ->
  (0 <? HxW * C) && (0 <=? k / (HxW * C) * G + k mod C / D)
  && (k / (HxW * C) * G + k mod C / D <? N * G) = true.
Proof.
  intros HC Hk.
  assert (HP : 0 < HxW * C) by nia. assert (HCpos : 0 < C) by nia.
  assert (Hn : k / (HxW * C) < N) by (apply Nat.Div0.div_lt_upper_bound; nia).
  assert (Hg : k mod C / D < G).
  { apply Nat.Div0.div_lt_upper_bound.
    pose proof (Nat.mod_upper_bound k C ltac:(lia)). nia. }
  rewrite !andb_true_iff, Nat.ltb_lt, Nat.leb_le, Nat.ltb_lt. repeat split; nia.
Qed.
End SmallFacts2.

(** ** impl-2, phase by phase *)

Section ExecutorInvariant.
Context {S : Type}.

Lemma fold_tiles_inv (P : nat -> S -> Prop) (T : nat)
    (f : nat -> nat -> nat -> S -> S) a b l :
  tiles a b l ->
  Forall (fun ch => fst (fst ch) < T) l ->
  (forall tid x y s, a <= x -> x <= y -> y <= b -> tid < T -> P x s -> P y (f tid x y s)) ->
  forall s, P a s ->
    P b (fold_left (fun s ch => let '(tid, x, y) := ch in f tid x y s) l s).
Proof.
  induction 1 as [a|tid a m b rest Ham Hrest IH]; intros Htid Hf s Hs.
  - exact Hs.
  - pose proof (tiles_le _ _ _ Hrest) as Hmb. inversion Htid as [|ch l' Hch Hrest']; subst.
    simpl in *. apply IH; [assumption| |].
    + intros. apply Hf; auto; lia.
    + apply Hf; auto; lia.
Qed.

(** The invariant rule of the fan-out: chunks run on workers of the pool, one
    after the other, and each carries the invariant from its start to its end. *)
Lemma parallel_for_inv (P : nat -> S -> Prop) (E : Executor) (b e g : nat)
    (f : nat -> nat -> nat -> S -> S) (s : S) :
  executor_ok E -> b <= e -> P b s ->
  (forall tid x y s, b <= x -> x <= y -> y <= e -> tid < num_threads E ->
     P x s -> P y (f tid x y s)) ->
  P e (parallel_for E b e g f s).
Proof.
  intros [_ Hok] Hbe Hs Hf. unfold parallel_for.
  destruct (Hok b e g) as [Ht Htid]. rewrite Nat.max_r in Ht by assumption.
  now apply (fold_tiles_inv P (num_threads E) f b e).
Qed.
End ExecutorInvariant.

Section LargeFacts.
Context {F : Type} {A : Arith F}.
Variable E : Executor.
Hypothesis E_ok : executor_ok E.

(** [for d in [0, n): p[off + d] = h d p[off + d]]. *)
Lemma pointwise_fill_modify off n (h : nat -> F -> F) :
  pointwise (irange 0 n (fun d s => store s (off + d) (h d (load s (off + d)))))
            (fun k x => if in_block off n k then h (k - off) x else x).
Proof.
  eapply pointwise_ext.
  - apply pointwise_irange with (u := fun d k y => if k =? off + d then h d y else y).
    intros d _. apply (pointwise_modify (off + d) (h d)).
  - intros k x. cbv beta. unfold irange. rewrite Nat.sub_0_r.
    destruct (in_block off n k) eqn:Hb.
    + apply in_block_true in Hb.
      rewrite for_range_once with (i0 := k - off); [|lia|].
      * replace (off + (k - off)) with k by lia. now rewrite Nat.eqb_refl.
      * intros d y Hd Hne. cmp_cases.
    + apply in_block_false in Hb. apply for_range_miss. intros d y Hd. cmp_cases.
Qed.

(** [CalcMeanVar] adds [x] to the [C] entries from [mean_ptr] on and [x * x]
    to the [C] entries that follow them. *)
Lemma CalcMeanVar_pointwise X_data X_ptr mean_ptr C :
  pointwise
    (fun buffer => CalcMeanVar X_data X_ptr buffer mean_ptr (mean_ptr + C) C)
    (fun k x =>
       if in_block mean_ptr C k
       then load X_data (X_ptr + (k - mean_ptr)) +^ x
       else if in_block (mean_ptr + C) C k
            then load X_data (X_ptr + (k - (mean_ptr + C)))
                 *^ load X_data (X_ptr + (k - (mean_ptr + C))) +^ x
            else x).
Proof.
  unfold CalcMeanVar. eapply pointwise_ext.
  - apply (pointwise_comp
             (irange 0 C (fun d buffer =>
                store buffer (mean_ptr + d)
                      (load X_data (X_ptr + d) +^ load buffer (mean_ptr + d))))
             (irange 0 C (fun d buffer =>
                store buffer (mean_ptr + C + d)
                      (load X_data (X_ptr + d) *^ load X_data (X_ptr + d)
                       +^ load buffer (mean_ptr + C + d))))
             (fun k x => if in_block mean_ptr C k
                         then load X_data (X_ptr + (k - mean_ptr)) +^ x else x)
             (fun k x => if in_block (mean_ptr + C) C k
                         then load X_data (X_ptr + (k - (mean_ptr + C)))
                              *^ load X_data (X_ptr + (k - (mean_ptr + C))) +^ x
                         else x)).
    + apply (pointwise_fill_modify mean_ptr C
               (fun d y => load X_data (X_ptr + d) +^ y)).
    + apply (pointwise_fill_modify (mean_ptr + C) C
               (fun d y => load X_data (X_ptr + d) *^ load X_data (X_ptr + d) +^ y)).
  - intros k x. cbv beta.
    destruct (in_block mean_ptr C k) eqn:H1, (in_block (mean_ptr + C) C k) eqn:H2;
      try reflexivity.
    apply in_block_true in H1, H2. lia.
Qed.

(** The chunk function of step-1, with the counters resolved. *)
Lemma LargeStep1_chunk X_data N C HxW tid x y buffer_data :
  x <= y -> y <= N * HxW ->
  snd (irange x y
         (fun i st =>
            (data_index_step (fst st) N HxW,
             CalcMeanVar X_data (i * C) (snd st)
               (tid * N * 2 * C + fst (fst st) * 2 * C)
               (tid * N * 2 * C + fst (fst st) * 2 * C + C) C))
         (data_index_init x N HxW, buffer_data))
  = irange x y
      (fun i buffer =>
         CalcMeanVar X_data (i * C) buffer
           (tid * N * 2 * C + i / HxW * 2 * C)
           (tid * N * 2 * C + i / HxW * 2 * C + C) C) buffer_data.
Proof.
  intros Hxy Hy.
  now apply (counters_loop N HxW
               (fun n m i buffer =>
                  CalcMeanVar X_data (i * C) buffer
                    (tid * N * 2 * C + n * 2 * C) (tid * N * 2 * C + n * 2 * C + C) C)).
Qed.

Lemma LargeStep1_length X_data N C HxW buffer_data :
  length (LargeStep1 E X_data N C HxW buffer_data) = length buffer_data.
Proof.
  unfold LargeStep1.
  apply (parallel_for_inv (fun _ b => length b = length buffer_data)); auto; [lia|].
  intros tid x y s _ Hxy Hy _ Hs. cbv zeta.
  rewrite LargeStep1_chunk by assumption. unfold irange.
  apply (for_range_inv (fun _ b => length b = length buffer_data)); [assumption|].
  intros i b _ Hb.
  rewrite (pointwise_length _ _ _ (CalcMeanVar_pointwise X_data (i * C) _ C)). assumption.
Qed.
End LargeFacts.

Section LargeFacts2.
Context {F : Type} {A : Arith F}.
Variable E : Executor.
Hypothesis E_ok : executor_ok E.

(** What step-2 leaves in [tmp_buffer[k]]: mean and rstd of unit [k / 2],
    interleaved. *)
Definition tmp_val (moments : nat -> nat -> F * F) (G : nat) (k : nat) : F :=
  let mv := moments (k / 2 / G) (k / 2 mod G) in
  if k mod 2 =? 0 then fst mv else snd mv.

Lemma LargeStep2_pointwise N C HxW G D eps buffer_data :
  pointwise (LargeStep2 E N C HxW G D eps buffer_data)
            (selects (fun _ => 0 <? G * 2) (fun k => k / (G * 2))
                     (tmp_val (LargeMoments E N C HxW G D eps buffer_data) G) 0 N).
Proof.
  unfold LargeStep2. apply irange_selects; [lia|]. intros n _.
  eapply pointwise_fun_ext.
  - apply (pointwise_blocks2 G 2 n
             (fun g kk => if kk =? 0
                          then fst (LargeMoments E N C HxW G D eps buffer_data n g)
                          else snd (LargeMoments E N C HxW G D eps buffer_data n g))).
    intros g kk Hg Hkk. unfold tmp_val.
    destruct (div_mod_block 2 (n * G + g) kk Hkk) as [-> ->].
    destruct (div_mod_block G n g Hg) as [-> ->]. reflexivity.
  - intros s. apply irange_ext. intros g t Hg.
    destruct (LargeMoments E N C HxW G D eps buffer_data n g) as [mean_val rstd_val].
    unfold irange. simpl.
    replace ((n * G + g) * 2 + 0) with (n * 2 * G + 2 * g) by nia.
    replace ((n * G + g) * 2 + 1) with (n * 2 * G + 2 * g + 1) by nia.
    reflexivity.
Qed.

Lemma LargeStep2_load N C HxW G D eps buffer_data tmp n g :
  length tmp = N * (2 * G) -> n < N -> g < G ->
  load (LargeStep2 E N C HxW G D eps buffer_data tmp) (n * 2 * G + 2 * g)
  = fst (LargeMoments E N C HxW G D eps buffer_data n g) /\
  load (LargeStep2 E N C HxW G D eps buffer_data tmp) (n * 2 * G + 2 * g + 1)
  = snd (LargeMoments E N C HxW G D eps buffer_data n g).
Proof.
  intros Hlen Hn Hg.
  pose proof (LargeStep2_pointwise N C HxW G D eps buffer_data) as Hp.
  assert (Hsel : forall kk, kk < 2 ->
            load (LargeStep2 E N C HxW G D eps buffer_data tmp) ((n * G + g) * 2 + kk)
            = tmp_val (LargeMoments E N C HxW G D eps buffer_data) G
                      ((n * G + g) * 2 + kk)).
  { intros kk Hkk. rewrite (pointwise_load _ _ _ _ Hp) by nia.
    unfold selects.
    assert (Hq : ((n * G + g) * 2 + kk) / (G * 2) = n).
    { symmetry. apply (Nat.div_unique _ (G * 2) n (g * 2 + kk)); nia. }
    rewrite Hq. cmp_cases. }
  pose proof (Hsel 0 ltac:(lia)) as H0. pose proof (Hsel 1 ltac:(lia)) as H1.
  unfold tmp_val in H0, H1.
  destruct (div_mod_block 2 (n * G + g) 0 ltac:(lia)) as [Hq0 Hr0].
  destruct (div_mod_block 2 (n * G + g) 1 ltac:(lia)) as [Hq1 Hr1].
  rewrite Hq0, Hr0 in H0. rewrite Hq1, Hr1 in H1.
  destruct (div_mod_block G n g Hg) as [Hq Hr]. rewrite Hq, Hr in H0, H1.
  simpl in H0, H1.
  replace (n * 2 * G + 2 * g) with ((n * G + g) * 2 + 0) by nia.
  replace ((n * G + g) * 2 + 0 + 1) with ((n * G + g) * 2 + 1) by lia.
  split; assumption.
Qed.

(** Step-3, buffer by buffer. *)
Lemma LargeStep3_components gamma_data beta_data N C G D tmp buffer_data mean_data
    rstd_data :
  LargeStep3 gamma_data beta_data N C G D tmp (buffer_data, (mean_data, rstd_data))
  = (irange 0 N (fun n b =>
       irange 0 G (fun g b =>
         ScaleBias gamma_data beta_data D (load tmp (n * 2 * G + 2 * g))
                   (load tmp (n * 2 * G + 2 * g + 1)) g (n * 2 * C) (n * 2 * C + C)
                   (g * D) b) b) buffer_data,
     (irange 0 N (fun n s =>
        irange 0 G (fun g s => store s (n * G + g) (castPT (load tmp (n * 2 * G + 2 * g))))
               s) mean_data,
      irange 0 N (fun n s =>
        irange 0 G (fun g s =>
          store s (n * G + g) (castPT (load tmp (n * 2 * G + 2 * g + 1)))) s) rstd_data)).
Proof.
  unfold LargeStep3, irange.
  rewrite <- (for_range_pair 0 (N - 0)
                (fun n s =>
                   for_range 0 (G - 0)
                     (fun g s => store s (n * G + g) (castPT (load tmp (n * 2 * G + 2 * g))))
                     s)
                (fun n s =>
                   for_range 0 (G - 0)
                     (fun g s =>
                        store s (n * G + g) (castPT (load tmp (n * 2 * G + 2 * g + 1)))) s)).
  rewrite <- (for_range_pair 0 (N - 0)
                (fun n b =>
                   for_range 0 (G - 0)
                     (fun g b =>
                        ScaleBias gamma_data beta_data D (load tmp (n * 2 * G + 2 * g))
                          (load tmp (n * 2 * G + 2 * g + 1)) g (n * 2 * C) (n * 2 * C + C)
                          (g * D) b) b)).
  apply for_range_ext. intros n st _.
  rewrite <- (for_range_pair_eta 0 (G - 0)
                (fun g s => store s (n * G + g) (castPT (load tmp (n * 2 * G + 2 * g))))
                (fun g s => store s (n * G + g) (castPT (load tmp (n * 2 * G + 2 * g + 1))))).
  rewrite <- (for_range_pair_eta 0 (G - 0)
                (fun g b =>
                   ScaleBias gamma_data beta_data D (load tmp (n * 2 * G + 2 * g))
                     (load tmp (n * 2 * G + 2 * g + 1)) g (n * 2 * C) (n * 2 * C + C)
                     (g * D) b)).
  reflexivity.
Qed.

(** Nested single stores [p[n * G + g] = w n g]. *)
Lemma nested_stores_pointwise N G (w : nat -> nat -> F) :
  pointwise
    (irange 0 N (fun n s => irange 0 G (fun g s => store s (n * G + g) (w n g)) s))
    (selects (fun _ => 0 <? G) (fun k => k / G) (fun k => w (k / G) (k mod G)) 0 N).
Proof.
  apply irange_selects; [lia|]. intros n _.
  apply (pointwise_fill_selects G n (w n)).
  intros g Hg. destruct (div_mod_block G n g Hg) as [-> ->]. reflexivity.
Qed.

Lemma nested_stores_load N G (w : nat -> nat -> F) (p : list F) i :
  length p = N * G -> i < N * G ->
  load (irange 0 N (fun n s => irange 0 G (fun g s => store s (n * G + g) (w n g)) s) p) i
  = w (i / G) (i mod G).
Proof.
  intros Hlen Hi. rewrite (pointwise_load _ _ _ _ (nested_stores_pointwise N G w)) by lia.
  unfold selects.
  assert (i / G < N) by (apply Nat.Div0.div_lt_upper_bound; lia).
  assert (0 < G) by nia. cmp_cases.
Qed.

Lemma nested_stores_length N G (w : nat -> nat -> F) (p : list F) :
  length (irange 0 N (fun n s => irange 0 G (fun g s => store s (n * G + g) (w n g)) s) p)
  = length p.
Proof. apply (pointwise_length _ _ _ (nested_stores_pointwise N G w)). Qed.
End LargeFacts2.

Section LargeFacts3.
Context {F : Type} {A : Arith F}.
Variable E : Executor.
Hypothesis E_ok : executor_ok E.

(** After step-3 the first worker's slice holds, for every sample [n] and
    channel [c], the scale at [n * 2C + c] and the bias at [n * 2C + C + c]. *)
Lemma LargeStep3_buffer gamma_data beta_data N C G D tmp buffer_data :
  C = G * D -> N * (2 * C) <= length buffer_data ->
  let buffer' :=
    irange 0 N (fun n b =>
      irange 0 G (fun g b =>
        ScaleBias gamma_data beta_data D (load tmp (n * 2 * G + 2 * g))
                  (load tmp (n * 2 * G + 2 * g + 1)) g (n * 2 * C) (n * 2 * C + C)
                  (g * D) b) b) buffer_data in
  forall n c, n < N -> c < C ->
    load buffer' (n * 2 * C + c)
    = scale_of gamma_data (load tmp (n * 2 * G + 2 * (c / D) + 1)) c /\
    load buffer' (n * 2 * C + C + c)
    = bias_of gamma_data beta_data (load tmp (n * 2 * G + 2 * (c / D)))
              (load tmp (n * 2 * G + 2 * (c / D) + 1)) c.
Proof.
  intros HC Hlen buffer'.
  set (good := fun (b : list F) n c =>
         load b (n * 2 * C + c)
         = scale_of gamma_data (load tmp (n * 2 * G + 2 * (c / D) + 1)) c /\
         load b (n * 2 * C + C + c)
         = bias_of gamma_data beta_data (load tmp (n * 2 * G + 2 * (c / D)))
                   (load tmp (n * 2 * G + 2 * (c / D) + 1)) c).
  assert (Hinv : length buffer' = length buffer_data /\
                 forall n c, n < N -> c < C -> good buffer' n c).
  { unfold buffer'.
    apply (irange_inv
             (fun n b => length b = length buffer_data /\
                         forall n' c, n' < n -> c < C -> good b n' c)); [lia| |].
    - split; [reflexivity|]. intros; lia.
    - intros n b [_ Hn] [Hb Hprev].
      assert (Hinner :
                (fun g b' => length b' = length buffer_data /\
                             (forall n' c, n' < n -> c < C -> good b' n' c) /\
                             (forall c, c < g * D -> good b' n c)) G
                  (irange 0 G (fun g b0 =>
                     ScaleBias gamma_data beta_data D (load tmp (n * 2 * G + 2 * g))
                       (load tmp (n * 2 * G + 2 * g + 1)) g (n * 2 * C) (n * 2 * C + C)
                       (g * D) b0) b)).
      { apply irange_inv; [lia| |].
        - split; [assumption|]. split; [assumption|]. intros; lia.
        - intros g b' [_ Hg] [Hb' [Hprev' Hcur]].
          assert (HDC : D <= C) by nia.
          assert (Hfit : n * 2 * C + C + (g * D + D) <= length b') by (rewrite Hb'; nia).
          split; [|split].
          + rewrite ScaleBias_length by lia. assumption.
          + intros n' c Hn' Hc. unfold good.
            rewrite !ScaleBias_frame; try lia; try (apply in_block_false; nia).
            apply Hprev'; assumption.
          + intros c Hc.
            destruct (Nat.lt_ge_cases c (g * D)) as [Hlt|Hge].
            * unfold good.
              rewrite !ScaleBias_frame; try lia; try (apply in_block_false; nia).
              apply Hcur; assumption.
            * unfold good.
              assert (Hcd : c / D = g).
              { symmetry. apply (Nat.div_unique c D g (c - g * D)); nia. }
              destruct (ScaleBias_load gamma_data beta_data D
                          (load tmp (n * 2 * G + 2 * g)) (load tmp (n * 2 * G + 2 * g + 1))
                          g (n * 2 * C) (n * 2 * C + C) (g * D) b' (c - g * D))
                as [Hs Hbias]; [lia|lia|nia|].
              replace (g * D + (c - g * D)) with c in Hs, Hbias by lia.
              rewrite Hcd, Hs. split; [reflexivity|].
              replace (n * 2 * C + C + c) with (n * 2 * C + C + (g * D + (c - g * D)))
                by lia.
              replace (g * D + (c - g * D)) with c by lia.
              exact Hbias. }
      cbv beta in Hinner. destruct Hinner as [Hb' [Hprev' Hcur]].
      split; [assumption|].
      intros n' c Hn' Hc.
      destruct (Nat.eq_dec n' n) as [->|Hne].
      + apply Hcur. nia.
      + apply Hprev'; [lia|assumption]. }
  intros n c Hn Hc. now apply Hinv.
Qed.
End LargeFacts3.

Section LargeFacts4.
Context {F : Type} {A : Arith F}.
Variable E : Executor.
Hypothesis E_ok : executor_ok E.

Lemma LargeStep4_pointwise X_data N C HxW buffer_data (v : nat -> F) :
  (forall i d, i < N * HxW -> d < C ->
     v (i * C + d)
     = castT (load X_data (i * C + d) *^ load buffer_data (i / HxW * 2 * C + d)
              +^ load buffer_data (i / HxW * 2 * C + C + d))) ->
  pointwise (LargeStep4 E X_data N C HxW buffer_data)
            (selects (fun _ => 0 <? C) (fun k => k / C) v 0 (N * HxW)).
Proof.
  intros Hv. eapply pointwise_fun_ext.
  - apply irange_selects
      with (body := fun i Y_data =>
              ApplyScaleBias Y_data (i * C) X_data (i * C) buffer_data
                (i / HxW * 2 * C) (i / HxW * 2 * C + C) C); [lia|].
    intros i Hi.
    apply (pointwise_fill_selects C i
             (fun d => castT (load X_data (i * C + d)
                              *^ load buffer_data (i / HxW * 2 * C + d)
                              +^ load buffer_data (i / HxW * 2 * C + C + d))) v).
    intros d Hd. apply Hv; lia.
  - intros s. unfold LargeStep4. apply parallel_for_irange; [assumption|].
    intros tid x y s' _ Hxy Hy.
    now apply (counters_loop N HxW
                 (fun n m i Y_data =>
                    ApplyScaleBias Y_data (i * C) X_data (i * C) buffer_data
                      (n * 2 * C) (n * 2 * C + C) C)).
Qed.

(** The scratch buffer after step-1. *)
Definition accumulated (X_data : list F) (N C HxW : nat) : list F :=
  LargeStep1 E X_data N C HxW (repeat fzero (num_threads E * N * (2 * C))).

(** impl-2, element by element. *)
Lemma ChannelsLastLarge_loads X_data gamma_data beta_data N C HxW G D eps
    Y_data mean_data rstd_data :
  C = G * D -> 0 < G ->
  length Y_data = N * HxW * C -> length mean_data = N * G -> length rstd_data = N * G ->
  let mom := LargeMoments E N C HxW G D eps (accumulated X_data N C HxW) in
  let r := ChannelsLastLarge E X_data gamma_data beta_data N C HxW G D eps
             (Y_data, mean_data, rstd_data) in
  (length (fst (fst r)) = N * HxW * C /\ length (snd (fst r)) = N * G
   /\ length (snd r) = N * G) /\
  (forall k, k < N * HxW * C ->
     load (fst (fst r)) k = cl_val mom X_data gamma_data beta_data C HxW D k) /\
  (forall i, i < N * G ->
     load (snd (fst r)) i = castPT (fst (mom (i / G) (i mod G))) /\
     load (snd r) i = castPT (snd (mom (i / G) (i mod G)))).
Proof.
  intros HC HG HlY Hlm Hlr mom r.
  unfold r, ChannelsLastLarge. fold (accumulated X_data N C HxW).
  set (buffer1 := accumulated X_data N C HxW) in *.
  set (tmp := LargeStep2 E N C HxW G D eps buffer1 (repeat fzero (N * (2 * G)))).
  rewrite LargeStep3_components. cbv iota beta zeta. cbn [fst snd].
  assert (Hl1 : length buffer1 = num_threads E * N * (2 * C)).
  { unfold buffer1, accumulated. rewrite LargeStep1_length by assumption.
    apply repeat_length. }
  assert (HT : 0 < num_threads E) by apply E_ok.
  assert (Htmp : forall n g, n < N -> g < G ->
            load tmp (n * 2 * G + 2 * g) = fst (mom n g) /\
            load tmp (n * 2 * G + 2 * g + 1) = snd (mom n g)).
  { intros n g Hn Hg. apply LargeStep2_load; auto. apply repeat_length. }
  match goal with
  | |- context [LargeStep4 E X_data N C HxW ?b Y_data] => set (buffer3 := b)
  end.
  assert (Hcl : forall i d, i < N * HxW -> d < C ->
            cl_val mom X_data gamma_data beta_data C HxW D (i * C + d)
            = castT (load X_data (i * C + d) *^ load buffer3 (i / HxW * 2 * C + d)
                     +^ load buffer3 (i / HxW * 2 * C + C + d))).
  { intros i d Hi Hd. unfold cl_val.
    destruct (div_mod_block C i d Hd) as [Hq Hr].
    assert (Hn : (i * C + d) / (HxW * C) = i / HxW).
    { replace (HxW * C) with (C * HxW) by lia.
      now rewrite <- Nat.Div0.div_div, Hq. }
    rewrite Hn, Hr.
    assert (HnN : i / HxW < N) by (apply Nat.Div0.div_lt_upper_bound; nia).
    assert (Hg : d / D < G) by (apply Nat.Div0.div_lt_upper_bound; nia).
    destruct (LargeStep3_buffer gamma_data beta_data N C G D tmp buffer1 HC
                ltac:(rewrite Hl1; nia) (i / HxW) d HnN Hd) as [Hs Hb].
    destruct (Htmp (i / HxW) (d / D) HnN Hg) as [Hm Hrs].
    cbv zeta in Hs, Hb. unfold buffer3. rewrite Hs, Hb, Hm, Hrs. reflexivity. }
  pose proof (LargeStep4_pointwise X_data N C HxW buffer3
                (cl_val mom X_data gamma_data beta_data C HxW D) Hcl) as Hp4.
  split; [|split].
  - repeat split.
    + rewrite (pointwise_length _ _ _ Hp4). assumption.
    + now rewrite nested_stores_length.
    + now rewrite nested_stores_length.
  - intros k Hk.
    assert (HCpos : 0 < C) by nia.
    rewrite (pointwise_load _ _ _ k Hp4) by lia.
    unfold selects.
    assert (k / C < N * HxW) by (apply Nat.Div0.div_lt_upper_bound; nia).
    cmp_cases.
  - intros i Hi.
    assert (Hn : i / G < N) by (apply Nat.Div0.div_lt_upper_bound; lia).
    assert (Hg : i mod G < G) by (apply Nat.mod_upper_bound; lia).
    destruct (Htmp (i / G) (i mod G) Hn Hg) as [Hm Hrs].
    rewrite !nested_stores_load by assumption. now rewrite Hm, Hrs.
Qed.
End LargeFacts4.

Section ForwardLoads.
Context {F : Type} {A : Arith F}.
Variable E : Executor.
Hypothesis E_ok : executor_ok E.
Variable K : nat.

(** impl-1, element by element. *)
Lemma ChannelsLastSmall_loads X_data gamma_data beta_data N C HxW G D eps
    Y_data mean_data rstd_data :
  C = G * D -> 0 < G ->
  length Y_data = N * HxW * C -> length mean_data = N * G -> length rstd_data = N * G ->
  let mom := SmallMoments K X_data C HxW D eps in
  let r := ChannelsLastSmall E K X_data gamma_data beta_data N C HxW G D eps
             (Y_data, mean_data, rstd_data) in
  (length (fst (fst r)) = N * HxW * C /\ length (snd (fst r)) = N * G
   /\ length (snd r) = N * G) /\
  (forall k, k < N * HxW * C ->
     load (fst (fst r)) k = cl_val mom X_data gamma_data beta_data C HxW D k) /\
  (forall i, i < N * G ->
     load (snd (fst r)) i = castPT (fst (mom (i / G) (i mod G))) /\
     load (snd r) i = castPT (snd (mom (i / G) (i mod G)))).
Proof.
  intros HC HG HlY Hlm Hlr mom r. unfold r.
  rewrite ChannelsLastSmall_components by assumption. cbn [fst snd].
  pose proof (SmallApply_pointwise K X_data gamma_data beta_data N C HxW G D eps HC HG)
    as HpY.
  split; [|split].
  - repeat split.
    + rewrite (pointwise_length _ _ _ HpY). assumption.
    + now rewrite stores_length.
    + now rewrite stores_length.
  - intros k Hk. rewrite (pointwise_load _ _ _ k HpY) by lia.
    unfold selects. now rewrite (cl_selected N C HxW G D k HC Hk).
  - intros i Hi. rewrite !stores_load by lia.
    destruct (Nat.ltb_spec i (N * G)); [|lia]. split; reflexivity.
Qed.

(** The packed forward, element by element. *)
Lemma PackedForward_loads X_data gamma_data beta_data N HxW G D eps
    Y_data mean_data rstd_data :
  length Y_data = N * G * (D * HxW) -> length mean_data = N * G ->
  length rstd_data = N * G ->
  let r := PackedForward E X_data gamma_data beta_data N HxW G D eps
             (Y_data, mean_data, rstd_data) in
  (length (fst (fst r)) = N * G * (D * HxW) /\ length (snd (fst r)) = N * G
   /\ length (snd r) = N * G) /\
  (forall k, k < N * G * (D * HxW) ->
     load (fst (fst r)) k = packed_val X_data gamma_data beta_data HxW G D eps k) /\
  (forall i, i < N * G ->
     load (snd (fst r)) i = castPT (fst (PackedMoments X_data HxW D eps i)) /\
     load (snd r) i = castPT (snd (PackedMoments X_data HxW D eps i))).
Proof.
  intros HlY Hlm Hlr r. unfold r.
  rewrite PackedForward_eq by assumption. cbn [fst snd].
  pose proof (PackedForward_Y X_data gamma_data beta_data N HxW G D eps) as HpY.
  split; [|split].
  - repeat split.
    + rewrite (pointwise_length _ _ _ HpY). assumption.
    + now rewrite stores_length.
    + now rewrite stores_length.
  - intros k Hk. rewrite (pointwise_load _ _ _ k HpY) by lia.
    unfold selects.
    assert (0 < D * HxW) by nia.
    assert (k / (D * HxW) < N * G) by (apply Nat.Div0.div_lt_upper_bound; nia).
    cmp_cases.
  - intros i Hi. rewrite !stores_load by lia.
    destruct (Nat.ltb_spec i (N * G)); [|lia]. split; reflexivity.
Qed.
End ForwardLoads.

(* ================================================================= *)
(** ** Exact arithmetic: the moments *)

Open Scope R_scope.

(** Reading the operations of [R_arith]. *)
Ltac real_ops :=
  change (@fadd R R_arith) with Rplus in *;
  change (@fsub R R_arith) with Rminus in *;
  change (@fmul R R_arith) with Rmult in *;
  change (@fdiv R R_arith) with Rdiv in *;
  change (@fneg R R_arith) with Ropp in *;
  change (@fsqrt R R_arith) with sqrt in *;
  change (@fzero R R_arith) with 0 in *;
  change (@fone R R_arith) with 1 in *;
  change (@of_int R R_arith) with INR in *;
  change (@castT R R_arith) with (fun x : R => x) in *;
  change (@castPT R R_arith) with (fun x : R => x) in *;
  change (@castACC R R_arith) with (fun x : R => x) in *;
  cbv beta in *.

Lemma fmax_R (a b : R) : fmax a b = Rmax a b.
Proof.
  unfold fmax, Rmax. simpl. destruct (Rlt_dec a b), (Rle_dec a b); lra.
Qed.

Section RealForward.
Variable K : nat.
Hypothesis K_pos : (0 < K)%nat.

Lemma RowwiseMoments_R (X : list R) off n :
  RowwiseMoments X off n
  = (Rsum (fun j => load X (off + j)) n / INR n,
     Rsum (fun j => (load X (off + j) - Rsum (fun j => load X (off + j)) n / INR n)
                    * (load X (off + j) - Rsum (fun j => load X (off + j)) n / INR n)) n
     / INR n).
Proof.
  unfold RowwiseMoments.
  rewrite (irange_Rsum (fun j => load X (off + j)) n).
  rewrite (irange_Rsum
             (fun j => (load X (off + j) -^ Rsum (fun j => load X (off + j)) n /^ of_int n)
                       *^ (load X (off + j)
                           -^ Rsum (fun j => load X (off + j)) n /^ of_int n)) n).
  reflexivity.
Qed.

(** One position of [ColumnwiseMoments]: the [D]-wide run is added to the
    lanes. *)
Lemma column_step (X : list R) (p D : nat) (acc : list R * list R) :
  length (fst acc) = K -> length (snd acc) = K ->
  let acc' :=
    let acc1 :=
      for_step (D / K * K) K (fun d acc =>
        let x_vec := loadu K X (p + d) in
        (vadd (fst acc) x_vec, vadd (snd acc) (vmul x_vec x_vec))) acc in
    if 0 <? D - D / K * K then
      let x_vec := loadu_n K X (p + D / K * K) (D - D / K * K) in
      (vadd (fst acc1) x_vec, vadd (snd acc1) (vmul x_vec x_vec))
    else acc1 in
  length (fst acc') = K /\ length (snd acc') = K /\
  lsum (fst acc') = lsum (fst acc) + Rsum (fun d => load X (p + d)) D /\
  lsum (snd acc') = lsum (snd acc) + Rsum (fun d => load X (p + d) * load X (p + d)) D.
Proof.
  intros Hl0 Hl1. cbv zeta.
  match goal with
  | |- context [for_step ?d ?k ?f ?a] => set (acc1 := for_step d k f a)
  end.
  assert (Hfst : length (fst acc1) = K /\
                 lsum (fst acc1)
                 = lsum (fst acc) + Rsum (fun j => load X (p + j)) (D / K * K)).
  { unfold acc1, for_step.
    rewrite (for_range_pair_eta _ _
               (fun q a => vadd a (loadu K X (p + q * K)))
               (fun q a => vadd a (vmul (loadu K X (p + q * K)) (loadu K X (p + q * K))))).
    rewrite step_count. cbn [fst].
    rewrite (for_range_ext 0 (D / K)
               (fun q a => vadd a (loadu K X (p + q * K)))
               (fun q a => vadd a (map (fun l => load X (p + (q * K + l))) (seq 0 K)))).
    - exact (lanes_loop K (fun j => load X (p + j)) (D / K) (fst acc) Hl0).
    - intros q a _. f_equal. unfold loadu. apply map_ext. intros l.
      now rewrite Nat.add_assoc. }
  assert (Hsnd : length (snd acc1) = K /\
                 lsum (snd acc1)
                 = lsum (snd acc)
                   + Rsum (fun j => load X (p + j) * load X (p + j)) (D / K * K)).
  { unfold acc1, for_step.
    rewrite (for_range_pair_eta _ _
               (fun q a => vadd a (loadu K X (p + q * K)))
               (fun q a => vadd a (vmul (loadu K X (p + q * K)) (loadu K X (p + q * K))))).
    rewrite step_count. cbn [snd].
    rewrite (for_range_ext 0 (D / K)
               (fun q a => vadd a (vmul (loadu K X (p + q * K)) (loadu K X (p + q * K))))
               (fun q a => vadd a (map (fun l => load X (p + (q * K + l))
                                               * load X (p + (q * K + l))) (seq 0 K)))).
    - exact (lanes_loop K (fun j => load X (p + j) * load X (p + j)) (D / K) (snd acc)
               Hl1).
    - intros q a _. f_equal. unfold vmul, loadu. rewrite vmap2_map.
      apply map_ext. intros l. simpl. now rewrite Nat.add_assoc. }
  clearbody acc1. destruct Hfst as [Hla Hsa]. destruct Hsnd as [Hlb Hsb].
  pose proof (tail_short K D K_pos) as Hshort.
  rewrite (Rsum_split_tail K (fun d => load X (p + d)) D).
  rewrite (Rsum_split_tail K (fun d => load X (p + d) * load X (p + d)) D).
  destruct (Nat.ltb_spec 0 (D - D / K * K)) as [Htail|Htail].
  - cbn [fst snd].
    assert (Hlen : length (loadu_n K X (p + D / K * K) (D - D / K * K)) = K)
      by (unfold loadu_n; now rewrite length_map, length_seq).
    assert (Hsum : lsum (loadu_n K X (p + D / K * K) (D - D / K * K))
                   = Rsum (fun j => load X (p + (D / K * K + j))) (D - D / K * K)).
    { unfold loadu_n. rewrite lsum_map_seq.
      rewrite (Rsum_ext _ (fun l => if (l <? D - D / K * K)%nat
                                    then load X (p + (D / K * K + l)) else 0) K).
      - apply Rsum_mask. lia.
      - intros l _. simpl Nat.add. now rewrite Nat.add_assoc. }
    assert (Hsq : lsum (vmul (loadu_n K X (p + D / K * K) (D - D / K * K))
                             (loadu_n K X (p + D / K * K) (D - D / K * K)))
                  = Rsum (fun j => load X (p + (D / K * K + j))
                                   * load X (p + (D / K * K + j))) (D - D / K * K)).
    { unfold vmul, loadu_n. rewrite vmap2_map, lsum_map_seq.
      rewrite (Rsum_ext _ (fun l => if (l <? D - D / K * K)%nat
                                    then load X (p + (D / K * K + l))
                                         * load X (p + (D / K * K + l)) else 0) K).
      - apply Rsum_mask. lia.
      - intros l _. simpl Nat.add. rewrite Nat.add_assoc.
        destruct (l <? D - D / K * K)%nat; real_ops; [reflexivity|ring]. }
    assert (Hlen2 : length (vmul (loadu_n K X (p + D / K * K) (D - D / K * K))
                                 (loadu_n K X (p + D / K * K) (D - D / K * K))) = K).
    { unfold vmul. rewrite vmap2_length; [assumption|reflexivity]. }
    repeat split.
    + rewrite vadd_length; [exact Hla|]. now rewrite Hla, Hlen.
    + rewrite vadd_length; [exact Hlb|]. now rewrite Hlb, Hlen2.
    + rewrite lsum_vadd by (now rewrite Hla, Hlen). rewrite Hsa, Hsum. ring.
    + rewrite lsum_vadd by (now rewrite Hlb, Hlen2). rewrite Hsb, Hsq. ring.
  - replace (D - D / K * K)%nat with 0%nat by lia. simpl Rsum.
    repeat split; try assumption; [rewrite Hsa|rewrite Hsb]; ring.
Qed.

Lemma ColumnwiseMoments_R (X : list R) off HxW C D :
  ColumnwiseMoments K X off HxW C D
  = (Rsum (fun m => Rsum (fun d => load X (off + m * C + d)) D) HxW,
     Rsum (fun m => Rsum (fun d => load X (off + m * C + d) * load X (off + m * C + d)) D)
          HxW).
Proof.
  unfold ColumnwiseMoments. cbv zeta.
  match goal with
  | |- (vec_reduce_all (fst ?acc), vec_reduce_all (snd ?acc)) = _ =>
      assert (Hinv :
                (fun m a =>
                   length (fst a) = K /\ length (snd a) = K /\
                   lsum (fst a)
                   = Rsum (fun m => Rsum (fun d => load X (off + m * C + d)) D) m /\
                   lsum (snd a)
                   = Rsum (fun m => Rsum (fun d => load X (off + m * C + d)
                                                   * load X (off + m * C + d)) D) m)
                  HxW acc)
  end.
  { apply irange_inv; [lia| |].
    - repeat split; try apply vbroadcast_length; apply lsum_vbroadcast0.
    - intros m a _ [Hl0 [Hl1 [Hs0 Hs1]]].
      destruct (column_step X (off + m * C) D a Hl0 Hl1) as [Hl0' [Hl1' [Hs0' Hs1']]].
      cbv zeta in Hl0', Hl1', Hs0', Hs1'.
      repeat split; try assumption.
      + simpl Rsum. rewrite <- Hs0. exact Hs0'.
      + simpl Rsum. rewrite <- Hs1. exact Hs1'. }
  cbv beta in Hinv. destruct Hinv as [_ [_ [Hs0 Hs1]]].
  f_equal; rewrite vec_reduce_all_lsum; [exact Hs0|exact Hs1].
Qed.
End RealForward.

(* ================================================================= *)
(** ** Exact arithmetic: the interleaved paths *)

Lemma slot_index (N C t n c t' n' : nat) :
  (n < N)%nat -> (n' < N)%nat -> (c < C)%nat ->
  in_block (t' * N * 2 * C + n' * 2 * C) C (t * N * 2 * C + n * 2 * C + c)
  = ((t =? t')%nat && (n =? n')%nat)%bool /\
  in_block (t' * N * 2 * C + n' * 2 * C + C) C (t * N * 2 * C + n * 2 * C + c) = false /\
  in_block (t' * N * 2 * C + n' * 2 * C) C (t * N * 2 * C + n * 2 * C + (c + C)) = false /\
  in_block (t' * N * 2 * C + n' * 2 * C + C) C (t * N * 2 * C + n * 2 * C + (c + C))
  = ((t =? t')%nat && (n =? n')%nat)%bool.
Proof.
  intros Hn Hn' Hc.
  set (a := (t * N + n)%nat). set (b := (t' * N + n')%nat).
  replace (t * N * 2 * C + n * 2 * C)%nat with (a * (2 * C))%nat by (unfold a; ring).
  replace (t' * N * 2 * C + n' * 2 * C)%nat with (b * (2 * C))%nat by (unfold b; ring).
  assert (Hab : ((t =? t')%nat && (n =? n')%nat)%bool = (a =? b)%nat).
  { unfold a, b.
    destruct (Nat.eqb_spec t t'), (Nat.eqb_spec n n'),
      (Nat.eqb_spec (t * N + n) (t' * N + n')); simpl; try reflexivity; try nia. }
  rewrite Hab. unfold in_block.
  destruct (Nat.eqb_spec a b) as [->|Hne].
  - repeat split; cmp_cases.
  - assert (a < b \/ b < a)%nat as [Hlt|Hlt] by lia.
    + assert (a * (2 * C) + 2 * C <= b * (2 * C))%nat by nia.
      repeat split; cmp_cases.
    + assert (b * (2 * C) + 2 * C <= a * (2 * C))%nat by nia.
      repeat split; cmp_cases.
Qed.

Lemma slot_bound (T N C t n c : nat) :
  (t < T)%nat -> (n < N)%nat -> (c < 2 * C)%nat ->
  (t * N * 2 * C + n * 2 * C + c < T * N * (2 * C))%nat.
Proof.
  intros Ht Hn Hc.
  assert ((t * N + n + 1) * (2 * C) <= T * N * (2 * C))%nat
    by (apply Nat.mul_le_mono_r; nia).
  nia.
Qed.

Lemma Rsum_add_at (f : nat -> R) T t0 v :
  (t0 < T)%nat ->
  Rsum (fun t => f t + (if (t =? t0)%nat then v else 0)) T = Rsum f T + v.
Proof.
  intros Ht. rewrite Rsum_plus. f_equal.
  rewrite (Rsum_single _ T t0 Ht).
  - now rewrite Nat.eqb_refl.
  - intros i _ Hi. destruct (Nat.eqb_spec i t0); [contradiction|reflexivity].
Qed.

(** Summing the entries of sample [n] out of the positions [i < N * HxW]. *)
Lemma Rsum_sample (f : nat -> R) N HxW n :
  (n < N)%nat ->
  Rsum (fun i => if (i / HxW =? n)%nat then f i else 0) (N * HxW)
  = Rsum (fun m => f (n * HxW + m)%nat) HxW.
Proof.
  intros Hn. rewrite Rsum_blocks.
  rewrite (Rsum_single _ N n Hn).
  - apply Rsum_ext. intros m Hm.
    destruct (div_mod_block HxW n m Hm) as [Hq _]. rewrite Hq.
    now rewrite Nat.eqb_refl.
  - intros i _ Hi.
    rewrite (Rsum_ext _ (fun _ => 0) HxW); [apply Rsum_zero|].
    intros m Hm. destruct (div_mod_block HxW i m Hm) as [Hq _]. rewrite Hq.
    destruct (Nat.eqb_spec i n); [contradiction|reflexivity].
Qed.

Section RealLarge.
Variable E : Executor.
Hypothesis E_ok : executor_ok E.

(** The total, over the workers' slices of the [{T, N, 2C}] buffer, of entry
    [c] of sample [n]. *)
Definition thread_total (N C : nat) (buffer_data : list R) (n c : nat) : R :=
  Rsum (fun t => load buffer_data (t * N * 2 * C + n * 2 * C + c)) (num_threads E).

(** The state of the buffer when step-1 has covered the positions [i < p]. *)
Definition accumulated_upto (X_data : list R) (N C HxW p : nat) (buffer_data : list R)
    : Prop :=
  length buffer_data = (num_threads E * N * (2 * C))%nat /\
  forall n c, (n < N)%nat -> (c < C)%nat ->
    thread_total N C buffer_data n c
    = Rsum (fun i => if (i / HxW =? n)%nat then load X_data (i * C + c) else 0) p /\
    thread_total N C buffer_data n (c + C)
    = Rsum (fun i => if (i / HxW =? n)%nat
                     then load X_data (i * C + c) * load X_data (i * C + c) else 0) p.

Lemma accumulate_step X_data N C HxW tid i buffer_data :
  (tid < num_threads E)%nat -> (i < N * HxW)%nat ->
  accumulated_upto X_data N C HxW i buffer_data ->
  accumulated_upto X_data N C HxW (Datatypes.S i)
    (CalcMeanVar X_data (i * C) buffer_data
       (tid * N * 2 * C + i / HxW * 2 * C) (tid * N * 2 * C + i / HxW * 2 * C + C) C).
Proof.
  intros Htid Hi [Hlen Hs].
  pose proof (CalcMeanVar_pointwise X_data (i * C)
                (tid * N * 2 * C + i / HxW * 2 * C) C) as Hp.
  assert (Hq : (i / HxW < N)%nat) by (apply Nat.Div0.div_lt_upper_bound; nia).
  split.
  - rewrite (pointwise_length _ _ _ Hp). assumption.
  - intros n c Hn Hc. destruct (Hs n c Hn Hc) as [H1 H2].
    unfold thread_total in *. cbn [Rsum]. rewrite <- H1, <- H2. split.
    + rewrite <- (Rsum_add_at _ (num_threads E) tid
                    (if (i / HxW =? n)%nat then load X_data (i * C + c) else 0) Htid).
      apply Rsum_ext. intros t Ht.
      rewrite (pointwise_load _ _ _ _ Hp)
        by (rewrite Hlen; apply slot_bound; auto; lia).
      destruct (slot_index N C t n c tid (i / HxW) Hn Hq Hc) as [I1 [I2 _]].
      rewrite I1, (Nat.eqb_sym (i / HxW) n).
      destruct (Nat.eqb_spec t tid) as [->|]; destruct (Nat.eqb_spec n (i / HxW)) as [->|];
        cbn [andb]; try rewrite I2; real_ops; try ring.
      replace (tid * N * 2 * C + i / HxW * 2 * C + c
               - (tid * N * 2 * C + i / HxW * 2 * C))%nat with c by lia.
      ring.
    + rewrite <- (Rsum_add_at _ (num_threads E) tid
                    (if (i / HxW =? n)%nat
                     then load X_data (i * C + c) * load X_data (i * C + c) else 0) Htid).
      apply Rsum_ext. intros t Ht.
      rewrite (pointwise_load _ _ _ _ Hp)
        by (rewrite Hlen; apply slot_bound; auto; lia).
      destruct (slot_index N C t n c tid (i / HxW) Hn Hq Hc) as [_ [_ [I3 I4]]].
      rewrite I3, I4, (Nat.eqb_sym (i / HxW) n).
      destruct (Nat.eqb_spec t tid) as [->|]; destruct (Nat.eqb_spec n (i / HxW)) as [->|];
        cbn [andb]; real_ops; try ring.
      replace (tid * N * 2 * C + i / HxW * 2 * C + (c + C)
               - (tid * N * 2 * C + i / HxW * 2 * C + C))%nat with c by lia.
      ring.
Qed.

Lemma accumulated_totals X_data N C HxW :
  accumulated_upto X_data N C HxW (N * HxW) (accumulated E X_data N C HxW).
Proof.
  unfold accumulated, LargeStep1.
  apply (parallel_for_inv (accumulated_upto X_data N C HxW)); auto; [lia| |].
  - split; [apply repeat_length|]. intros n c Hn Hc. unfold thread_total. cbn [Rsum].
    split; (rewrite (Rsum_ext _ (fun _ => 0)); [apply Rsum_zero|]);
      intros t Ht; apply load_repeat; apply slot_bound; auto; lia.
  - intros tid x y s _ Hxy Hy Htid Hs. cbv zeta.
    rewrite LargeStep1_chunk by assumption.
    apply irange_inv; [assumption|assumption|].
    intros i b Hi Hb. apply accumulate_step; auto; lia.
Qed.
End RealLarge.

(** The sum and the sum of squares of the values of group [g] of sample [n],
    read from the interleaved layout. *)
Definition group_sum (X_data : list R) (C HxW D n g : nat) : R :=
  Rsum (fun m => Rsum (fun d => load X_data (n * HxW * C + m * C + g * D + d)) D) HxW.

Definition group_sumsq (X_data : list R) (C HxW D n g : nat) : R :=
  Rsum (fun m => Rsum (fun d => load X_data (n * HxW * C + m * C + g * D + d)
                                * load X_data (n * HxW * C + m * C + g * D + d)) D) HxW.

(** Mean and variance as both interleaved implementations form them. *)
Definition group_mean (X_data : list R) (C HxW D n g : nat) : R :=
  group_sum X_data C HxW D n g * (1 / INR (D * HxW)).

Definition group_var (X_data : list R) (C HxW D n g : nat) : R :=
  group_sumsq X_data C HxW D n g * (1 / INR (D * HxW))
  - group_mean X_data C HxW D n g * group_mean X_data C HxW D n g.

Definition group_moments (X_data : list R) (C HxW D : nat) (eps : R) (n g : nat) : R * R :=
  (group_mean X_data C HxW D n g,
   1 / sqrt (Rmax (group_var X_data C HxW D n g) 0 + eps)).

Lemma SmallMeanVar_R K (X_data : list R) C HxW D n g :
  (0 < K)%nat ->
  SmallMeanVar K X_data C HxW D n g
  = (group_mean X_data C HxW D n g, group_var X_data C HxW D n g).
Proof.
  intros HK. unfold SmallMeanVar. rewrite (ColumnwiseMoments_R K HK).
  cbv iota beta zeta. real_ops. unfold group_var, group_mean, group_sum, group_sumsq.
  assert (Hidx : forall m d,
            (n * HxW * C + g * D + m * C + d = n * HxW * C + m * C + g * D + d)%nat)
    by (intros; lia).
  f_equal; [f_equal|f_equal; [f_equal|f_equal; f_equal]];
    apply Rsum_ext; intros m _; apply Rsum_ext; intros d _; now rewrite Hidx.
Qed.

Lemma SmallMoments_R K (X_data : list R) C HxW D eps n g :
  (0 < K)%nat ->
  SmallMoments K X_data C HxW D eps n g = group_moments X_data C HxW D eps n g.
Proof.
  intros HK. unfold SmallMoments. rewrite (SmallMeanVar_R K) by assumption.
  cbv iota beta zeta. rewrite fmax_R. reflexivity.
Qed.

Section RealLargeMoments.
Variable E : Executor.
Hypothesis E_ok : executor_ok E.

Lemma LargeSums_R N C G D (buffer_data : list R) n g :
  LargeSums E N C G D buffer_data n g
  = (Rsum (fun d => thread_total E N C buffer_data n (g * D + d)) D,
     Rsum (fun d => thread_total E N C buffer_data n (g * D + d + C)) D).
Proof.
  unfold LargeSums.
  apply (irange_inv
           (fun d acc =>
              acc = (Rsum (fun d => thread_total E N C buffer_data n (g * D + d)) d,
                     Rsum (fun d => thread_total E N C buffer_data n (g * D + d + C)) d)));
    [lia|reflexivity|].
  intros d acc _ ->. cbv zeta. unfold irange. rewrite Nat.sub_0_r.
  rewrite (for_range_pair_eta 0 (num_threads E)
             (fun t y => y +^ load buffer_data (t * N * 2 * C + n * 2 * C + (g * D + d)))
             (fun t y => y +^ load buffer_data
                                (t * N * 2 * C + n * 2 * C + (g * D + d + C)))).
  rewrite !for_range_Rsum. cbn [fst snd Rsum]. reflexivity.
Qed.

Lemma LargeMeanVar_R X_data N C HxW G D n g :
  C = (G * D)%nat -> (n < N)%nat -> (g < G)%nat ->
  LargeMeanVar E N C HxW G D (accumulated E X_data N C HxW) n g
  = (group_mean X_data C HxW D n g, group_var X_data C HxW D n g).
Proof.
  intros HC Hn Hg. unfold LargeMeanVar. rewrite LargeSums_R.
  destruct (accumulated_totals E E_ok X_data N C HxW) as [_ Hs].
  assert (H1 : Rsum (fun d => thread_total E N C (accumulated E X_data N C HxW) n
                                (g * D + d)) D
               = group_sum X_data C HxW D n g).
  { unfold group_sum. rewrite Rsum_swap. apply Rsum_ext. intros d Hd.
    assert (Hc : (g * D + d < C)%nat) by nia.
    destruct (Hs n (g * D + d)%nat Hn Hc) as [-> _].
    rewrite (Rsum_sample (fun i => load X_data (i * C + (g * D + d))) N HxW n Hn).
    apply Rsum_ext. intros m _. f_equal. lia. }
  assert (H2 : Rsum (fun d => thread_total E N C (accumulated E X_data N C HxW) n
                                (g * D + d + C)) D
               = group_sumsq X_data C HxW D n g).
  { unfold group_sumsq. rewrite Rsum_swap. apply Rsum_ext. intros d Hd.
    assert (Hc : (g * D + d < C)%nat) by nia.
    destruct (Hs n (g * D + d)%nat Hn Hc) as [_ ->].
    rewrite (Rsum_sample (fun i => load X_data (i * C + (g * D + d))
                                   * load X_data (i * C + (g * D + d))) N HxW n Hn).
    apply Rsum_ext. intros m _.
    replace ((n * HxW + m) * C + (g * D + d))%nat
      with (n * HxW * C + m * C + g * D + d)%nat by lia.
    reflexivity. }
  rewrite H1, H2. cbv iota beta zeta. real_ops. reflexivity.
Qed.

Lemma LargeMoments_R X_data N C HxW G D eps n g :
  C = (G * D)%nat -> (n < N)%nat -> (g < G)%nat ->
  LargeMoments E N C HxW G D eps (accumulated E X_data N C HxW) n g
  = group_moments X_data C HxW D eps n g.
Proof.
  intros HC Hn Hg. unfold LargeMoments. rewrite LargeMeanVar_R by assumption.
  cbv iota beta zeta. rewrite fmax_R. reflexivity.
Qed.
End RealLargeMoments.

Lemma triple_ext {F : Type} {A : Arith F} (r1 r2 : list F * list F * list F)
    n1 n2 n3 :
  (length (fst (fst r1)) = n1 /\ length (snd (fst r1)) = n2 /\ length (snd r1) = n3) ->
  (length (fst (fst r2)) = n1 /\ length (snd (fst r2)) = n2 /\ length (snd r2) = n3) ->
  (forall k, (k < n1)%nat -> load (fst (fst r1)) k = load (fst (fst r2)) k) ->
  (forall i, (i < n2)%nat -> load (snd (fst r1)) i = load (snd (fst r2)) i) ->
  (forall i, (i < n3)%nat -> load (snd r1) i = load (snd r2) i) ->
  r1 = r2.
Proof.
  destruct r1 as [[y1 m1] s1], r2 as [[y2 m2] s2]. cbn [fst snd].
  intros [Hy1 [Hm1 Hs1]] [Hy2 [Hm2 Hs2]] Hy Hm Hs.
  f_equal; [f_equal|]; apply buffer_ext; try congruence; intros k Hk;
    [apply Hy|apply Hm|apply Hs]; congruence.
Qed.

Lemma cl_unit_in_range N C HxW G D k :
  C = (G * D)%nat -> (k < N * HxW * C)%nat ->
  (k / (HxW * C) < N)%nat /\ (k mod C / D < G)%nat.
Proof.
  intros HC Hk. assert (0 < C)%nat by nia. split.
  - apply Nat.Div0.div_lt_upper_bound. nia.
  - apply Nat.Div0.div_lt_upper_bound.
    pose proof (Nat.mod_upper_bound k C). nia.
Qed.

(** What the interleaved forward leaves in its three output buffers, over
    exact arithmetic. *)
Definition interleaved_result (X_data : list R) (gamma_data beta_data : option (list R))
    (N C HxW G D : nat) (eps : R) (r : list R * list R * list R) : Prop :=
  (length (fst (fst r)) = (N * HxW * C)%nat /\ length (snd (fst r)) = (N * G)%nat
   /\ length (snd r) = (N * G)%nat) /\
  (forall k, (k < N * HxW * C)%nat ->
     load (fst (fst r)) k
     = cl_val (group_moments X_data C HxW D eps) X_data gamma_data beta_data C HxW D k) /\
  (forall i, (i < N * G)%nat ->
     load (snd (fst r)) i = group_mean X_data C HxW D (i / G) (i mod G) /\
     load (snd r) i = 1 / sqrt (Rmax (group_var X_data C HxW D (i / G) (i mod G)) 0 + eps)).

Lemma unit_in_range N G i : (i < N * G)%nat -> (i / G < N)%nat /\ (i mod G < G)%nat.
Proof.
  intros Hi. split.
  - apply Nat.Div0.div_lt_upper_bound. nia.
  - apply Nat.mod_upper_bound. lia.
Qed.

Lemma cl_val_ext (mom1 mom2 : nat -> nat -> R * R) (X_data : list R) gamma_data beta_data
    C HxW D k :
  mom1 (k / (HxW * C))%nat (k mod C / D)%nat = mom2 (k / (HxW * C))%nat (k mod C / D)%nat ->
  cl_val mom1 X_data gamma_data beta_data C HxW D k
  = cl_val mom2 X_data gamma_data beta_data C HxW D k.
Proof. intros H. unfold cl_val. now rewrite H. Qed.

Lemma ChannelsLastSmall_exact (E : Executor) (K : nat) X_data gamma_data beta_data
    N C HxW G D eps Y_data mean_data rstd_data :
  executor_ok E -> (0 < K)%nat -> C = (G * D)%nat -> (0 < G)%nat ->
  length Y_data = (N * HxW * C)%nat ->
  length mean_data = (N * G)%nat -> length rstd_data = (N * G)%nat ->
  interleaved_result X_data gamma_data beta_data N C HxW G D eps
    (ChannelsLastSmall E K X_data gamma_data beta_data N C HxW G D eps
       (Y_data, mean_data, rstd_data)).
Proof.
  intros HE HK HC HG HlY Hlm Hlr.
  destruct (ChannelsLastSmall_loads E HE K X_data gamma_data beta_data N C HxW G D eps
              Y_data mean_data rstd_data HC HG HlY Hlm Hlr) as [Hl [Hy Hm]].
  cbv zeta in *. split; [assumption|split].
  - intros k Hk. rewrite Hy by assumption. apply cl_val_ext.
    now apply SmallMoments_R.
  - intros i Hi. destruct (Hm i Hi) as [-> ->].
    rewrite (SmallMoments_R K) by assumption. split; reflexivity.
Qed.

Lemma ChannelsLastLarge_exact (E : Executor) X_data gamma_data beta_data
    N C HxW G D eps Y_data mean_data rstd_data :
  executor_ok E -> C = (G * D)%nat -> (0 < G)%nat ->
  length Y_data = (N * HxW * C)%nat ->
  length mean_data = (N * G)%nat -> length rstd_data = (N * G)%nat ->
  interleaved_result X_data gamma_data beta_data N C HxW G D eps
    (ChannelsLastLarge E X_data gamma_data beta_data N C HxW G D eps
       (Y_data, mean_data, rstd_data)).
Proof.
  intros HE HC HG HlY Hlm Hlr.
  destruct (ChannelsLastLarge_loads E HE X_data gamma_data beta_data N C HxW G D eps
              Y_data mean_data rstd_data HC HG HlY Hlm Hlr) as [Hl [Hy Hm]].
  cbv zeta in *. split; [assumption|split].
  - intros k Hk. rewrite Hy by assumption. apply cl_val_ext.
    destruct (cl_unit_in_range N C HxW G D k HC Hk) as [Hn Hg].
    now apply LargeMoments_R.
  - intros i Hi. destruct (Hm i Hi) as [-> ->].
    destruct (unit_in_range N G i Hi) as [Hn Hg].
    rewrite (LargeMoments_R E HE) by assumption. split; reflexivity.
Qed.

Lemma interleaved_result_unique X_data gamma_data beta_data N C HxW G D eps r1 r2 :
  interleaved_result X_data gamma_data beta_data N C HxW G D eps r1 ->
  interleaved_result X_data gamma_data beta_data N C HxW G D eps r2 ->
  r1 = r2.
Proof.
  intros [Hl1 [Hy1 Hm1]] [Hl2 [Hy2 Hm2]].
  apply (triple_ext _ _ (N * HxW * C) (N * G) (N * G)); try assumption.
  - intros k Hk. now rewrite Hy1, Hy2.
  - intros i Hi. destruct (Hm1 i Hi) as [-> _]. now destruct (Hm2 i Hi) as [-> _].
  - intros i Hi. destruct (Hm1 i Hi) as [_ ->]. now destruct (Hm2 i Hi) as [_ ->].
Qed.

(** C5, as stated, fails in floating point.  One sample of two channels
    (two groups) at four positions, [scalar_t = float]; each group holds
    [10001, 10003, 10005, 10007]: mean [10004], variance [5], [rstd = 0.4472].
    Both implementations form the variance as [E[X^2] - E[X]^2] from sums of
    squares near [1e8], where a [float] has a step of [8].  impl-1 adds the
    four squares in one chain and gets a variance that the clamp turns into
    [0]: [rstd = 316.2278].  impl-2 on two workers adds two partial sums per
    worker and then the workers, gets the variance [8] and [rstd = 0.35355];
    on one worker it returns what impl-1 returns.  The means agree; [rstd]
    and [Y] differ by a factor of 894. *)
Lemma small_and_large_paths_differ_in_float :
  let X_data :=
    map IEEE.lit [10001; 10001; 10003; 10003; 10005; 10005; 10007; 10007]%float in
  let eps := @castT _ (dispatch Float false) eps_1e_5 in
  let st := (repeat S754_nan 8, repeat S754_nan 2, repeat S754_nan 2) in
  let small := ChannelsLastSmall (A := dispatch Float false) sequential 4
                 X_data None None 1 2 4 2 1 eps st in
  let large := ChannelsLastLarge (A := dispatch Float false) (round_robin 2)
                 X_data None None 1 2 4 2 1 eps st in
  let large1 := ChannelsLastLarge (A := dispatch Float false) sequential
                  X_data None None 1 2 4 2 1 eps st in
  map (IEEE.round IEEE.binary64) (snd (fst small)) = map IEEE.lit [10004; 10004]%float /\
  map (IEEE.round IEEE.binary64) (snd (fst large)) = map IEEE.lit [10004; 10004]%float /\
  map (IEEE.round IEEE.binary64) (snd small)
  = map IEEE.lit [0x1.3c3a5p+8; 0x1.3c3a5p+8]%float /\
  map (IEEE.round IEEE.binary64) (snd large)
  = map IEEE.lit [0x1.6a09d8p-2; 0x1.6a09d8p-2]%float /\
  map (IEEE.round IEEE.binary64) (fst (fst small))
  = map IEEE.lit [-948.75; -948.75; -316.25; -316.25;
                  316.25; 316.25; 948.75; 948.75]%float /\
  map (IEEE.round IEEE.binary64) (fst (fst large))
  = map IEEE.lit [-1.060791015625; -1.060791015625; -0.353515625; -0.353515625;
                  0.353515625; 0.353515625; 1.060546875; 1.060546875]%float /\
  large1 = small.
Proof. cbv zeta. vm_compute. repeat split. Qed.

(** C5, amended.  Over exact arithmetic, for any two worker pools and any
    vector width, impl-1 and impl-2 leave the same [Y], [mean] and [rstd]. *)
Theorem small_and_large_paths_agree (E1 E2 : Executor) (K : nat)
    (X_data : list R) (gamma_data beta_data : option (list R))
    (N C HxW G D : nat) (eps : R) (Y_data mean_data rstd_data : list R) :
  executor_ok E1 -> executor_ok E2 -> (0 < K)%nat ->
  C = (G * D)%nat -> (0 < G)%nat ->
  length Y_data = (N * HxW * C)%nat ->
  length mean_data = (N * G)%nat -> length rstd_data = (N * G)%nat ->
  ChannelsLastSmall E1 K X_data gamma_data beta_data N C HxW G D eps
    (Y_data, mean_data, rstd_data)
  = ChannelsLastLarge E2 X_data gamma_data beta_data N C HxW G D eps
      (Y_data, mean_data, rstd_data).
Proof.
  intros HE1 HE2 HK HC HG HlY Hlm Hlr.
  apply (interleaved_result_unique X_data gamma_data beta_data N C HxW G D eps).
  - now apply ChannelsLastSmall_exact.
  - now apply ChannelsLastLarge_exact.
Qed.

(** Two positions, two channels, one group: impl-1 run on one worker and
    impl-2 run on two. *)
Lemma small_and_large_paths_agree_witness :
  ChannelsLastSmall sequential 4 [1; 3; 2; 4] None None 1 2 2 1 2 1
    ([0; 0; 0; 0], [0], [0])
  = ChannelsLastLarge (round_robin 2) [1; 3; 2; 4] None None 1 2 2 1 2 1
      ([0; 0; 0; 0], [0], [0]).
Proof.
  apply (small_and_large_paths_agree sequential (round_robin 2) 4);
    [apply sequential_ok|apply round_robin_ok; lia|lia|reflexivity|lia
    |reflexivity|reflexivity|reflexivity].
Defined.

(* ================================================================= *)
(** ** Exact arithmetic: the two layouts *)

(** The two-pass variance is the mean of the squares less the square of the
    mean. *)
Lemma two_pass_variance (f : nat -> R) n :
  Rsum (fun j => (f j - Rsum f n / INR n) * (f j - Rsum f n / INR n)) n / INR n
  = Rsum (fun j => f j * f j) n * (1 / INR n)
    - Rsum f n * (1 / INR n) * (Rsum f n * (1 / INR n)).
Proof.
  set (mu := Rsum f n / INR n).
  rewrite (Rsum_ext _ (fun j => f j * f j + ((-2 * mu) * f j + mu * mu)) n)
    by (intros; cbv beta; ring).
  rewrite Rsum_plus, Rsum_plus, Rsum_scal, Rsum_const.
  destruct n as [|n'].
  - cbn [Rsum INR]. unfold Rdiv. ring.
  - assert (INR (Datatypes.S n') <> 0) by (apply not_0_INR; lia).
    unfold mu. field. assumption.
Qed.

(** [Xc] holds in the interleaved layout [{N, HxW, C}] the logical data that
    [Xp] holds in the packed layout [{N, C, HxW}]. *)
Definition same_logical_data (Xp Xc : list R) (N C HxW : nat) : Prop :=
  forall n c m, (n < N)%nat -> (c < C)%nat -> (m < HxW)%nat ->
    load Xp ((n * C + c) * HxW + m) = load Xc ((n * HxW + m) * C + c).

Lemma PackedMoments_R (Xp Xc : list R) N C HxW G D eps n g :
  C = (G * D)%nat -> (n < N)%nat -> (g < G)%nat ->
  same_logical_data Xp Xc N C HxW ->
  PackedMoments Xp HxW D eps (n * G + g) = group_moments Xc C HxW D eps n g.
Proof.
  intros HC Hn Hg HX. unfold PackedMoments. rewrite RowwiseMoments_R.
  cbv iota beta zeta. rewrite fmax_R. rewrite two_pass_variance.
  assert (Hrel : forall h : R -> R,
            Rsum (fun j => h (load Xp ((n * G + g) * (D * HxW) + j))) (D * HxW)
            = Rsum (fun m => Rsum (fun d =>
                h (load Xc (n * HxW * C + m * C + g * D + d))) D) HxW).
  { intros h. rewrite Rsum_blocks, Rsum_swap. apply Rsum_ext. intros m Hm.
    apply Rsum_ext. intros d Hd. f_equal.
    replace ((n * G + g) * (D * HxW) + (d * HxW + m))%nat
      with ((n * C + (g * D + d)) * HxW + m)%nat by (subst C; ring).
    rewrite HX by (auto; nia). f_equal. lia. }
  pose proof (Hrel (fun x => x)) as H1. pose proof (Hrel (fun x => x * x)) as H2.
  cbv beta in H1, H2. rewrite H1, H2.
  unfold group_moments, group_var, group_mean, group_sum, group_sumsq.
  real_ops. unfold Rdiv. rewrite !Rmult_1_l. reflexivity.
Qed.

Lemma packed_matches_interleaved (Xp Xc : list R) gamma_data beta_data
    N C HxW G D eps n c m :
  C = (G * D)%nat -> (n < N)%nat -> (c < C)%nat -> (m < HxW)%nat ->
  same_logical_data Xp Xc N C HxW ->
  packed_val Xp gamma_data beta_data HxW G D eps ((n * C + c) * HxW + m)
  = cl_val (group_moments Xc C HxW D eps) Xc gamma_data beta_data C HxW D
      ((n * HxW + m) * C + c).
Proof.
  intros HC Hn Hc Hm HX.
  assert (HD : (0 < D)%nat) by nia.
  destruct (block_decompose D c HD) as [Hcd Hd].
  assert (Hg : (c / D < G)%nat) by (apply Nat.Div0.div_lt_upper_bound; nia).
  set (g := (c / D)%nat) in *. set (d := (c mod D)%nat) in *.
  unfold packed_val, cl_val. cbv zeta. rewrite (HX n c m Hn Hc Hm).
  replace ((n * C + c) * HxW + m)%nat with (((n * G + g) * D + d) * HxW + m)%nat
    by (rewrite Hcd, HC; ring).
  destruct (block2_index D HxW (n * G + g) d m Hd Hm) as [-> ->].
  destruct (div_mod_block G n g Hg) as [_ ->].
  rewrite (PackedMoments_R Xp Xc N C HxW G D eps n g HC Hn Hg HX).
  replace ((n * HxW + m) * C + c)%nat with (n * HxW * C + m * C + g * D + d)%nat
    by (rewrite Hcd; ring).
  destruct (cl_index_sel C HxW G D n m g d HC Hg Hm Hd) as [_ [-> [-> [-> _]]]].
  unfold bias_of, scale_of.
  destruct (is_null gamma_data), (is_null beta_data); cbn [andb]; real_ops; ring.
Qed.

(** The output tensors have the extents the caller allocates:
    [Y] like [X], [mean] and [rstd] of [N * G] elements. *)
Definition output_shapes {F} (out : Outputs F) (N C HxW G : nat) : bool :=
  (numel (Y out) =? N * C * HxW) && (numel (mean out) =? N * G)
  && (numel (rstd out) =? N * G).

Lemma output_shapes_spec {F} (out : Outputs F) N C HxW G :
  output_shapes out N C HxW G = true ->
  length (data (Y out)) = (N * C * HxW)%nat /\ length (data (mean out)) = (N * G)%nat
  /\ length (data (rstd out)) = (N * G)%nat.
Proof.
  unfold output_shapes, numel. rewrite !andb_true_iff, !Nat.eqb_eq. tauto.
Qed.

Lemma with_data_proj {F} (out : Outputs F) (st : list F * list F * list F) :
  data (Y (with_data out st)) = fst (fst st) /\
  data (mean (with_data out st)) = snd (fst st) /\
  data (rstd (with_data out st)) = snd st.
Proof. destruct st as [[y m] r]. repeat split. Qed.

Lemma groups_divide (C G : nat) : (0 < G)%nat -> (C mod G = 0)%nat -> C = (G * (C / G))%nat.
Proof. intros HG Hm. pose proof (Nat.div_mod_eq C G). lia. Qed.

(** The forward entry point on a valid call, in every arithmetic: it
    succeeds, and its outputs are those of the path the layout selects. *)
Lemma forward_run {F : Type} {A : Arith F} (E : Executor) (K : nat) memory_format
    (X gamma beta : Tensor F) N C HxW G eps (out : Outputs F) :
  forward_checks X gamma beta N C HxW = true ->
  memory_format <> Preserve ->
  let r := GroupNormKernelImpl E K memory_format X gamma beta N C HxW G eps out in
  let st :=
    match memory_format with
    | Contiguous =>
        PackedForward E (data X) (data_ptr_or_null gamma) (data_ptr_or_null beta)
          N HxW G (C / G) (castT eps) (data_of out)
    | _ =>
        if HxW <? feature_map_threshold
        then ChannelsLastSmall E K (data X) (data_ptr_or_null gamma)
               (data_ptr_or_null beta) N C HxW G (C / G) (castT eps) (data_of out)
        else ChannelsLastLarge E (data X) (data_ptr_or_null gamma)
               (data_ptr_or_null beta) N C HxW G (C / G) (castT eps) (data_of out)
    end in
  succeeded r = true /\
  data (Y (snd r)) = fst (fst st) /\ data (mean (snd r)) = snd (fst st)
  /\ data (rstd (snd r)) = snd st.
Proof.
  intros Hchk Hfmt r st. unfold r, st, GroupNormKernelImpl.
  destruct memory_format; try contradiction.
  - rewrite packed_run by assumption. split; [reflexivity|]. apply with_data_proj.
  - rewrite channels_last_run by assumption. split; [reflexivity|]. apply with_data_proj.
  - rewrite channels_last_run by assumption. split; [reflexivity|]. apply with_data_proj.
Qed.

(** The interleaved entry point over exact arithmetic, whichever of the two
    implementations the spatial extent selects. *)
Lemma interleaved_forward_exact (E : Executor) (K : nat) memory_format
    (X gamma beta : Tensor R) N C HxW G eps (out : Outputs R) :
  executor_ok E -> (0 < K)%nat -> (0 < G)%nat -> (C mod G = 0)%nat ->
  forward_checks X gamma beta N C HxW = true ->
  output_shapes out N C HxW G = true ->
  memory_format = ChannelsLast \/ memory_format = ChannelsLast3d ->
  let r := GroupNormKernelImpl E K memory_format X gamma beta N C HxW G eps out in
  succeeded r = true /\
  interleaved_result (data X) (data_ptr_or_null gamma) (data_ptr_or_null beta)
    N C HxW G (C / G) eps (data (Y (snd r)), data (mean (snd r)), data (rstd (snd r))).
Proof.
  intros HE HK HG Hdiv Hchk Hout Hfmt r.
  assert (Hfmt' : memory_format <> Preserve) by (destruct Hfmt; subst; discriminate).
  destruct (forward_run E K memory_format X gamma beta N C HxW G eps out Hchk Hfmt')
    as [Hs [HY [Hm Hr]]].
  fold r in Hs, HY, Hm, Hr. split; [assumption|].
  rewrite HY, Hm, Hr. rewrite <- !surjective_pairing.
  pose proof (groups_divide C G HG Hdiv) as HC.
  destruct (output_shapes_spec out N C HxW G Hout) as [HlY [Hlm Hlr]].
  assert (HlY' : length (data (Y out)) = (N * HxW * C)%nat) by lia.
  change (@castT R R_arith eps) with eps. unfold data_of.
  assert (Hboth :
    interleaved_result (data X) (data_ptr_or_null gamma) (data_ptr_or_null beta)
      N C HxW G (C / G) eps
      (if (HxW <? feature_map_threshold)%nat
       then ChannelsLastSmall E K (data X) (data_ptr_or_null gamma)
              (data_ptr_or_null beta) N C HxW G (C / G) eps
              (data (Y out), data (mean out), data (rstd out))
       else ChannelsLastLarge E (data X) (data_ptr_or_null gamma)
              (data_ptr_or_null beta) N C HxW G (C / G) eps
              (data (Y out), data (mean out), data (rstd out)))).
  { destruct (HxW <? feature_map_threshold)%nat.
    - now apply ChannelsLastSmall_exact.
    - now apply ChannelsLastLarge_exact. }
  destruct Hfmt; subst memory_format; exact Hboth.
Qed.

(** The packed entry point over exact arithmetic, in terms of the data of
    the interleaved layout. *)
Lemma packed_forward_exact (E : Executor) (K : nat)
    (X gamma beta : Tensor R) (Xc : list R) N C HxW G eps (out : Outputs R) :
  executor_ok E -> (0 < G)%nat -> (C mod G = 0)%nat ->
  forward_checks X gamma beta N C HxW = true ->
  output_shapes out N C HxW G = true ->
  same_logical_data (data X) Xc N C HxW ->
  let r := GroupNormKernelImpl E K Contiguous X gamma beta N C HxW G eps out in
  succeeded r = true /\
  (length (data (Y (snd r))) = (N * C * HxW)%nat /\
   length (data (mean (snd r))) = (N * G)%nat /\
   length (data (rstd (snd r))) = (N * G)%nat) /\
  (forall n c m, (n < N)%nat -> (c < C)%nat -> (m < HxW)%nat ->
     load (data (Y (snd r))) ((n * C + c) * HxW + m)
     = cl_val (group_moments Xc C HxW (C / G) eps) Xc (data_ptr_or_null gamma)
         (data_ptr_or_null beta) C HxW (C / G) ((n * HxW + m) * C + c)) /\
  (forall i, (i < N * G)%nat ->
     load (data (mean (snd r))) i = group_mean Xc C HxW (C / G) (i / G) (i mod G) /\
     load (data (rstd (snd r))) i
     = 1 / sqrt (Rmax (group_var Xc C HxW (C / G) (i / G) (i mod G)) 0 + eps)).
Proof.
  intros HE HG Hdiv Hchk Hout HX r.
  destruct (forward_run E K Contiguous X gamma beta N C HxW G eps out Hchk)
    as [Hs [HY [Hm Hr]]]; [discriminate|].
  fold r in Hs, HY, Hm, Hr. split; [assumption|].
  rewrite HY, Hm, Hr.
  pose proof (groups_divide C G HG Hdiv) as HC.
  destruct (output_shapes_spec out N C HxW G Hout) as [HlY [Hlm Hlr]].
  assert (Heq : (N * G * (C / G * HxW) = N * C * HxW)%nat).
  { set (D := (C / G)%nat) in *. rewrite HC. ring. }
  assert (HlY' : length (data (Y out)) = (N * G * (C / G * HxW))%nat) by congruence.
  change (@castT R R_arith eps) with eps. unfold data_of.
  destruct (PackedForward_loads E HE (data X) (data_ptr_or_null gamma)
              (data_ptr_or_null beta) N HxW G (C / G) eps
              (data (Y out)) (data (mean out)) (data (rstd out)) HlY' Hlm Hlr)
    as [[Hl1 [Hl2 Hl3]] [Hy Hmr]].
  cbv zeta in *. split; [|split].
  - repeat split; try assumption. congruence.
  - intros n c m Hn Hc Hm'. rewrite Hy.
    + now apply (packed_matches_interleaved (data X) Xc _ _ N C HxW G (C / G)).
    + rewrite Heq. nia.
  - intros i Hi. destruct (Hmr i Hi) as [-> ->].
    destruct (unit_in_range N G i Hi) as [Hn Hg].
    assert (Hi' : i = (i / G * G + i mod G)%nat)
      by (pose proof (Nat.div_mod_eq i G); lia).
    pose proof (PackedMoments_R (data X) Xc N C HxW G (C / G) eps (i / G) (i mod G)
                  HC Hn Hg HX) as HP.
    rewrite <- Hi' in HP. rewrite HP. split; reflexivity.
Qed.

(* ================================================================= *)
(** ** The statistics of a valid forward call *)

Close Scope R_scope.

Section ForwardMoments.
Context {F : Type} {A : Arith F}.
Variable E : Executor.
Hypothesis E_ok : executor_ok E.
Variable K : nat.

(** [T_ACC(1) / std::sqrt(std::max(var, T_ACC(0)) + eps)] (lines 65, 352-353
    and 427-428). *)
Definition rstd_of (var eps : F) : F := fone /^ fsqrt (fmax var fzero +^ eps).

(** The mean and the variance, before the clamp, that the selected path
    computes for unit [i]. *)
Definition computed_moments (memory_format : MemoryFormat) (X_data : list F)
    (N C HxW G : nat) (i : nat) : F * F :=
  match memory_format with
  | Contiguous => RowwiseMoments X_data (i * (C / G * HxW)) (C / G * HxW)
  | _ =>
      if HxW <? feature_map_threshold
      then SmallMeanVar K X_data C HxW (C / G) (i / G) (i mod G)
      else LargeMeanVar E N C HxW G (C / G) (accumulated E X_data N C HxW) (i / G) (i mod G)
  end.

Lemma PackedMoments_rstd (X_data : list F) HxW D eps i :
  PackedMoments X_data HxW D eps i
  = (fst (RowwiseMoments X_data (i * (D * HxW)) (D * HxW)),
     rstd_of (snd (RowwiseMoments X_data (i * (D * HxW)) (D * HxW))) eps).
Proof.
  unfold PackedMoments. cbv zeta.
  destruct (RowwiseMoments X_data (i * (D * HxW)) (D * HxW)) as [m v]. reflexivity.
Qed.

Lemma SmallMoments_rstd (X_data : list F) C HxW D eps n g :
  SmallMoments K X_data C HxW D eps n g
  = (fst (SmallMeanVar K X_data C HxW D n g),
     rstd_of (snd (SmallMeanVar K X_data C HxW D n g)) eps).
Proof.
  unfold SmallMoments. destruct (SmallMeanVar K X_data C HxW D n g) as [m v]. reflexivity.
Qed.

Lemma LargeMoments_rstd N C HxW G D eps (buffer_data : list F) n g :
  LargeMoments E N C HxW G D eps buffer_data n g
  = (fst (LargeMeanVar E N C HxW G D buffer_data n g),
     rstd_of (snd (LargeMeanVar E N C HxW G D buffer_data n g)) eps).
Proof.
  unfold LargeMoments. destruct (LargeMeanVar E N C HxW G D buffer_data n g) as [m v].
  reflexivity.
Qed.

(** What a valid forward call stores in [mean] and [rstd], in every
    arithmetic. *)
Lemma forward_moments memory_format (X gamma beta : Tensor F) N C HxW G eps
    (out : Outputs F) :
  0 < G -> C mod G = 0 ->
  forward_checks X gamma beta N C HxW = true ->
  output_shapes out N C HxW G = true ->
  memory_format <> Preserve ->
  let r := GroupNormKernelImpl E K memory_format X gamma beta N C HxW G eps out in
  succeeded r = true /\
  forall i, i < N * G ->
    load (data (mean (snd r))) i
    = castPT (fst (computed_moments memory_format (data X) N C HxW G i)) /\
    load (data (rstd (snd r))) i
    = castPT (rstd_of (snd (computed_moments memory_format (data X) N C HxW G i))
                      (castT eps)).
Proof.
  intros HG Hdiv Hchk Hout Hfmt r.
  destruct (forward_run E K memory_format X gamma beta N C HxW G eps out Hchk Hfmt)
    as [Hs [_ [Hm Hr]]].
  fold r in Hs, Hm, Hr. split; [assumption|]. rewrite Hm, Hr.
  pose proof (groups_divide C G HG Hdiv) as HC.
  destruct (output_shapes_spec out N C HxW G Hout) as [HlY [Hlm Hlr]].
  assert (Heq : N * G * (C / G * HxW) = N * C * HxW).
  { set (D := C / G) in *. rewrite HC. ring. }
  assert (HlYp : length (data (Y out)) = N * G * (C / G * HxW)) by congruence.
  assert (HlYc : length (data (Y out)) = N * HxW * C) by lia.
  unfold data_of.
  assert (Hcl : forall i, i < N * G ->
    let st := if HxW <? feature_map_threshold
              then ChannelsLastSmall E K (data X) (data_ptr_or_null gamma)
                     (data_ptr_or_null beta) N C HxW G (C / G) (castT eps)
                     (data (Y out), data (mean out), data (rstd out))
              else ChannelsLastLarge E (data X) (data_ptr_or_null gamma)
                     (data_ptr_or_null beta) N C HxW G (C / G) (castT eps)
                     (data (Y out), data (mean out), data (rstd out)) in
    let mv := if HxW <? feature_map_threshold
              then SmallMeanVar K (data X) C HxW (C / G) (i / G) (i mod G)
              else LargeMeanVar E N C HxW G (C / G) (accumulated E (data X) N C HxW)
                     (i / G) (i mod G) in
    load (snd (fst st)) i = castPT (fst mv) /\
    load (snd st) i = castPT (rstd_of (snd mv) (castT eps))).
  { intros i Hi. cbv zeta. destruct (HxW <? feature_map_threshold).
    - destruct (ChannelsLastSmall_loads E E_ok K (data X) (data_ptr_or_null gamma)
                  (data_ptr_or_null beta) N C HxW G (C / G) (castT eps)
                  (data (Y out)) (data (mean out)) (data (rstd out)) HC HG HlYc Hlm Hlr)
        as [_ [_ Hmr]].
      cbv zeta in Hmr. destruct (Hmr i Hi) as [-> ->].
      rewrite SmallMoments_rstd. split; reflexivity.
    - destruct (ChannelsLastLarge_loads E E_ok (data X) (data_ptr_or_null gamma)
                  (data_ptr_or_null beta) N C HxW G (C / G) (castT eps)
                  (data (Y out)) (data (mean out)) (data (rstd out)) HC HG HlYc Hlm Hlr)
        as [_ [_ Hmr]].
      cbv zeta in Hmr. destruct (Hmr i Hi) as [-> ->].
      rewrite LargeMoments_rstd. split; reflexivity. }
  destruct memory_format; try contradiction; intros i Hi; cbn [computed_moments].
  - destruct (PackedForward_loads E E_ok (data X) (data_ptr_or_null gamma)
                (data_ptr_or_null beta) N HxW G (C / G) (castT eps)
                (data (Y out)) (data (mean out)) (data (rstd out)) HlYp Hlm Hlr)
      as [_ [_ Hmr]].
    cbv zeta in Hmr. destruct (Hmr i Hi) as [-> ->].
    rewrite PackedMoments_rstd. split; reflexivity.
  - exact (Hcl i Hi).
  - exact (Hcl i Hi).
Qed.
End ForwardMoments.

(* ================================================================= *)
(** ** The two layouts agree *)

Open Scope R_scope.

Close Scope R_scope.

(** C4, as stated, fails in floating point.  One sample of two channels in
    one group at two positions, the logical data [10000, 10001] (channel 0)
    and [10002, 10003] (channel 1): mean [10001.5], variance [1.25],
    [rstd = 0.8944].  With [scalar_t = float] the packed layout, whose
    variance is the mean of the squared deviations, emits [rstd = 0.8944];
    the interleaved layout forms [E[X^2] - E[X]^2] from squares near [1e8],
    gets the variance [0] and emits [rstd = 316.2278], and its [Y] is 353
    times that of the packed layout.  With [scalar_t = double] and the data
    [1e8 + {0, 1, 2, 3}] the two layouts emit [0.8944] and [0.7071]. *)
Lemma packed_and_interleaved_layouts_differ_in_float :
  let Xp := tensor (map IEEE.lit [10000; 10001; 10002; 10003]%float) in
  let Xc := tensor (map IEEE.lit [10000; 10002; 10001; 10003]%float) in
  let rp := GroupNormKernelImpl (A := dispatch Float false) sequential 4 Contiguous
              Xp undefined undefined 1 2 2 1 eps_1e_5 (sentinel_outputs 4 1) in
  let rc := GroupNormKernelImpl (A := dispatch Float false) sequential 4 ChannelsLast
              Xc undefined undefined 1 2 2 1 eps_1e_5 (sentinel_outputs 4 1) in
  let Xp' := tensor (map IEEE.lit [100000000; 100000001; 100000002; 100000003]%float) in
  let Xc' := tensor (map IEEE.lit [100000000; 100000002; 100000001; 100000003]%float) in
  let rp' := GroupNormKernelImpl (A := dispatch Double false) sequential 4 Contiguous
               Xp' undefined undefined 1 2 2 1 eps_1e_5 (sentinel_outputs 4 1) in
  let rc' := GroupNormKernelImpl (A := dispatch Double false) sequential 4 ChannelsLast
               Xc' undefined undefined 1 2 2 1 eps_1e_5 (sentinel_outputs 4 1) in
  (* the same logical data: [Xp[(c, m)] = Xc[(m, c)]] *)
  map (fun k => nth k (data Xp) S754_nan) [0; 1; 2; 3]
  = map (fun k => nth k (data Xc) S754_nan) [0; 2; 1; 3] /\
  map (fun k => nth k (data Xp') S754_nan) [0; 1; 2; 3]
  = map (fun k => nth k (data Xc') S754_nan) [0; 2; 1; 3] /\
  succeeded rp = true /\ succeeded rc = true /\
  map (IEEE.round IEEE.binary64) (data (mean (snd rp))) = [IEEE.lit 10001.5] /\
  map (IEEE.round IEEE.binary64) (data (mean (snd rc))) = [IEEE.lit 10001.5] /\
  map (IEEE.round IEEE.binary64) (data (rstd (snd rp))) = [IEEE.lit 0x1.c9f1e6p-1] /\
  map (IEEE.round IEEE.binary64) (data (rstd (snd rc))) = [IEEE.lit 0x1.3c3a5p+8] /\
  map (IEEE.round IEEE.binary64) (data (Y (snd rp)))
  = map IEEE.lit [-0x1.57756cp+0; -0x1.c9f1e6p-2; 0x1.c9f1e6p-2; 0x1.57756cp+0]%float /\
  map (IEEE.round IEEE.binary64) (data (Y (snd rc)))
  = map IEEE.lit [-474.5; 158; -158.25; 474.25]%float /\
  succeeded rp' = true /\ succeeded rc' = true /\
  data (rstd (snd rp')) = [IEEE.lit 0x1.c9f1e44fe54bep-1] /\
  data (rstd (snd rc')) = [IEEE.lit 0x1.6a09ab1701acdp-1].
Proof. cbv zeta. vm_compute. repeat split. Qed.

Open Scope R_scope.

(** C4, amended.  Over exact arithmetic: the packed forward on [Xp], laid
    out as [{N, C, HxW}], and the interleaved forward on [Xc], holding the
    same logical data as [{N, HxW, C}], both succeed and leave the same
    [mean], the same [rstd] and, position by position, the same logical [Y];
    for any two worker pools and any vector width. *)
Theorem packed_and_interleaved_layouts_agree (E1 E2 : Executor) (K : nat)
    (Xp Xc gamma beta : Tensor R) (N C HxW G : nat) (eps : R)
    (out_p out_c : Outputs R) :
  executor_ok E1 -> executor_ok E2 -> (0 < K)%nat ->
  (0 < G)%nat -> (C mod G = 0)%nat ->
  forward_checks Xp gamma beta N C HxW = true ->
  forward_checks Xc gamma beta N C HxW = true ->
  output_shapes out_p N C HxW G = true ->
  output_shapes out_c N C HxW G = true ->
  same_logical_data (data Xp) (data Xc) N C HxW ->
  let rp := GroupNormKernelImpl E1 K Contiguous Xp gamma beta N C HxW G eps out_p in
  let rc := GroupNormKernelImpl E2 K ChannelsLast Xc gamma beta N C HxW G eps out_c in
  succeeded rp = true /\ succeeded rc = true /\
  data (mean (snd rp)) = data (mean (snd rc)) /\
  data (rstd (snd rp)) = data (rstd (snd rc)) /\
  forall n c m, (n < N)%nat -> (c < C)%nat -> (m < HxW)%nat ->
    load (data (Y (snd rp))) ((n * C + c) * HxW + m)
    = load (data (Y (snd rc))) ((n * HxW + m) * C + c).
Proof.
  intros HE1 HE2 HK HG Hdiv Hp Hc Hop Hoc HX rp rc.
  destruct (packed_forward_exact E1 K Xp gamma beta (data Xc) N C HxW G eps out_p
              HE1 HG Hdiv Hp Hop HX) as [Hsp [[_ [Hlm Hlr]] [Hyp Hmp]]].
  destruct (interleaved_forward_exact E2 K ChannelsLast Xc gamma beta N C HxW G eps out_c
              HE2 HK HG Hdiv Hc Hoc (or_introl eq_refl))
    as [Hsc [[_ [Hlm' Hlr']] [Hyc Hmc]]].
  fold rp in Hsp, Hlm, Hlr, Hyp, Hmp. fold rc in Hsc, Hlm', Hlr', Hyc, Hmc.
  cbn [fst snd] in *.
  split; [assumption|split; [assumption|split; [|split]]].
  - apply buffer_ext; [congruence|]. intros i Hi. rewrite Hlm in Hi.
    destruct (Hmp i Hi) as [-> _]. now destruct (Hmc i Hi) as [-> _].
  - apply buffer_ext; [congruence|]. intros i Hi. rewrite Hlr in Hi.
    destruct (Hmp i Hi) as [_ ->]. now destruct (Hmc i Hi) as [_ ->].
  - intros n c m Hn Hc' Hm. rewrite Hyp by assumption.
    assert (Hk : ((n * HxW + m) * C + c < N * HxW * C)%nat).
    { assert ((n * HxW + m + 1) * C <= N * HxW * C)%nat
        by (apply Nat.mul_le_mono_r; nia).
      nia. }
    now rewrite Hyc.
Qed.

Lemma transposed_2x2 :
  same_logical_data [1; 2; 3; 4] [1; 3; 2; 4] 1 2 2.
Proof.
  intros n c m Hn Hc Hm.
  destruct n as [|n]; [|exfalso; lia].
  destruct c as [|[|c]]; [| |exfalso; lia];
    (destruct m as [|[|m]]; [reflexivity|reflexivity|exfalso; lia]).
Defined.

(** One sample of two channels in one group at two positions. *)
Lemma packed_and_interleaved_layouts_agree_witness :
  let out := mkOutputs (tensor [0; 0; 0; 0]) (tensor [0]) (tensor [0]) in
  let rp := GroupNormKernelImpl sequential 4 Contiguous (tensor [1; 2; 3; 4])
              undefined undefined 1 2 2 1 1 out in
  let rc := GroupNormKernelImpl (round_robin 2) 4 ChannelsLast (tensor [1; 3; 2; 4])
              undefined undefined 1 2 2 1 1 out in
  data (mean (snd rp)) = data (mean (snd rc)) /\
  data (rstd (snd rp)) = data (rstd (snd rc)).
Proof.
  cbv zeta.
  destruct (packed_and_interleaved_layouts_agree sequential (round_robin 2) 4
              (tensor [1; 2; 3; 4]) (tensor [1; 3; 2; 4]) undefined undefined 1 2 2 1 1
              (mkOutputs (tensor [0; 0; 0; 0]) (tensor [0]) (tensor [0]))
              (mkOutputs (tensor [0; 0; 0; 0]) (tensor [0]) (tensor [0]))
              sequential_ok (round_robin_ok 2 (le_S 1 1 (le_n 1)))
              (le_S 1 3 (le_S 1 2 (le_S 1 1 (le_n 1)))) (le_n 1) eq_refl
              eq_refl eq_refl eq_refl eq_refl transposed_2x2)
    as [_ [_ [Hm [Hr _]]]].
  split; assumption.
Defined.

(* ================================================================= *)
(** ** The epsilon and the reciprocal root *)

Close Scope R_scope.

(** C8, as stated, fails for [BFloat16] storage.  [X] is [BFloat16] and
    [gamma] is a defined [float] tensor, so that [is_mixed_type] holds and
    the dispatch selects [T = BFloat16], [PT = float]: [rstd] is stored as a
    [float].  With [eps = 1e-5] and two constant groups the computed
    variance is zero in each layout; the kernel emits
    [rstd = 316.0132...], the reciprocal root of [eps] rounded to
    [BFloat16] ([1.00136e-5]), where [eps] in accumulation precision
    ([float], [9.99999975e-6]) would give [316.2277...].  The packed layout
    calls no [BFloat16] overload on the way to [rstd]; in the interleaved
    layout impl-1 calls that of [ColumnwiseMoments], which on these groups
    returns the sums of the generic kernel (last example of the file). *)
Lemma bfloat16_epsilon_is_rounded_to_storage :
  let X := tensor (map IEEE.lit [1; 1; 1; 1]%float) in
  let gamma := tensor (map IEEE.lit [1; 1]%float) in
  let run := fun memory_format =>
    GroupNormKernelImpl (A := dispatch BFloat16 true) sequential 4 memory_format
      X gamma undefined 1 2 2 2 eps_1e_5 (sentinel_outputs 4 2) in
  let var := fun memory_format =>
    snd (computed_moments (A := dispatch BFloat16 true) sequential 4 memory_format
           (data X) 1 2 2 2 0) in
  succeeded (run ChannelsLast) = true /\ succeeded (run Contiguous) = true /\
  var ChannelsLast = S754_zero false /\ var Contiguous = S754_zero false /\
  map (IEEE.round IEEE.binary64) (data (rstd (snd (run ChannelsLast))))
  = map IEEE.lit [0x1.3c0366p+8; 0x1.3c0366p+8]%float /\
  map (IEEE.round IEEE.binary64) (data (rstd (snd (run Contiguous))))
  = map IEEE.lit [0x1.3c0366p+8; 0x1.3c0366p+8]%float /\
  IEEE.round IEEE.binary64
    (@castPT _ (dispatch BFloat16 true)
       (rstd_of (A := dispatch BFloat16 true) (S754_zero false)
          (@castACC _ (dispatch BFloat16 true) eps_1e_5)))
  = IEEE.lit 0x1.3c3a5p+8%float /\
  IEEE.round IEEE.binary64 (@castT _ (dispatch BFloat16 true) eps_1e_5)
  = IEEE.lit 0x1.5p-17%float /\
  IEEE.round IEEE.binary64 (@castACC _ (dispatch BFloat16 true) eps_1e_5)
  = IEEE.lit 0x1.4f8b58p-17%float.
Proof.
  cbv zeta. vm_compute. repeat split.
Qed.

(** C8, amended.  In every forward path and precision configuration, the
    epsilon added before the reciprocal square root is
    [static_cast<scalar_t>(eps)]: the caller's [eps] converted to the storage
    type of [X].  Every emitted [rstd] is
    [1 / sqrt(max(var, 0) + castT eps)], computed in accumulation precision
    and stored in the parameter type. *)
Theorem epsilon_is_cast_to_storage_type {F : Type} {A : Arith F}
    (E : Executor) (K : nat) (memory_format : MemoryFormat)
    (X gamma beta : Tensor F) (N C HxW G : nat) (eps : F) (out : Outputs F) :
  executor_ok E -> 0 < G -> C mod G = 0 ->
  forward_checks X gamma beta N C HxW = true ->
  output_shapes out N C HxW G = true ->
  memory_format <> Preserve ->
  let r := GroupNormKernelImpl E K memory_format X gamma beta N C HxW G eps out in
  succeeded r = true /\
  forall i, i < N * G ->
    load (data (rstd (snd r))) i
    = castPT (fone /^ fsqrt (fmax (snd (computed_moments E K memory_format (data X)
                                          N C HxW G i)) fzero
                             +^ castT eps)).
Proof.
  intros HE HG Hdiv Hchk Hout Hfmt r.
  destruct (forward_moments E HE K memory_format X gamma beta N C HxW G eps out
              HG Hdiv Hchk Hout Hfmt) as [Hs Hmr].
  split; [exact Hs|]. intros i Hi. exact (proj2 (Hmr i Hi)).
Qed.

(** The [BFloat16] run above, in the interleaved layout: its [rstd] is the
    one the formula gives with [eps] rounded to [BFloat16]. *)
Lemma epsilon_is_cast_to_storage_type_witness :
  let X := tensor (map IEEE.lit [1; 1; 1; 1]%float) in
  let gamma := tensor (map IEEE.lit [1; 1]%float) in
  let r := GroupNormKernelImpl (A := dispatch BFloat16 true) sequential 4 ChannelsLast
             X gamma undefined 1 2 2 2 eps_1e_5 (sentinel_outputs 4 2) in
  @load _ (dispatch BFloat16 true) (data (rstd (snd r))) 0
  = @castPT _ (dispatch BFloat16 true)
      (rstd_of (A := dispatch BFloat16 true)
         (snd (computed_moments (A := dispatch BFloat16 true) sequential 4 ChannelsLast
                 (data X) 1 2 2 2 0))
         (@castT _ (dispatch BFloat16 true) eps_1e_5)).
Proof.
  cbv zeta.
  refine (proj2 (epsilon_is_cast_to_storage_type (A := dispatch BFloat16 true)
                   sequential 4 ChannelsLast
                   (tensor (map IEEE.lit [1; 1; 1; 1]%float))
                   (tensor (map IEEE.lit [1; 1]%float)) undefined
                   1 2 2 2 eps_1e_5 (sentinel_outputs 4 2)
                   sequential_ok (le_S 1 1 (le_n 1)) eq_refl eq_refl eq_refl _)
                0 (le_S 1 1 (le_n 1))).
  discriminate.
Defined.

(** The conversion is the identity on [1e-5] for [double] and changes it for
    the two other storage types. *)
Example epsilon_1e_5_by_dtype :
  @castT _ (dispatch Double false) eps_1e_5 = eps_1e_5 /\
  @castT _ (dispatch Float false) eps_1e_5 = @castACC _ (dispatch Float false) eps_1e_5 /\
  @castT _ (dispatch BFloat16 false) eps_1e_5
  <> @castACC _ (dispatch BFloat16 false) eps_1e_5 /\
  @castT _ (dispatch BFloat16 true) eps_1e_5
  <> @castACC _ (dispatch BFloat16 true) eps_1e_5.
Proof. vm_compute. repeat split; discriminate. Qed.

(** C6, as stated, fails in floating point, in three ways; each input is
    finite and [eps = 1e-5] is positive.

    - Overflow.  Four elements [1e200] in the interleaved layout with
      [scalar_t = double]: the sum of squares overflows, the variance
      [inf - inf] is NaN, the clamp keeps it, and the emitted [rstd] is NaN.
    - Rounding.  A group of six elements, all equal to the [float]
      [1000.3], in the interleaved layout with [scalar_t = float]: the
      computed variance [E[X^2] - E[X]^2] is [0.0625], not [0]; nothing is
      clamped and the emitted [rstd] is [3.9997], where [1 / sqrt(eps)] is
      [316.2278].
    - An empty group.  With [HxW = 0] the interleaved layout divides by the
      group size [0] and emits a NaN [rstd]. *)
Lemma rstd_is_nan_or_misses_a_constant_group :
  let big := tensor (repeat (IEEE.lit 0x1.4e718d7d7625ap+664%float) 4) in
  let r1 := GroupNormKernelImpl (A := dispatch Double false) sequential 4 ChannelsLast
              big undefined undefined 1 2 2 1 eps_1e_5 (sentinel_outputs 4 1) in
  let x := IEEE.lit 0x1.f42666p+9%float in
  let r2 := GroupNormKernelImpl (A := dispatch Float false) sequential 4 ChannelsLast
              (tensor (repeat x 6)) undefined undefined 1 3 2 1 eps_1e_5
              (sentinel_outputs 6 1) in
  let var2 := snd (computed_moments (A := dispatch Float false) sequential 4 ChannelsLast
                     (repeat x 6) 1 3 2 1 0) in
  let r3 := GroupNormKernelImpl (A := dispatch Double false) sequential 4 ChannelsLast
              (tensor []) undefined undefined 1 2 0 1 eps_1e_5 (sentinel_outputs 0 1) in
  SFltb (S754_zero false) eps_1e_5 = true /\
  (* overflow *)
  forallb IEEE.is_finite (data big) = true /\
  succeeded r1 = true /\
  data (rstd (snd r1)) = [S754_nan] /\
  (* rounding *)
  IEEE.round IEEE.binary64 (@castT _ (dispatch Float false) x) = x /\
  succeeded r2 = true /\
  IEEE.round IEEE.binary64 var2 = IEEE.lit 0.0625 /\
  map (IEEE.round IEEE.binary64) (data (rstd (snd r2))) = [IEEE.lit 0x1.fff584p+1] /\
  IEEE.round IEEE.binary64
    (@castPT _ (dispatch Float false)
       (rstd_of (A := dispatch Float false) (S754_zero false)
          (@castT _ (dispatch Float false) eps_1e_5)))
  = IEEE.lit 0x1.3c3a5p+8 /\
  (* an empty group *)
  succeeded r3 = true /\
  data (rstd (snd r3)) = [S754_nan].
Proof. cbv zeta. vm_compute. repeat split. Qed.

Open Scope R_scope.

(** The population variance of unit [i]: of the [D * HxW] consecutive
    elements of the packed layout, of the [HxW] runs of [D] channels of the
    interleaved layout. *)
Definition packed_var (X_data : list R) (HxW D i : nat) : R :=
  let n := (D * HxW)%nat in
  let mu := Rsum (fun j => load X_data (i * n + j)) n / INR n in
  Rsum (fun j => (load X_data (i * n + j) - mu) * (load X_data (i * n + j) - mu)) n
  / INR n.

Definition variance (memory_format : MemoryFormat) (X_data : list R)
    (C HxW G i : nat) : R :=
  match memory_format with
  | Contiguous => packed_var X_data HxW (C / G) i
  | _ => group_var X_data C HxW (C / G) (i / G) (i mod G)
  end.

(** Every element of unit [i] is [v]. *)
Definition constant_unit (memory_format : MemoryFormat) (X_data : list R)
    (C HxW G i : nat) (v : R) : Prop :=
  match memory_format with
  | Contiguous =>
      forall j, (j < C / G * HxW)%nat -> load X_data (i * (C / G * HxW) + j) = v
  | _ =>
      forall m d, (m < HxW)%nat -> (d < C / G)%nat ->
        load X_data (i / G * HxW * C + m * C + i mod G * (C / G) + d) = v
  end.

Lemma computed_variance_R (E : Executor) (K : nat) memory_format (X_data : list R)
    N C HxW G i :
  executor_ok E -> (0 < K)%nat -> (0 < G)%nat -> (C mod G = 0)%nat -> (i < N * G)%nat ->
  snd (computed_moments E K memory_format X_data N C HxW G i)
  = variance memory_format X_data C HxW G i.
Proof.
  intros HE HK HG Hdiv Hi.
  pose proof (groups_divide C G HG Hdiv) as HC.
  destruct (unit_in_range N G i Hi) as [Hn Hg].
  assert (Hcl : snd (if (HxW <? feature_map_threshold)%nat
                     then SmallMeanVar K X_data C HxW (C / G) (i / G) (i mod G)
                     else LargeMeanVar E N C HxW G (C / G)
                            (accumulated E X_data N C HxW) (i / G) (i mod G))
                = group_var X_data C HxW (C / G) (i / G) (i mod G)).
  { destruct (HxW <? feature_map_threshold)%nat.
    - now rewrite (SmallMeanVar_R K) by assumption.
    - now rewrite (LargeMeanVar_R E HE) by assumption. }
  destruct memory_format; cbn [computed_moments variance]; try exact Hcl.
  rewrite RowwiseMoments_R. reflexivity.
Qed.

Lemma rstd_of_pos (var eps : R) : 0 < eps -> 0 < 1 / sqrt (Rmax var 0 + eps).
Proof.
  intros Heps. pose proof (Rmax_r var 0).
  apply Rdiv_lt_0_compat; [lra|]. apply sqrt_lt_R0. lra.
Qed.

Lemma packed_var_constant (X_data : list R) HxW D i v :
  (forall j, (j < D * HxW)%nat -> load X_data (i * (D * HxW) + j) = v) ->
  packed_var X_data HxW D i = 0.
Proof.
  intros Hv. unfold packed_var. cbv zeta.
  destruct (D * HxW)%nat as [|n'] eqn:Hn.
  - cbn [Rsum]. unfold Rdiv. ring.
  - assert (HS : INR (Datatypes.S n') <> 0) by (apply not_0_INR; lia).
    assert (Hsum : Rsum (fun j => load X_data (i * Datatypes.S n' + j)) (Datatypes.S n')
                   = INR (Datatypes.S n') * v).
    { rewrite <- Rsum_const. apply Rsum_ext. intros j Hj. now apply Hv. }
    rewrite Hsum.
    rewrite (Rsum_ext _ (fun _ => 0) (Datatypes.S n')).
    + rewrite Rsum_zero. unfold Rdiv. ring.
    + intros j Hj. cbv beta. rewrite (Hv j Hj). field. exact HS.
Qed.

Lemma group_var_constant (X_data : list R) C HxW D n g v :
  (forall m d, (m < HxW)%nat -> (d < D)%nat ->
     load X_data (n * HxW * C + m * C + g * D + d) = v) ->
  group_var X_data C HxW D n g = 0.
Proof.
  intros Hv.
  assert (H1 : group_sum X_data C HxW D n g = INR HxW * (INR D * v)).
  { unfold group_sum. rewrite <- !Rsum_const. apply Rsum_ext. intros m Hm.
    apply Rsum_ext. intros d Hd. now apply Hv. }
  assert (H2 : group_sumsq X_data C HxW D n g = INR HxW * (INR D * (v * v))).
  { unfold group_sumsq. rewrite <- !Rsum_const. apply Rsum_ext. intros m Hm.
    apply Rsum_ext. intros d Hd. cbv beta. now rewrite Hv. }
  unfold group_var, group_mean. rewrite H1, H2, mult_INR.
  destruct (Req_dec (INR D * INR HxW) 0) as [Hz|Hnz].
  - replace (INR HxW * (INR D * (v * v))) with ((INR D * INR HxW) * (v * v)) by ring.
    replace (INR HxW * (INR D * v)) with ((INR D * INR HxW) * v) by ring.
    rewrite Hz. ring.
  - field. split; intros Hz; apply Hnz; rewrite Hz; ring.
Qed.

Lemma Rsum_nonneg (f : nat -> R) n :
  (forall i, (i < n)%nat -> 0 <= f i) -> 0 <= Rsum f n.
Proof.
  intros Hf. induction n as [|n IH]; [simpl; lra|].
  simpl. pose proof (Hf n (Nat.lt_succ_diag_r n)).
  assert (0 <= Rsum f n) by (apply IH; intros i Hi; apply Hf; lia). lra.
Qed.

(** The mean of squared deviations is not negative. *)
Lemma mean_square_nonneg (f : nat -> R) (mu : R) n :
  0 <= Rsum (fun j => (f j - mu) * (f j - mu)) n / INR n.
Proof.
  destruct n as [|n'].
  - cbn [Rsum]. unfold Rdiv. lra.
  - apply Rmult_le_pos.
    + apply Rsum_nonneg. intros j _. cbv beta.
      fold (Rsqr (f j - mu)). apply Rle_0_sqr.
    + left. apply Rinv_0_lt_compat. apply lt_0_INR. lia.
Qed.

Lemma packed_var_nonneg (X_data : list R) HxW D i : 0 <= packed_var X_data HxW D i.
Proof. unfold packed_var. cbv zeta. apply mean_square_nonneg. Qed.

(** [E[X^2] - E[X]^2] over the runs of a group is the mean of the squared
    deviations of its [HxW * D] elements. *)
Lemma group_var_nonneg (X_data : list R) C HxW D n g :
  (0 < D)%nat -> 0 <= group_var X_data C HxW D n g.
Proof.
  intros HD.
  set (f := fun j => load X_data (n * HxW * C + j / D * C + g * D + j mod D)).
  assert (Hrel : forall h : R -> R,
            Rsum (fun m => Rsum (fun d =>
              h (load X_data (n * HxW * C + m * C + g * D + d))) D) HxW
            = Rsum (fun j => h (f j)) (HxW * D)).
  { intros h. rewrite Rsum_blocks. apply Rsum_ext. intros m Hm.
    apply Rsum_ext. intros d Hd. unfold f.
    destruct (div_mod_block D m d Hd) as [-> ->]. reflexivity. }
  pose proof (Hrel (fun x => x)) as H1. pose proof (Hrel (fun x => x * x)) as H2.
  cbv beta in H1, H2.
  unfold group_var, group_mean, group_sum, group_sumsq.
  rewrite H1, H2. replace (D * HxW)%nat with (HxW * D)%nat by lia.
  rewrite <- two_pass_variance. apply mean_square_nonneg.
Qed.

Lemma variance_nonneg memory_format (X_data : list R) C HxW G i :
  (0 < C / G)%nat -> 0 <= variance memory_format X_data C HxW G i.
Proof.
  intros HD. destruct memory_format; cbn [variance];
    solve [apply packed_var_nonneg | now apply group_var_nonneg].
Qed.

(** C6, amended.  (1) In every arithmetic, a valid forward call succeeds
    whatever the variances it computes, and every emitted [rstd] is
    [1 / sqrt(max(var, 0) + castT eps)], evaluated in accumulation precision
    and stored in the parameter type, where [var] is the variance the
    selected path computed; in particular a computed variance below zero
    is replaced by zero.  (2) Over exact arithmetic, with [eps > 0] and
    groups that are not empty, in each layout: the computed variance is
    the population variance, which is not negative; every emitted [rstd]
    equals [1 / sqrt(max(variance, 0) + eps)] and is positive; for a unit
    whose elements are all equal the variance is [0] and
    [rstd = 1 / sqrt(eps)]. *)
Theorem rstd_is_clamped_reciprocal_root :
  (forall (F : Type) (A : Arith F) (E : Executor) (K : nat)
          (memory_format : MemoryFormat) (X gamma beta : Tensor F)
          (N C HxW G : nat) (eps : F) (out : Outputs F),
     executor_ok E -> (0 < G)%nat -> (C mod G = 0)%nat ->
     forward_checks X gamma beta N C HxW = true ->
     output_shapes out N C HxW G = true ->
     memory_format <> Preserve ->
     let r := GroupNormKernelImpl E K memory_format X gamma beta N C HxW G eps out in
     succeeded r = true /\
     forall i, (i < N * G)%nat ->
       let var := snd (computed_moments E K memory_format (data X) N C HxW G i) in
       load (data (rstd (snd r))) i
       = castPT (fone /^ fsqrt (fmax var fzero +^ castT eps)) /\
       (fltb var fzero = true ->
        load (data (rstd (snd r))) i = castPT (fone /^ fsqrt (fzero +^ castT eps))))
  /\
  (forall (E : Executor) (K : nat) (memory_format : MemoryFormat)
          (X gamma beta : Tensor R) (N C HxW G : nat) (eps : R) (out : Outputs R),
     executor_ok E -> (0 < K)%nat -> (0 < G)%nat -> (C mod G = 0)%nat ->
     (0 < C)%nat -> (0 < HxW)%nat ->
     forward_checks X gamma beta N C HxW = true ->
     output_shapes out N C HxW G = true ->
     memory_format <> Preserve ->
     0 < eps ->
     let r := GroupNormKernelImpl E K memory_format X gamma beta N C HxW G eps out in
     forall i, (i < N * G)%nat ->
       snd (computed_moments E K memory_format (data X) N C HxW G i)
       = variance memory_format (data X) C HxW G i /\
       0 <= variance memory_format (data X) C HxW G i /\
       load (data (rstd (snd r))) i
       = 1 / sqrt (Rmax (variance memory_format (data X) C HxW G i) 0 + eps) /\
       0 < load (data (rstd (snd r))) i /\
       forall v, constant_unit memory_format (data X) C HxW G i v ->
         variance memory_format (data X) C HxW G i = 0 /\
         load (data (rstd (snd r))) i = 1 / sqrt eps).
Proof.
  split.
  - intros F A E K memory_format X gamma beta N C HxW G eps out
           HE HG Hdiv Hchk Hout Hfmt r.
    destruct (forward_moments E HE K memory_format X gamma beta N C HxW G eps out
                HG Hdiv Hchk Hout Hfmt) as [Hs Hmr].
    fold r in Hs, Hmr. split; [exact Hs|]. intros i Hi var.
    destruct (Hmr i Hi) as [_ Hr]. fold var in Hr. unfold rstd_of in Hr.
    split; [exact Hr|]. intros Hneg. rewrite Hr. unfold fmax. now rewrite Hneg.
  - intros E K memory_format X gamma beta N C HxW G eps out
           HE HK HG Hdiv HC HH Hchk Hout Hfmt Heps r i Hi.
    destruct (forward_moments E HE K memory_format X gamma beta N C HxW G eps out
                HG Hdiv Hchk Hout Hfmt) as [_ Hmr].
    fold r in Hmr. destruct (Hmr i Hi) as [_ Hr].
    pose proof (computed_variance_R E K memory_format (data X) N C HxW G i
                  HE HK HG Hdiv Hi) as Hvar.
    rewrite Hvar in Hr. unfold rstd_of in Hr. rewrite fmax_R in Hr. real_ops.
    assert (HD : (0 < C / G)%nat).
    { pose proof (groups_divide C G HG Hdiv). nia. }
    split; [exact Hvar|]. split; [now apply variance_nonneg|].
    split; [exact Hr|split].
    + rewrite Hr. now apply rstd_of_pos.
    + intros v Hv.
      assert (Hz : variance memory_format (data X) C HxW G i = 0).
      { destruct memory_format; cbn [variance constant_unit] in *.
        - now apply (packed_var_constant _ _ _ _ v).
        - now apply (group_var_constant _ _ _ _ _ _ v).
        - now apply (group_var_constant _ _ _ _ _ _ v).
        - contradiction. }
      split; [exact Hz|]. rewrite Hr, Hz.
      rewrite Rmax_left by lra. now rewrite Rplus_0_l.
Qed.

(** Two runs.  A group of six elements, all equal to the [float] [5000.1],
    with [scalar_t = float]: the computed variance is [-6] and the emitted
    [rstd] is that of the variance [0].  A constant group of four elements
    over exact arithmetic, [eps = 1]: [rstd] is positive. *)
Lemma rstd_is_clamped_reciprocal_root_witness :
  (let x := IEEE.lit 0x1.38819ap+12%float in
   let r := GroupNormKernelImpl (A := dispatch Float false) sequential 4 ChannelsLast
              (tensor (repeat x 6)) undefined undefined 1 3 2 1 eps_1e_5
              (sentinel_outputs 6 1) in
   @load _ (dispatch Float false) (data (rstd (snd r))) 0
   = @castPT _ (dispatch Float false)
       (@fdiv _ (dispatch Float false) (@fone _ (dispatch Float false))
          (@fsqrt _ (dispatch Float false)
             (@fadd _ (dispatch Float false) (@fzero _ (dispatch Float false))
                (@castT _ (dispatch Float false) eps_1e_5))))) /\
  (let r := GroupNormKernelImpl sequential 4 ChannelsLast (tensor [2; 2; 2; 2])
              undefined undefined 1 2 2 1 1
              (mkOutputs (tensor [0; 0; 0; 0]) (tensor [0]) (tensor [0])) in
   0 < load (data (rstd (snd r))) 0).
Proof.
  cbv zeta. split.
  - refine (proj2 (proj2 (proj1 rstd_is_clamped_reciprocal_root
                            spec_float (dispatch Float false) sequential 4%nat ChannelsLast
                            (tensor (repeat (IEEE.lit 0x1.38819ap+12%float) 6))
                            undefined undefined 1%nat 3%nat 2%nat 1%nat eps_1e_5
                            (sentinel_outputs 6 1)
                            sequential_ok (le_n 1) eq_refl eq_refl eq_refl _)
                     0%nat (le_n 1)) _).
    + discriminate.
    + vm_compute. reflexivity.
  - refine (proj1 (proj2 (proj2 (proj2 (proj2 rstd_is_clamped_reciprocal_root
                                          sequential 4%nat ChannelsLast
                                          (tensor [2; 2; 2; 2]) undefined undefined
                                          1%nat 2%nat 2%nat 1%nat 1
                                          (mkOutputs (tensor [0; 0; 0; 0]) (tensor [0])
                                                     (tensor [0]))
                                          sequential_ok
                                          (le_S 1 3 (le_S 1 2 (le_S 1 1 (le_n 1))))
                                          (le_n 1) eq_refl (le_S 1 1 (le_n 1))
                                          (le_S 1 1 (le_n 1)) eq_refl eq_refl _ Rlt_0_1
                                          0%nat (le_n 1)))))).
    discriminate.
Defined.

(* ================================================================= *)
(** ** Absent and identity affine parameters *)

Close Scope R_scope.

(** C7, as stated, fails in floating point.  On the packed layout with
    [scalar_t = double], [X = [1, 2, 3, 4]] in two groups and [eps = 1e-5],
    the direct branch [(x - mean) * rstd] and the affine branch
    [scale * x + bias] round differently in the second group. *)
Lemma identity_affine_branches_round_differently :
  let X := tensor (map IEEE.lit [1; 2; 3; 4]%float) in
  let absent := GroupNormKernelImpl (A := double_arith) sequential 4 Contiguous
                  X undefined undefined 1 4 1 2 eps_1e_5 (sentinel_outputs 4 2) in
  let explicit := GroupNormKernelImpl (A := double_arith) sequential 4 Contiguous
                    X (tensor (repeat (@fone _ double_arith) 4))
                    (tensor (repeat (@fzero _ double_arith) 4))
                    1 4 1 2 eps_1e_5 (sentinel_outputs 4 2) in
  succeeded absent = true /\ succeeded explicit = true /\
  data (Y (snd absent))
  = map IEEE.lit [-0x1.fffd60ee76424p-1; 0x1.fffd60ee76424p-1;
                  -0x1.fffd60ee76424p-1; 0x1.fffd60ee76424p-1]%float /\
  data (Y (snd explicit))
  = map IEEE.lit [-0x1.fffd60ee76424p-1; 0x1.fffd60ee76424p-1;
                  -0x1.fffd60ee76428p-1; 0x1.fffd60ee76420p-1]%float /\
  data (Y (snd absent)) <> data (Y (snd explicit)).
Proof.
  cbv zeta. vm_compute. repeat split. discriminate.
Qed.

Section IdentityAffine.
Context {F : Type} {A : Arith F}.

(** [gamma] of all ones and [beta] of all zeros. *)
Definition ones (C : nat) : Tensor F := tensor (repeat fone C).
Definition zeros (C : nat) : Tensor F := tensor (repeat fzero C).

Lemma identity_affine_checks (X : Tensor F) N C HxW :
  forward_checks X undefined undefined N C HxW = true ->
  forward_checks X (ones C) (zeros C) N C HxW = true.
Proof.
  unfold forward_checks, ones, zeros, numel, tensor, undefined. cbn [defined data negb orb].
  rewrite !repeat_length, Nat.eqb_refl. now rewrite !andb_true_r.
Qed.

(** In the interleaved layout both calls form the same scale and bias. *)
Lemma cl_val_identity_affine (moments : nat -> nat -> F * F) (X_data : list F)
    C HxW D k :
  0 < C ->
  cl_val moments X_data (data_ptr_or_null (ones C)) (data_ptr_or_null (zeros C)) C HxW D k
  = cl_val moments X_data (data_ptr_or_null undefined) (data_ptr_or_null undefined)
      C HxW D k.
Proof.
  intros HC.
  unfold cl_val, bias_of, scale_of, ones, zeros, tensor, undefined, data_ptr_or_null,
    is_null, deref.
  cbn [defined data].
  rewrite !load_repeat by (apply Nat.mod_upper_bound; lia). reflexivity.
Qed.
End IdentityAffine.

Section IdentityAffineInterleaved.
Context {F : Type} {A : Arith F}.
Variable E : Executor.
Hypothesis E_ok : executor_ok E.
Variable K : nat.

Lemma interleaved_identity_affine (X_data : list F) N C HxW G D eps
    (Y_data mean_data rstd_data : list F) :
  C = G * D -> 0 < G ->
  length Y_data = N * HxW * C -> length mean_data = N * G -> length rstd_data = N * G ->
  let run gamma_data beta_data :=
    if HxW <? feature_map_threshold
    then ChannelsLastSmall E K X_data gamma_data beta_data N C HxW G D eps
           (Y_data, mean_data, rstd_data)
    else ChannelsLastLarge E X_data gamma_data beta_data N C HxW G D eps
           (Y_data, mean_data, rstd_data) in
  fst (fst (run (data_ptr_or_null (ones C)) (data_ptr_or_null (zeros C))))
  = fst (fst (run (data_ptr_or_null undefined) (data_ptr_or_null undefined))).
Proof.
  intros HC HG HlY Hlm Hlr run. unfold run.
  destruct (HxW <? feature_map_threshold).
  - destruct (ChannelsLastSmall_loads E E_ok K X_data (data_ptr_or_null (ones C))
                (data_ptr_or_null (zeros C)) N C HxW G D eps
                Y_data mean_data rstd_data HC HG HlY Hlm Hlr) as [[Hl1 _] [Hy1 _]].
    destruct (ChannelsLastSmall_loads E E_ok K X_data (data_ptr_or_null undefined)
                (data_ptr_or_null undefined) N C HxW G D eps
                Y_data mean_data rstd_data HC HG HlY Hlm Hlr) as [[Hl2 _] [Hy2 _]].
    cbv zeta in *. apply buffer_ext; [congruence|]. intros k Hk. rewrite Hl1 in Hk.
    rewrite Hy1, Hy2 by assumption. apply cl_val_identity_affine. nia.
  - destruct (ChannelsLastLarge_loads E E_ok X_data (data_ptr_or_null (ones C))
                (data_ptr_or_null (zeros C)) N C HxW G D eps
                Y_data mean_data rstd_data HC HG HlY Hlm Hlr) as [[Hl1 _] [Hy1 _]].
    destruct (ChannelsLastLarge_loads E E_ok X_data (data_ptr_or_null undefined)
                (data_ptr_or_null undefined) N C HxW G D eps
                Y_data mean_data rstd_data HC HG HlY Hlm Hlr) as [[Hl2 _] [Hy2 _]].
    cbv zeta in *. apply buffer_ext; [congruence|]. intros k Hk. rewrite Hl1 in Hk.
    rewrite Hy1, Hy2 by assumption. apply cl_val_identity_affine. nia.
Qed.
End IdentityAffineInterleaved.

Open Scope R_scope.

(** Over exact arithmetic the two branches of the packed layout agree. *)
Lemma packed_val_identity_affine (X_data : list R) N C HxW G D eps k :
  C = (G * D)%nat -> (0 < G)%nat -> (k < N * G * (D * HxW))%nat ->
  packed_val X_data (data_ptr_or_null (ones C)) (data_ptr_or_null (zeros C)) HxW G D eps k
  = packed_val X_data (data_ptr_or_null undefined) (data_ptr_or_null undefined)
      HxW G D eps k.
Proof.
  intros HC HG Hk.
  assert (HD : (0 < D)%nat) by nia.
  assert (Hc : (k / (D * HxW) mod G * D + k / HxW mod D < C)%nat).
  { pose proof (Nat.mod_upper_bound (k / (D * HxW)) G).
    pose proof (Nat.mod_upper_bound (k / HxW) D). nia. }
  unfold packed_val, ones, zeros, tensor, undefined, data_ptr_or_null, is_null, deref.
  cbn [defined data andb]. cbv zeta.
  rewrite !load_repeat by exact Hc. real_ops. ring.
Qed.

(** C7, amended.  The call with [gamma] and [beta] absent and the call with
    explicit [gamma] of all ones and [beta] of all zeros both succeed and
    leave the same [Y], element for element: in every arithmetic on the
    interleaved layout, where both calls form the same [scale] and [bias];
    over exact arithmetic on the packed layout, where the absent case
    computes [(x - mean) * rstd] and the explicit case [scale * x + bias]. *)
Theorem identity_affine_is_pure_normalisation :
  (forall (F : Type) (A : Arith F) (E : Executor) (K : nat) memory_format
          (X : Tensor F) N C HxW G eps (out : Outputs F),
     executor_ok E -> (0 < G)%nat -> (C mod G = 0)%nat ->
     forward_checks X undefined undefined N C HxW = true ->
     output_shapes out N C HxW G = true ->
     memory_format = ChannelsLast \/ memory_format = ChannelsLast3d ->
     let absent := GroupNormKernelImpl E K memory_format X undefined undefined
                     N C HxW G eps out in
     let explicit := GroupNormKernelImpl E K memory_format X (ones C) (zeros C)
                       N C HxW G eps out in
     succeeded absent = true /\ succeeded explicit = true /\
     data (Y (snd absent)) = data (Y (snd explicit)))
  /\
  (forall (E : Executor) (K : nat) (X : Tensor R) N C HxW G eps (out : Outputs R),
     executor_ok E -> (0 < G)%nat -> (C mod G = 0)%nat ->
     forward_checks X undefined undefined N C HxW = true ->
     output_shapes out N C HxW G = true ->
     let absent := GroupNormKernelImpl E K Contiguous X undefined undefined
                     N C HxW G eps out in
     let explicit := GroupNormKernelImpl E K Contiguous X (ones C) (zeros C)
                       N C HxW G eps out in
     succeeded absent = true /\ succeeded explicit = true /\
     data (Y (snd absent)) = data (Y (snd explicit))).
Proof.
  split.
  - intros F A E K memory_format X N C HxW G eps out HE HG Hdiv Hchk Hout Hfmt
           absent explicit.
    assert (Hfmt' : memory_format <> Preserve) by (destruct Hfmt; subst; discriminate).
    destruct (forward_run E K memory_format X undefined undefined N C HxW G eps out
                Hchk Hfmt') as [Hs1 [HY1 _]].
    destruct (forward_run E K memory_format X (ones C) (zeros C) N C HxW G eps out
                (identity_affine_checks X N C HxW Hchk) Hfmt') as [Hs2 [HY2 _]].
    fold absent in Hs1, HY1. fold explicit in Hs2, HY2.
    split; [exact Hs1|split; [exact Hs2|]]. rewrite HY1, HY2.
    pose proof (groups_divide C G HG Hdiv) as HC.
    destruct (output_shapes_spec out N C HxW G Hout) as [HlY [Hlm Hlr]].
    assert (HlY' : length (data (Y out)) = (N * HxW * C)%nat) by lia.
    pose proof (interleaved_identity_affine E HE K (data X) N C HxW G (C / G) (castT eps)
                  (data (Y out)) (data (mean out)) (data (rstd out))
                  HC HG HlY' Hlm Hlr) as Heq.
    cbv zeta in Heq. unfold data_of.
    destruct Hfmt; subst memory_format; symmetry; exact Heq.
  - intros E K X N C HxW G eps out HE HG Hdiv Hchk Hout absent explicit.
    destruct (forward_run E K Contiguous X undefined undefined N C HxW G eps out Hchk)
      as [Hs1 [HY1 _]]; [discriminate|].
    destruct (forward_run E K Contiguous X (ones C) (zeros C) N C HxW G eps out
                (identity_affine_checks X N C HxW Hchk)) as [Hs2 [HY2 _]]; [discriminate|].
    fold absent in Hs1, HY1. fold explicit in Hs2, HY2.
    split; [exact Hs1|split; [exact Hs2|]]. rewrite HY1, HY2.
    pose proof (groups_divide C G HG Hdiv) as HC.
    destruct (output_shapes_spec out N C HxW G Hout) as [HlY [Hlm Hlr]].
    assert (Heq : (N * G * (C / G * HxW) = N * C * HxW)%nat).
    { set (D := (C / G)%nat) in *. rewrite HC. ring. }
    assert (HlY' : length (data (Y out)) = (N * G * (C / G * HxW))%nat) by congruence.
    unfold data_of.
    destruct (PackedForward_loads E HE (data X) (data_ptr_or_null undefined)
                (data_ptr_or_null undefined) N HxW G (C / G) (castT eps)
                (data (Y out)) (data (mean out)) (data (rstd out)) HlY' Hlm Hlr)
      as [[Hl1 _] [Hy1 _]].
    destruct (PackedForward_loads E HE (data X) (data_ptr_or_null (ones C))
                (data_ptr_or_null (zeros C)) N HxW G (C / G) (castT eps)
                (data (Y out)) (data (mean out)) (data (rstd out)) HlY' Hlm Hlr)
      as [[Hl2 _] [Hy2 _]].
    cbv zeta in *. apply buffer_ext; [congruence|]. intros k Hk. rewrite Hl1 in Hk.
    rewrite Hy1, Hy2 by assumption. symmetry.
    now apply (packed_val_identity_affine (data X) N C HxW G (C / G)).
Qed.

(** The packed scenario above, over exact arithmetic. *)
Lemma identity_affine_is_pure_normalisation_witness :
  let out := mkOutputs (tensor [0; 0; 0; 0]) (tensor [0; 0]) (tensor [0; 0]) in
  data (Y (snd (GroupNormKernelImpl sequential 4 Contiguous (tensor [1; 2; 3; 4])
                  undefined undefined 1 4 1 2 (1 / 100000) out)))
  = data (Y (snd (GroupNormKernelImpl sequential 4 Contiguous (tensor [1; 2; 3; 4])
                    (ones 4%nat) (zeros 4%nat) 1 4 1 2 (1 / 100000) out))).
Proof.
  cbv zeta.
  exact (proj2 (proj2 (proj2 identity_affine_is_pure_normalisation sequential 4%nat
                         (tensor [1; 2; 3; 4]) 1%nat 4%nat 1%nat 2%nat (1 / 100000)
                         (mkOutputs (tensor [0; 0; 0; 0]) (tensor [0; 0]) (tensor [0; 0]))
                         sequential_ok (le_S 1 1 (le_n 1)) eq_refl eq_refl eq_refl))).
Defined.

(* ================================================================= *)
(** ** The scenario of two groups *)

Open Scope R_scope.

(** [1 / sqrt(0.25 + 1e-5)] lies between [1.99996] and [1.99997]. *)
Lemma scenario_rstd_bounds :
  199996 / 100000 < 1 / sqrt (1 / 4 + 1 / 100000) < 199997 / 100000.
Proof.
  assert (Hlo : 500009 / 1000000 < sqrt (1 / 4 + 1 / 100000)).
  { apply Rle_lt_trans with (sqrt (500009 / 1000000 * (500009 / 1000000))).
    - rewrite sqrt_square; lra.
    - apply sqrt_lt_1; nra. }
  assert (Hhi : sqrt (1 / 4 + 1 / 100000) < 50001 / 100000).
  { apply Rlt_le_trans with (sqrt (50001 / 100000 * (50001 / 100000))).
    - apply sqrt_lt_1; nra.
    - rewrite sqrt_square; lra. }
  set (s := sqrt (1 / 4 + 1 / 100000)) in *.
  assert (Hs : 0 < s) by lra.
  split.
  - apply (Rmult_lt_reg_r s); [exact Hs|]. unfold Rdiv at 2.
    rewrite Rmult_assoc, Rinv_l by lra. lra.
  - apply (Rmult_lt_reg_r s); [exact Hs|]. unfold Rdiv at 1.
    rewrite Rmult_assoc, Rinv_l by lra. lra.
Qed.

Lemma scenario_moments (off : nat) (a b : R) (X : list R) :
  load X off = a -> load X (off + 1) = b ->
  RowwiseMoments X off 2 = ((a + b) / 2, (a - b) * (a - b) / 4).
Proof.
  intros Ha Hb. rewrite RowwiseMoments_R. cbn [Rsum INR].
  rewrite Nat.add_0_r, Ha, Hb. f_equal; field.
Qed.

(** [rstd] of the scenario over exact arithmetic. *)
Definition scenario_rstd : R := 1 / sqrt (1 / 4 + 1 / 100000).

Lemma scenario_packed_moments (i : nat) :
  (i < 2)%nat ->
  PackedMoments [1; 2; 3; 4] 1 2 (1 / 100000) i
  = (if (i =? 0)%nat then 3 / 2 else 7 / 2, scenario_rstd).
Proof.
  intros Hi. rewrite PackedMoments_rstd. unfold rstd_of, scenario_rstd.
  rewrite fmax_R. real_ops.
  destruct i as [|[|i]]; [| |lia]; cbn [Nat.mul Nat.add Nat.eqb].
  - rewrite (scenario_moments 0 1 2) by reflexivity. cbn [fst snd].
    rewrite Rmax_left by lra.
    replace ((1 + 2) / 2) with (3 / 2) by lra.
    replace ((1 - 2) * (1 - 2) / 4) with (1 / 4) by lra. reflexivity.
  - rewrite (scenario_moments 2 3 4) by reflexivity. cbn [fst snd].
    rewrite Rmax_left by lra.
    replace ((3 + 4) / 2) with (7 / 2) by lra.
    replace ((3 - 4) * (3 - 4) / 4) with (1 / 4) by lra. reflexivity.
Qed.

Lemma scenario_packed_val (k : nat) :
  (k < 4)%nat ->
  packed_val [1; 2; 3; 4] (data_ptr_or_null (ones 4)) (data_ptr_or_null (zeros 4))
    1 2 2 (1 / 100000) k
  = load [- (scenario_rstd / 2); scenario_rstd / 2;
          - (scenario_rstd / 2); scenario_rstd / 2] k.
Proof.
  intros Hk. unfold packed_val. cbv zeta.
  assert (Hi : (k / (2 * 1) < 2)%nat) by (apply Nat.Div0.div_lt_upper_bound; lia).
  rewrite (scenario_packed_moments _ Hi). cbn [fst snd].
  unfold ones, zeros, tensor, data_ptr_or_null, is_null, deref. cbn [defined data andb].
  destruct k as [|[|[|[|k]]]]; [| | | |lia];
    cbn [Nat.div Nat.modulo Nat.divmod Nat.mul Nat.add Nat.sub Nat.eqb fst snd
          load nth repeat];
    real_ops; lra.
Qed.

(** The scenario with [scalar_t = double]. *)
Definition scenario_double : (error + unit) * Outputs spec_float :=
  GroupNormKernelImpl (A := double_arith) sequential 4 Contiguous
    (tensor (map IEEE.lit [1; 2; 3; 4]%float))
    (ones (A := double_arith) 4) (zeros (A := double_arith) 4)
    1 4 1 2 eps_1e_5 (sentinel_outputs 4 2).

(** C3, as stated, fails in its last digits: the kernel's [rstd] is
    [1.99996...], below [1.999985], and its [Y] is [+-0.99998...], below
    [0.999985] in magnitude; neither rounds to the [1.99999] and [0.99999]
    of the claim. *)
Lemma scenario_rstd_is_not_1_99999 :
  succeeded scenario_double = true /\
  data (rstd (snd scenario_double))
  = map IEEE.lit [0x1.fffd60ee76424p+0; 0x1.fffd60ee76424p+0]%float /\
  forallb (fun x => SFltb x (IEEE.lit 0x1.ffff04577d955p+0%float))
          (data (rstd (snd scenario_double))) = true /\
  forallb (fun y => SFltb (SFabs y) (IEEE.lit 0x1.fffe08aefb2abp-1%float))
          (data (Y (snd scenario_double))) = true.
Proof. vm_compute. repeat split. Qed.

(** C3, amended.  In the scenario the groups get the means [1.5] and [3.5],
    the variance [0.25] and [rstd = 1 / sqrt(0.25 + 1e-5)], which is
    [1.99996...], and [Y] is [-rstd / 2, rstd / 2, -rstd / 2, rstd / 2], which
    is [0.99998...] in magnitude: exactly so over exact arithmetic, for every
    worker pool and vector width, and to the last digits shown with
    [scalar_t = double]. *)
Theorem scenario_of_two_groups :
  (forall (E : Executor) (K : nat), executor_ok E ->
     let r := GroupNormKernelImpl E K Contiguous (tensor [1; 2; 3; 4])
                (ones 4%nat) (zeros 4%nat) 1 4 1 2 (1 / 100000)
                (mkOutputs (tensor [0; 0; 0; 0]) (tensor [0; 0]) (tensor [0; 0])) in
     succeeded r = true /\
     data (mean (snd r)) = [3 / 2; 7 / 2] /\
     data (rstd (snd r)) = [scenario_rstd; scenario_rstd] /\
     data (Y (snd r)) = [- (scenario_rstd / 2); scenario_rstd / 2;
                         - (scenario_rstd / 2); scenario_rstd / 2])
  /\
  199996 / 100000 < scenario_rstd < 199997 / 100000
  /\
  (succeeded scenario_double = true /\
   data (mean (snd scenario_double)) = map IEEE.lit [0x1.8p+0; 0x1.cp+1]%float /\
   data (rstd (snd scenario_double))
   = map IEEE.lit [0x1.fffd60ee76424p+0; 0x1.fffd60ee76424p+0]%float /\
   data (Y (snd scenario_double))
   = map IEEE.lit [-0x1.fffd60ee76424p-1; 0x1.fffd60ee76424p-1;
                   -0x1.fffd60ee76428p-1; 0x1.fffd60ee76420p-1]%float /\
   forallb (fun x => SFltb (IEEE.lit 0x1.fffd60e94ee39p+0%float) x
                     && SFltb x (IEEE.lit 0x1.fffe08aefb2abp+0%float))
           (data (rstd (snd scenario_double))) = true /\
   forallb (fun y => SFltb (IEEE.lit 0x1.fffd60e94ee39p-1%float) (SFabs y)
                     && SFltb (SFabs y) (IEEE.lit 0x1.fffeb074a771dp-1%float))
           (data (Y (snd scenario_double))) = true).
Proof.
  split; [|split; [exact scenario_rstd_bounds|vm_compute; repeat split]].
  intros E K HE r.
  destruct (forward_run E K Contiguous (tensor [1; 2; 3; 4]) (ones 4%nat) (zeros 4%nat)
              1 4 1 2 (1 / 100000)
              (mkOutputs (tensor [0; 0; 0; 0]) (tensor [0; 0]) (tensor [0; 0])) eq_refl)
    as [Hs [HY [Hm Hr]]]; [discriminate|].
  fold r in Hs, HY, Hm, Hr. split; [exact Hs|]. rewrite HY, Hm, Hr.
  change (@castT R R_arith (1 / 100000)) with (1 / 100000).
  change (4 / 2)%nat with 2%nat. unfold data_of. cbn [Y mean rstd data tensor].
  destruct (PackedForward_loads E HE [1; 2; 3; 4] (data_ptr_or_null (ones 4%nat))
              (data_ptr_or_null (zeros 4%nat)) 1 1 2 2 (1 / 100000)
              [0; 0; 0; 0] [0; 0] [0; 0] eq_refl eq_refl eq_refl)
    as [[Hl1 [Hl2 Hl3]] [Hy Hmr]].
  cbv zeta in *. split; [|split].
  - apply buffer_ext; [exact Hl2|]. intros i Hi. rewrite Hl2 in Hi.
    destruct (Hmr i Hi) as [-> _]. rewrite (scenario_packed_moments i Hi).
    destruct i as [|[|i]]; [reflexivity|reflexivity|cbn in Hi; lia].
  - apply buffer_ext; [exact Hl3|]. intros i Hi. rewrite Hl3 in Hi.
    destruct (Hmr i Hi) as [_ ->]. rewrite (scenario_packed_moments i Hi).
    destruct i as [|[|i]]; [reflexivity|reflexivity|cbn in Hi; lia].
  - apply buffer_ext; [exact Hl1|]. intros k Hk. rewrite Hl1 in Hk.
    rewrite (Hy k Hk). apply scenario_packed_val. exact Hk.
Qed.

(** The scenario on one worker. *)
Lemma scenario_of_two_groups_witness :
  data (rstd (snd (GroupNormKernelImpl sequential 4 Contiguous (tensor [1; 2; 3; 4])
                     (ones 4%nat) (zeros 4%nat) 1 4 1 2 (1 / 100000)
                     (mkOutputs (tensor [0; 0; 0; 0]) (tensor [0; 0]) (tensor [0; 0])))))
  = [scenario_rstd; scenario_rstd].
Proof.
  exact (proj1 (proj2 (proj2 (proj1 scenario_of_two_groups sequential 4%nat
                                sequential_ok)))).
Defined.

(* ================================================================= *)
(** * Further properties of the kernels *)

(** ** The vectorized reductions *)

Close Scope R_scope.

Section ColumnwiseReads.
Context {F : Type} {A : Arith F}.
Variable K : nat.

Lemma loadu_ext (X X' : list F) (p : nat) :
  (forall l, l < K -> load X (p + l) = load X' (p + l)) ->
  loadu K X p = loadu K X' p.
Proof.
  intros H. unfold loadu. apply map_ext_in. intros l Hl.
  apply in_seq in Hl. apply H. lia.
Qed.

Lemma loadu_n_ext (X X' : list F) (p count : nat) :
  (forall l, l < K -> l < count -> load X (p + l) = load X' (p + l)) ->
  loadu_n K X p count = loadu_n K X' p count.
Proof.
  intros H. unfold loadu_n. apply map_ext_in. intros l Hl.
  apply in_seq in Hl. destruct (Nat.ltb_spec l count); [|reflexivity].
  apply H; lia.
Qed.

(** The number of full registers in [inner_size = D / K * K] elements. *)
Lemma full_steps (D q : nat) :
  q < (D / K * K + K - 1) / K -> 0 < K /\ q * K + K <= D.
Proof.
  intros Hq. destruct (Nat.eq_dec K 0) as [->|HK]; [simpl in Hq; lia|].
  split; [lia|].
  assert (Hc : (D / K * K + K - 1) / K = D / K).
  { symmetry. apply (Nat.div_unique _ K (D / K) (K - 1)); lia. }
  rewrite Hc in Hq. pose proof (Nat.Div0.mul_div_le D K). nia.
Qed.

(** X2.  [ColumnwiseMoments] reads nothing but the [HxW] runs of [D]
    channels it is asked to reduce, in every arithmetic and for every vector
    width: two buffers that agree on those runs give the same pair, whatever
    else they hold (the partial load of the remainder never reaches past the
    run). *)
Theorem ColumnwiseMoments_reads_only_its_runs (X X' : list F) (off HxW C D : nat) :
  (forall m d, m < HxW -> d < D ->
     load X (off + m * C + d) = load X' (off + m * C + d)) ->
  ColumnwiseMoments K X off HxW C D = ColumnwiseMoments K X' off HxW C D.
Proof.
  intros Hrun. unfold ColumnwiseMoments. cbv zeta.
  match goal with
  | |- (vec_reduce_all (fst ?a), _) = (vec_reduce_all (fst ?b), _) =>
      assert (Hacc : a = b); [|now rewrite Hacc]
  end.
  apply irange_ext. intros m acc Hm.
  assert (Hloop : forall acc0 : Vec (F := F) * Vec (F := F),
    for_step (D / K * K) K
      (fun d acc => (vadd (fst acc) (loadu K X (off + m * C + d)),
                     vadd (snd acc) (vmul (loadu K X (off + m * C + d))
                                          (loadu K X (off + m * C + d))))) acc0
    = for_step (D / K * K) K
        (fun d acc => (vadd (fst acc) (loadu K X' (off + m * C + d)),
                       vadd (snd acc) (vmul (loadu K X' (off + m * C + d))
                                            (loadu K X' (off + m * C + d))))) acc0).
  { intros acc0. unfold for_step. apply for_range_ext. intros q a Hq.
    destruct (full_steps D q) as [HK Hle]; [lia|].
    rewrite (loadu_ext X X' (off + m * C + q * K)); [reflexivity|].
    intros l Hl. rewrite <- (Nat.add_assoc (off + m * C)). apply Hrun; lia. }
  rewrite Hloop.
  destruct (0 <? D - D / K * K) eqn:Htail; [|reflexivity].
  rewrite (loadu_n_ext X X' (off + m * C + D / K * K) (D - D / K * K)); [reflexivity|].
  intros l _ Hl. rewrite <- (Nat.add_assoc (off + m * C)). apply Hrun; lia.
Qed.
End ColumnwiseReads.

Open Scope R_scope.

(** Two buffers that differ before, between and after the two runs of two
    channels. *)
Lemma ColumnwiseMoments_reads_only_its_runs_witness :
  ColumnwiseMoments 4 [9; 1; 2; 9; 3; 4; 9] 1 2 3 2
  = ColumnwiseMoments 4 [7; 1; 2; 8; 3; 4] 1 2 3 2.
Proof.
  apply ColumnwiseMoments_reads_only_its_runs.
  intros m d Hm Hd.
  destruct m as [|[|m]]; [| |exfalso; lia];
    (destruct d as [|[|d]]; [reflexivity|reflexivity|exfalso; lia]).
Defined.

(** X1.  Over exact arithmetic and for every vector width [K > 0],
    [ColumnwiseMoments] returns the sum and the sum of squares of the [HxW]
    runs of [D] channels, [C] apart, that start at [off]: the registers and
    the partial load of the remainder lose and add nothing, and two widths
    give the same pair. *)
Theorem ColumnwiseMoments_sum_and_sum_of_squares (K K' : nat) (X_data : list R)
    (off HxW C D : nat) :
  (0 < K)%nat -> (0 < K')%nat ->
  ColumnwiseMoments K X_data off HxW C D
  = (Rsum (fun m => Rsum (fun d => load X_data (off + m * C + d)) D) HxW,
     Rsum (fun m => Rsum (fun d => load X_data (off + m * C + d)
                                   * load X_data (off + m * C + d)) D) HxW)
  /\ ColumnwiseMoments K X_data off HxW C D = ColumnwiseMoments K' X_data off HxW C D.
Proof.
  intros HK HK'. split.
  - now apply ColumnwiseMoments_R.
  - now rewrite (ColumnwiseMoments_R K HK), (ColumnwiseMoments_R K' HK').
Qed.

(** Three channels in registers of two and of four lanes. *)
Lemma ColumnwiseMoments_sum_and_sum_of_squares_witness :
  ColumnwiseMoments 2 [1; 2; 3; 4; 5; 6] 0 2 3 3
  = ColumnwiseMoments 4 [1; 2; 3; 4; 5; 6] 0 2 3 3.
Proof.
  apply (ColumnwiseMoments_sum_and_sum_of_squares 2 4); lia.
Defined.

Open Scope R_scope.

(** The weight [CalcDsDb] gives entry [j]: [gamma_ptr[j]], or [1]. *)
Definition gamma_weight (gamma : option (list R)) (gamma_ptr j : nat) : R :=
  match gamma with
  | Some gamma => load gamma (gamma_ptr + j)
  | None => 1
  end.

(** X3.  Over exact arithmetic and for every vector width [K > 0], the two
    registers [CalcDsDb] returns for [d = q * K] elements sum to the sums of
    the first [d] entries of [ds] and of [db], each weighted by [gamma] (or
    by [1] when [gamma] is absent). *)
Theorem CalcDsDb_weighted_sums (K : nat) (ds db : list R) (ds_ptr db_ptr : nat)
    (gamma : option (list R)) (gamma_ptr q : nat) :
  (0 < K)%nat ->
  let r := CalcDsDb K ds db ds_ptr db_ptr gamma gamma_ptr (q * K) in
  accumulate (fst r)
  = Rsum (fun j => load ds (ds_ptr + j) * gamma_weight gamma gamma_ptr j) (q * K) /\
  accumulate (snd r)
  = Rsum (fun j => load db (db_ptr + j) * gamma_weight gamma gamma_ptr j) (q * K).
Proof.
  intros HK r. unfold r, CalcDsDb, for_step.
  assert (Hcount : ((q * K + K - 1) / K = q)%nat).
  { symmetry. apply (Nat.div_unique _ K q (K - 1)); lia. }
  rewrite Hcount.
  assert (Hlanes : forall (p : list R) (ptr i : nat) acc,
             vadd acc (vmul (loadu K p (ptr + i * K))
                            match gamma with
                            | Some gamma0 => loadu K gamma0 (gamma_ptr + i * K)
                            | None => vbroadcast K fone
                            end)
             = vadd acc (map (fun l => load p (ptr + (i * K + l))
                                       * gamma_weight gamma gamma_ptr (i * K + l))
                             (seq 0 K))).
  { intros p ptr i acc. f_equal. unfold vmul, loadu, vbroadcast, gamma_weight.
    destruct gamma as [gamma0|].
    - rewrite vmap2_map. apply map_ext. intros l. simpl. now rewrite !Nat.add_assoc.
    - rewrite (repeat_map_seq fone 0 K), vmap2_map. apply map_ext. intros l.
      now rewrite !Nat.add_assoc. }
  rewrite (for_range_pair_eta 0 q
             (fun i acc => vadd acc (vmul (loadu K ds (ds_ptr + i * K))
                                       match gamma with
                                       | Some gamma0 => loadu K gamma0 (gamma_ptr + i * K)
                                       | None => vbroadcast K fone
                                       end))
             (fun i acc => vadd acc (vmul (loadu K db (db_ptr + i * K))
                                       match gamma with
                                       | Some gamma0 => loadu K gamma0 (gamma_ptr + i * K)
                                       | None => vbroadcast K fone
                                       end))).
  cbn [fst snd]. rewrite !accumulate_lsum.
  rewrite (for_range_ext 0 q _
             (fun i acc => vadd acc (map (fun l => load ds (ds_ptr + (i * K + l))
                                                   * gamma_weight gamma gamma_ptr (i * K + l))
                                         (seq 0 K))))
    by (intros; apply Hlanes).
  rewrite (for_range_ext 0 q
             (fun i acc => vadd acc (vmul (loadu K db (db_ptr + i * K)) _))
             (fun i acc => vadd acc (map (fun l => load db (db_ptr + (i * K + l))
                                                   * gamma_weight gamma gamma_ptr (i * K + l))
                                         (seq 0 K))))
    by (intros; apply Hlanes).
  destruct (lanes_loop K (fun j => load ds (ds_ptr + j) * gamma_weight gamma gamma_ptr j)
              q (vbroadcast K 0) (vbroadcast_length K 0)) as [_ Hs].
  destruct (lanes_loop K (fun j => load db (db_ptr + j) * gamma_weight gamma gamma_ptr j)
              q (vbroadcast K 0) (vbroadcast_length K 0)) as [_ Hb].
  rewrite lsum_vbroadcast0, Rplus_0_l in Hs, Hb. split; [exact Hs|exact Hb].
Qed.

(** One register of two lanes, weighted by [gamma = [2, 3]]. *)
Lemma CalcDsDb_weighted_sums_witness :
  accumulate (fst (CalcDsDb 2 [1; 2] [5; 7] 0 0 (Some [2; 3]) 0 2)) = 1 * 2 + 2 * 3.
Proof.
  refine (eq_trans (proj1 (CalcDsDb_weighted_sums 2 [1; 2] [5; 7] 0 0 (Some [2; 3]) 0 1
                             (le_S 1 1 (le_n 1)))) _).
  unfold gamma_weight, load. simpl. ring.
Defined.

(** A loop that adds [f i] on the iterations [cond i] selects. *)
Lemma irange_Rsum_if (cond : nat -> bool) (f : nat -> R) n :
  irange 0 n (fun i y => if cond i then y +^ f i else y) fzero
  = Rsum (fun i => if cond i then f i else 0) n.
Proof.
  rewrite <- (irange_Rsum (fun i => if cond i then f i else 0) n).
  apply irange_ext. intros i y _. destruct (cond i); real_ops; ring.
Qed.

(** Summing the entries of group [g] out of the units [i < N * G]. *)
Lemma Rsum_group (f : nat -> R) N G g :
  (g < G)%nat ->
  Rsum (fun i => if (i mod G =? g)%nat then f i else 0) (N * G)
  = Rsum (fun n => f (n * G + g)%nat) N.
Proof.
  intros Hg. rewrite Rsum_blocks. apply Rsum_ext. intros n _.
  rewrite (Rsum_single _ G g Hg).
  - destruct (div_mod_block G n g Hg) as [_ ->]. now rewrite Nat.eqb_refl.
  - intros g' Hg' Hne. destruct (div_mod_block G n g' Hg') as [_ ->].
    destruct (Nat.eqb_spec g' g); [contradiction|reflexivity].
Qed.

(** X4.  For a valid backward call that requests [dgamma], over exact
    arithmetic and for every worker pool and vector width:
    [dgamma[c] = sum over n of (ds[n,c] - db[n,c] * mean[n,g]) * rstd[n,g]],
    where [g] is the group of channel [c] and [ds[n,c]], [db[n,c]] are the
    sums over the spatial extent of [dY * X] and of [dY]. *)
Theorem gamma_gradient_closed_form (E : Executor) (K : nat)
    (dY X mean rstd gamma : Tensor R) (N C HxW G : nat) (grads : Gradients R) :
  executor_ok E ->
  backward_checks dY X mean rstd gamma N C HxW G = true ->
  defined (dgamma grads) = true ->
  numel (dgamma grads) = C ->
  (0 < G)%nat -> (C mod G = 0)%nat ->
  let D := (C / G)%nat in
  let r := GroupNormBackwardKernelImpl E K dY X mean rstd gamma N C HxW G grads in
  succeeded r = true /\
  forall g j, (g < G)%nat -> (j < D)%nat ->
    let c := (g * D + j)%nat in
    let ds := fun n => Rsum (fun h => load (data dY) ((n * C + c) * HxW + h)
                                      * load (data X) ((n * C + c) * HxW + h)) HxW in
    let db := fun n => Rsum (fun h => load (data dY) ((n * C + c) * HxW + h)) HxW in
    load (data (dgamma (snd r))) c
    = Rsum (fun n => (ds n - db n * load (data mean) (n * G + g))
                     * load (data rstd) (n * G + g)) N.
Proof.
  intros Hok Hchk Hdef Hnum HG Hdiv D r.
  assert (HC : C = (G * D)%nat) by (now apply Nat.Div0.div_exact).
  unfold r, GroupNormBackwardKernelImpl. rewrite backward_run by assumption.
  split; [reflexivity|].
  intros g j Hg Hj. cbv zeta. cbn [snd]. unfold backward_result. cbn [dgamma].
  rewrite Hdef. cbn [data].
  rewrite dgamma_load; [|assumption|assumption|assumption|exact Hnum|nia].
  fold D. unfold gamma_val.
  destruct (div_mod_block D g j Hj) as [Hq Hr]. rewrite Hq, Hr.
  rewrite (irange_Rsum_if (fun i => (i mod G =? g)%nat)
             (fun i => (load (internal_ds E K N C HxW (data dY) (data X)) (i * D + j)
                        - load (internal_db E K N C HxW (data dY) (data X)) (i * D + j)
                          * load (data mean) i) * load (data rstd) i)).
  rewrite (Rsum_group _ N G g Hg).
  apply Rsum_ext. intros n Hn.
  assert (Hlt : ((n * G + g) * D + j < N * C)%nat) by nia.
  rewrite internal_ds_load, internal_db_load by assumption.
  rewrite InternalGradientsAt_R, db_at_R. cbn [fst].
  replace ((n * G + g) * D + j)%nat with (n * C + (g * D + j))%nat by nia.
  reflexivity.
Qed.

(** One sample, two channels in one group, one position. *)
Lemma gamma_gradient_closed_form_witness :
  let r := GroupNormBackwardKernelImpl sequential 2 (tensor [1; 2]) (tensor [3; 4])
             (tensor [1]) (tensor [2]) undefined 1 2 1 1
             (mkGradients undefined (tensor [0; 0]) undefined) in
  succeeded r = true /\ load (data (dgamma (snd r))) 0 = 4.
Proof.
  cbv zeta.
  destruct (gamma_gradient_closed_form sequential 2 (tensor [1; 2]) (tensor [3; 4])
              (tensor [1]) (tensor [2]) undefined 1 2 1 1
              (mkGradients undefined (tensor [0; 0]) undefined)
              sequential_ok eq_refl eq_refl eq_refl (le_n 1) eq_refl) as [Hs Hv].
  split; [exact Hs|].
  specialize (Hv 0%nat 0%nat (le_n 1) (le_S 1 1 (le_n 1))).
  cbv zeta in Hv. simpl Nat.add in Hv. simpl Nat.mul in Hv. rewrite Hv.
  unfold load. simpl. lra.
Defined.

(* ================================================================= *)
(** ** What the outputs do not depend on *)

Close Scope R_scope.

Section ForwardNonInterference.
Context {F : Type} {A : Arith F}.

(** The three buffers a forward path returns hold what [triple_ext] compares. *)
Lemma PackedForward_determined (E1 E2 : Executor) X_data gamma_data beta_data
    N HxW G D eps (st1 st2 : list F * list F * list F) :
  executor_ok E1 -> executor_ok E2 ->
  length (fst (fst st1)) = N * G * (D * HxW) -> length (snd (fst st1)) = N * G ->
  length (snd st1) = N * G ->
  length (fst (fst st2)) = N * G * (D * HxW) -> length (snd (fst st2)) = N * G ->
  length (snd st2) = N * G ->
  PackedForward E1 X_data gamma_data beta_data N HxW G D eps st1
  = PackedForward E2 X_data gamma_data beta_data N HxW G D eps st2.
Proof.
  destruct st1 as [[y1 m1] r1], st2 as [[y2 m2] r2]. cbn [fst snd].
  intros HE1 HE2 Hy1 Hm1 Hr1 Hy2 Hm2 Hr2.
  destruct (PackedForward_loads E1 HE1 X_data gamma_data beta_data N HxW G D eps
              y1 m1 r1 Hy1 Hm1 Hr1) as [Hl1 [HY1 HM1]].
  destruct (PackedForward_loads E2 HE2 X_data gamma_data beta_data N HxW G D eps
              y2 m2 r2 Hy2 Hm2 Hr2) as [Hl2 [HY2 HM2]].
  cbv zeta in *.
  apply (triple_ext _ _ (N * G * (D * HxW)) (N * G) (N * G)); try assumption.
  - intros k Hk. now rewrite HY1, HY2.
  - intros i Hi. destruct (HM1 i Hi) as [-> _]. now destruct (HM2 i Hi) as [-> _].
  - intros i Hi. destruct (HM1 i Hi) as [_ ->]. now destruct (HM2 i Hi) as [_ ->].
Qed.

Lemma ChannelsLastSmall_determined (E1 E2 : Executor) (K : nat) X_data gamma_data beta_data
    N C HxW G D eps (st1 st2 : list F * list F * list F) :
  executor_ok E1 -> executor_ok E2 -> C = G * D -> 0 < G ->
  length (fst (fst st1)) = N * HxW * C -> length (snd (fst st1)) = N * G ->
  length (snd st1) = N * G ->
  length (fst (fst st2)) = N * HxW * C -> length (snd (fst st2)) = N * G ->
  length (snd st2) = N * G ->
  ChannelsLastSmall E1 K X_data gamma_data beta_data N C HxW G D eps st1
  = ChannelsLastSmall E2 K X_data gamma_data beta_data N C HxW G D eps st2.
Proof.
  destruct st1 as [[y1 m1] r1], st2 as [[y2 m2] r2]. cbn [fst snd].
  intros HE1 HE2 HC HG Hy1 Hm1 Hr1 Hy2 Hm2 Hr2.
  destruct (ChannelsLastSmall_loads E1 HE1 K X_data gamma_data beta_data N C HxW G D eps
              y1 m1 r1 HC HG Hy1 Hm1 Hr1) as [Hl1 [HY1 HM1]].
  destruct (ChannelsLastSmall_loads E2 HE2 K X_data gamma_data beta_data N C HxW G D eps
              y2 m2 r2 HC HG Hy2 Hm2 Hr2) as [Hl2 [HY2 HM2]].
  cbv zeta in *.
  apply (triple_ext _ _ (N * HxW * C) (N * G) (N * G)); try assumption.
  - intros k Hk. now rewrite HY1, HY2.
  - intros i Hi. destruct (HM1 i Hi) as [-> _]. now destruct (HM2 i Hi) as [-> _].
  - intros i Hi. destruct (HM1 i Hi) as [_ ->]. now destruct (HM2 i Hi) as [_ ->].
Qed.

Lemma ChannelsLastLarge_determined (E : Executor) X_data gamma_data beta_data
    N C HxW G D eps (st1 st2 : list F * list F * list F) :
  executor_ok E -> C = G * D -> 0 < G ->
  length (fst (fst st1)) = N * HxW * C -> length (snd (fst st1)) = N * G ->
  length (snd st1) = N * G ->
  length (fst (fst st2)) = N * HxW * C -> length (snd (fst st2)) = N * G ->
  length (snd st2) = N * G ->
  ChannelsLastLarge E X_data gamma_data beta_data N C HxW G D eps st1
  = ChannelsLastLarge E X_data gamma_data beta_data N C HxW G D eps st2.
Proof.
  destruct st1 as [[y1 m1] r1], st2 as [[y2 m2] r2]. cbn [fst snd].
  intros HE HC HG Hy1 Hm1 Hr1 Hy2 Hm2 Hr2.
  destruct (ChannelsLastLarge_loads E HE X_data gamma_data beta_data N C HxW G D eps
              y1 m1 r1 HC HG Hy1 Hm1 Hr1) as [Hl1 [HY1 HM1]].
  destruct (ChannelsLastLarge_loads E HE X_data gamma_data beta_data N C HxW G D eps
              y2 m2 r2 HC HG Hy2 Hm2 Hr2) as [Hl2 [HY2 HM2]].
  cbv zeta in *.
  apply (triple_ext _ _ (N * HxW * C) (N * G) (N * G)); try assumption.
  - intros k Hk. now rewrite HY1, HY2.
  - intros i Hi. destruct (HM1 i Hi) as [-> _]. now destruct (HM2 i Hi) as [-> _].
  - intros i Hi. destruct (HM1 i Hi) as [_ ->]. now destruct (HM2 i Hi) as [_ ->].
Qed.

Lemma output_lengths (out : Outputs F) N C HxW G :
  0 < G -> C mod G = 0 -> output_shapes out N C HxW G = true ->
  C = G * (C / G) /\
  length (fst (fst (data_of out))) = N * G * (C / G * HxW) /\
  length (fst (fst (data_of out))) = N * HxW * C /\
  length (snd (fst (data_of out))) = N * G /\
  length (snd (data_of out)) = N * G.
Proof.
  intros HG Hdiv Hout.
  pose proof (groups_divide C G HG Hdiv) as HC.
  destruct (output_shapes_spec out N C HxW G Hout) as [HlY [Hlm Hlr]].
  unfold data_of. cbn [fst snd].
  assert (Heq : N * G * (C / G * HxW) = N * C * HxW).
  { set (D := C / G) in *. rewrite HC. ring. }
  repeat split; try assumption; lia.
Qed.

(** X5.  A valid forward call overwrites every element of [Y], [mean] and
    [rstd], in every arithmetic and in each layout: two calls on the same
    inputs leave the same three buffers whatever the output tensors held
    before. *)
Theorem forward_overwrites_every_output (E : Executor) (K : nat)
    (memory_format : MemoryFormat) (X gamma beta : Tensor F) (N C HxW G : nat) (eps : F)
    (out1 out2 : Outputs F) :
  executor_ok E -> 0 < G -> C mod G = 0 ->
  forward_checks X gamma beta N C HxW = true ->
  output_shapes out1 N C HxW G = true ->
  output_shapes out2 N C HxW G = true ->
  memory_format <> Preserve ->
  let r1 := GroupNormKernelImpl E K memory_format X gamma beta N C HxW G eps out1 in
  let r2 := GroupNormKernelImpl E K memory_format X gamma beta N C HxW G eps out2 in
  data (Y (snd r1)) = data (Y (snd r2)) /\
  data (mean (snd r1)) = data (mean (snd r2)) /\
  data (rstd (snd r1)) = data (rstd (snd r2)).
Proof.
  intros HE HG Hdiv Hchk Ho1 Ho2 Hfmt r1 r2.
  destruct (forward_run E K memory_format X gamma beta N C HxW G eps out1 Hchk Hfmt)
    as [_ [HY1 [Hm1 Hr1]]].
  destruct (forward_run E K memory_format X gamma beta N C HxW G eps out2 Hchk Hfmt)
    as [_ [HY2 [Hm2 Hr2]]].
  fold r1 in HY1, Hm1, Hr1. fold r2 in HY2, Hm2, Hr2.
  rewrite HY1, Hm1, Hr1, HY2, Hm2, Hr2.
  destruct (output_lengths out1 N C HxW G HG Hdiv Ho1) as [HC [Hp1 [Hc1 [Hlm1 Hlr1]]]].
  destruct (output_lengths out2 N C HxW G HG Hdiv Ho2) as [_ [Hp2 [Hc2 [Hlm2 Hlr2]]]].
  assert (Hcl :
    (if HxW <? feature_map_threshold
     then ChannelsLastSmall E K (data X) (data_ptr_or_null gamma) (data_ptr_or_null beta)
            N C HxW G (C / G) (castT eps) (data_of out1)
     else ChannelsLastLarge E (data X) (data_ptr_or_null gamma) (data_ptr_or_null beta)
            N C HxW G (C / G) (castT eps) (data_of out1))
    = (if HxW <? feature_map_threshold
       then ChannelsLastSmall E K (data X) (data_ptr_or_null gamma) (data_ptr_or_null beta)
              N C HxW G (C / G) (castT eps) (data_of out2)
       else ChannelsLastLarge E (data X) (data_ptr_or_null gamma) (data_ptr_or_null beta)
              N C HxW G (C / G) (castT eps) (data_of out2))).
  { destruct (HxW <? feature_map_threshold).
    - now apply ChannelsLastSmall_determined.
    - now apply ChannelsLastLarge_determined. }
  destruct memory_format; try contradiction.
  - rewrite (PackedForward_determined E E (data X) (data_ptr_or_null gamma)
               (data_ptr_or_null beta) N HxW G (C / G) (castT eps)
               (data_of out1) (data_of out2)) by assumption.
    repeat split.
  - rewrite Hcl. repeat split.
  - rewrite Hcl. repeat split.
Qed.

(** X6.  In the packed layout, and in the interleaved layout below the
    spatial threshold (impl-1), the outputs of a valid forward call do not
    depend on the worker pool, in every arithmetic: however the units are
    cut into chunks and handed to workers, each unit is computed alone and
    the three buffers come out bit for bit the same. *)
Theorem forward_is_independent_of_the_worker_pool (E1 E2 : Executor) (K : nat)
    (memory_format : MemoryFormat) (X gamma beta : Tensor F) (N C HxW G : nat) (eps : F)
    (out : Outputs F) :
  executor_ok E1 -> executor_ok E2 -> 0 < G -> C mod G = 0 ->
  forward_checks X gamma beta N C HxW = true ->
  output_shapes out N C HxW G = true ->
  memory_format = Contiguous
  \/ (memory_format <> Preserve /\ HxW < feature_map_threshold) ->
  GroupNormKernelImpl E1 K memory_format X gamma beta N C HxW G eps out
  = GroupNormKernelImpl E2 K memory_format X gamma beta N C HxW G eps out.
Proof.
  intros HE1 HE2 HG Hdiv Hchk Ho Hfmt.
  destruct (output_lengths out N C HxW G HG Hdiv Ho) as [HC [Hp [Hc [Hlm Hlr]]]].
  unfold GroupNormKernelImpl.
  destruct Hfmt as [->|[Hfmt Hsmall]].
  - rewrite !packed_run by assumption. do 2 f_equal.
    now apply PackedForward_determined.
  - apply Nat.ltb_lt in Hsmall.
    destruct memory_format; try contradiction.
    + rewrite !packed_run by assumption. do 2 f_equal.
      now apply PackedForward_determined.
    + rewrite !channels_last_run by assumption. rewrite Hsmall. do 2 f_equal.
      now apply ChannelsLastSmall_determined.
    + rewrite !channels_last_run by assumption. rewrite Hsmall. do 2 f_equal.
      now apply ChannelsLastSmall_determined.
Qed.
End ForwardNonInterference.

(** Sentinels [7] and zeros in the output tensors of the same call. *)
Lemma forward_overwrites_every_output_witness :
  let X := tensor (map IEEE.lit [1; 2; 3; 4]%float) in
  let zero := S754_zero false in
  data (Y (snd (GroupNormKernelImpl (A := double_arith) sequential 4 ChannelsLast
                  X undefined undefined 1 4 1 2 eps_1e_5 (sentinel_outputs 4 2))))
  = data (Y (snd (GroupNormKernelImpl (A := double_arith) sequential 4 ChannelsLast
                    X undefined undefined 1 4 1 2 eps_1e_5
                    (mkOutputs (tensor [zero; zero; zero; zero]) (tensor [zero; zero])
                               (tensor [zero; zero]))))).
Proof.
  cbv zeta.
  refine (proj1 (forward_overwrites_every_output (A := double_arith) sequential 4
                   ChannelsLast (tensor (map IEEE.lit [1; 2; 3; 4]%float))
                   undefined undefined 1 4 1 2 eps_1e_5 (sentinel_outputs 4 2)
                   (mkOutputs (tensor (repeat (S754_zero false) 4))
                              (tensor (repeat (S754_zero false) 2))
                              (tensor (repeat (S754_zero false) 2)))
                   sequential_ok (le_S 1 1 (le_n 1)) eq_refl eq_refl eq_refl eq_refl _)).
  discriminate.
Defined.

(** One worker against three, on the packed layout. *)
Lemma forward_is_independent_of_the_worker_pool_witness :
  let X := tensor (map IEEE.lit [1; 2; 3; 4]%float) in
  GroupNormKernelImpl (A := double_arith) sequential 4 Contiguous
    X undefined undefined 1 4 1 2 eps_1e_5 (sentinel_outputs 4 2)
  = GroupNormKernelImpl (A := double_arith) (round_robin 3) 4 Contiguous
      X undefined undefined 1 4 1 2 eps_1e_5 (sentinel_outputs 4 2).
Proof.
  cbv zeta.
  apply (forward_is_independent_of_the_worker_pool (A := double_arith));
    [apply sequential_ok|apply round_robin_ok; lia|lia|reflexivity|reflexivity
    |reflexivity|left; reflexivity].
Defined.

Close Scope R_scope.

Section BackwardWorkerPool.
Context {F : Type} {A : Arith F}.

Lemma ComputeInternalGradients_pool (E1 E2 : Executor) (K : nat) N C HxW
    (dY X ds db : list F) :
  executor_ok E1 -> executor_ok E2 ->
  ComputeInternalGradients E1 K N C HxW dY X ds db
  = ComputeInternalGradients E2 K N C HxW dY X ds db.
Proof.
  intros H1 H2. now rewrite !ComputeInternalGradients_eq.
Qed.

(** X7.  The gradients of a valid backward call do not depend on the worker
    pool, in every arithmetic: [ds], [db], [dX], [dgamma] and [dbeta] are
    each computed item by item in a fixed order, so any cut of the ranges
    into chunks, on any workers, gives the same three tensors bit for bit. *)
Theorem backward_is_independent_of_the_worker_pool (E1 E2 : Executor) (K : nat)
    (dY X mean rstd gamma : Tensor F) (N C HxW G : nat) (grads : Gradients F) :
  executor_ok E1 -> executor_ok E2 ->
  backward_checks dY X mean rstd gamma N C HxW G = true ->
  gradient_shapes grads N C HxW = true ->
  0 < G -> C mod G = 0 ->
  GroupNormBackwardKernelImpl E1 K dY X mean rstd gamma N C HxW G grads
  = GroupNormBackwardKernelImpl E2 K dY X mean rstd gamma N C HxW G grads.
Proof.
  intros H1 H2 Hchk Hshape HG Hdiv.
  unfold GroupNormBackwardKernelImpl. rewrite !backward_run by assumption.
  f_equal. unfold backward_result, internal_ds, internal_db.
  rewrite (ComputeInternalGradients_pool E1 E2 K N C HxW (data dY) (data X) _ _ H1 H2).
  set (ds := fst (ComputeInternalGradients E2 K N C HxW (data dY) (data X)
                    (repeat fzero (N * C)) (repeat fzero (N * C)))).
  set (db := snd (ComputeInternalGradients E2 K N C HxW (data dY) (data X)
                    (repeat fzero (N * C)) (repeat fzero (N * C)))).
  unfold gradient_shapes in Hshape. rewrite !andb_true_iff in Hshape.
  destruct Hshape as [[HsX Hsg] Hsb].
  f_equal.
  - destruct (defined (dX grads)); [|reflexivity]. cbn in HsX.
    apply Nat.eqb_eq in HsX. unfold numel in HsX. f_equal.
    apply buffer_ext.
    + rewrite (pointwise_length _ _ _
                 (GroupNormInputBackward_pointwise E1 H1 K N C HxW G _ _ _ _ _ _ _)).
      now rewrite (pointwise_length _ _ _
                     (GroupNormInputBackward_pointwise E2 H2 K N C HxW G _ _ _ _ _ _ _)).
    + intros k Hk.
      rewrite (pointwise_length _ _ _
                 (GroupNormInputBackward_pointwise E1 H1 K N C HxW G _ _ _ _ _ _ _)) in Hk.
      rewrite !dX_load by (auto; lia). reflexivity.
  - destruct (defined (dgamma grads)); [|reflexivity]. cbn in Hsg.
    apply Nat.eqb_eq in Hsg. unfold numel in Hsg. f_equal.
    apply buffer_ext.
    + rewrite (pointwise_length _ _ _ (GammaBackward_pointwise E1 H1 K N C G _ _ _ _)).
      now rewrite (pointwise_length _ _ _ (GammaBackward_pointwise E2 H2 K N C G _ _ _ _)).
    + intros k Hk.
      rewrite (pointwise_length _ _ _ (GammaBackward_pointwise E1 H1 K N C G _ _ _ _)) in Hk.
      rewrite !dgamma_load by (auto; lia). reflexivity.
  - destruct (defined (dbeta grads)); [|reflexivity]. cbn in Hsb.
    apply Nat.eqb_eq in Hsb. unfold numel in Hsb. f_equal.
    apply buffer_ext.
    + rewrite (pointwise_length _ _ _ (BetaBackward_pointwise E1 H1 K N C _)).
      now rewrite (pointwise_length _ _ _ (BetaBackward_pointwise E2 H2 K N C _)).
    + intros k Hk.
      rewrite (pointwise_length _ _ _ (BetaBackward_pointwise E1 H1 K N C _)) in Hk.
      rewrite !dbeta_load by (auto; lia). reflexivity.
Qed.
End BackwardWorkerPool.

(** All three gradients requested, one worker against three. *)
Lemma backward_is_independent_of_the_worker_pool_witness :
  let z := S754_zero false in
  let grads := mkGradients (tensor [z; z; z; z]) (tensor [z; z]) (tensor [z; z]) in
  GroupNormBackwardKernelImpl (A := double_arith) sequential 4
    (tensor (map IEEE.lit [1; 2; 3; 4]%float)) (tensor (map IEEE.lit [5; 6; 7; 8]%float))
    (tensor [IEEE.lit 6]) (tensor [IEEE.lit 1]) undefined 1 2 2 1 grads
  = GroupNormBackwardKernelImpl (A := double_arith) (round_robin 3) 4
      (tensor (map IEEE.lit [1; 2; 3; 4]%float)) (tensor (map IEEE.lit [5; 6; 7; 8]%float))
      (tensor [IEEE.lit 6]) (tensor [IEEE.lit 1]) undefined 1 2 2 1 grads.
Proof.
  cbv zeta.
  apply (backward_is_independent_of_the_worker_pool (A := double_arith));
    [apply sequential_ok|apply round_robin_ok; lia|reflexivity|reflexivity|lia|reflexivity].
Defined.

(* ================================================================= *)
(** ** The forward outputs, element by element *)

Close Scope R_scope.

(** The offset of the logical element [(n, c, m)] in each layout:
    [{N, C, HxW}] packed, [{N, HxW, C}] interleaved. *)
Definition layout_index (memory_format : MemoryFormat) (C HxW n c m : nat) : nat :=
  match memory_format with
  | Contiguous => (n * C + c) * HxW + m
  | _ => (n * HxW + m) * C + c
  end.

Section ForwardLoadsByLayout.
Context {F : Type} {A : Arith F}.
Variable E : Executor.
Hypothesis E_ok : executor_ok E.
Variable K : nat.

(** The pair [(mean_val, rstd_val)], in accumulation precision, that the
    selected path computes for unit [i]. *)
Definition unit_moments (memory_format : MemoryFormat) (X_data : list F)
    (N C HxW G : nat) (eps : F) (i : nat) : F * F :=
  match memory_format with
  | Contiguous => PackedMoments X_data HxW (C / G) eps i
  | _ =>
      if HxW <? feature_map_threshold
      then SmallMoments K X_data C HxW (C / G) eps (i / G) (i mod G)
      else LargeMoments E N C HxW G (C / G) eps (accumulated E X_data N C HxW)
             (i / G) (i mod G)
  end.

(** A valid forward call, element by element and in every arithmetic: the
    statistics of each unit, and each output from the statistics of its
    unit. *)
Lemma forward_loads memory_format (X gamma beta : Tensor F) N C HxW G eps
    (out : Outputs F) :
  0 < G -> C mod G = 0 ->
  forward_checks X gamma beta N C HxW = true ->
  output_shapes out N C HxW G = true ->
  memory_format <> Preserve ->
  let D := C / G in
  let r := GroupNormKernelImpl E K memory_format X gamma beta N C HxW G eps out in
  let mom := unit_moments memory_format (data X) N C HxW G (castT eps) in
  (forall i, i < N * G ->
     load (data (mean (snd r))) i = castPT (fst (mom i)) /\
     load (data (rstd (snd r))) i = castPT (snd (mom i))) /\
  (forall n g j m, n < N -> g < G -> j < D -> m < HxW ->
     let k := layout_index memory_format C HxW n (g * D + j) m in
     let mv := mom (n * G + g) in
     k < N * C * HxW /\
     load (data (Y (snd r))) k
     = match memory_format with
       | Contiguous =>
           if is_null (data_ptr_or_null gamma) && is_null (data_ptr_or_null beta)
           then castT ((load (data X) k -^ fst mv) *^ snd mv)
           else castT (scale_of (data_ptr_or_null gamma) (snd mv) (g * D + j)
                       *^ load (data X) k
                       +^ bias_of (data_ptr_or_null gamma) (data_ptr_or_null beta)
                                  (fst mv) (snd mv) (g * D + j))
       | _ =>
           castT (load (data X) k *^ scale_of (data_ptr_or_null gamma) (snd mv) (g * D + j)
                  +^ bias_of (data_ptr_or_null gamma) (data_ptr_or_null beta)
                             (fst mv) (snd mv) (g * D + j))
       end).
Proof.
  intros HG Hdiv Hchk Hout Hfmt D r mom.
  destruct (forward_run E K memory_format X gamma beta N C HxW G eps out Hchk Hfmt)
    as [_ [HY [Hm Hr]]].
  fold r in HY, Hm, Hr. rewrite HY, Hm, Hr.
  pose proof (groups_divide C G HG Hdiv) as HC. fold D in HC.
  destruct (output_shapes_spec out N C HxW G Hout) as [HlY [Hlm Hlr]].
  assert (Heq : N * G * (D * HxW) = N * C * HxW) by (rewrite HC; ring).
  assert (HlYp : length (data (Y out)) = N * G * (D * HxW)) by congruence.
  assert (HlYc : length (data (Y out)) = N * HxW * C) by lia.
  unfold data_of.
  assert (Hidx : forall n g j m, n < N -> g < G -> j < D -> m < HxW ->
            (n * HxW + m) * C + (g * D + j) < N * HxW * C).
  { intros n g j m Hn Hg Hj Hm'.
    assert ((n * HxW + m + 1) * C <= N * HxW * C) by (apply Nat.mul_le_mono_r; nia).
    nia. }
  assert (Hcl : forall (st : list F * list F * list F) (mom' : nat -> nat -> F * F),
    (forall k, k < N * HxW * C ->
       load (fst (fst st)) k
       = cl_val mom' (data X) (data_ptr_or_null gamma) (data_ptr_or_null beta) C HxW D k) ->
    (forall i, i < N * G ->
       load (snd (fst st)) i = castPT (fst (mom' (i / G) (i mod G))) /\
       load (snd st) i = castPT (snd (mom' (i / G) (i mod G)))) ->
    (forall i, i < N * G ->
       load (snd (fst st)) i = castPT (fst (mom' (i / G) (i mod G))) /\
       load (snd st) i = castPT (snd (mom' (i / G) (i mod G)))) /\
    (forall n g j m, n < N -> g < G -> j < D -> m < HxW ->
       (n * HxW + m) * C + (g * D + j) < N * C * HxW /\
       load (fst (fst st)) ((n * HxW + m) * C + (g * D + j))
       = castT (load (data X) ((n * HxW + m) * C + (g * D + j))
                *^ scale_of (data_ptr_or_null gamma)
                            (snd (mom' ((n * G + g) / G) ((n * G + g) mod G))) (g * D + j)
                +^ bias_of (data_ptr_or_null gamma) (data_ptr_or_null beta)
                           (fst (mom' ((n * G + g) / G) ((n * G + g) mod G)))
                           (snd (mom' ((n * G + g) / G) ((n * G + g) mod G)))
                           (g * D + j)))).
  { intros st mom' Hy Hmr. split; [exact Hmr|].
    intros n g j m Hn Hg Hj Hm'. pose proof (Hidx n g j m Hn Hg Hj Hm') as Hk.
    split; [lia|]. rewrite (Hy _ Hk). unfold cl_val.
    replace ((n * HxW + m) * C + (g * D + j)) with (n * HxW * C + m * C + g * D + j)
      by ring.
    destruct (cl_index_sel C HxW G D n m g j HC Hg Hm' Hj) as [_ [-> [-> [-> _]]]].
    destruct (div_mod_block G n g Hg) as [-> ->]. reflexivity. }
  destruct memory_format; try contradiction; cbn [layout_index]; unfold mom;
    cbn [unit_moments]; fold D.
  - destruct (PackedForward_loads E E_ok (data X) (data_ptr_or_null gamma)
                (data_ptr_or_null beta) N HxW G D (castT eps)
                (data (Y out)) (data (mean out)) (data (rstd out)) HlYp Hlm Hlr)
      as [_ [Hy Hmr]].
    cbv zeta in Hy, Hmr. split; [exact Hmr|].
    intros n g j m Hn Hg Hj Hm'. cbv zeta.
    assert (Hk : (n * C + (g * D + j)) * HxW + m < N * C * HxW).
    { assert (g * D + j < C) by nia.
      assert ((n * C + (g * D + j) + 1) * HxW <= N * C * HxW)
        by (apply Nat.mul_le_mono_r; nia).
      nia. }
    split; [exact Hk|]. rewrite Hy by lia. unfold packed_val. cbv zeta.
    replace ((n * C + (g * D + j)) * HxW + m) with (((n * G + g) * D + j) * HxW + m)
      by (rewrite HC; ring).
    destruct (block2_index D HxW (n * G + g) j m Hj Hm') as [-> ->].
    destruct (div_mod_block G n g Hg) as [_ ->].
    unfold bias_of, scale_of. reflexivity.
  - destruct (HxW <? feature_map_threshold).
    + destruct (ChannelsLastSmall_loads E E_ok K (data X) (data_ptr_or_null gamma)
                  (data_ptr_or_null beta) N C HxW G D (castT eps)
                  (data (Y out)) (data (mean out)) (data (rstd out)) HC HG HlYc Hlm Hlr)
        as [_ [Hy Hmr]].
      exact (Hcl _ _ Hy Hmr).
    + destruct (ChannelsLastLarge_loads E E_ok (data X) (data_ptr_or_null gamma)
                  (data_ptr_or_null beta) N C HxW G D (castT eps)
                  (data (Y out)) (data (mean out)) (data (rstd out)) HC HG HlYc Hlm Hlr)
        as [_ [Hy Hmr]].
      exact (Hcl _ _ Hy Hmr).
  - destruct (HxW <? feature_map_threshold).
    + destruct (ChannelsLastSmall_loads E E_ok K (data X) (data_ptr_or_null gamma)
                  (data_ptr_or_null beta) N C HxW G D (castT eps)
                  (data (Y out)) (data (mean out)) (data (rstd out)) HC HG HlYc Hlm Hlr)
        as [_ [Hy Hmr]].
      exact (Hcl _ _ Hy Hmr).
    + destruct (ChannelsLastLarge_loads E E_ok (data X) (data_ptr_or_null gamma)
                  (data_ptr_or_null beta) N C HxW G D (castT eps)
                  (data (Y out)) (data (mean out)) (data (rstd out)) HC HG HlYc Hlm Hlr)
        as [_ [Hy Hmr]].
      exact (Hcl _ _ Hy Hmr).
Qed.
End ForwardLoadsByLayout.

Open Scope R_scope.

Definition beta_or_zero (beta : option (list R)) (c : nat) : R :=
  if is_null beta then 0 else deref beta c.

(** X8.  Over exact arithmetic, in each layout and for every worker pool
    and vector width, a valid forward call leaves in every element of [Y]
    the affine normalisation of the matching element of [X] by the
    statistics it emits for that element's unit:
    [Y = (X - mean[n,g]) * rstd[n,g] * gamma[c] + beta[c]], with [gamma[c]]
    read as [1] and [beta[c]] as [0] when absent. *)
Theorem forward_output_is_affine_normalisation (E : Executor) (K : nat)
    (memory_format : MemoryFormat) (X gamma beta : Tensor R) (N C HxW G : nat) (eps : R)
    (out : Outputs R) :
  executor_ok E -> (0 < G)%nat -> (C mod G = 0)%nat ->
  forward_checks X gamma beta N C HxW = true ->
  output_shapes out N C HxW G = true ->
  memory_format <> Preserve ->
  let D := (C / G)%nat in
  let r := GroupNormKernelImpl E K memory_format X gamma beta N C HxW G eps out in
  forall n g j m, (n < N)%nat -> (g < G)%nat -> (j < D)%nat -> (m < HxW)%nat ->
    let c := (g * D + j)%nat in
    let k := layout_index memory_format C HxW n c m in
    load (data (Y (snd r))) k
    = (load (data X) k - load (data (mean (snd r))) (n * G + g))
      * load (data (rstd (snd r))) (n * G + g)
      * gamma_or_one (data_ptr_or_null gamma) c
      + beta_or_zero (data_ptr_or_null beta) c.
Proof.
  intros HE HG Hdiv Hchk Hout Hfmt D r n g j m Hn Hg Hj Hm c k.
  destruct (forward_loads E HE K memory_format X gamma beta N C HxW G eps out
              HG Hdiv Hchk Hout Hfmt) as [Hmr Hy].
  cbv zeta in Hmr, Hy. fold D r in Hmr, Hy.
  assert (Hi : (n * G + g < N * G)%nat) by nia.
  destruct (Hmr _ Hi) as [Hmean Hrstd].
  destruct (Hy n g j m Hn Hg Hj Hm) as [_ HY]. fold c k in HY.
  rewrite HY, Hmean, Hrstd. unfold bias_of, scale_of, gamma_or_one, beta_or_zero.
  destruct memory_format; try contradiction;
    destruct (is_null (data_ptr_or_null gamma)), (is_null (data_ptr_or_null beta));
    cbn [andb]; real_ops; ring.
Qed.

(** One sample, two channels in one group, two positions, interleaved. *)
Lemma forward_output_is_affine_normalisation_witness :
  let r := GroupNormKernelImpl sequential 4 ChannelsLast (tensor [1; 3; 2; 4])
             (tensor [2; 2]) undefined 1 2 2 1 1
             (mkOutputs (tensor [0; 0; 0; 0]) (tensor [0]) (tensor [0])) in
  load (data (Y (snd r))) 1
  = (3 - load (data (mean (snd r))) 0) * load (data (rstd (snd r))) 0 * 2 + 0.
Proof.
  cbv zeta.
  refine (forward_output_is_affine_normalisation sequential 4 ChannelsLast
            (tensor [1; 3; 2; 4]) (tensor [2; 2]) undefined 1 2 2 1 1
            (mkOutputs (tensor [0; 0; 0; 0]) (tensor [0]) (tensor [0]))
            sequential_ok (le_n 1) eq_refl eq_refl eq_refl _
            0%nat 0%nat 1%nat 0%nat (le_n 1) (le_n 1) (le_n 2) (le_S 1 1 (le_n 1))).
  discriminate.
Defined.

Open Scope R_scope.

(** The sum of [h] over the elements of [X] that belong to group [g] of
    sample [n], channel by channel and position by position. *)
Definition unit_sum (memory_format : MemoryFormat) (X_data : list R) (C HxW D n g : nat)
    (h : R -> R) : R :=
  Rsum (fun j => Rsum (fun m =>
    h (load X_data (layout_index memory_format C HxW n (g * D + j) m))) HxW) D.

Lemma packed_unit_sum (X_data : list R) C HxW G D n g (h : R -> R) :
  C = (G * D)%nat ->
  Rsum (fun t => h (load X_data ((n * G + g) * (D * HxW) + t))) (D * HxW)
  = unit_sum Contiguous X_data C HxW D n g h.
Proof.
  intros HC. unfold unit_sum, layout_index. rewrite Rsum_blocks.
  apply Rsum_ext. intros j _. apply Rsum_ext. intros m _. do 2 f_equal.
  rewrite HC. ring.
Qed.

Lemma interleaved_unit_sum memory_format (X_data : list R) C HxW D n g (h : R -> R) :
  memory_format <> Contiguous ->
  Rsum (fun m => Rsum (fun d => h (load X_data (n * HxW * C + m * C + g * D + d))) D) HxW
  = unit_sum memory_format X_data C HxW D n g h.
Proof.
  intros Hfmt. unfold unit_sum. rewrite Rsum_swap.
  apply Rsum_ext. intros j _. apply Rsum_ext. intros m _. do 2 f_equal.
  destruct memory_format; try contradiction; cbn [layout_index]; ring.
Qed.

Lemma INR_zero (n : nat) : INR n = 0 -> n = 0%nat.
Proof. intros H. apply INR_eq. exact H. Qed.

(** The exact moments of a unit, in either layout. *)
Lemma unit_moments_R (E : Executor) (K : nat) memory_format (X_data : list R)
    N C HxW G eps n g :
  executor_ok E -> (0 < K)%nat -> (0 < G)%nat -> (C mod G = 0)%nat ->
  (n < N)%nat -> (g < G)%nat -> memory_format <> Preserve ->
  let D := (C / G)%nat in
  let mu := unit_sum memory_format X_data C HxW D n g (fun x => x) / INR (D * HxW) in
  fst (unit_moments E K memory_format X_data N C HxW G eps (n * G + g)) = mu /\
  snd (unit_moments E K memory_format X_data N C HxW G eps (n * G + g))
  = 1 / sqrt (Rmax (variance memory_format X_data C HxW G (n * G + g)) 0 + eps) /\
  INR (D * HxW) * variance memory_format X_data C HxW G (n * G + g)
  = unit_sum memory_format X_data C HxW D n g (fun x => (x - mu) * (x - mu)).
Proof.
  intros HE HK HG Hdiv Hn Hg Hfmt D mu.
  pose proof (groups_divide C G HG Hdiv) as HC. fold D in HC.
  destruct (div_mod_block G n g Hg) as [Hq Hr].
  assert (Hcl : memory_format <> Contiguous ->
    (if (HxW <? feature_map_threshold)%nat
     then SmallMoments K X_data C HxW D eps n g
     else LargeMoments E N C HxW G D eps (accumulated E X_data N C HxW) n g)
    = group_moments X_data C HxW D eps n g /\
    group_mean X_data C HxW D n g = mu /\
    INR (D * HxW) * group_var X_data C HxW D n g
    = unit_sum memory_format X_data C HxW D n g (fun x => (x - mu) * (x - mu))).
  { intros Hnc. split; [|split].
    - destruct (HxW <? feature_map_threshold)%nat.
      + now apply SmallMoments_R.
      + now apply LargeMoments_R.
    - unfold group_mean, group_sum, mu.
      rewrite (interleaved_unit_sum memory_format X_data C HxW D n g (fun x => x) Hnc).
      unfold Rdiv. ring.
    - assert (Hmu : group_mean X_data C HxW D n g = mu).
      { unfold group_mean, group_sum, mu.
        rewrite (interleaved_unit_sum memory_format X_data C HxW D n g (fun x => x) Hnc).
        unfold Rdiv. ring. }
      unfold group_var. rewrite Hmu. unfold group_sumsq.
      rewrite (interleaved_unit_sum memory_format X_data C HxW D n g (fun x => x * x) Hnc).
      unfold unit_sum.
      rewrite (Rsum_ext
                 (fun j => Rsum (fun m =>
                    (load X_data (layout_index memory_format C HxW n (g * D + j) m) - mu)
                    * (load X_data (layout_index memory_format C HxW n (g * D + j) m) - mu))
                    HxW)
                 (fun j => Rsum (fun m =>
                    load X_data (layout_index memory_format C HxW n (g * D + j) m)
                    * load X_data (layout_index memory_format C HxW n (g * D + j) m)) HxW
                  + (- 2 * mu) * Rsum (fun m =>
                      load X_data (layout_index memory_format C HxW n (g * D + j) m)) HxW
                  + INR HxW * (mu * mu)) D).
      2:{ intros j _. rewrite <- Rsum_scal, <- Rsum_const, <- !Rsum_plus.
          apply Rsum_ext. intros m _. cbv beta. ring. }
      rewrite !Rsum_plus, Rsum_scal, Rsum_const.
      fold (unit_sum memory_format X_data C HxW D n g (fun x => x * x)).
      fold (unit_sum memory_format X_data C HxW D n g (fun x => x)).
      rewrite mult_INR.
      destruct (Req_dec (INR D * INR HxW) 0) as [Hz|Hnz].
      + assert (Hs1 : unit_sum memory_format X_data C HxW D n g (fun x => x) = 0).
        { unfold unit_sum. apply Rmult_integral in Hz. destruct Hz as [Hz|Hz].
          - apply INR_zero in Hz. rewrite Hz. reflexivity.
          - apply INR_zero in Hz. rewrite Hz. cbn [Rsum]. apply Rsum_zero. }
        assert (Hs2 : unit_sum memory_format X_data C HxW D n g (fun x => x * x) = 0).
        { unfold unit_sum. apply Rmult_integral in Hz. destruct Hz as [Hz|Hz].
          - apply INR_zero in Hz. rewrite Hz. reflexivity.
          - apply INR_zero in Hz. rewrite Hz. cbn [Rsum]. apply Rsum_zero. }
        rewrite Hs1, Hs2. replace (INR D * (INR HxW * (mu * mu)))
          with (INR D * INR HxW * (mu * mu)) by ring.
        rewrite Hz. ring.
      + assert (HD : INR D <> 0) by (intros Hz; apply Hnz; rewrite Hz; ring).
        assert (HH : INR HxW <> 0) by (intros Hz; apply Hnz; rewrite Hz; ring).
        assert (Hsum : unit_sum memory_format X_data C HxW D n g (fun x => x)
                       = INR D * INR HxW * mu).
        { unfold mu. rewrite mult_INR. field. split; assumption. }
        rewrite Hsum. field. split; assumption. }
  destruct memory_format; try contradiction; cbn [unit_moments variance]; fold D;
    rewrite ?Hq, ?Hr.
  - rewrite PackedMoments_rstd, RowwiseMoments_R. cbn [fst snd].
    unfold rstd_of. rewrite fmax_R. real_ops.
    rewrite (packed_unit_sum X_data C HxW G D n g (fun x => x) HC).
    fold mu. split; [reflexivity|]. split.
    + unfold packed_var. cbv zeta.
      rewrite (packed_unit_sum X_data C HxW G D n g (fun x => x) HC). reflexivity.
    + unfold packed_var. cbv zeta.
      rewrite (packed_unit_sum X_data C HxW G D n g (fun x => x) HC). fold mu.
      rewrite (packed_unit_sum X_data C HxW G D n g (fun x => (x - mu) * (x - mu)) HC).
      destruct (Req_dec (INR (D * HxW)) 0) as [Hz|Hnz].
      * rewrite Hz. rewrite Rmult_0_l. symmetry.
        assert (Hn0 : (D * HxW = 0)%nat) by (now apply INR_zero).
        unfold unit_sum. apply Nat.eq_mul_0 in Hn0. destruct Hn0 as [->| ->].
        -- reflexivity.
        -- cbn [Rsum]. apply Rsum_zero.
      * field. exact Hnz.
  - destruct Hcl as [-> [Hmu Hv]]; [discriminate|].
    unfold group_moments. cbn [fst snd]. rewrite Hmu. repeat split. exact Hv.
  - destruct Hcl as [-> [Hmu Hv]]; [discriminate|].
    unfold group_moments. cbn [fst snd]. rewrite Hmu. repeat split. exact Hv.
Qed.

(** X9.  Over exact arithmetic, in each layout and for every worker pool
    and vector width, the [mean] a valid forward call emits for group [g]
    of sample [n] is the arithmetic mean of the [D * HxW] elements of [X]
    that belong to it. *)
Theorem forward_mean_is_the_group_mean (E : Executor) (K : nat)
    (memory_format : MemoryFormat) (X gamma beta : Tensor R) (N C HxW G : nat) (eps : R)
    (out : Outputs R) :
  executor_ok E -> (0 < K)%nat -> (0 < G)%nat -> (C mod G = 0)%nat ->
  forward_checks X gamma beta N C HxW = true ->
  output_shapes out N C HxW G = true ->
  memory_format <> Preserve ->
  let D := (C / G)%nat in
  let r := GroupNormKernelImpl E K memory_format X gamma beta N C HxW G eps out in
  forall n g, (n < N)%nat -> (g < G)%nat ->
    load (data (mean (snd r))) (n * G + g)
    = unit_sum memory_format (data X) C HxW D n g (fun x => x) / INR (D * HxW).
Proof.
  intros HE HK HG Hdiv Hchk Hout Hfmt D r n g Hn Hg.
  destruct (forward_loads E HE K memory_format X gamma beta N C HxW G eps out
              HG Hdiv Hchk Hout Hfmt) as [Hmr _].
  cbv zeta in Hmr. fold r in Hmr.
  assert (Hi : (n * G + g < N * G)%nat) by nia.
  destruct (Hmr _ Hi) as [-> _].
  change (@castT R R_arith eps) with eps.
  now destruct (unit_moments_R E K memory_format (data X) N C HxW G eps n g
                  HE HK HG Hdiv Hn Hg Hfmt) as [-> _].
Qed.

(** Two channels at two positions, packed: the mean of [1, 2, 3, 4]. *)
Lemma forward_mean_is_the_group_mean_witness :
  let r := GroupNormKernelImpl sequential 4 Contiguous (tensor [1; 2; 3; 4])
             undefined undefined 1 2 2 1 1
             (mkOutputs (tensor [0; 0; 0; 0]) (tensor [0]) (tensor [0])) in
  load (data (mean (snd r))) 0 = 5 / 2.
Proof.
  cbv zeta.
  refine (eq_trans
            (forward_mean_is_the_group_mean sequential 4 Contiguous
               (tensor [1; 2; 3; 4]) undefined undefined 1 2 2 1 1
               (mkOutputs (tensor [0; 0; 0; 0]) (tensor [0]) (tensor [0]))
               sequential_ok (le_S 1 3 (le_S 1 2 (le_S 1 1 (le_n 1)))) (le_n 1)
               eq_refl eq_refl eq_refl _ 0%nat 0%nat (le_n 1) (le_n 1)) _).
  - discriminate.
  - unfold unit_sum, layout_index, load. simpl. lra.
Defined.

Lemma unit_sum_centred memory_format (X_data : list R) C HxW D n g :
  let mu := unit_sum memory_format X_data C HxW D n g (fun x => x) / INR (D * HxW) in
  unit_sum memory_format X_data C HxW D n g (fun x => x - mu) = 0.
Proof.
  intros mu.
  assert (Hexp : unit_sum memory_format X_data C HxW D n g (fun x => x - mu)
                 = unit_sum memory_format X_data C HxW D n g (fun x => x)
                   - INR D * (INR HxW * mu)).
  { unfold unit_sum.
    rewrite (Rsum_ext _
               (fun j => Rsum (fun m =>
                  load X_data (layout_index memory_format C HxW n (g * D + j) m)) HxW
                + INR HxW * (- mu)) D).
    - rewrite Rsum_plus, Rsum_const. ring.
    - intros j _. rewrite <- Rsum_const, <- Rsum_plus. apply Rsum_ext. intros m _.
      reflexivity. }
  rewrite Hexp. unfold mu. rewrite mult_INR.
  destruct (Req_dec (INR D * INR HxW) 0) as [Hz|Hnz].
  - assert (Hs : unit_sum memory_format X_data C HxW D n g (fun x => x) = 0).
    { unfold unit_sum. apply Rmult_integral in Hz. destruct Hz as [Hz|Hz].
      - apply INR_zero in Hz. rewrite Hz. reflexivity.
      - apply INR_zero in Hz. rewrite Hz. cbn [Rsum]. apply Rsum_zero. }
    rewrite Hs. unfold Rdiv. ring.
  - field. split; intros Hz; apply Hnz; rewrite Hz; ring.
Qed.

Lemma unit_sum_ext memory_format (X_data : list R) C HxW D n g (h h' : R -> R) :
  (forall x, h x = h' x) ->
  unit_sum memory_format X_data C HxW D n g h
  = unit_sum memory_format X_data C HxW D n g h'.
Proof.
  intros H. unfold unit_sum. apply Rsum_ext. intros j _. apply Rsum_ext. intros m _.
  apply H.
Qed.

Lemma unit_sum_scal memory_format (X_data : list R) C HxW D n g (c : R) (h : R -> R) :
  unit_sum memory_format X_data C HxW D n g (fun x => c * h x)
  = c * unit_sum memory_format X_data C HxW D n g h.
Proof.
  unfold unit_sum. rewrite <- Rsum_scal. apply Rsum_ext. intros j _.
  now rewrite <- Rsum_scal.
Qed.

(** X10.  With [gamma] and [beta] absent, over exact arithmetic and in each
    layout, a valid forward call with [eps > 0] normalises every group: the
    elements of [Y] that belong to the group sum to [0], and their squares
    sum to [n * var / (max(var, 0) + eps)], where [n = D * HxW] is the size
    of the group and [var] its variance (so the mean square is [1] up to
    [eps]). *)
Theorem forward_normalises_every_group (E : Executor) (K : nat)
    (memory_format : MemoryFormat) (X : Tensor R) (N C HxW G : nat) (eps : R)
    (out : Outputs R) :
  executor_ok E -> (0 < K)%nat -> (0 < G)%nat -> (C mod G = 0)%nat ->
  forward_checks X undefined undefined N C HxW = true ->
  output_shapes out N C HxW G = true ->
  memory_format <> Preserve ->
  0 < eps ->
  let D := (C / G)%nat in
  let r := GroupNormKernelImpl E K memory_format X undefined undefined
             N C HxW G eps out in
  forall n g, (n < N)%nat -> (g < G)%nat ->
    let var := variance memory_format (data X) C HxW G (n * G + g) in
    unit_sum memory_format (data (Y (snd r))) C HxW D n g (fun y => y) = 0 /\
    unit_sum memory_format (data (Y (snd r))) C HxW D n g (fun y => y * y)
    * (Rmax var 0 + eps)
    = INR (D * HxW) * var.
Proof.
  intros HE HK HG Hdiv Hchk Hout Hfmt Heps D r n g Hn Hg var.
  destruct (forward_loads E HE K memory_format X undefined undefined N C HxW G eps out
              HG Hdiv Hchk Hout Hfmt) as [_ Hy].
  cbv zeta in Hy. fold D r in Hy. change (@castT R R_arith eps) with eps in Hy.
  destruct (unit_moments_R E K memory_format (data X) N C HxW G eps n g
              HE HK HG Hdiv Hn Hg Hfmt) as [Hmu [Hrho Hvar]].
  cbv zeta in Hmu, Hrho, Hvar. fold D var in Hmu, Hrho, Hvar.
  set (mu := unit_sum memory_format (data X) C HxW D n g (fun x => x) / INR (D * HxW))
    in *.
  set (rho := 1 / sqrt (Rmax var 0 + eps)) in *.
  assert (HY : forall j m, (j < D)%nat -> (m < HxW)%nat ->
            load (data (Y (snd r))) (layout_index memory_format C HxW n (g * D + j) m)
            = (load (data X) (layout_index memory_format C HxW n (g * D + j) m) - mu)
              * rho).
  { intros j m Hj Hm. destruct (Hy n g j m Hn Hg Hj Hm) as [_ ->].
    rewrite Hmu, Hrho. unfold bias_of, scale_of.
    destruct memory_format; try contradiction; cbn; real_ops; ring. }
  assert (Hsum : forall h : R -> R,
            unit_sum memory_format (data (Y (snd r))) C HxW D n g h
            = unit_sum memory_format (data X) C HxW D n g
                (fun x => h ((x - mu) * rho))).
  { intros h. unfold unit_sum. apply Rsum_ext. intros j Hj. apply Rsum_ext. intros m Hm.
    now rewrite HY. }
  assert (Hpos : 0 < Rmax var 0 + eps) by (pose proof (Rmax_r var 0); lra).
  split.
  - rewrite Hsum.
    rewrite (unit_sum_ext _ _ _ _ _ _ _ _ (fun x => rho * (x - mu)))
      by (intros; ring).
    rewrite unit_sum_scal. unfold mu. rewrite unit_sum_centred. ring.
  - rewrite Hsum.
    rewrite (unit_sum_ext _ _ _ _ _ _ _ _ (fun x => (rho * rho) * ((x - mu) * (x - mu))))
      by (intros; ring).
    rewrite unit_sum_scal, <- Hvar.
    assert (Hrr : rho * rho * (Rmax var 0 + eps) = 1).
    { unfold rho. pose proof (sqrt_lt_R0 _ Hpos) as Hs.
      pose proof (sqrt_sqrt (Rmax var 0 + eps) (Rlt_le _ _ Hpos)) as Hss.
      transitivity (1 / sqrt (Rmax var 0 + eps) * (1 / sqrt (Rmax var 0 + eps))
                    * (sqrt (Rmax var 0 + eps) * sqrt (Rmax var 0 + eps))).
      - now rewrite Hss.
      - field. lra. }
    transitivity (rho * rho * (Rmax var 0 + eps) * (INR (D * HxW) * var)); [ring|].
    rewrite Hrr. ring.
Qed.

(** Two channels at two positions, packed, [eps = 1]: the outputs sum to
    zero. *)
Lemma forward_normalises_every_group_witness :
  let r := GroupNormKernelImpl sequential 4 Contiguous (tensor [1; 2; 3; 4])
             undefined undefined 1 2 2 1 1
             (mkOutputs (tensor [0; 0; 0; 0]) (tensor [0]) (tensor [0])) in
  unit_sum Contiguous (data (Y (snd r))) 2 2 2 0 0 (fun y => y) = 0.
Proof.
  cbv zeta.
  refine (proj1 (forward_normalises_every_group sequential 4 Contiguous
                   (tensor [1; 2; 3; 4]) 1 2 2 1 1
                   (mkOutputs (tensor [0; 0; 0; 0]) (tensor [0]) (tensor [0]))
                   sequential_ok (le_S 1 3 (le_S 1 2 (le_S 1 1 (le_n 1)))) (le_n 1)
                   eq_refl eq_refl eq_refl _ Rlt_0_1 0%nat 0%nat (le_n 1) (le_n 1))).
  discriminate.
Defined.

(* ================================================================= *)
(** ** Edge cases and composition *)

Close Scope R_scope.

Section EmptyBatch.
Context {F : Type} {A : Arith F}.

(** X11.  An empty batch, in every arithmetic: a valid backward call with
    [N = 0] succeeds and fills a requested [dgamma] and a requested [dbeta]
    with zeros (each slice is cleared before the accumulation over no
    samples); [C] elements each, whatever they held. *)
Theorem empty_batch_clears_parameter_gradients (E : Executor) (K : nat)
    (dY X mean rstd gamma : Tensor F) (C HxW G : nat) (grads : Gradients F) :
  executor_ok E ->
  backward_checks dY X mean rstd gamma 0 C HxW G = true ->
  gradient_shapes grads 0 C HxW = true ->
  0 < G -> C mod G = 0 ->
  let r := GroupNormBackwardKernelImpl E K dY X mean rstd gamma 0 C HxW G grads in
  succeeded r = true /\
  (defined (dgamma grads) = true -> data (dgamma (snd r)) = repeat fzero C) /\
  (defined (dbeta grads) = true -> data (dbeta (snd r)) = repeat fzero C).
Proof.
  intros HE Hchk Hshape HG Hdiv r.
  unfold r, GroupNormBackwardKernelImpl. rewrite backward_run by assumption.
  split; [reflexivity|]. cbn [snd]. unfold backward_result.
  unfold gradient_shapes in Hshape. rewrite !andb_true_iff in Hshape.
  destruct Hshape as [[_ Hsg] Hsb]. split.
  - intros Hdef. cbn [dgamma]. rewrite Hdef in *. cbn in Hsg.
    apply Nat.eqb_eq in Hsg. unfold numel in Hsg. cbn [data].
    apply buffer_ext.
    + rewrite (pointwise_length _ _ _ (GammaBackward_pointwise E HE K 0 C G _ _ _ _)).
      now rewrite repeat_length.
    + intros k Hk.
      rewrite (pointwise_length _ _ _ (GammaBackward_pointwise E HE K 0 C G _ _ _ _)) in Hk.
      rewrite dgamma_load by (auto; lia).
      rewrite load_repeat by lia. reflexivity.
  - intros Hdef. cbn [dbeta]. rewrite Hdef in *. cbn in Hsb.
    apply Nat.eqb_eq in Hsb. unfold numel in Hsb. cbn [data].
    apply buffer_ext.
    + rewrite (pointwise_length _ _ _ (BetaBackward_pointwise E HE K 0 C _)).
      now rewrite repeat_length.
    + intros k Hk.
      rewrite (pointwise_length _ _ _ (BetaBackward_pointwise E HE K 0 C _)) in Hk.
      rewrite dbeta_load by (auto; lia).
      rewrite load_repeat by lia. reflexivity.
Qed.
End EmptyBatch.

(** No samples, two channels, sentinels in both parameter gradients. *)
Lemma empty_batch_clears_parameter_gradients_witness :
  let s := IEEE.lit 7 in
  let r := GroupNormBackwardKernelImpl (A := double_arith) sequential 4
             (tensor []) (tensor []) (tensor []) (tensor []) undefined 0 2 3 1
             (mkGradients undefined (tensor [s; s]) (tensor [s; s])) in
  data (dgamma (snd r)) = [S754_zero false; S754_zero false] /\
  data (dbeta (snd r)) = [S754_zero false; S754_zero false].
Proof.
  cbv zeta.
  destruct (empty_batch_clears_parameter_gradients (A := double_arith) sequential 4
              (tensor []) (tensor []) (tensor []) (tensor []) undefined 2 3 1
              (mkGradients undefined (tensor [IEEE.lit 7; IEEE.lit 7])
                           (tensor [IEEE.lit 7; IEEE.lit 7]))
              sequential_ok eq_refl eq_refl (le_n 1) eq_refl) as [_ [Hg Hb]].
  split; [exact (Hg eq_refl)|exact (Hb eq_refl)].
Defined.

Open Scope R_scope.

Section InputGradientSum.
Variable E : Executor.
Hypothesis E_ok : executor_ok E.
Variable K : nat.

(** The input gradient of element [k] of channel [j] of unit [i], over exact
    arithmetic, from the sums over its channels. *)
Lemma dX_exact (dY X mean rstd : list R) (gamma : option (list R)) N C HxW G D
    (buf : list R) i j k :
  C = (G * D)%nat -> (0 < G)%nat -> length buf = (N * C * HxW)%nat ->
  (i < N * G)%nat -> (j < D)%nat -> (k < HxW)%nat ->
  let w := fun j' => gamma_or_one gamma (i mod G * D + j') in
  let ds_g := Rsum (fun j' => Rsum (fun h => load dY ((i * D + j') * HxW + h)
                                             * load X ((i * D + j') * HxW + h)) HxW
                              * w j') D in
  let db_g := Rsum (fun j' => Rsum (fun h => load dY ((i * D + j') * HxW + h)) HxW
                              * w j') D in
  let s := 1 / INR (D * HxW) in
  let c2 := (db_g * load mean i - ds_g) * load rstd i * load rstd i * load rstd i * s in
  let c3 := - c2 * load mean i - db_g * load rstd i * s in
  load (GroupNormInputBackward E K N C HxW G dY X mean rstd gamma
          (internal_ds E K N C HxW dY X) (internal_db E K N C HxW dY X) buf)
       ((i * D + j) * HxW + k)
  = load rstd i * w j * load dY ((i * D + j) * HxW + k)
    + c2 * load X ((i * D + j) * HxW + k) + c3.
Proof.
  intros HC HG Hlen Hi Hj Hk. cbv zeta.
  assert (Hdiv : (C mod G = 0)%nat).
  { rewrite HC, Nat.mul_comm. apply Nat.Div0.mod_mul. }
  assert (HD : (C / G = D)%nat).
  { rewrite HC, Nat.mul_comm. apply Nat.div_mul. lia. }
  rewrite dX_load; [|assumption|assumption|assumption|assumption|].
  2:{ assert ((i * D + j + 1) * HxW <= N * C * HxW)%nat
        by (apply Nat.mul_le_mono_r; nia).
      nia. }
  unfold dx_val. rewrite HD.
  destruct (block2_index D HxW i j k Hj Hk) as [-> ->].
  unfold GroupCoefficients. rewrite GroupSums_R.
  rewrite (Rsum_ext
             (fun j' => load (internal_ds E K N C HxW dY X) (i * D + j')
                        * gamma_or_one gamma (i mod G * D + j'))
             (fun j' => Rsum (fun h => load dY ((i * D + j') * HxW + h)
                                       * load X ((i * D + j') * HxW + h)) HxW
                        * gamma_or_one gamma (i mod G * D + j')) D).
  2:{ intros j' Hj'. rewrite internal_ds_load by (auto; nia).
      now rewrite InternalGradientsAt_R. }
  rewrite (Rsum_ext
             (fun j' => load (internal_db E K N C HxW dY X) (i * D + j')
                        * gamma_or_one gamma (i mod G * D + j'))
             (fun j' => Rsum (fun h => load dY ((i * D + j') * HxW + h)) HxW
                        * gamma_or_one gamma (i mod G * D + j')) D).
  2:{ intros j' Hj'. rewrite internal_db_load by (auto; nia).
      now rewrite db_at_R. }
  cbn [fst snd]. unfold gamma_or_one. real_ops. ring.
Qed.

(** Summed over a unit whose [mean] entry is the mean of its elements of
    [X], the input gradient is zero. *)
Lemma dX_unit_sum (dY X mean rstd : list R) (gamma : option (list R)) N C HxW G D
    (buf : list R) i :
  C = (G * D)%nat -> (0 < G)%nat -> length buf = (N * C * HxW)%nat ->
  (i < N * G)%nat ->
  load mean i
  = Rsum (fun j => Rsum (fun k => load X ((i * D + j) * HxW + k)) HxW) D / INR (D * HxW) ->
  Rsum (fun j => Rsum (fun k =>
    load (GroupNormInputBackward E K N C HxW G dY X mean rstd gamma
            (internal_ds E K N C HxW dY X) (internal_db E K N C HxW dY X) buf)
         ((i * D + j) * HxW + k)) HxW) D
  = 0.
Proof.
  intros HC HG Hlen Hi Hmean.
  set (w := fun j' => gamma_or_one gamma (i mod G * D + j')).
  set (ds_g := Rsum (fun j' => Rsum (fun h => load dY ((i * D + j') * HxW + h)
                                               * load X ((i * D + j') * HxW + h)) HxW
                               * w j') D).
  set (db_g := Rsum (fun j' => Rsum (fun h => load dY ((i * D + j') * HxW + h)) HxW
                               * w j') D).
  set (s := 1 / INR (D * HxW)).
  set (c2 := (db_g * load mean i - ds_g) * load rstd i * load rstd i * load rstd i * s).
  set (c3 := - c2 * load mean i - db_g * load rstd i * s).
  set (SX := Rsum (fun j => Rsum (fun k => load X ((i * D + j) * HxW + k)) HxW) D) in *.
  rewrite (Rsum_ext _
             (fun j => load rstd i
                       * (Rsum (fun k => load dY ((i * D + j) * HxW + k)) HxW * w j)
                       + c2 * Rsum (fun k => load X ((i * D + j) * HxW + k)) HxW
                       + INR HxW * c3) D).
  2:{ intros j Hj.
      rewrite (Rsum_ext _
                 (fun k => load rstd i * w j * load dY ((i * D + j) * HxW + k)
                           + c2 * load X ((i * D + j) * HxW + k) + c3) HxW).
      - rewrite !Rsum_plus, !Rsum_scal, Rsum_const. ring.
      - intros k Hk.
        now rewrite (dX_exact dY X mean rstd gamma N C HxW G D buf i j k). }
  rewrite !Rsum_plus, !Rsum_scal, Rsum_const.
  fold db_g. fold SX.
  destruct (Req_dec (INR D * INR HxW) 0) as [Hz|Hnz].
  - assert (HSX : SX = 0).
    { unfold SX. apply Rmult_integral in Hz. destruct Hz as [Hz|Hz].
      - apply INR_zero in Hz. rewrite Hz. reflexivity.
      - apply INR_zero in Hz. rewrite Hz. cbn [Rsum]. apply Rsum_zero. }
    assert (Hdb : db_g = 0).
    { unfold db_g. apply Rmult_integral in Hz. destruct Hz as [Hz|Hz].
      - apply INR_zero in Hz. rewrite Hz. reflexivity.
      - apply INR_zero in Hz. rewrite Hz. cbn [Rsum].
        rewrite (Rsum_ext _ (fun _ => 0)); [apply Rsum_zero|]. intros; ring. }
    rewrite HSX, Hdb.
    replace (INR HxW * (INR D * c3)) with (INR D * INR HxW * c3) by ring.
    rewrite Hz. ring.
  - assert (HD : INR D <> 0) by (intros Hz; apply Hnz; rewrite Hz; ring).
    assert (HH : INR HxW <> 0) by (intros Hz; apply Hnz; rewrite Hz; ring).
    unfold c3, c2, s. rewrite Hmean, mult_INR. field. split; assumption.
Qed.
End InputGradientSum.

(** X12.  Forward, then backward, over exact arithmetic: when the backward
    call is given the [mean] and [rstd] that the packed forward call emitted
    for the same [X], both calls succeed and the input gradient of every
    group sums to zero, whatever [dY], [gamma], [beta], [eps], the worker
    pools and the vector width are. *)
Theorem input_gradient_of_a_group_sums_to_zero (E1 E2 : Executor) (K : nat)
    (X gamma beta dY : Tensor R) (N C HxW G : nat) (eps : R)
    (out : Outputs R) (grads : Gradients R) :
  executor_ok E1 -> executor_ok E2 -> (0 < K)%nat -> (0 < G)%nat -> (C mod G = 0)%nat ->
  forward_checks X gamma beta N C HxW = true ->
  output_shapes out N C HxW G = true ->
  numel dY = (N * C * HxW)%nat ->
  defined (dX grads) = true -> numel (dX grads) = (N * C * HxW)%nat ->
  let D := (C / G)%nat in
  let fwd := GroupNormKernelImpl E1 K Contiguous X gamma beta N C HxW G eps out in
  let bwd := GroupNormBackwardKernelImpl E2 K dY X (mean (snd fwd)) (rstd (snd fwd)) gamma
               N C HxW G grads in
  succeeded fwd = true /\ succeeded bwd = true /\
  forall n g, (n < N)%nat -> (g < G)%nat ->
    unit_sum Contiguous (data (dX (snd bwd))) C HxW D n g (fun x => x) = 0.
Proof.
  intros HE1 HE2 HK HG Hdiv Hchk Hout HdY Hdef Hnum D fwd bwd.
  pose proof (groups_divide C G HG Hdiv) as HC. fold D in HC.
  destruct (forward_run E1 K Contiguous X gamma beta N C HxW G eps out Hchk)
    as [Hs [_ [Hm Hr]]]; [discriminate|].
  fold fwd in Hs, Hm, Hr.
  destruct (output_lengths out N C HxW G HG Hdiv Hout) as [_ [Hp [_ [Hlm Hlr]]]].
  destruct (PackedForward_loads E1 HE1 (data X) (data_ptr_or_null gamma)
              (data_ptr_or_null beta) N HxW G D (castT eps)
              (data (Y out)) (data (mean out)) (data (rstd out)) Hp Hlm Hlr)
    as [[_ [Hl2 Hl3]] _].
  cbv zeta in Hl2, Hl3. unfold data_of in Hm, Hr. fold D in Hm, Hr.
  rewrite <- Hm in Hl2. rewrite <- Hr in Hl3.
  assert (Hbchk : backward_checks dY X (mean (snd fwd)) (rstd (snd fwd)) gamma
                    N C HxW G = true).
  { unfold forward_checks in Hchk. rewrite !andb_true_iff in Hchk.
    destruct Hchk as [[HX Hg] _].
    unfold backward_checks, numel in *. rewrite HdY, Hl2, Hl3, HX, Hg.
    now rewrite !Nat.eqb_refl. }
  split; [exact Hs|].
  unfold bwd, GroupNormBackwardKernelImpl. rewrite backward_run by assumption.
  split; [reflexivity|].
  intros n g Hn Hg. cbn [snd]. unfold backward_result. cbn [dX]. rewrite Hdef.
  cbn [data].
  assert (Hi : (n * G + g < N * G)%nat) by nia.
  destruct (div_mod_block G n g Hg) as [Hq Hmod].
  destruct (forward_loads E1 HE1 K Contiguous X gamma beta N C HxW G eps out
              HG Hdiv Hchk Hout) as [Hmr _]; [discriminate|].
  cbv zeta in Hmr. fold fwd in Hmr.
  destruct (Hmr _ Hi) as [Hmean _].
  change (@castT R R_arith eps) with eps in Hmean.
  destruct (unit_moments_R E1 K Contiguous (data X) N C HxW G eps n g
              HE1 HK HG Hdiv Hn Hg) as [Hmu _]; [discriminate|].
  cbv zeta in Hmu. fold D in Hmu. rewrite Hmu in Hmean.
  change (@castPT R R_arith) with (fun x : R => x) in Hmean. cbv beta in Hmean.
  assert (Hidx : forall j m, ((n * C + (g * D + j)) * HxW + m
                            = ((n * G + g) * D + j) * HxW + m)%nat)
    by (intros; rewrite HC; ring).
  unfold unit_sum, layout_index.
  rewrite (Rsum_ext _ (fun j => Rsum (fun m =>
             load (GroupNormInputBackward E2 K N C HxW G (data dY) (data X)
                     (data (mean (snd fwd))) (data (rstd (snd fwd)))
                     (data_ptr_or_null gamma)
                     (internal_ds E2 K N C HxW (data dY) (data X))
                     (internal_db E2 K N C HxW (data dY) (data X)) (data (dX grads)))
                  (((n * G + g) * D + j) * HxW + m)) HxW) D).
  2:{ intros j _. apply Rsum_ext. intros m _. now rewrite Hidx. }
  apply (dX_unit_sum E2 HE2 K (data dY) (data X) _ _ _ N C HxW G D); auto.
  rewrite Hmean. unfold unit_sum, layout_index. f_equal.
  apply Rsum_ext. intros j _. apply Rsum_ext. intros m _. now rewrite Hidx.
Qed.

(** Two channels at two positions in one group. *)
Lemma input_gradient_of_a_group_sums_to_zero_witness :
  let X := tensor [1; 2; 3; 4] in
  let fwd := GroupNormKernelImpl sequential 4 Contiguous X undefined undefined
               1 2 2 1 1 (mkOutputs (tensor [0; 0; 0; 0]) (tensor [0]) (tensor [0])) in
  let bwd := GroupNormBackwardKernelImpl (round_robin 2) 4 (tensor [1; 0; 2; 5]) X
               (mean (snd fwd)) (rstd (snd fwd)) undefined 1 2 2 1
               (mkGradients (tensor [0; 0; 0; 0]) undefined undefined) in
  unit_sum Contiguous (data (dX (snd bwd))) 2 2 2 0 0 (fun x => x) = 0.
Proof.
  cbv zeta.
  exact (proj2 (proj2 (input_gradient_of_a_group_sums_to_zero sequential (round_robin 2) 4
                         (tensor [1; 2; 3; 4]) undefined undefined (tensor [1; 0; 2; 5])
                         1 2 2 1 1
                         (mkOutputs (tensor [0; 0; 0; 0]) (tensor [0]) (tensor [0]))
                         (mkGradients (tensor [0; 0; 0; 0]) undefined undefined)
                         sequential_ok (round_robin_ok 2 (le_S 1 1 (le_n 1)))
                         (le_S 1 3 (le_S 1 2 (le_S 1 1 (le_n 1)))) (le_n 1) eq_refl
                         eq_refl eq_refl eq_refl eq_refl eq_refl))
               0%nat 0%nat (le_n 1) (le_n 1)).
Defined.

Open Scope nat_scope.

(* ================================================================= *)
(** * The BFloat16 specialisations *)

(** Modelled from the spec: [convert_bfloat16_float], [convert_float_bfloat16],
    [fVec::set] and the partial [store] are not under src/.  Section 4.1 says
    that a reduced-precision register packs twice the lanes of an
    accumulation register and is decoded into two of them, and that the
    inactive lanes of a remainder are masked to zero; section 4.2 that the
    result is re-encoded to reduced precision on store, with masked partial
    stores for remainders.  A reduced-precision register is the list of its
    [2 * L] lanes, [L = fVec::size()].  Decoding splits it into its lanes
    [0 .. L-1] and [L .. 2L-1], the order in which the source pairs the two
    halves with [scale_ptr + d] and [scale_ptr + d + fVec::size()]; it is
    exact, and encoding rounds to the storage type.  [fVec::set(a, b, count)]
    is the mask: the first [count] lanes of [b], then those of [a]. *)
Section BFloat16Vec.
Context {F : Type} {A : Arith F}.
(** [fVec::size()]; [bVec::size()] is [2 * L]. *)
Variable L : nat.

(** [convert_bfloat16_float(v)] *)
Definition convert_bfloat16_float (v : Vec (F := F)) : Vec (F := F) * Vec (F := F) :=
  (firstn L v, skipn L v).

(** [convert_float_bfloat16(a, b)] *)
Definition convert_float_bfloat16 (a b : Vec (F := F)) : Vec (F := F) :=
  map castT (a ++ b).

(** [fVec::set(a, b, count)] *)
Definition vset (a b : Vec (F := F)) (count : nat) : Vec (F := F) :=
  map (fun l => if l <? count then nth l b fzero else nth l a fzero) (seq 0 L).

(** [v.store(p + off, count)]; [v.store(p + off)] stores every lane. *)
Definition vstore (v : Vec (F := F)) (p : list F) (off count : nat) : list F :=
  irange 0 count (fun l p => store p (off + l) (nth l v fzero)) p.
End BFloat16Vec.

Section BFloat16Kernels.
Context {F : Type} {A : Arith F}.
(** [fVec::size()]; [bVec::size()] is [2 * L]. *)
Variable L : nat.

(** [ColumnwiseMoments<BFloat16>] (lines 119-158). *)
Definition ColumnwiseMoments_BFloat16 (X_data : list F) (off HxW C D : nat) : F * F :=
  let K := 2 * L in
  let inner_size := D / K * K in
  let zero := vbroadcast L fzero in
  let acc :=
    irange 0 HxW (fun m acc =>
      let X_ptr := off + m * C in
      let acc :=
        for_step inner_size K (fun d acc =>
          let x_bvec := loadu K X_data (X_ptr + d) in
          let '(x_fvec0, x_fvec1) := convert_bfloat16_float L x_bvec in
          (vadd (fst acc) (vadd x_fvec0 x_fvec1),
           vadd (snd acc) (vadd (vmul x_fvec0 x_fvec0) (vmul x_fvec1 x_fvec1)))) acc in
      let d := inner_size in
      if 0 <? D - d then
        let x_bvec := loadu_n K X_data (X_ptr + d) (D - d) in
        let '(x_fvec0, x_fvec1) := convert_bfloat16_float L x_bvec in
        if L <? D - d then
          let x_fvec1 := vset L zero x_fvec1 (D - d - L) in
          (vadd (fst acc) (vadd x_fvec0 x_fvec1),
           vadd (snd acc) (vadd (vmul x_fvec0 x_fvec0) (vmul x_fvec1 x_fvec1)))
        else
          let x_fvec0 := vset L zero x_fvec0 (D - d) in
          (vadd (fst acc) x_fvec0, vadd (snd acc) (vmul x_fvec0 x_fvec0))
      else acc)
    (vbroadcast L fzero, vbroadcast L fzero) in
  (vec_reduce_all (fst acc), vec_reduce_all (snd acc)).

(** [CalcMeanVar<BFloat16, float>] (lines 181-224). *)
Definition CalcMeanVar_BFloat16 (X_data : list F) (X_ptr : nat) (buffer : list F)
    (mean_ptr rstd_ptr C : nat) : list F :=
  let K := 2 * L in
  let buffer :=
    for_step (C - C mod K) K (fun d buffer =>
      let data_bvec := loadu K X_data (X_ptr + d) in
      let mean_fvec0 := loadu L buffer (mean_ptr + d) in
      let mean_fvec1 := loadu L buffer (mean_ptr + d + L) in
      let rstd_fvec0 := loadu L buffer (rstd_ptr + d) in
      let rstd_fvec1 := loadu L buffer (rstd_ptr + d + L) in
      let '(data_fvec0, data_fvec1) := convert_bfloat16_float L data_bvec in
      let mean_fvec0 := vadd data_fvec0 mean_fvec0 in
      let mean_fvec1 := vadd data_fvec1 mean_fvec1 in
      let rstd_fvec0 := vadd (vmul data_fvec0 data_fvec0) rstd_fvec0 in
      let rstd_fvec1 := vadd (vmul data_fvec1 data_fvec1) rstd_fvec1 in
      let buffer := vstore mean_fvec0 buffer (mean_ptr + d) L in
      let buffer := vstore mean_fvec1 buffer (mean_ptr + d + L) L in
      let buffer := vstore rstd_fvec0 buffer (rstd_ptr + d) L in
      vstore rstd_fvec1 buffer (rstd_ptr + d + L) L) buffer in
  let d := C - C mod K in
  if 0 <? C - d then
    let n0 := if L <? C - d then L else C - d in
    let n1 := if L <? C - d then C - d - L else 0 in
    let data_bvec := loadu_n K X_data (X_ptr + d) (C - d) in
    let mean_fvec0 := loadu_n L buffer (mean_ptr + d) n0 in
    let mean_fvec1 := loadu_n L buffer (mean_ptr + d + L) n1 in
    let rstd_fvec0 := loadu_n L buffer (rstd_ptr + d) n0 in
    let rstd_fvec1 := loadu_n L buffer (rstd_ptr + d + L) n1 in
    let '(data_fvec0, data_fvec1) := convert_bfloat16_float L data_bvec in
    let mean_fvec0 := vadd data_fvec0 mean_fvec0 in
    let mean_fvec1 := vadd data_fvec1 mean_fvec1 in
    let rstd_fvec0 := vadd (vmul data_fvec0 data_fvec0) rstd_fvec0 in
    let rstd_fvec1 := vadd (vmul data_fvec1 data_fvec1) rstd_fvec1 in
    let buffer := vstore mean_fvec0 buffer (mean_ptr + d) n0 in
    let buffer := vstore mean_fvec1 buffer (mean_ptr + d + L) n1 in
    let buffer := vstore rstd_fvec0 buffer (rstd_ptr + d) n0 in
    vstore rstd_fvec1 buffer (rstd_ptr + d + L) n1
  else buffer.

(** [ApplyScaleBias<BFloat16, float>] (lines 243-277). *)
Definition ApplyScaleBias_BFloat16 (Y_data : list F) (Y_ptr : nat) (X_data : list F)
    (X_ptr : nat) (buffer : list F) (scale_ptr bias_ptr C : nat) : list F :=
  let K := 2 * L in
  let Y_data :=
    for_step (C - C mod K) K (fun d Y_data =>
      let data_bvec := loadu K X_data (X_ptr + d) in
      let scale_fvec0 := loadu L buffer (scale_ptr + d) in
      let scale_fvec1 := loadu L buffer (scale_ptr + d + L) in
      let bias_fvec0 := loadu L buffer (bias_ptr + d) in
      let bias_fvec1 := loadu L buffer (bias_ptr + d + L) in
      let '(data_fvec0, data_fvec1) := convert_bfloat16_float L data_bvec in
      let out0 := vadd (vmul data_fvec0 scale_fvec0) bias_fvec0 in
      let out1 := vadd (vmul data_fvec1 scale_fvec1) bias_fvec1 in
      vstore (convert_float_bfloat16 out0 out1) Y_data (Y_ptr + d) K) Y_data in
  let d := C - C mod K in
  if 0 <? C - d then
    let n0 := if L <? C - d then L else C - d in
    let n1 := if L <? C - d then C - d - L else 0 in
    let data_bvec := loadu_n K X_data (X_ptr + d) (C - d) in
    let scale_fvec0 := loadu_n L buffer (scale_ptr + d) n0 in
    let scale_fvec1 := loadu_n L buffer (scale_ptr + d + L) n1 in
    let bias_fvec0 := loadu_n L buffer (bias_ptr + d) n0 in
    let bias_fvec1 := loadu_n L buffer (bias_ptr + d + L) n1 in
    let '(data_fvec0, data_fvec1) := convert_bfloat16_float L data_bvec in
    let out0 := vadd (vmul data_fvec0 scale_fvec0) bias_fvec0 in
    let out1 := vadd (vmul data_fvec1 scale_fvec1) bias_fvec1 in
    vstore (convert_float_bfloat16 out0 out1) Y_data (Y_ptr + d) (C - d)
  else Y_data.

(** The pair [(ds_val, db_val)] that iteration [i] of the loop of
    [ComputeInternalGradients<BFloat16, float>] computes (lines 587-608). *)
Definition InternalGradientsAt_BFloat16 (HxW : nat) (dY X : list F) (i : nat) : F * F :=
  let K := 2 * L in
  let inner_size := HxW / K * K in
  let dY_ptr := i * HxW in
  let X_ptr := i * HxW in
  let '(ds_vec, db_vec) :=
    for_step inner_size K (fun j acc =>
      let dy_bvec := loadu K dY (dY_ptr + j) in
      let x_bvec := loadu K X (X_ptr + j) in
      let '(x_fvec0, x_fvec1) := convert_bfloat16_float L x_bvec in
      let '(dy_fvec0, dy_fvec1) := convert_bfloat16_float L dy_bvec in
      let ds_vec := vadd (fst acc) (vmul dy_fvec0 x_fvec0) in
      let ds_vec := vadd ds_vec (vmul dy_fvec1 x_fvec1) in
      let db_vec := vadd (vadd (snd acc) dy_fvec0) dy_fvec1 in
      (ds_vec, db_vec))
      (vbroadcast L fzero, vbroadcast L fzero) in
  let ds_val := accumulate ds_vec in
  let db_val := accumulate db_vec in
  irange inner_size HxW (fun j acc =>
    (fst acc +^ load dY (dY_ptr + j) *^ load X (X_ptr + j),
     snd acc +^ load dY (dY_ptr + j))) (ds_val, db_val).

Definition InternalGradientsBody_BFloat16 (HxW : nat) (dY X : list F) (i : nat)
    (st : list F * list F) : list F * list F :=
  let '(ds_val, db_val) := InternalGradientsAt_BFloat16 HxW dY X i in
  (store (fst st) i ds_val, store (snd st) i db_val).

(** [ComputeInternalGradients<BFloat16, float>] (lines 568-613). *)
Definition ComputeInternalGradients_BFloat16 (E : Executor) (N C HxW : nat)
    (dY X : list F) (ds db : list F) : list F * list F :=
  parallel_for E 0 (N * C) 1
    (fun _ start end_ => irange start end_ (InternalGradientsBody_BFloat16 HxW dY X))
    (ds, db).
End BFloat16Kernels.

(** ** Registers, lane by lane *)

Section Lanes.
Context {F : Type} {A : Arith F}.

Lemma vmap2_map_seq (h : F -> F -> F) (f g : nat -> F) (l : list nat) :
  vmap2 h (map f l) (map g l) = map (fun i => h (f i) (g i)) l.
Proof. induction l as [|a l IH]; simpl; [|rewrite IH]; reflexivity. Qed.

Lemma loadu_full K (p : list F) off : loadu K p off = loadu_n K p off K.
Proof.
  unfold loadu, loadu_n. apply map_ext_in. intros l Hl. apply in_seq in Hl.
  destruct (Nat.ltb_spec l K); [reflexivity|lia].
Qed.

Lemma map_seq_shift (f : nat -> F) a n :
  map f (seq a n) = map (fun l => f (a + l)) (seq 0 n).
Proof.
  revert f a; induction n as [|n IH]; intros f a; [reflexivity|].
  simpl. rewrite Nat.add_0_r. f_equal.
  rewrite (IH f (Datatypes.S a)), (IH (fun l => f (a + l)) 1). apply map_ext. intros l.
  f_equal. lia.
Qed.

(** Decoding a register of [2 * L] lanes gives its two halves. *)
Lemma convert_bfloat16_float_lanes L (f : nat -> F) :
  convert_bfloat16_float L (map f (seq 0 (2 * L)))
  = (map f (seq 0 L), map (fun l => f (L + l)) (seq 0 L)).
Proof.
  unfold convert_bfloat16_float.
  replace (2 * L) with (L + L) by lia.
  rewrite seq_app, map_app. simpl.
  assert (Hlen : length (map f (seq 0 L)) = L) by now rewrite length_map, length_seq.
  f_equal.
  - rewrite firstn_app, Hlen, Nat.sub_diag. simpl. rewrite app_nil_r.
    rewrite <- Hlen at 1. apply firstn_all.
  - rewrite skipn_app, Hlen, Nat.sub_diag. simpl.
    rewrite <- Hlen at 1. rewrite skipn_all. simpl. apply map_seq_shift.
Qed.

Lemma nth_map_seq (f : nat -> F) n l : l < n -> nth l (map f (seq 0 n)) fzero = f l.
Proof.
  intros Hl. rewrite (nth_indep _ fzero (f 0)) by now rewrite length_map, length_seq.
  rewrite (map_nth f (seq 0 n) 0 l). now rewrite seq_nth.
Qed.

(** The lanes of an encoded pair of registers. *)
Lemma convert_float_bfloat16_lanes L (g0 g1 : nat -> F) l :
  l < 2 * L ->
  nth l (convert_float_bfloat16 (map g0 (seq 0 L)) (map g1 (seq 0 L))) fzero
  = castT (if l <? L then g0 l else g1 (l - L)).
Proof.
  intros Hl. unfold convert_float_bfloat16.
  rewrite (nth_indep _ fzero (castT fzero))
    by (rewrite length_map, length_app, !length_map, !length_seq; lia).
  rewrite map_nth. f_equal.
  destruct (Nat.ltb_spec l L).
  - rewrite app_nth1 by now rewrite length_map, length_seq.
    now apply nth_map_seq.
  - rewrite app_nth2 by (rewrite length_map, length_seq; lia).
    rewrite length_map, length_seq. apply nth_map_seq. lia.
Qed.
End Lanes.

(** ** Blocked loops *)

Section BlockedLoops.
Context {S : Type}.

(** A loop over blocks of [K] consecutive indices is the loop over the
    indices. *)
Lemma for_step_blocks (K Q : nat) (body : nat -> S -> S) (s : S) :
  0 < K ->
  for_step (Q * K) K (fun d s => irange 0 K (fun l s => body (d + l) s) s) s
  = irange 0 (Q * K) body s.
Proof.
  intros HK. unfold for_step, irange. rewrite !Nat.sub_0_r.
  replace ((Q * K + K - 1) / K) with Q
    by (apply (Nat.div_unique _ K Q (K - 1)); lia).
  induction Q as [|Q IH]; [reflexivity|].
  rewrite for_range_snoc, IH.
  replace (Datatypes.S Q * K) with (Q * K + K) by lia.
  rewrite for_range_app. simpl.
  now rewrite (for_range_shift (Q * K) 0 K body), Nat.add_0_r.
Qed.

(** The blocks of [K] below [C], then the remainder. *)
Lemma blocks_then_tail (K C : nat) (body : nat -> S -> S) (s : S) :
  0 < K ->
  let d := C - C mod K in
  irange 0 (C - d) (fun l s => body (d + l) s)
    (for_step d K (fun d s => irange 0 K (fun l s => body (d + l) s) s) s)
  = irange 0 C body s.
Proof.
  intros HK d.
  assert (Hd : d = C / K * K).
  { unfold d. pose proof (Nat.div_mod_eq C K). lia. }
  assert (Hle : d <= C).
  { unfold d. lia. }
  rewrite Hd at 2. rewrite for_step_blocks by assumption. rewrite <- Hd.
  unfold irange. rewrite !Nat.sub_0_r.
  transitivity (for_range 0 (d + (C - d)) body s); [|f_equal; lia].
  rewrite for_range_app. simpl.
  now rewrite (for_range_shift d 0 (C - d) body), Nat.add_0_r.
Qed.
End BlockedLoops.

(** ** [ApplyScaleBias<BFloat16, float>] *)

Section ApplyScaleBiasBFloat16.
Context {F : Type} {A : Arith F}.
Variable L : nat.
Hypothesis L_pos : 0 < L.

Lemma ApplyScaleBias_BFloat16_generic (Y_data : list F) Y_ptr (X_data : list F) X_ptr
    (buffer : list F) scale_ptr bias_ptr C :
  ApplyScaleBias_BFloat16 L Y_data Y_ptr X_data X_ptr buffer scale_ptr bias_ptr C
  = ApplyScaleBias Y_data Y_ptr X_data X_ptr buffer scale_ptr bias_ptr C.
Proof.
  unfold ApplyScaleBias_BFloat16, ApplyScaleBias. cbv zeta.
  set (body := fun d (Y_data : list F) =>
         store Y_data (Y_ptr + d)
           (castT (load X_data (X_ptr + d) *^ load buffer (scale_ptr + d)
                   +^ load buffer (bias_ptr + d)))).
  set (K := 2 * L).
  set (d0 := C - C mod K).
  assert (HK : 0 < K) by (unfold K; lia).
  assert (Hd0 : d0 <= C /\ C - d0 < K).
  { unfold d0. pose proof (Nat.mod_upper_bound C K ltac:(lia)).
    pose proof (Nat.Div0.mod_le C K). lia. }
  rewrite <- (blocks_then_tail K C body Y_data HK). cbv zeta. fold d0.
  match goal with
  | |- context [for_step d0 K ?B Y_data] =>
      assert (Hloop : for_step d0 K B Y_data
                      = for_step d0 K (fun d s => irange 0 K (fun l s => body (d + l) s) s)
                                 Y_data)
  end.
  { unfold for_step. apply for_range_ext. intros q s _.
    unfold loadu at 1. unfold K at 1.
    rewrite convert_bfloat16_float_lanes.
    unfold loadu, vadd, vmul. rewrite !vmap2_map_seq.
    unfold vstore. apply irange_ext. intros l s' Hl.
    unfold body. rewrite Nat.add_assoc. f_equal.
    rewrite convert_float_bfloat16_lanes by (fold K; lia).
    f_equal. destruct (Nat.ltb_spec l L).
    - now rewrite !Nat.add_assoc.
    - replace (L + (l - L)) with l by lia.
      replace (scale_ptr + q * K + L + (l - L)) with (scale_ptr + (q * K + l)) by lia.
      replace (bias_ptr + q * K + L + (l - L)) with (bias_ptr + (q * K + l)) by lia.
      now rewrite !Nat.add_assoc. }
  rewrite Hloop. clear Hloop.
  set (Yb := for_step d0 K (fun d s => irange 0 K (fun l s => body (d + l) s) s) Y_data).
  destruct (Nat.ltb_spec 0 (C - d0)) as [Hpos|Hzero].
  - unfold loadu_n at 1. unfold K at 1.
    rewrite convert_bfloat16_float_lanes.
    unfold loadu_n, vadd, vmul. rewrite !vmap2_map_seq.
    unfold vstore. apply irange_ext. intros l s' Hl.
    unfold body. rewrite Nat.add_assoc. f_equal.
    rewrite convert_float_bfloat16_lanes by (fold K; lia).
    f_equal. destruct (Nat.ltb_spec l L).
    + destruct (Nat.ltb_spec L (C - d0)); cmp_cases; now rewrite !Nat.add_assoc.
    + replace (L + (l - L)) with l by lia.
      replace (scale_ptr + d0 + L + (l - L)) with (scale_ptr + (d0 + l)) by lia.
      replace (bias_ptr + d0 + L + (l - L)) with (bias_ptr + (d0 + l)) by lia.
      destruct (Nat.ltb_spec L (C - d0)); cmp_cases; now rewrite !Nat.add_assoc.
  - replace (C - d0) with 0 by lia. reflexivity.
Qed.
End ApplyScaleBiasBFloat16.

(** ** [CalcMeanVar<BFloat16, float>] *)

Section CalcMeanVarBFloat16.
Context {F : Type} {A : Arith F}.
Variable L : nat.
Hypothesis L_pos : 0 < L.
Variable X_data : list F.
Variables X_ptr mean_ptr C : nat.

(** What the lanes [lo .. hi-1] of the two rows do to the buffer. *)
Definition mean_var_update (lo hi k : nat) (x : F) : F :=
  if in_block (mean_ptr + lo) (hi - lo) k
  then load X_data (X_ptr + (k - mean_ptr)) +^ x
  else if in_block (mean_ptr + C + lo) (hi - lo) k
       then load X_data (X_ptr + (k - (mean_ptr + C)))
            *^ load X_data (X_ptr + (k - (mean_ptr + C))) +^ x
       else x.

Lemma mean_var_update_comp lo mid hi k x :
  lo <= mid -> mid <= hi -> hi <= C ->
  mean_var_update mid hi k (mean_var_update lo mid k x) = mean_var_update lo hi k x.
Proof.
  intros H1 H2 H3. unfold mean_var_update, in_block.
  cmp_cases.
Qed.

Lemma vstore_fill (g : nat -> F) (p : list F) off n :
  n <= L ->
  vstore (map g (seq 0 L)) p off n = irange 0 n (fun j s => store s (off + j) (g j)) p.
Proof.
  intros Hn. unfold vstore. apply irange_ext. intros l s Hl.
  f_equal. apply nth_map_seq. lia.
Qed.

(** One block of [cnt <= 2 * L] lanes from lane [d], with partial loads and
    stores. *)
Definition mean_var_block (d cnt : nat) (buffer : list F) : list F :=
  let n0 := if L <? cnt then L else cnt in
  let n1 := if L <? cnt then cnt - L else 0 in
  let data_bvec := loadu_n (2 * L) X_data (X_ptr + d) cnt in
  let mean_fvec0 := loadu_n L buffer (mean_ptr + d) n0 in
  let mean_fvec1 := loadu_n L buffer (mean_ptr + d + L) n1 in
  let rstd_fvec0 := loadu_n L buffer (mean_ptr + C + d) n0 in
  let rstd_fvec1 := loadu_n L buffer (mean_ptr + C + d + L) n1 in
  let '(data_fvec0, data_fvec1) := convert_bfloat16_float L data_bvec in
  let mean_fvec0 := vadd data_fvec0 mean_fvec0 in
  let mean_fvec1 := vadd data_fvec1 mean_fvec1 in
  let rstd_fvec0 := vadd (vmul data_fvec0 data_fvec0) rstd_fvec0 in
  let rstd_fvec1 := vadd (vmul data_fvec1 data_fvec1) rstd_fvec1 in
  let buffer := vstore mean_fvec0 buffer (mean_ptr + d) n0 in
  let buffer := vstore mean_fvec1 buffer (mean_ptr + d + L) n1 in
  let buffer := vstore rstd_fvec0 buffer (mean_ptr + C + d) n0 in
  vstore rstd_fvec1 buffer (mean_ptr + C + d + L) n1.

Ltac lane_eq :=
  repeat match goal with
         | |- load ?p _ = load ?p _ => f_equal; lia
         | |- _ +^ _ = _ +^ _ => f_equal
         | |- _ *^ _ = _ *^ _ => f_equal
         end.

Lemma mean_var_block_pointwise d cnt :
  cnt <= 2 * L -> d + cnt <= C ->
  pointwise (mean_var_block d cnt) (mean_var_update d (d + cnt)).
Proof.
  intros Hcnt HdC s.
  unfold mean_var_block. cbv zeta.
  set (n0 := if L <? cnt then L else cnt).
  set (n1 := if L <? cnt then cnt - L else 0).
  assert (Hn : n0 <= L /\ n1 <= L /\ n0 + n1 = cnt /\ (0 < n1 -> n0 = L)).
  { unfold n0, n1. destruct (Nat.ltb_spec L cnt); lia. }
  destruct Hn as [Hn0 [Hn1 [Hsum Hfull]]].
  unfold loadu_n. rewrite convert_bfloat16_float_lanes.
  unfold vadd, vmul. rewrite !vmap2_map_seq.
  rewrite !vstore_fill by assumption.
  match goal with
  | |- context [irange 0 n1 (fun j4 s4 => store s4 (mean_ptr + C + d + L + j4) (@?r1 j4))
                  (irange 0 n0 (fun j3 s3 => store s3 (mean_ptr + C + d + j3) (@?r0 j3))
                     (irange 0 n1 (fun j2 s2 => store s2 (mean_ptr + d + L + j2) (@?m1 j2))
                        (irange 0 n0 (fun j1 s1 => store s1 (mean_ptr + d + j1) (@?m0 j1))
                           s)))] =>
      destruct (pointwise_comp _ _ _ _
                  (pointwise_comp _ _ _ _
                     (pointwise_comp _ _ _ _
                        (pointwise_fill (mean_ptr + d) n0 m0)
                        (pointwise_fill (mean_ptr + d + L) n1 m1))
                     (pointwise_fill (mean_ptr + C + d) n0 r0))
                  (pointwise_fill (mean_ptr + C + d + L) n1 r1) s) as [Hlen Hload]
  end.
  cbv beta in Hlen, Hload.
  split; [exact Hlen|].
  intros k Hk. rewrite (Hload k Hk). clear Hlen Hload.
  unfold mean_var_update.
  replace (d + cnt - d) with cnt by lia.
  destruct (in_block (mean_ptr + C + d + L) n1 k) eqn:E4.
  { apply in_block_true in E4.
    replace (in_block (mean_ptr + d) cnt k) with false
      by (symmetry; apply in_block_false; lia).
    replace (in_block (mean_ptr + C + d) cnt k) with true
      by (symmetry; apply in_block_true; lia).
    cmp_cases; lane_eq. }
  destruct (in_block (mean_ptr + C + d) n0 k) eqn:E3.
  { apply in_block_true in E3.
    replace (in_block (mean_ptr + d) cnt k) with false
      by (symmetry; apply in_block_false; lia).
    replace (in_block (mean_ptr + C + d) cnt k) with true
      by (symmetry; apply in_block_true; lia).
    cmp_cases; lane_eq. }
  destruct (in_block (mean_ptr + d + L) n1 k) eqn:E2.
  { apply in_block_true in E2.
    replace (in_block (mean_ptr + d) cnt k) with true
      by (symmetry; apply in_block_true; lia).
    cmp_cases; lane_eq. }
  destruct (in_block (mean_ptr + d) n0 k) eqn:E1.
  { apply in_block_true in E1.
    replace (in_block (mean_ptr + d) cnt k) with true
      by (symmetry; apply in_block_true; lia).
    cmp_cases; lane_eq. }
  apply in_block_false in E1, E2, E3, E4.
  replace (in_block (mean_ptr + d) cnt k) with false
    by (symmetry; apply in_block_false; lia).
  replace (in_block (mean_ptr + C + d) cnt k) with false
    by (symmetry; apply in_block_false; lia).
  reflexivity.
Qed.

Lemma mean_var_blocks_pointwise Q :
  Q * (2 * L) <= C ->
  pointwise (for_range 0 Q (fun q => mean_var_block (q * (2 * L)) (2 * L)))
            (mean_var_update 0 (Q * (2 * L))).
Proof.
  induction Q as [|Q IH]; intros HQ.
  - eapply pointwise_ext; [apply pointwise_id|].
    intros k x. unfold mean_var_update, in_block. cmp_cases.
  - eapply pointwise_fun_ext;
      [|intros s; apply (for_range_snoc 0 Q
                           (fun q => mean_var_block (q * (2 * L)) (2 * L)) s)].
    eapply pointwise_ext.
    + assert (Hblock : pointwise (mean_var_block ((0 + Q) * (2 * L)) (2 * L))
                         (mean_var_update ((0 + Q) * (2 * L)) ((0 + Q) * (2 * L) + 2 * L)))
        by (apply mean_var_block_pointwise; lia).
      apply (pointwise_comp _ _ _ _ (IH ltac:(lia)) Hblock).
    + intros k x. cbv beta.
      replace ((0 + Q) * (2 * L) + 2 * L) with (Datatypes.S Q * (2 * L)) by lia.
      apply mean_var_update_comp; lia.
Qed.

Lemma CalcMeanVar_BFloat16_pointwise :
  pointwise
    (fun buffer => CalcMeanVar_BFloat16 L X_data X_ptr buffer mean_ptr (mean_ptr + C) C)
    (mean_var_update 0 C).
Proof.
  set (K := 2 * L).
  set (d0 := C - C mod K).
  assert (HK : 0 < K) by (unfold K; lia).
  assert (Hd0 : d0 = C / K * K).
  { unfold d0. pose proof (Nat.div_mod_eq C K). lia. }
  assert (Hle : d0 <= C /\ C - d0 < K).
  { unfold d0. pose proof (Nat.mod_upper_bound C K ltac:(lia)).
    pose proof (Nat.Div0.mod_le C K). lia. }
  assert (Hloop : forall buffer,
            for_step d0 K (fun d buffer => mean_var_block d K buffer) buffer
            = for_range 0 (C / K) (fun q => mean_var_block (q * K) K) buffer).
  { intros buffer. unfold for_step. rewrite Hd0, step_count. reflexivity. }
  assert (Hblocks : pointwise (for_step d0 K (fun d buffer => mean_var_block d K buffer))
                              (mean_var_update 0 d0)).
  { eapply pointwise_fun_ext; [|exact Hloop].
    rewrite Hd0. apply mean_var_blocks_pointwise. fold K. lia. }
  assert (Hfull : forall d buffer,
            (let data_bvec := loadu K X_data (X_ptr + d) in
             let mean_fvec0 := loadu L buffer (mean_ptr + d) in
             let mean_fvec1 := loadu L buffer (mean_ptr + d + L) in
             let rstd_fvec0 := loadu L buffer (mean_ptr + C + d) in
             let rstd_fvec1 := loadu L buffer (mean_ptr + C + d + L) in
             let '(data_fvec0, data_fvec1) := convert_bfloat16_float L data_bvec in
             let mean_fvec0 := vadd data_fvec0 mean_fvec0 in
             let mean_fvec1 := vadd data_fvec1 mean_fvec1 in
             let rstd_fvec0 := vadd (vmul data_fvec0 data_fvec0) rstd_fvec0 in
             let rstd_fvec1 := vadd (vmul data_fvec1 data_fvec1) rstd_fvec1 in
             let buffer := vstore mean_fvec0 buffer (mean_ptr + d) L in
             let buffer := vstore mean_fvec1 buffer (mean_ptr + d + L) L in
             let buffer := vstore rstd_fvec0 buffer (mean_ptr + C + d) L in
             vstore rstd_fvec1 buffer (mean_ptr + C + d + L) L)
            = mean_var_block d K buffer).
  { intros d buffer. unfold mean_var_block. fold K.
    replace (L <? K) with true by (symmetry; apply Nat.ltb_lt; unfold K; lia).
    replace (K - L) with L by (unfold K; lia).
    now rewrite !loadu_full. }
  assert (Htail : pointwise
                    (fun b => if 0 <? C - d0 then mean_var_block d0 (C - d0) b else b)
                    (fun k x => if 0 <? C - d0 then mean_var_update d0 C k x else x)).
  { destruct (Nat.ltb_spec 0 (C - d0)).
    - eapply pointwise_ext;
        [apply (@mean_var_block_pointwise d0 (C - d0)); fold K; lia|].
      intros k x. cbv beta. now replace (d0 + (C - d0)) with C by lia.
    - apply pointwise_id. }
  eapply pointwise_fun_ext with
    (f := fun buffer =>
            (fun b => if 0 <? C - d0 then mean_var_block d0 (C - d0) b else b)
              (for_step d0 K (fun d buffer => mean_var_block d K buffer) buffer)).
  - eapply pointwise_ext.
    + apply (pointwise_comp _ _ _ _ Hblocks Htail).
    + intros k x. cbv beta.
      destruct (Nat.ltb_spec 0 (C - d0)).
      * apply mean_var_update_comp; lia.
      * replace C with d0 by lia. reflexivity.
  - intros buffer. unfold CalcMeanVar_BFloat16. cbv zeta. fold K. fold d0.
    unfold for_step.
    rewrite (for_range_ext 0 ((d0 + K - 1) / K) _
               (fun q => mean_var_block (q * K) K)).
    + reflexivity.
    + intros q s _. apply Hfull.
Qed.

(** The specialisation is the generic kernel. *)
Lemma CalcMeanVar_BFloat16_generic (buffer : list F) :
  CalcMeanVar_BFloat16 L X_data X_ptr buffer mean_ptr (mean_ptr + C) C
  = CalcMeanVar X_data X_ptr buffer mean_ptr (mean_ptr + C) C.
Proof.
  apply (pointwise_unique
           (fun buffer => CalcMeanVar_BFloat16 L X_data X_ptr buffer mean_ptr (mean_ptr + C) C)
           (fun buffer => CalcMeanVar X_data X_ptr buffer mean_ptr (mean_ptr + C) C)
           (mean_var_update 0 C)).
  - apply CalcMeanVar_BFloat16_pointwise.
  - eapply pointwise_ext; [apply CalcMeanVar_pointwise|].
    intros k x. unfold mean_var_update.
    now rewrite !Nat.add_0_r, Nat.sub_0_r.
Qed.
End CalcMeanVarBFloat16.

Open Scope R_scope.

(** ** Exact arithmetic: the BFloat16 reductions *)

Section RealBFloat16.
Variable L : nat.
Hypothesis L_pos : (0 < L)%nat.

Lemma lsum_vadd_lanes (acc : list R) (h : nat -> R) :
  length acc = L ->
  length (vadd acc (map h (seq 0 L))) = L /\
  lsum (vadd acc (map h (seq 0 L))) = lsum acc + Rsum h L.
Proof.
  intros Hl.
  assert (Hm : length acc = length (map h (seq 0 L)))
    by now rewrite length_map, length_seq.
  split.
  - now rewrite vadd_length.
  - rewrite lsum_vadd by assumption. rewrite lsum_map_seq. f_equal.
Qed.

Lemma vadd_map (f g : nat -> R) (l : list nat) :
  vadd (map f l) (map g l) = map (fun i => f i +^ g i) l.
Proof. apply vmap2_map. Qed.

Lemma vmul_map (f g : nat -> R) (l : list nat) :
  vmul (map f l) (map g l) = map (fun i => f i *^ g i) l.
Proof. apply vmap2_map. Qed.

Lemma Rsum_two_halves (f : nat -> R) :
  Rsum f L + Rsum (fun l => f (L + l)%nat) L = Rsum f (2 * L).
Proof.
  replace (2 * L)%nat with (L + L)%nat by lia. now rewrite Rsum_app.
Qed.

(** A loop that adds, at step [q], the [2 * L] terms of block [q] to the
    lanes of two registers. *)
Lemma register_pair_loop (f g : nat -> R) (n : nat)
    (body : nat -> list R * list R -> list R * list R) :
  (forall q a, length (fst a) = L -> length (snd a) = L ->
     length (fst (body q a)) = L /\ length (snd (body q a)) = L /\
     lsum (fst (body q a))
     = lsum (fst a) + Rsum (fun j => f (q * (2 * L) + j)%nat) (2 * L) /\
     lsum (snd (body q a))
     = lsum (snd a) + Rsum (fun j => g (q * (2 * L) + j)%nat) (2 * L)) ->
  forall a, length (fst a) = L -> length (snd a) = L ->
  length (fst (for_range 0 n body a)) = L /\
  length (snd (for_range 0 n body a)) = L /\
  lsum (fst (for_range 0 n body a)) = lsum (fst a) + Rsum f (n * (2 * L)) /\
  lsum (snd (for_range 0 n body a)) = lsum (snd a) + Rsum g (n * (2 * L)).
Proof.
  intros Hbody a Hl0 Hl1. induction n as [|n IH].
  - simpl. repeat split; try assumption; lra.
  - rewrite for_range_snoc. simpl Nat.add.
    destruct IH as [H0 [H1 [H2 H3]]].
    destruct (Hbody n (for_range 0 n body a) H0 H1) as [H0' [H1' [H2' H3']]].
    repeat split; try assumption.
    + rewrite H2', H2.
      replace (Datatypes.S n * (2 * L))%nat with (n * (2 * L) + 2 * L)%nat by lia.
      rewrite Rsum_app. lra.
    + rewrite H3', H3.
      replace (Datatypes.S n * (2 * L))%nat with (n * (2 * L) + 2 * L)%nat by lia.
      rewrite Rsum_app. lra.
Qed.

(** One position [m] of [ColumnwiseMoments<BFloat16>]: the blocks of
    [2 * L] channels and the remainder add the [D] values, and their squares,
    to the lanes of the two registers. *)
Lemma column_step_BFloat16 (X : list R) (p D : nat) (acc : list R * list R) :
  length (fst acc) = L -> length (snd acc) = L ->
  let K := (2 * L)%nat in
  let zero := vbroadcast L (@fzero R R_arith) in
  let acc' :=
    let acc1 :=
      for_step (D / K * K) K (fun d acc =>
        let x_bvec := loadu K X (p + d) in
        let '(x_fvec0, x_fvec1) := convert_bfloat16_float L x_bvec in
        (vadd (fst acc) (vadd x_fvec0 x_fvec1),
         vadd (snd acc) (vadd (vmul x_fvec0 x_fvec0) (vmul x_fvec1 x_fvec1)))) acc in
    if (0 <? D - D / K * K)%nat then
      let x_bvec := loadu_n K X (p + D / K * K) (D - D / K * K) in
      let '(x_fvec0, x_fvec1) := convert_bfloat16_float L x_bvec in
      if (L <? D - D / K * K)%nat then
        let x_fvec1 := vset L zero x_fvec1 (D - D / K * K - L) in
        (vadd (fst acc1) (vadd x_fvec0 x_fvec1),
         vadd (snd acc1) (vadd (vmul x_fvec0 x_fvec0) (vmul x_fvec1 x_fvec1)))
      else
        let x_fvec0 := vset L zero x_fvec0 (D - D / K * K) in
        (vadd (fst acc1) x_fvec0, vadd (snd acc1) (vmul x_fvec0 x_fvec0))
    else acc1 in
  length (fst acc') = L /\ length (snd acc') = L /\
  lsum (fst acc') = lsum (fst acc) + Rsum (fun d => load X (p + d)) D /\
  lsum (snd acc') = lsum (snd acc) + Rsum (fun d => load X (p + d) * load X (p + d)) D.
Proof.
  intros Hl0 Hl1 K zero.
  set (d0 := (D / K * K)%nat).
  assert (HK : (0 < K)%nat) by (unfold K; lia).
  assert (Hd0 : (d0 <= D /\ D - d0 < K)%nat).
  { unfold d0. pose proof (Nat.div_mod_eq D K).
    pose proof (Nat.mod_upper_bound D K ltac:(lia)). lia. }
  cbv zeta.
  match goal with
  | |- context [for_step d0 K ?B acc] => set (acc1 := for_step d0 K B acc)
  end.
  assert (H1 : length (fst acc1) = L /\ length (snd acc1) = L /\
               lsum (fst acc1) = lsum (fst acc) + Rsum (fun d => load X (p + d)) d0 /\
               lsum (snd acc1)
               = lsum (snd acc) + Rsum (fun d => load X (p + d) * load X (p + d)) d0).
  { unfold acc1, for_step, d0. rewrite step_count.
    apply (register_pair_loop (fun d => load X (p + d))
             (fun d => load X (p + d) * load X (p + d))); try assumption.
    intros q a Ha0 Ha1. cbv beta.
    unfold loadu, K. rewrite convert_bfloat16_float_lanes.
    rewrite !vmul_map, !vadd_map.
    match goal with
    | |- context [vadd (fst a) (map ?h0 (seq 0 L))] =>
        destruct (lsum_vadd_lanes (fst a) h0 Ha0) as [E1 E2]
    end.
    match goal with
    | |- context [vadd (snd a) (map ?h1 (seq 0 L))] =>
        destruct (lsum_vadd_lanes (snd a) h1 Ha1) as [E3 E4]
    end.
    cbn [fst snd].
    repeat split; try assumption.
    - etransitivity; [exact E2|]. f_equal. real_ops. rewrite Rsum_plus.
      rewrite <- (Rsum_two_halves (fun j => load X (p + (q * (2 * L) + j)))).
      f_equal; apply Rsum_ext; intros j _; f_equal; lia.
    - etransitivity; [exact E4|]. f_equal. real_ops. rewrite Rsum_plus.
      rewrite <- (Rsum_two_halves
                    (fun j => load X (p + (q * (2 * L) + j))
                              * load X (p + (q * (2 * L) + j)))).
      f_equal; apply Rsum_ext; intros j _; f_equal; f_equal; lia. }
  clearbody acc1. destruct H1 as [A0 [A1 [A2 A3]]].
  assert (Hsplit : forall f : nat -> R,
            Rsum f D = Rsum f d0 + Rsum (fun j => f (d0 + j)%nat) (D - d0)).
  { intros f. rewrite <- Rsum_app. f_equal. lia. }
  destruct (Nat.ltb_spec 0 (D - d0)) as [Hpos|Hzero].
  2:{ repeat split; try assumption.
      - rewrite A2. f_equal. f_equal. lia.
      - rewrite A3. f_equal. f_equal. lia. }
  unfold loadu_n, K. rewrite convert_bfloat16_float_lanes.
  set (cnt := (D - d0)%nat) in *.
  destruct (Nat.ltb_spec L cnt) as [Hbig|Hsmall].
  - unfold vset.
    rewrite (map_ext_in
               (fun l => if (l <? cnt - L)%nat
                         then nth l (map (fun l0 => if (L + l0 <? cnt)%nat
                                                    then load X (p + d0 + (L + l0))
                                                    else fzero) (seq 0 L)) fzero
                         else nth l zero fzero)
               (fun l => if (L + l <? cnt)%nat then load X (p + d0 + (L + l)) else 0)).
    2:{ intros l Hl. apply in_seq in Hl.
        destruct (Nat.ltb_spec l (cnt - L)).
        - rewrite nth_map_seq by lia. reflexivity.
        - destruct (Nat.ltb_spec (L + l) cnt); [lia|].
          unfold zero, vbroadcast. apply nth_repeat. }
    rewrite !vmul_map, !vadd_map.
    match goal with
    | |- context [vadd (fst acc1) (map ?h0 (seq 0 L))] =>
        destruct (lsum_vadd_lanes (fst acc1) h0 A0) as [E1 E2]
    end.
    match goal with
    | |- context [vadd (snd acc1) (map ?h1 (seq 0 L))] =>
        destruct (lsum_vadd_lanes (snd acc1) h1 A1) as [E3 E4]
    end.
    cbn [fst snd].
    repeat split; try assumption.
    + etransitivity; [exact E2|]. rewrite A2, (Hsplit (fun d => load X (p + d))).
      rewrite Rplus_assoc. f_equal. f_equal. real_ops. rewrite Rsum_plus.
      rewrite <- (Rsum_mask (fun j => load X (p + (d0 + j))) cnt (2 * L))
        by (fold K; lia).
      rewrite <- Rsum_two_halves.
      f_equal; apply Rsum_ext; intros j Hj.
      * destruct (Nat.ltb_spec j cnt); [|lia]. f_equal. lia.
      * destruct (Nat.ltb_spec (L + j) cnt); [|reflexivity]. f_equal. lia.
    + etransitivity; [exact E4|]. rewrite A3, (Hsplit (fun d => load X (p + d) * load X (p + d))).
      rewrite Rplus_assoc. f_equal. f_equal. real_ops. rewrite Rsum_plus.
      rewrite <- (Rsum_mask (fun j => load X (p + (d0 + j)) * load X (p + (d0 + j)))
                    cnt (2 * L)) by (fold K; lia).
      rewrite <- Rsum_two_halves.
      f_equal; apply Rsum_ext; intros j Hj.
      * destruct (Nat.ltb_spec j cnt); [|lia]. f_equal; f_equal; lia.
      * destruct (Nat.ltb_spec (L + j) cnt); [|ring]. f_equal; f_equal; lia.
  - unfold vset.
    rewrite (map_ext_in
               (fun l => if (l <? cnt)%nat
                         then nth l (map (fun l0 => if (l0 <? cnt)%nat
                                                    then load X (p + d0 + l0)
                                                    else fzero) (seq 0 L)) fzero
                         else nth l zero fzero)
               (fun l => if (l <? cnt)%nat then load X (p + d0 + l) else 0)).
    2:{ intros l Hl. apply in_seq in Hl.
        destruct (Nat.ltb_spec l cnt).
        - rewrite nth_map_seq by lia. destruct (Nat.ltb_spec l cnt); [reflexivity|lia].
        - unfold zero, vbroadcast. apply nth_repeat. }
    rewrite !vmul_map.
    match goal with
    | |- context [vadd (fst acc1) (map ?h0 (seq 0 L))] =>
        destruct (lsum_vadd_lanes (fst acc1) h0 A0) as [E1 E2]
    end.
    match goal with
    | |- context [vadd (snd acc1) (map ?h1 (seq 0 L))] =>
        destruct (lsum_vadd_lanes (snd acc1) h1 A1) as [E3 E4]
    end.
    cbn [fst snd].
    repeat split; try assumption.
    + etransitivity; [exact E2|]. rewrite A2, (Hsplit (fun d => load X (p + d))).
      rewrite Rplus_assoc. f_equal. f_equal. rewrite Rsum_mask by assumption.
      apply Rsum_ext; intros j _. f_equal. lia.
    + etransitivity; [exact E4|]. rewrite A3, (Hsplit (fun d => load X (p + d) * load X (p + d))).
      rewrite Rplus_assoc. f_equal. f_equal.
      rewrite <- (Rsum_mask (fun j => load X (p + (d0 + j)) * load X (p + (d0 + j)))
                    cnt L) by assumption.
      apply Rsum_ext; intros j _. real_ops.
      destruct (Nat.ltb_spec j cnt); [|ring]. f_equal; f_equal; lia.
Qed.

Lemma ColumnwiseMoments_BFloat16_R (X : list R) off HxW C D :
  ColumnwiseMoments_BFloat16 L X off HxW C D
  = (Rsum (fun m => Rsum (fun d => load X (off + m * C + d)) D) HxW,
     Rsum (fun m => Rsum (fun d => load X (off + m * C + d) * load X (off + m * C + d)) D)
          HxW).
Proof.
  unfold ColumnwiseMoments_BFloat16. cbv zeta.
  match goal with
  | |- (vec_reduce_all (fst ?acc), vec_reduce_all (snd ?acc)) = _ =>
      assert (Hinv :
                (fun m a =>
                   length (fst a) = L /\ length (snd a) = L /\
                   lsum (fst a)
                   = Rsum (fun m => Rsum (fun d => load X (off + m * C + d)) D) m /\
                   lsum (snd a)
                   = Rsum (fun m => Rsum (fun d => load X (off + m * C + d)
                                                   * load X (off + m * C + d)) D) m)
                  HxW acc)
  end.
  { apply irange_inv; [lia| |].
    - repeat split; try apply vbroadcast_length; apply lsum_vbroadcast0.
    - intros m a _ [Hl0 [Hl1 [Hs0 Hs1]]].
      destruct (column_step_BFloat16 X (off + m * C) D a Hl0 Hl1) as [Hl0' [Hl1' [Hs0' Hs1']]].
      cbv zeta in Hl0', Hl1', Hs0', Hs1'.
      repeat split; try assumption.
      + simpl Rsum. rewrite <- Hs0. exact Hs0'.
      + simpl Rsum. rewrite <- Hs1. exact Hs1'. }
  cbv beta in Hinv. destruct Hinv as [_ [_ [Hs0 Hs1]]].
  f_equal; rewrite vec_reduce_all_lsum; [exact Hs0|exact Hs1].
Qed.

(** [ds] and [db] of one (batch, channel) pair, from the BFloat16 loop. *)
Lemma InternalGradientsAt_BFloat16_R HxW (dY X : list R) i :
  InternalGradientsAt_BFloat16 L HxW dY X i
  = (Rsum (fun k => load dY (i * HxW + k) * load X (i * HxW + k)) HxW,
     Rsum (fun k => load dY (i * HxW + k)) HxW).
Proof.
  unfold InternalGradientsAt_BFloat16. cbv zeta.
  set (K := (2 * L)%nat).
  assert (HK : (0 < K)%nat) by (unfold K; lia).
  match goal with
  | |- context [let '(_, _) := ?p in _] => set (v := p)
  end.
  assert (Hv : length (fst v) = L /\ length (snd v) = L /\
               lsum (fst v)
               = Rsum (fun k => load dY (i * HxW + k) * load X (i * HxW + k))
                      (HxW / K * K) /\
               lsum (snd v) = Rsum (fun k => load dY (i * HxW + k)) (HxW / K * K)).
  { unfold v, for_step. rewrite step_count.
    destruct (register_pair_loop
                (fun k => load dY (i * HxW + k) * load X (i * HxW + k))
                (fun k => load dY (i * HxW + k)) (HxW / K)
                (fun q acc =>
                   let dy_bvec := loadu K dY (i * HxW + q * K) in
                   let x_bvec := loadu K X (i * HxW + q * K) in
                   let '(x_fvec0, x_fvec1) := convert_bfloat16_float L x_bvec in
                   let '(dy_fvec0, dy_fvec1) := convert_bfloat16_float L dy_bvec in
                   let ds_vec := vadd (fst acc) (vmul dy_fvec0 x_fvec0) in
                   let ds_vec := vadd ds_vec (vmul dy_fvec1 x_fvec1) in
                   let db_vec := vadd (vadd (snd acc) dy_fvec0) dy_fvec1 in
                   (ds_vec, db_vec)))
      with (a := (vbroadcast L (@fzero R R_arith), vbroadcast L (@fzero R R_arith)))
      as [H0 [H1 [H2 H3]]].
    - intros q a Ha0 Ha1. cbv zeta.
      unfold loadu, K. rewrite !convert_bfloat16_float_lanes.
      rewrite !vmul_map.
      match goal with
      | |- context [vadd (fst a) (map ?h (seq 0 L))] =>
          destruct (lsum_vadd_lanes (fst a) h Ha0) as [E1 E2]
      end.
      match goal with
      | |- context [vadd (snd a) (map ?h (seq 0 L))] =>
          destruct (lsum_vadd_lanes (snd a) h Ha1) as [E3 E4]
      end.
      match goal with
      | |- context [vadd (vadd (fst a) ?u) (map ?h (seq 0 L))] =>
          destruct (lsum_vadd_lanes (vadd (fst a) u) h E1) as [E5 E6]
      end.
      match goal with
      | |- context [vadd (vadd (snd a) ?u) (map ?h (seq 0 L))] =>
          destruct (lsum_vadd_lanes (vadd (snd a) u) h E3) as [E7 E8]
      end.
      cbn [fst snd]. repeat split; try assumption.
      + etransitivity; [exact E6|]. rewrite E2, Rplus_assoc. f_equal. real_ops.
        rewrite <- (Rsum_two_halves
                      (fun j => load dY (i * HxW + (q * (2 * L) + j))
                                * load X (i * HxW + (q * (2 * L) + j)))).
        fold K. f_equal; apply Rsum_ext; intros j _; f_equal; f_equal; lia.
      + etransitivity; [exact E8|]. rewrite E4, Rplus_assoc. f_equal.
        rewrite <- (Rsum_two_halves (fun j => load dY (i * HxW + (q * (2 * L) + j)))).
        fold K. f_equal; apply Rsum_ext; intros j _; f_equal; lia.
    - apply vbroadcast_length.
    - apply vbroadcast_length.
    - simpl fst in *. simpl snd in *. rewrite lsum_vbroadcast0, Rplus_0_l in H2, H3.
      fold K in H2, H3. repeat split; assumption. }
  clearbody v. destruct v as [ds_vec db_vec]. simpl fst in Hv. simpl snd in Hv.
  destruct Hv as [_ [_ [Hds Hdb]]].
  assert (Hle : (HxW / K * K <= HxW)%nat).
  { pose proof (Nat.div_mod_eq HxW K). nia. }
  unfold irange.
  rewrite (for_range_pair_eta _ _
             (fun j y => y +^ load dY (i * HxW + j) * load X (i * HxW + j))
             (fun j y => y +^ load dY (i * HxW + j))).
  simpl fst. simpl snd. rewrite !for_range_Rsum, !accumulate_lsum, Hds, Hdb.
  rewrite (Rsum_split_tail K (fun k => load dY (i * HxW + k) * load X (i * HxW + k)) HxW).
  rewrite (Rsum_split_tail K (fun k => load dY (i * HxW + k)) HxW).
  f_equal; f_equal; apply Rsum_ext; intros j _; now rewrite !Nat.add_assoc.
Qed.
End RealBFloat16.

Open Scope nat_scope.

(** ** The specialisations and the generic kernels *)

Section ParallelForExt.
Context {S : Type}.

Lemma parallel_for_ext (E : Executor) (b e g : nat)
    (f f' : nat -> nat -> nat -> S -> S) (s : S) :
  (forall tid x y s, f tid x y s = f' tid x y s) ->
  parallel_for E b e g f s = parallel_for E b e g f' s.
Proof.
  intros Hf. unfold parallel_for. revert s.
  induction (chunks E b e g) as [|[[tid x] y] l IH]; intros s; [reflexivity|].
  simpl. rewrite Hf. apply IH.
Qed.
End ParallelForExt.

(** X13.  For registers of any width [L > 0] and in every arithmetic, the
    BFloat16 specialisation of [ApplyScaleBias] returns the buffer the
    lane-wise kernel returns: the blocks of [2 * L] lanes and the partial
    loads and store of the remainder write
    [y[d] = x[d] * scale[d] + bias[d]], rounded to the storage type, for
    each [d < C] once, and no other element. *)
Theorem ApplyScaleBias_BFloat16_is_the_lanewise_kernel {F : Type} {A : Arith F} (L : nat)
    (Y_data : list F) (Y_ptr : nat) (X_data : list F) (X_ptr : nat) (buffer : list F)
    (scale_ptr bias_ptr C : nat) :
  0 < L ->
  let Y' := ApplyScaleBias_BFloat16 L Y_data Y_ptr X_data X_ptr buffer scale_ptr bias_ptr C in
  Y' = ApplyScaleBias Y_data Y_ptr X_data X_ptr buffer scale_ptr bias_ptr C /\
  length Y' = length Y_data /\
  forall k, k < length Y_data ->
    load Y' k
    = if in_block Y_ptr C k
      then castT (load X_data (X_ptr + (k - Y_ptr)) *^ load buffer (scale_ptr + (k - Y_ptr))
                  +^ load buffer (bias_ptr + (k - Y_ptr)))
      else load Y_data k.
Proof.
  intros HL Y'.
  assert (HY : Y' = ApplyScaleBias Y_data Y_ptr X_data X_ptr buffer scale_ptr bias_ptr C)
    by now apply ApplyScaleBias_BFloat16_generic.
  split; [exact HY|]. rewrite HY. unfold ApplyScaleBias.
  apply (pointwise_fill Y_ptr C
           (fun d => castT (load X_data (X_ptr + d) *^ load buffer (scale_ptr + d)
                            +^ load buffer (bias_ptr + d)))).
Qed.

(** Five channels in registers of two lanes: one block of four and a
    remainder of one. *)
Lemma ApplyScaleBias_BFloat16_is_the_lanewise_kernel_witness :
  ApplyScaleBias_BFloat16 (A := R_arith) 2 (repeat 0%R 7) 1 [1; 2; 3; 4; 5]%R 0
                          [2; 2; 2; 2; 2; 1; 1; 1; 1; 1]%R 0 5 5
  = ApplyScaleBias (A := R_arith) (repeat 0%R 7) 1 [1; 2; 3; 4; 5]%R 0
                   [2; 2; 2; 2; 2; 1; 1; 1; 1; 1]%R 0 5 5.
Proof.
  apply (@ApplyScaleBias_BFloat16_is_the_lanewise_kernel R R_arith 2). lia.
Defined.

(** X14.  For registers of any width [L > 0] and in every arithmetic, the
    BFloat16 specialisation of [CalcMeanVar], called as the kernel calls it
    with the row of squares right after the row of sums, returns the buffer
    the two lane-wise passes return: [mean[d] = x[d] + mean[d]] and
    [rstd[d] = x[d] * x[d] + rstd[d]] for each [d < C] once, and no other
    element changes, although each block loads its four registers before it
    stores any. *)
Theorem CalcMeanVar_BFloat16_is_the_lanewise_kernel {F : Type} {A : Arith F} (L : nat)
    (X_data : list F) (X_ptr : nat) (buffer : list F) (mean_ptr C : nat) :
  0 < L ->
  let buffer' := CalcMeanVar_BFloat16 L X_data X_ptr buffer mean_ptr (mean_ptr + C) C in
  buffer' = CalcMeanVar X_data X_ptr buffer mean_ptr (mean_ptr + C) C /\
  length buffer' = length buffer /\
  forall k, k < length buffer ->
    load buffer' k
    = if in_block mean_ptr C k
      then load X_data (X_ptr + (k - mean_ptr)) +^ load buffer k
      else if in_block (mean_ptr + C) C k
           then load X_data (X_ptr + (k - (mean_ptr + C)))
                *^ load X_data (X_ptr + (k - (mean_ptr + C))) +^ load buffer k
           else load buffer k.
Proof.
  intros HL buffer'.
  split; [now apply CalcMeanVar_BFloat16_generic|].
  destruct (CalcMeanVar_BFloat16_pointwise L HL X_data X_ptr mean_ptr C buffer) as [Hlen Hload].
  split; [exact Hlen|].
  intros k Hk. unfold buffer'. rewrite (Hload k Hk). unfold mean_var_update.
  now rewrite !Nat.add_0_r, Nat.sub_0_r.
Qed.

(** Five channels in registers of two lanes, in a buffer of two rows. *)
Lemma CalcMeanVar_BFloat16_is_the_lanewise_kernel_witness :
  CalcMeanVar_BFloat16 (A := R_arith) 2 [1; 2; 3; 4; 5]%R 0 (repeat 1%R 10) 0 (0 + 5) 5
  = CalcMeanVar (A := R_arith) [1; 2; 3; 4; 5]%R 0 (repeat 1%R 10) 0 (0 + 5) 5.
Proof.
  apply (@CalcMeanVar_BFloat16_is_the_lanewise_kernel R R_arith 2). lia.
Defined.

Open Scope R_scope.

(** X15.  Over exact arithmetic and for registers of any width [L > 0], the
    BFloat16 specialisation of [ColumnwiseMoments] returns the sum and the
    sum of squares of the [HxW] runs of [D] channels, [C] apart, that start
    at [off]: adding the two decoded halves of each block, and masking the
    remainder with [fVec::set], loses and adds nothing.  It is the pair the
    generic kernel returns for any width [K > 0]. *)
Theorem ColumnwiseMoments_BFloat16_sum_and_sum_of_squares (L K : nat) (X_data : list R)
    (off HxW C D : nat) :
  (0 < L)%nat -> (0 < K)%nat ->
  ColumnwiseMoments_BFloat16 L X_data off HxW C D
  = (Rsum (fun m => Rsum (fun d => load X_data (off + m * C + d)) D) HxW,
     Rsum (fun m => Rsum (fun d => load X_data (off + m * C + d)
                                   * load X_data (off + m * C + d)) D) HxW)
  /\ ColumnwiseMoments_BFloat16 L X_data off HxW C D
     = ColumnwiseMoments K X_data off HxW C D.
Proof.
  intros HL HK. split.
  - now apply ColumnwiseMoments_BFloat16_R.
  - now rewrite (ColumnwiseMoments_BFloat16_R L HL), (ColumnwiseMoments_R K HK).
Qed.

(** Seven channels at two positions: a block of four and a remainder of
    three in registers of two lanes, against generic registers of four. *)
Lemma ColumnwiseMoments_BFloat16_sum_and_sum_of_squares_witness :
  ColumnwiseMoments_BFloat16 (A := R_arith) 2
    [1; 2; 3; 4; 5; 6; 7; 8; 9; 10; 11; 12; 13; 14] 0 2 7 7
  = ColumnwiseMoments (A := R_arith) 4
      [1; 2; 3; 4; 5; 6; 7; 8; 9; 10; 11; 12; 13; 14] 0 2 7 7.
Proof.
  apply (ColumnwiseMoments_BFloat16_sum_and_sum_of_squares 2 4); lia.
Defined.

(** X16.  Over exact arithmetic, for registers of any widths [L > 0] and
    [K] and for every worker pool, the BFloat16 specialisation of
    [ComputeInternalGradients] writes what the generic kernel writes: for
    each (batch, channel) pair [i] the sums of [dY * X] and of [dY] over its
    [HxW] elements. *)
Theorem ComputeInternalGradients_BFloat16_sums (E : Executor) (L K : nat)
    (N C HxW : nat) (dY X ds db : list R) :
  (0 < L)%nat ->
  (forall i,
     InternalGradientsAt_BFloat16 L HxW dY X i
     = (Rsum (fun k => load dY (i * HxW + k) * load X (i * HxW + k)) HxW,
        Rsum (fun k => load dY (i * HxW + k)) HxW)) /\
  ComputeInternalGradients_BFloat16 L E N C HxW dY X ds db
  = ComputeInternalGradients E K N C HxW dY X ds db.
Proof.
  intros HL. split.
  - intros i. now apply InternalGradientsAt_BFloat16_R.
  - unfold ComputeInternalGradients_BFloat16, ComputeInternalGradients.
    apply parallel_for_ext. intros _ x y s. apply irange_ext. intros i st _.
    unfold InternalGradientsBody_BFloat16, InternalGradientsBody.
    now rewrite (InternalGradientsAt_BFloat16_R L HL), InternalGradientsAt_R.
Qed.

(** Two (batch, channel) pairs of five elements, two workers. *)
Lemma ComputeInternalGradients_BFloat16_sums_witness :
  ComputeInternalGradients_BFloat16 (A := R_arith) 2 (round_robin 2) 1 2 5
    [1; 2; 3; 4; 5; 6; 7; 8; 9; 10] [1; 1; 1; 1; 1; 2; 2; 2; 2; 2] [0; 0] [0; 0]
  = ComputeInternalGradients (A := R_arith) (round_robin 2) 4 1 2 5
      [1; 2; 3; 4; 5; 6; 7; 8; 9; 10] [1; 1; 1; 1; 1; 2; 2; 2; 2; 2] [0; 0] [0; 0].
Proof.
  apply (ComputeInternalGradients_BFloat16_sums (round_robin 2) 2 4). lia.
Defined.

Close Scope R_scope.

(** Two constant [BFloat16] groups of one channel at two positions, as impl-1
    reads them in a mixed-type call: with accumulation registers of eight
    lanes the [BFloat16] overload of [ColumnwiseMoments] returns, in the
    arithmetic of that call, the sums the generic kernel returns. *)
Example ColumnwiseMoments_BFloat16_on_constant_groups :
  let X_data := map IEEE.lit [1; 1; 1; 1]%float in
  ColumnwiseMoments_BFloat16 (A := dispatch BFloat16 true) 8 X_data 0 2 2 1
  = ColumnwiseMoments (A := dispatch BFloat16 true) 4 X_data 0 2 2 1 /\
  ColumnwiseMoments_BFloat16 (A := dispatch BFloat16 true) 8 X_data 1 2 2 1
  = ColumnwiseMoments (A := dispatch BFloat16 true) 4 X_data 1 2 2 1.
Proof. cbv zeta. vm_compute. split; reflexivity. Qed.
